(** * zcubes: the supervisor, the phase driver, the per-d dispatcher and the
      d-enumerator of [zcubes.c], embedded in Rocq.

    Unsigned C integers are values of [Z] with the wrap-around written out
    ([u32], [u64]); the collaborators that live in the headers
    ([report.h], [kdata.h], [cbrts.h], [zcheck.h], [m64.h], [b32.h],
    [cstd.h], [primes.h]) are parameters of the functions that call them. *)

From Stdlib Require Import ZArith List Bool Lia String Ascii Zdivisibility Zcong Sorted.
Import ListNotations.
Local Open Scope Z_scope.

(** ** Machine integers *)

Definition u32 (x : Z) : Z := x mod 2 ^ 32.
Definition u64 (x : Z) : Z := x mod 2 ^ 64.

(** ** The supervisor: argument validation of [main] *)

Module Supervisor.

(** What [main] writes to stderr, one constructor per [fprintf]. *)
Inductive message : Type :=
| Usage
| SettingCoresTo1
| WarnCoresExceed
| ErrBadK
| ErrDmaxTooBig
| ErrPmaxForm
| ErrP0TooSmall
| ErrPmaxAboveP0
| ErrProfilingOrOptions
| WarnP0NotPrime
| WarnNoCuberoots
| ErrP0DividesK
| ErrPminPmax
| ErrZmaxTooBig
| WarnIgnoringOption
| ErrP0AboveSqrt
| ErrBoundsOrder
| WarnZminAboveZmax.

(** Which routine a worker runs (line 607). *)
Inductive worker_path : Type :=
| Subprimes (p0 : Z)
| Primes.

(** How the validation part of [main] ends. *)
Inductive outcome : Type :=
| Return (code : Z)           (* [return code] from main *)
| AssertFailed                (* an [assert] aborts the process *)
| ExitAfterPrecompute         (* report_phase(PHASE_PRECOMPUTE) false: exit(0) *)
| ProfileRun                  (* profiling(): process_primes in process *)
| Fork (cores : Z) (path : worker_path) (pmin pmax : Z).

(** The collaborators of [main]: C library, [cstd.h], [report.h],
    [primes.h], [cbrts.h], and the comparisons [main] makes in floating
    point, which are kept as predicates of the integers they compare. *)
Record env : Type := {
  atoi : string -> Z;                    (* C int *)
  strto64 : string -> Z;                 (* uint64_t *)
  strto128 : string -> Z;                (* uint128_t *)
  profiling : bool;
  reporting : bool;
  get_nprocs : Z;
  goodk : Z -> bool;
  DMAX : Z;
  ZMAXBITS : Z;
  ZMAX : Z;
  ui128_len : Z -> Z;
  primes_next_prime : Z -> Z;
  mod3 : Z -> Z;
  has_cuberoots_modp : Z -> Z -> bool;
  (* [x <= sqrt(dmax)] in double arithmetic *)
  le_sqrt : Z -> Z -> bool;
  (* [zmaxld > zmax128] in long double arithmetic (line 572) *)
  zmaxld_above : Z -> bool;
  (* [3.847322101863072639L*dmax > zmaxld] (line 579) *)
  zmin_above_zmax : Z -> Z -> bool;
  report_phase_precompute : bool
}.

Definition arg (argv : list string) (i : nat) : string := nth i argv EmptyString.

(** [strchr(s,'x')]: the offset of the first 'x'. *)
Definition strchr_x (s : string) : option nat := index 0 "x" s.

(** The text of [s] from offset [i] on ([s+i]). *)
Definition from_offset (i : nat) (s : string) : string :=
  substring i (String.length s - i) s.

(** [memcmp(a,b,n) != 0] on NUL-terminated strings: the first [n] bytes
    differ; a string that ends earlier differs at its terminator. *)
Definition memcmp_differs (a b : string) (n : nat) : bool :=
  negb (String.eqb (substring 0 n a) (substring 0 n b)
        && (Nat.leb n (String.length a) && Nat.leb n (String.length b)
            || Nat.eqb (String.length a) (String.length b))).

Definition zmaxld_of (zmax128 : Z) : Z := zmax128 + Z.shiftr zmax128 62 + 1.

(** The bounds read from the command line, lines 548-560. *)
Record bounds : Type := { b_p0 : Z; b_pmin : Z; b_pmax : Z }.

Definition parse_bounds (E : env) (argv : list string) (argc cores : Z)
  : list message * (bounds + Z) :=
  match strchr_x (arg argv 3) with
  | Some s =>
      if memcmp_differs (arg argv 3) (arg argv 4) (S s) then ([ErrPmaxForm], inr (-1))
      else
        let p0 := u32 (atoi E (substring 0 s (arg argv 3))) in
        if p0 <? 2 then ([ErrP0TooSmall], inr (-1))
        else
          let pmin := u64 (atoi E (from_offset (S s) (arg argv 3))) in
          let pmax := u64 (atoi E (from_offset (S s) (arg argv 4))) in
          if pmax >? p0 then ([ErrPmaxAboveP0], inr (-1))
          else if profiling E || ((argc >? 7) && negb (atoi E (arg argv 7) =? 0))
          then ([ErrProfilingOrOptions], inr (-1))
          else ([], inl {| b_p0 := p0; b_pmin := pmin; b_pmax := pmax |})
  | None =>
      let pmin := strto64 E (arg argv 3) in
      let pmax := strto64 E (arg argv 4) in
      if (cores >? 1) && (pmin =? pmax) && le_sqrt E pmax (strto64 E (arg argv 5))
      then ([], inl {| b_p0 := u32 pmin; b_pmin := 2; b_pmax := pmax |})
      else ([], inl {| b_p0 := 1; b_pmin := pmin; b_pmax := pmax |})
  end.

(** Lines 561-640 up to the fork, after the bounds are parsed. *)
Definition check_bounds (E : env) (argv : list string) (argc cores k dmax : Z)
  (b : bounds) : list message * outcome :=
  let p0 := b_p0 b in
  let w1 := if (p0 >? 1) && negb (primes_next_prime E (p0 - 1) =? p0)
            then [WarnP0NotPrime] else [] in
  let w2 := if (p0 >? 1) && (mod3 E p0 =? 1) && negb (has_cuberoots_modp E k p0)
            then [WarnNoCuberoots] else [] in
  if (p0 >? 1) && (k mod p0 =? 0) then (w1 ++ w2 ++ [ErrP0DividesK], Return (-1))
  else
    let pmin := if b_pmin b <? 2 then 2 else b_pmin b in
    let pmax := b_pmax b in
    if pmax <? pmin then (w1 ++ w2 ++ [ErrPminPmax], Return (-1))
    else
      let zmax128 := strto128 E (arg argv 6) in
      if ui128_len E zmax128 >? ZMAXBITS E then (w1 ++ w2 ++ [ErrZmaxTooBig], Return (-1))
      else if negb (zmax128 <? ZMAX E) then (w1 ++ w2, AssertFailed)
      else if negb (zmaxld_above E zmax128) then (w1 ++ w2, AssertFailed)
      else
        let opts := if reporting E then (if argc >? 7 then atoi E (arg argv 7) else 0) else 0 in
        let w3 := if negb (reporting E) && (argc >? 7) then [WarnIgnoringOption] else [] in
        if negb (le_sqrt E p0 dmax) then (w1 ++ w2 ++ w3 ++ [ErrP0AboveSqrt], Return (-1))
        else if (pmax <? pmin) || (dmax <? u64 (p0 * pmax)) || (zmax128 <? dmax)
        then (w1 ++ w2 ++ w3 ++ [ErrBoundsOrder], Return (-1))
        else
          let w4 := if zmin_above_zmax E dmax zmax128 then [WarnZminAboveZmax] else [] in
          if zmin_above_zmax E dmax zmax128 && (opts =? 0)
          then (w1 ++ w2 ++ w3 ++ w4, Return (-1))
          else if negb (report_phase_precompute E)
          then (w1 ++ w2 ++ w3 ++ w4, ExitAfterPrecompute)
          else if profiling E then (w1 ++ w2 ++ w3 ++ w4, ProfileRun)
          else (w1 ++ w2 ++ w3 ++ w4,
                Fork cores (if p0 >? 1 then Subprimes p0 else Primes) pmin pmax).

(** [main], from its entry to the point where the workers are forked. *)
Definition main (E : env) (argv : list string) : list message * outcome :=
  let argc := Z.of_nat (List.length argv) in
  if argc <? 7 then ([Usage], Return 0)
  else
    let cores0 := atoi E (arg argv 1) in
    if cores0 <? 0 then ([], AssertFailed)
    else
      let m1 := if profiling E && negb (cores0 =? 1) then [SettingCoresTo1] else [] in
      let cores1 := if profiling E && negb (cores0 =? 1) then 1 else cores0 in
      let n := get_nprocs E in
      let cores := if cores1 =? 0 then n else cores1 in
      let m2 := if negb (cores1 =? 0) && (cores1 >? n) then [WarnCoresExceed] else [] in
      let k := atoi E (arg argv 2) in
      if (k <? 0) || negb (goodk E k) then (m1 ++ m2 ++ [ErrBadK], Return (-1))
      else
        let dmax := strto64 E (arg argv 5) in
        if dmax >? DMAX E then (m1 ++ m2 ++ [ErrDmaxTooBig], Return (-1))
        else
          match parse_bounds E argv argc cores with
          | (m3, inr code) => (m1 ++ m2 ++ m3, Return code)
          | (m3, inl b) =>
              let (m4, o) := check_bounds E argv argc cores k dmax b in
              (m1 ++ m2 ++ m3 ++ m4, o)
          end.

(** A concrete environment, used to run [main] on command lines. *)

Definition digit_of (c : ascii) : option Z :=
  let n := Z.of_nat (nat_of_ascii c) in
  if (48 <=? n) && (n <=? 57) then Some (n - 48) else None.

Fixpoint parse_digits (acc : Z) (s : string) : Z :=
  match s with
  | EmptyString => acc
  | String c rest =>
      match digit_of c with
      | Some d => parse_digits (10 * acc + d) rest
      | None => acc
      end
  end.

(** Decimal numerals with an optional sign, as [atoi] reads them. *)
Definition parse_int (s : string) : Z :=
  match s with
  | String "-" rest => - parse_digits 0 rest
  | String "+" rest => parse_digits 0 rest
  | _ => parse_digits 0 s
  end.

Definition is_prime_b (p : Z) : bool :=
  (2 <=? p) && forallb (fun d => negb (p mod d =? 0)) (map Z.of_nat (seq 2 (Z.to_nat p - 2))).

Fixpoint next_prime_from (fuel : nat) (n : Z) : Z :=
  match fuel with
  | O => n
  | S f => if is_prime_b n then n else next_prime_from f (n + 1)
  end.

Definition has_root_b (k p : Z) : bool :=
  existsb (fun x => (x * x * x) mod p =? k mod p) (map Z.of_nat (seq 0 (Z.to_nat p))).

Definition test_env (nprocs : Z) : env := {|
  atoi := parse_int;
  strto64 := fun s => u64 (parse_digits 0 s);
  strto128 := fun s => parse_digits 0 s mod 2 ^ 128;
  profiling := false;
  reporting := false;
  get_nprocs := nprocs;
  goodk := fun k => (1 <=? k) && (k <=? 1000) && ((k mod 9 =? 3) || (k mod 9 =? 6));
  DMAX := 2 ^ 63 - 1;
  ZMAXBITS := 99;
  ZMAX := 2 ^ 99;
  ui128_len := fun z => if z =? 0 then 0 else Z.log2 z + 1;
  primes_next_prime := fun n => next_prime_from (Z.to_nat n + 2) (n + 1);
  mod3 := fun n => n mod 3;
  has_cuberoots_modp := has_root_b;
  le_sqrt := fun x d => x * x <=? d;
  zmaxld_above := fun z => zmaxld_of z >? z;
  zmin_above_zmax := fun d z => 3847322101863072639 * d >? 1000000000000000000 * zmaxld_of z;
  report_phase_precompute := true
|}.

End Supervisor.

(** ** Derived thresholds: [precompute], lines 291-292 *)

Module Precompute.

(** [pdmin] as [precompute] leaves it.  [k] is a [uint32_t], [dmax] and
    [pdmin] are [uint64_t]; [kdmin] ([kdata.h]) and [cptab[1]] ([cbrts.h])
    are read from the tables built just before.  A zero divisor traps. *)
Definition precompute_pdmin (k dmax kdmin cptab1 : Z) : option Z :=
  let m := if kdmin =? 0 then cptab1 else Z.min kdmin cptab1 in
  if m =? 0 then None
  else
    let pdmin := u64 (1 + dmax / m) in
    Some (if pdmin <=? k then u64 (u32 (k + 1)) else pdmin).

End Precompute.

(** ** The worker: what it calls and what it reads *)

Module Worker.

Inductive phase : Type :=
| PHASE_PRECOMPUTE
| PHASE_CACHED
| PHASE_UNCACHED
| PHASE_COCACHED
| PHASE_NEARPRIME
| PHASE_PRIME
| PHASE_BIGPRIME.

(** Modelled from the spec: the numeric phase ids of [report.h] are not in
    the source; the spec lists the state machine PHASE_CACHED ->
    PHASE_UNCACHED -> PHASE_COCACHED -> PHASE_NEARPRIME -> PHASE_PRIME ->
    PHASE_BIGPRIME after PHASE_PRECOMPUTE, and the ids follow that order. *)
Definition phase_id (ph : phase) : Z :=
  match ph with
  | PHASE_PRECOMPUTE => 0
  | PHASE_CACHED => 1
  | PHASE_UNCACHED => 2
  | PHASE_COCACHED => 3
  | PHASE_NEARPRIME => 4
  | PHASE_PRIME => 5
  | PHASE_BIGPRIME => 6
  end.

(** The calls a worker makes that the claims speak about: the reporter
    ([report.h]), the z-checker ([zcheck.h]), and the entries of the
    dispatcher functions of [zcubes.c] itself. *)
Inductive call : Type :=
| report_p (p : Z)
| report_c (n : Z)
| report_d (d n : Z)
| report_phase (ph : phase)
| profile_checkpoint
| zrcheckone (d si a : Z) (za : list Z) (ca b : Z) (zb : list Z) (cb ainvb binv : Z)
| zrcheckafew (d si a : Z) (za : list Z) (ca b : Z) (zb : list Z) (cb ainvb binv n : Z)
| zrchecklift (d si ki a : Z) (za : list Z) (ca : Z)
| enter_prockd (d : Z) (zd : list Z) (n : Z)
| enter_procd (ki a : Z) (za : list Z) (ca : Z)
| enter_procdcoprime (d : Z) (z : list Z) (c : Z)
| enter_procdbigprime (d : Z) (z : list Z) (c si mi l : Z).

(** [struct] types of [kdata.h] and [cbrts.h], with the fields [zcubes.c]
    reads; arrays are functions of the index. *)
Record kdrec : Type := { kd_d : Z; kd_n : Z; kd_fi : Z }.
Record k27frec : Type := {
  f_m : Z; f_minv : Z -> Z; f_ztab : Z -> Z; f_zcnts : Z -> Z; f_itab : Z -> Z }.
Record cdrec : Type := { cd_d : Z; cd_p : Z; cd_n : Z; cd_r : Z; cd_sdpi : Z }.
Record sdrec : Type := { sd_d : Z; sd_dinv : Z; sd_i : Z; sd_r : Z; sd_n : Z }.

(** Everything a worker reads and does not define: the globals [main] and
    [precompute] set, and the tables, constants and helpers of the headers. *)
Record tables : Type := {
  (* globals of zcubes.c *)
  K : Z;
  dmax : Z;
  pdmin : Z;
  bpmin : Z;
  zmax128 : Z;
  zmaxld : Z;          (* the integer zmax128 + (zmax128>>62) + 1 of line 571 *)
  (* zcheck.h *)
  ZSHORT : Z;
  ZFEW : Z;
  (* cstd.h: [fastceilboundl(x/y)] for the long doubles of the integers x, y *)
  fastceilboundl_div : Z -> Z -> Z;
  mod7 : Z -> Z;
  (* [x > sqrt(dmax)] in double arithmetic, line 425 *)
  above_sqrt_dmax : Z -> bool;
  (* kdata.h *)
  kdcnt : Z;
  kdtab : Z -> kdrec;
  kdmax : Z -> Z;
  k27ftab : Z -> k27frec;
  k27zs : Z -> Z;
  km1 : Z;
  km : Z -> Z;
  kminv : Z -> Z;
  kmitab : Z -> Z -> Z;
  kmztab : Z -> Z -> Z;
  sgnz_index : Z -> Z;
  onezmod7 : Z -> Z -> bool;
  (* b32.h *)
  b32_red : Z -> Z -> Z -> Z;
  crt7 : Z -> Z -> Z -> Z;
  inv7 : Z -> Z;
  b32_crt64 : Z -> Z -> Z -> Z -> Z -> Z -> Z;
  (* m64.h: [m64_inv_mod x d] is m64_to_ui of the entry m64_inv_array
     leaves for m64_from_ui_R2(x), the inverse of x modulo d *)
  m64_inv_mod : Z -> Z -> Z;
  fcrt64 : Z -> Z -> Z -> Z -> Z;
  (* cbrts.h *)
  cpmax : Z;
  cdmin : Z;
  sdmin : Z;
  sdmax : Z;
  cpcnt : Z;
  sdcnt : Z;
  cptab : Z -> Z;
  pimaxp : Z -> Z -> Z -> Z;
  cached_cuberoots_e : Z -> Z;
  cached_cuberoots_modq : Z -> Z -> list Z;
  cuberoots_modq : Z -> Z -> Z -> list Z;
  cuberoots_modp : Z -> Z -> list Z;
  cdentry : Z -> Z -> Z -> option nat;
  cdtab : nat -> cdrec;
  cdroots : Z -> Z;
  sdtab : Z -> sdrec;
  sdroots : Z -> Z;
  sdinvs : Z -> Z;
  (* report.h: what a report_* call returns after the calls made so far,
     most recent first *)
  answer : list call -> call -> bool
}.

Definition IBATCH : Z := 256.

Definition u16 (x : Z) : Z := x mod 2 ^ 16.

(** The entries [f 0 .. f (n-1)] of an array. *)
Definition entries (n : Z) (f : Z -> Z) : list Z :=
  map (fun i => f (Z.of_nat i)) (seq 0 (Z.to_nat n)).

Definition count {A : Type} (l : list A) : Z := Z.of_nat (List.length l).

(** *** Runs of a worker

    A computation takes the calls made so far (most recent first) and
    returns them extended, with a value or the reason why the run stopped. *)
Inductive stop : Type :=
| AssertionFailed      (* an [assert] of the source fails *)
| Diverged             (* the loop does not end *)
| Unspecified.         (* a read outside a table, or Montgomery data reset to 0 *)

Inductive result (A : Type) : Type :=
| Ok (a : A)
| Stop (s : stop).
Arguments Ok {A} a.
Arguments Stop {A} s.

Definition M (A : Type) : Type := list call -> result A * list call.

Definition ret {A : Type} (a : A) : M A := fun h => (Ok a, h).

Definition bind {A B : Type} (m : M A) (f : A -> M B) : M B :=
  fun h => match m h with
           | (Ok a, h') => f a h'
           | (Stop s, h') => (Stop s, h')
           end.

Definition halt {A : Type} (s : stop) : M A := fun h => (Stop s, h).

Definition emit (c : call) : M unit := fun h => (Ok tt, c :: h).

Notation "x <- m ;; k" := (bind m (fun x => k))
  (at level 61, m at next level, right associativity).
Notation "m ;;; k" := (bind m (fun _ => k))
  (at level 61, right associativity).

(** Run [f] on the elements of a list, as a [for] loop does. *)
Fixpoint for_each {A : Type} (l : list A) (f : A -> M unit) : M unit :=
  match l with
  | [] => ret tt
  | a :: l' => f a ;;; for_each l' f
  end.

(** *** The per-d dispatcher, lines 82-189 *)

Section Dispatcher.
Variable T : tables.

(** A call of the reporter that returns a flag. *)
Definition ask (c : call) : M bool := fun h => (Ok (answer T h c), c :: h).

(** [procd]: d is given by its part [a] coprime to k and the index [ki] of
    an admissible divisor of k; [za] are the [ca] cube roots modulo [a]. *)
Definition procd (ki a : Z) (za : list Z) (ca : Z) : M unit :=
  emit (enter_procd ki a za ca) ;;;
  let d := u64 (a * kd_d (kdtab T ki)) in
  ok <- ask (report_d d (ca * kd_n (kdtab T ki))) ;;
  if negb ok then ret tt
  else
    let si := sgnz_index T d in
    let mi := kd_fi (kdtab T ki) in
    let m := f_m (k27ftab T mi) in
    let b7 := if onezmod7 T d si then 7 else 1 in
    let b2 := 1 + Z.land (Z.land m 1) d in
    let b := u32 (m * b2 * b7) in
    let n := u64 (fastceilboundl_div T (zmaxld T) (a * b)) in
    (if (n <=? ZSHORT T) || (u64 (n * ca) <=? ZFEW T) then
       let x := k27ftab T mi in
       let minv := f_minv x 0 in
       let dm := u16 (b32_red T d m minv) in
       let cb := f_zcnts x dm in
       let zb0 := entries cb (fun i => k27zs T (f_ztab x dm + i)) in
       let ainvb0 := f_itab x (b32_red T a m minv) in
       let zb1 := if b2 >? 1
                  then map (fun z => if Z.land z 1 =? 0 then z else u32 (z + m)) zb0
                  else zb0 in
       let ainvb1 := if (b2 >? 1) && (Z.land ainvb0 1 =? 0) then u32 (ainvb0 + m)
                     else ainvb0 in
       let binv := f_minv x (2 * (if b7 >? 1 then 1 else 0) + b2 - 1) in
       let b2m := u32 (b2 * m) in
       let zb2 := if b7 >? 1 then map (fun z => crt7 T z b2m 0) zb1 else zb1 in
       let ainvb2 := if b7 >? 1 then crt7 T ainvb1 b2m (inv7 T a) else ainvb1 in
       if a * b >? zmax128 T
       then emit (zrcheckone d si a za ca b zb2 cb ainvb2 binv)
       else emit (zrcheckafew d si a za ca b zb2 cb ainvb2 binv n)
     else emit (zrchecklift d si ki a za ca)) ;;;
    emit profile_checkpoint.

(** [procdcoprime]: d coprime to k, with its [c] cube roots [z]. *)
Definition procdcoprime (d : Z) (z : list Z) (c : Z) : M unit :=
  emit (enter_procdcoprime d z c) ;;;
  ok <- ask (report_d d c) ;;
  if negb ok then ret tt
  else
    let si := sgnz_index T d in
    let mi := Z.land (Z.land (km1 T) d) 1 + 2 * (if onezmod7 T d si then 1 else 0) in
    let b := km T mi in
    let l := u64 (fastceilboundl_div T (zmaxld T) (d * b)) in
    (if (l <=? ZSHORT T) || (u64 (l * c) <=? ZFEW T) then
       let binv := kminv T mi in
       let db := b32_red T d b binv in
       let zb := [kmztab T mi db] in
       let dinvb := kmitab T mi db in
       if d * b >? zmax128 T
       then emit (zrcheckone d si d z c b zb 1 dinvb binv)
       else emit (zrcheckafew d si d z c b zb 1 dinvb binv l)
     else emit (zrchecklift d si 0 d z c)) ;;;
    emit profile_checkpoint.

(** [procdbigprime]: a large prime d, with l computed by the caller. *)
Definition procdbigprime (d : Z) (z : list Z) (c si mi l : Z) : M unit :=
  emit (enter_procdbigprime d z c si mi l) ;;;
  ok <- ask (report_d d c) ;;
  if negb ok then ret tt
  else
    let binv := kminv T mi in
    let b := km T mi in
    let db := b32_red T d b binv in
    let dinvb := kmitab T mi db in
    let zb := [kmztab T mi db] in
    (if l =? 1
     then emit (zrcheckone d si d z c b zb 1 dinvb binv)
     else emit (zrcheckafew d si d z c b zb 1 dinvb binv l)) ;;;
    emit profile_checkpoint.

(** The loop of [prockd], [for (i = 1; d <= kdmax[i]; i++)]: [kdmax] has
    [kdcnt] entries and one closing entry, a read past them is not modelled. *)
Fixpoint prockd_loop (fuel : nat) (i d : Z) (zd : list Z) (n : Z) : M unit :=
  if d <=? kdmax T i then
    match fuel with
    | O => halt Unspecified
    | S fuel' => procd i d zd n ;;; prockd_loop fuel' (i + 1) d zd n
    end
  else ret tt.

(** [prockd]: d and its multiples by the admissible divisors of k. *)
Definition prockd (d : Z) (zd : list Z) (n : Z) : M unit :=
  emit (enter_prockd d zd n) ;;;
  procdcoprime d zd n ;;;
  prockd_loop (Z.to_nat (kdcnt T)) 1 d zd n.

End Dispatcher.

(** *** The d-enumerator, lines 193-281

    An array of roots and its count are one list; the scratch area [r] that
    receives the lifted roots lies above the roots [zd] it is lifted from
    (the callers pass [r, s-r, s]), so it is the list built at each step. *)

Section Enumerator.
Variable T : tables.

(** Lines 215-220: the roots modulo [a*d] for one batched cofactor. *)
Definition enumcd_item (d : Z) (zd : list Z) (x : cdrec) : M unit :=
  let a := cd_d x in
  let u := u64 (a * m64_inv_mod T a d - 1) in
  let ab := u64 (a * d) in
  let r := flat_map (fun j =>
                       let nza := u64 (a - cdroots T (cd_r x + j)) in
                       map (fun z => fcrt64 T u nza z ab) zd)
                    (entries (cd_n x) (fun j => j)) in
  prockd T ab r (count r).

(** Lines 228-233: a cofactor with cached inverses. *)
Definition enumcd_small (d : Z) (zd : list Z) (x : cdrec) : M unit :=
  let y := sdtab T (cd_sdpi x) in
  let sdinv := sd_dinv y in
  let dinvsd := sdinvs T (sd_i y + b32_red T d (sd_d y) sdinv) in
  let r := flat_map (fun z =>
                       map (fun j => b32_crt64 T z d (sdroots T (sd_r y + j)) (sd_d y)
                                       dinvsd sdinv)
                           (entries (cd_n x) (fun j => j)))
                    zd in
  prockd T (u64 (d * sd_d y)) r (count r).

(** The loop of lines 209-239 from the entry [x] down.  [first] marks the
    entry [cdentry] returned; after it the walk [for (x--; x->p >= p; x--)]
    skips the entries whose largest prime is not below [p].  [queue] holds the
    batched entries [z[0..m)], last first. *)
Fixpoint enumcd_scan (x : nat) (first : bool) (d p : Z) (zd : list Z)
  (queue : list cdrec) : M unit :=
  let e := cdtab T x in
  let next := fun (queue' : list cdrec) =>
    match x with
    | O => halt Unspecified
    | S x' => enumcd_scan x' false d p zd queue'
    end in
  if negb first && (cd_p e >=? p) then next queue
  else if cd_d e =? 0 then for_each (rev queue) (enumcd_item d zd)
  else
    queue1 <- (if count queue =? IBATCH
               then for_each (rev queue) (enumcd_item d zd) ;;; ret []
               else ret queue) ;;
    queue2 <- (if cd_d e <=? sdmax T then enumcd_small d zd e ;;; ret queue1
               else if d <? sdmin T then ret (e :: queue1)
               else halt Unspecified) ;;
    next queue2.

Definition enumcd (d p : Z) (zd : list Z) : M unit :=
  match cdentry T (u64 (p - 1)) d (dmax T) with
  | None => ret tt
  | Some x => enumcd_scan x true d p zd []
  end.

(** Lines 263-269: one queued prime power [a = q^e], [q = cptab[pi]]:
    lift the roots, offer [a*d] to the dispatcher, and enumerate above it. *)
Definition enumd_item (enum_above : Z -> Z -> list Z -> M unit) (d : Z)
  (zd : list Z) (it : Z * Z * Z) : M unit :=
  let '(a, pi, e) := it in
  let u := u64 (a * m64_inv_mod T a d - 1) in
  let ab := u64 (a * d) in
  let qz := cached_cuberoots_modq T pi e in
  let r := flat_map (fun zq =>
                       let nza := u64 (a - zq) in
                       map (fun z => fcrt64 T u nza z ab) zd)
                    qz in
  prockd T ab r (count r) ;;;
  if ab >=? cdmin T then enumcd ab (cptab T pi) r
  else enum_above ab (cptab T pi) r.

(** The loop of lines 258-280; [queue] holds [(qq,qpi,qe)[0..m)], last
    first. *)
Fixpoint enumd_loop (fuel : nat) (item : Z * Z * Z -> M unit) (d pi q e : Z)
  (queue : list (Z * Z * Z)) : M unit :=
  match fuel with
  | O => halt Diverged
  | S fuel' =>
      if pi =? 0 then for_each (rev queue) item
      else
        queue1 <- (if count queue =? IBATCH
                   then for_each (rev queue) item ;;; ret []
                   else ret queue) ;;
        let queue2 := (q, pi, e) :: queue1 in
        let q' := u64 (q * cptab T pi) in
        let e' := u32 (e + 1) in
        if d * q' >? dmax T
        then enumd_loop fuel' item d (u32 (pi - 1)) (cptab T (u32 (pi - 1))) 1 queue2
        else enumd_loop fuel' item d pi q' e' queue2
  end.

(** Enough iterations for the loop: below each of the [pi] primes there are
    fewer than 64 powers. *)
Definition loop_fuel (pi : Z) : nat := (Z.to_nat pi * 64 + 1)%nat.

(** [enumd]; [depth] bounds the recursion. *)
Fixpoint enumd (depth : nat) (d p : Z) (zd : list Z) : M unit :=
  match depth with
  | O => halt Diverged
  | S depth' =>
      if d >=? cdmin T then enumcd d p zd
      else
        let pi := pimaxp T (u64 (p - 1)) d (dmax T) in
        if pi =? 0 then ret tt
        else enumd_loop (loop_fuel pi) (enumd_item (enumd depth') d zd)
               d pi (cptab T pi) 1 []
  end.

(** Each recursive call multiplies d by a prime, so 64 levels are enough. *)
Definition enumd_depth : nat := 64.

End Enumerator.

(** *** The phase driver [process_primes], lines 385-522 *)

Section PhaseDriver.
Variable T : tables.

(** The worker's end of the prime pipe: the primes it will be handed. *)
Record pipe : Type := { pipe_start : Z; pipe_end : Z; pipe_primes : list Z }.

(** [primes_read_pipe] returns 2^64-1 once the pipe is exhausted. *)
Definition END_OF_PIPE : Z := 2 ^ 64 - 1.

(** [for ( ; cond(p) ; p = primes_read_pipe (pipe,jobid) ) body], with the
    loop-carried locals [st]; returns them with the prime that ended the loop
    and what is left in the pipe. *)
Fixpoint phase_loop {L : Type} (cond : Z -> bool) (body : L -> Z -> M L)
  (st : L) (p : Z) (rest : list Z) : M (L * Z * list Z) :=
  if cond p then
    st' <- body st p ;;
    match rest with
    | [] => if cond END_OF_PIPE then halt Diverged else ret (st', END_OF_PIPE, [])
    | p' :: rest' => phase_loop cond body st' p' rest'
    end
  else ret (st, p, rest).

(** [while ( pi <= cpcnt && cptab[pi] < p ) pi++]. *)
Fixpoint scan_cptab (fuel : nat) (pi p : Z) : Z :=
  match fuel with
  | O => pi
  | S fuel' =>
      if (pi <=? cpcnt T) && (cptab T pi <? p) then scan_cptab fuel' (u32 (pi + 1)) p
      else pi
  end.

(** [for ( i=1, q=p ; (uint128_t)q*p <= dmax ; i++, q*= p )]. *)
Fixpoint highest_power (fuel : nat) (p i q : Z) : option (Z * Z) :=
  if q * p <=? dmax T then
    match fuel with
    | O => None
    | S fuel' => highest_power fuel' p (u32 (i + 1)) (u64 (q * p))
    end
  else Some (i, q).

(** The values of [pp] in [for ( uint64_t pp=p ; pp < q ; pp*=p )]. *)
Fixpoint powers_below (fuel : nat) (p pp q : Z) : option (list Z) :=
  if pp <? q then
    match fuel with
    | O => None
    | S fuel' => option_map (cons pp) (powers_below fuel' p (u64 (pp * p)) q)
    end
  else Some [].

Definition cached_body (pi p : Z) : M Z :=
  ok <- ask T (report_p p) ;;
  if negb ok then ret pi
  else
    let pi := scan_cptab (Z.to_nat (cpcnt T + 1 - pi)) pi p in
    if (pi >? cpcnt T) || (cptab T pi >? p) then ret pi
    else
      match highest_power 64 p 1 p with
      | None => halt Diverged
      | Some (i, q) =>
          let z := if cached_cuberoots_e T pi >=? i then cached_cuberoots_modq T pi i
                   else cuberoots_modq T (K T) p i in
          let n := count z in
          if n >? 0 then
            ok <- ask T (report_c n) ;;
            if negb ok then ret pi
            else
              match powers_below 64 p p q with
              | None => halt Diverged
              | Some pps =>
                  for_each pps (fun pp =>
                    let zz := map (fun x => x mod pp) z in
                    prockd T pp zz n ;;; enumd T enumd_depth pp p zz) ;;;
                  prockd T q z n ;;; enumd T enumd_depth q p z ;;; ret pi
              end
          else halt AssertionFailed
      end.

(** The common start of the bodies of phases 2 to 6: report p, compute the
    cube roots of K modulo p, report their number. *)
Definition with_roots {L : Type} (st : L) (p : Z) (k : list Z -> Z -> M L) : M L :=
  ok <- ask T (report_p p) ;;
  if negb ok then ret st
  else
    let z := cuberoots_modp T (K T) p in
    let n := count z in
    if n =? 0 then ret st
    else
      ok <- ask T (report_c n) ;;
      if negb ok then ret st else k z n.

Definition uncached_body (st : unit) (p : Z) : M unit :=
  with_roots st p (fun z n => prockd T p z n ;;; enumd T enumd_depth p p z).

Definition cocached_body (st : unit) (p : Z) : M unit :=
  with_roots st p (fun z n => prockd T p z n ;;; enumcd T p p z).

(** [while ( pimax && (uint128_t)p*sdtab[pimax].d > dmax ) pimax--]. *)
Fixpoint lower_pimax (pimax : nat) (p : Z) : nat :=
  match pimax with
  | O => O
  | S pimax' =>
      if p * sd_d (sdtab T (Z.of_nat pimax)) >? dmax T then lower_pimax pimax' p
      else pimax
  end.

(** [for ( x = sdtab+pimax ; x > sdtab ; x-- )]: the entries pimax .. 1. *)
Definition sd_entries (pimax : nat) : list sdrec :=
  map (fun i => sdtab T (Z.of_nat i)) (rev (seq 1 pimax)).

Definition nearprime_body (pimax : nat) (p : Z) : M nat :=
  with_roots pimax p (fun z n =>
    prockd T p z n ;;;
    let pimax := lower_pimax pimax p in
    for_each (sd_entries pimax) (fun x =>
      let dinv := sd_dinv x in
      let pinvb := sdinvs T (sd_i x + b32_red T p (sd_d x) dinv) in
      let r := flat_map (fun zi =>
                 map (fun j => b32_crt64 T zi p (sdroots T (sd_r x + j)) (sd_d x) pinvb dinv)
                     (entries (sd_n x) (fun j => j))) z in
      prockd T (u64 (p * sd_d x)) r (count r)) ;;;
    ret pimax).

Definition prime_body (st : unit) (p : Z) : M unit :=
  with_roots st p (fun z n => procdcoprime T p z n).

(** [l] and [lpmax] of lines 485-487, for the modulus [m]; [lprev] is the
    length the bound [lpmax] is derived from. *)
Definition length_for (p m : Z) : Z := u32 (fastceilboundl_div T (zmaxld T) (p * m)).

Definition lpmax_for (lprev m pmax : Z) : Z :=
  if u32 (lprev - 1) * m * pmax >? zmax128 T
  then u64 (fastceilboundl_div T (zmaxld T) (m * u32 (lprev - 1)))
  else pmax.

(** Phase 6 when [mod7(K*K) != 4]; the locals are [(l, lpmax)]. *)
Definition bigprime_body (mi m pmax : Z) (st : Z * Z) (p : Z) : M (Z * Z) :=
  with_roots st p (fun z n =>
    let si := sgnz_index T p in
    let '(l, lpmax) := st in
    let '(l, lpmax) := if p >? lpmax
                       then (length_for p m, lpmax_for (length_for p m) m pmax)
                       else (l, lpmax) in
    procdbigprime T p z n si mi l ;;; ret (l, lpmax)).

(** Phase 6 when [mod7(K*K) == 4]; the locals are [(l, lpmax, l7, lpmax7)].
    [lpmax7] is derived from [l], as line 509 has it. *)
Definition bigprime7_body (mi m mi7 m7 pmax : Z) (st : Z * Z * Z * Z) (p : Z)
  : M (Z * Z * Z * Z) :=
  with_roots st p (fun z n =>
    let si := sgnz_index T p in
    let '(l, lpmax, l7, lpmax7) := st in
    if onezmod7 T p si then
      let '(l7, lpmax7) := if p >? lpmax7
                           then (length_for p m7, lpmax_for l m7 pmax)
                           else (l7, lpmax7) in
      procdbigprime T p z n si mi7 l7 ;;; ret (l, lpmax, l7, lpmax7)
    else
      let '(l, lpmax) := if p >? lpmax
                         then (length_for p m, lpmax_for (length_for p m) m pmax)
                         else (l, lpmax) in
      procdbigprime T p z n si mi l ;;; ret (l, lpmax, l7, lpmax7)).

(** The label [done]: [assert (p > pmax)]. *)
Definition done (p pmax : Z) : M unit :=
  if p >? pmax then ret tt else halt AssertionFailed.

Definition phase6 (p pmax : Z) (rest : list Z) : M unit :=
  let mi := Z.land (km1 T) 1 in
  let m := km T mi in
  let l := length_for p m in
  let lpmax := lpmax_for l m pmax in
  r <- (if negb (mod7 T (K T * K T) =? 4) then
          r <- phase_loop (fun p => p <=? pmax) (bigprime_body mi m pmax) (l, lpmax) p rest ;;
          ret (snd (fst r))
        else
          let mi7 := mi + 2 in
          let m7 := km T mi7 in
          let l7 := length_for p m7 in
          let lpmax7 := lpmax_for l m7 pmax in
          r <- phase_loop (fun p => p <=? pmax) (bigprime7_body mi m mi7 m7 pmax)
                 (l, lpmax, l7, lpmax7) p rest ;;
          ret (snd (fst r))) ;;
  _ <- ask T (report_phase PHASE_BIGPRIME) ;;
  done r pmax.

Definition phase5 (p pmax : Z) (rest : list Z) : M unit :=
  r <- phase_loop (fun p => (p <? bpmin T) && (p <=? pmax)) prime_body tt p rest ;;
  let '(_, p, rest) := r in
  _ <- ask T (report_phase PHASE_PRIME) ;;
  if p >? pmax then done p pmax else phase6 p pmax rest.

Definition phase4 (p pmax : Z) (rest : list Z) : M unit :=
  r <- phase_loop (fun p => (p <? pdmin T) && (p <=? pmax)) nearprime_body
         (Z.to_nat (sdcnt T)) p rest ;;
  let '(_, p, rest) := r in
  _ <- ask T (report_phase PHASE_NEARPRIME) ;;
  if p >? pmax then done p pmax else phase5 p pmax rest.

Definition phase3 (p pmax : Z) (rest : list Z) : M unit :=
  r <- phase_loop (fun p => (p <? sdmin T) && (p <=? pmax)) cocached_body tt p rest ;;
  let '(_, p, rest) := r in
  _ <- ask T (report_phase PHASE_COCACHED) ;;
  if p >? pmax then done p pmax else phase4 p pmax rest.

Definition phase2 (p pmax : Z) (rest : list Z) : M unit :=
  r <- phase_loop (fun p => (p <? cdmin T) && (p <=? pmax)) uncached_body tt p rest ;;
  let '(_, p, rest) := r in
  _ <- ask T (report_phase PHASE_UNCACHED) ;;
  if p >? pmax then done p pmax else phase3 p pmax rest.

Definition read_pipe (primes : list Z) : Z * list Z :=
  match primes with
  | [] => (END_OF_PIPE, [])
  | p :: rest => (p, rest)
  end.

Definition process_primes (pp : pipe) : M unit :=
  let pmax := pipe_end pp in
  let '(p, rest) := read_pipe (pipe_primes pp) in
  if p >? pmax then ret tt
  else
    r <- (if p <=? cpmax T then
            let pi := pimaxp T (pipe_start pp) 1 (dmax T) in
            r <- phase_loop (fun p => (p <=? cpmax T) && (p <=? pmax)) cached_body pi p rest ;;
            ret (snd (fst r), snd r)
          else ret (p, rest)) ;;
    let '(p, rest) := r in
    ok <- ask T (report_phase PHASE_CACHED) ;;
    if negb ok then done p pmax
    else if p >? pmax then done p pmax
    else if negb (above_sqrt_dmax T p) then halt AssertionFailed
    else if negb (u64 (3 * p) >? K T) then halt AssertionFailed
    else phase2 p pmax rest.

End PhaseDriver.

End Worker.

(** ** A small instance of the tables

    The contents of the headers' tables for small bounds, computed by
    exhaustive search, to run the worker on concrete inputs. *)

Module Toy.
Import Worker.

Definition range (lo n : Z) : list Z := map Z.of_nat (seq (Z.to_nat lo) (Z.to_nat n)).

Definition is_prime (p : Z) : bool :=
  (2 <=? p) && forallb (fun d => negb (p mod d =? 0)) (range 2 (p - 2)).

(** The cube roots of k modulo d, in increasing order. *)
Definition roots (k d : Z) : list Z :=
  filter (fun x => (x * x * x) mod d =? k mod d) (range 0 d).

(** The inverse of x modulo d (0 when there is none). *)
Definition inverse (x d : Z) : Z :=
  match filter (fun y => (x * y) mod d =? 1 mod d) (range 0 d) with
  | y :: _ => y
  | [] => 0
  end.

(** Primes not dividing k modulo which k is a cube, up to [bound]. *)
Definition good_primes (k bound : Z) : list Z :=
  filter (fun p => is_prime p && negb (k mod p =? 0) && negb (List.length (roots k p) =? 0)%nat)
         (range 2 (bound - 1)).

Definition largest_prime_factor (d : Z) : Z :=
  fold_left (fun acc p => if is_prime p && (d mod p =? 0) then p else acc) (range 2 (d - 1)) 0.

(** The products of powers of good primes: each prime factor is good. *)
Definition good_cofactor (k d : Z) : bool :=
  (2 <=? d) &&
  forallb (fun p => negb (is_prime p && (d mod p =? 0))
                    || (negb (k mod p =? 0) && negb (List.length (roots k p) =? 0)%nat))
          (range 2 (d - 1)).

Definition good_cofactors (k bound : Z) : list Z :=
  filter (good_cofactor k) (range 2 (bound - 1)).

Definition nthZ (l : list Z) (i : Z) : Z := nth (Z.to_nat i) l 0.

(** The largest index pi >= 1 with cptab[pi] <= p and d*cptab[pi] <= dmax. *)
Definition pimaxp_of (primes : list Z) (p d dmax : Z) : Z :=
  Z.of_nat (List.length (filter (fun q => (q <=? p) && (d * q <=? dmax)) primes)).

Definition index_of (l : list Z) (x : Z) : Z :=
  Z.of_nat (List.length (filter (fun y => y <? x) l)) + 1.

Record bounds : Type := {
  t_k : Z; t_dmax : Z; t_zmax : Z; t_cpmax : Z; t_cdmin : Z; t_sdmin : Z;
  t_pdmin : Z; t_bpmin : Z; t_kdivs : list Z
}.

Definition toy (B : bounds) (reporter : list call -> call -> bool) : tables :=
  let k := t_k B in
  let primes := good_primes k (t_cpmax B) in
  let cds := good_cofactors k (t_dmax B / t_cdmin B) in
  let sdmax := t_dmax B / t_sdmin B in
  let sds := good_cofactors k sdmax in
  let big := 2 ^ 32 in
  {|
    K := k;
    dmax := t_dmax B;
    pdmin := t_pdmin B;
    bpmin := t_bpmin B;
    zmax128 := t_zmax B;
    zmaxld := t_zmax B + Z.shiftr (t_zmax B) 62 + 1;
    ZSHORT := 4;
    ZFEW := 16;
    fastceilboundl_div := fun x y => (x + y - 1) / y;
    mod7 := fun x => x mod 7;
    above_sqrt_dmax := fun x => x * x >? t_dmax B;
    kdcnt := Z.of_nat (List.length (t_kdivs B));
    kdtab := fun i => if i =? 0 then {| kd_d := 1; kd_n := 1; kd_fi := 0 |}
                      else {| kd_d := nthZ (t_kdivs B) (i - 1); kd_n := 1; kd_fi := 1 |};
    kdmax := fun i => if (1 <=? i) && (i <=? Z.of_nat (List.length (t_kdivs B)))
                      then t_dmax B / nthZ (t_kdivs B) (i - 1) else 0;
    k27ftab := fun mi => {| f_m := if k mod 2 =? 0 then 18 else 9;
                            f_minv := fun _ => 0; f_ztab := fun dm => dm;
                            f_zcnts := fun _ => 1; f_itab := fun x => inverse x 9 |};
    k27zs := fun i => i;
    km1 := if k mod 2 =? 0 then 18 else 9;
    km := fun mi => if mi <? 2 then (if k mod 2 =? 0 then 18 else 9 * (1 + mi))
                    else 126;
    kminv := fun _ => 0;
    kmitab := fun mi db => inverse db (if mi <? 2 then 18 else 126);
    kmztab := fun mi db => db;
    sgnz_index := fun _ => 0;
    onezmod7 := fun _ _ => false;
    b32_red := fun x m _ => x mod m;
    crt7 := fun z m r => z + m * (((r - z) * inverse m 7) mod 7);
    inv7 := fun a => inverse a 7;
    b32_crt64 := fun z p zs d pinvd _ => z + p * (((zs - z) * pinvd) mod d);
    m64_inv_mod := inverse;
    fcrt64 := fun u nza z ab => (z + u * (z + nza)) mod ab;
    cpmax := t_cpmax B;
    cdmin := t_cdmin B;
    sdmin := t_sdmin B;
    sdmax := sdmax;
    cpcnt := Z.of_nat (List.length primes);
    sdcnt := Z.of_nat (List.length sds);
    cptab := fun i => if i =? 0 then 0 else nthZ primes (i - 1);
    pimaxp := pimaxp_of primes;
    cached_cuberoots_e := fun _ => 64;
    cached_cuberoots_modq := fun pi e => roots k (nthZ primes (pi - 1) ^ e);
    cuberoots_modq := fun k p i => roots k (p ^ i);
    cuberoots_modp := fun k p => roots k p;
    cdentry := fun p d dmax =>
      match List.length (filter (fun c => (d * c <=? dmax)) cds) with
      | O => None
      | n =>
          match filter (fun i => largest_prime_factor (nthZ cds (i - 1)) <=? p)
                       (rev (range 1 (Z.of_nat n))) with
          | i :: _ => Some (Z.to_nat i)
          | [] => None
          end
      end;
    cdtab := fun x =>
      match x with
      | O => {| cd_d := 0; cd_p := 0; cd_n := 0; cd_r := 0; cd_sdpi := 0 |}
      | S i => let c := nth i cds 0 in
               {| cd_d := c; cd_p := largest_prime_factor c;
                  cd_n := Z.of_nat (List.length (roots k c)); cd_r := c * big;
                  cd_sdpi := index_of sds c |}
      end;
    cdroots := fun i => nthZ (roots k (i / big)) (i mod big);
    sdtab := fun i => if i =? 0 then {| sd_d := 0; sd_dinv := 0; sd_i := 0; sd_r := 0; sd_n := 0 |}
                      else let c := nthZ sds (i - 1) in
                           {| sd_d := c; sd_dinv := 0; sd_i := c * big; sd_r := c * big;
                              sd_n := Z.of_nat (List.length (roots k c)) |};
    sdroots := fun i => nthZ (roots k (i / big)) (i mod big);
    sdinvs := fun i => inverse (i mod big) (i / big);
    answer := reporter
  |}.

(** The events of a run, oldest first. *)
Definition trace {A : Type} (m : M A) : list call := rev (snd (m [])).

Definition offered (t : list call) : list (Z * list Z) :=
  flat_map (fun c => match c with enter_prockd d zd _ => [(d, zd)] | _ => [] end) t.

Definition dispatched (t : list call) : list Z :=
  flat_map (fun c => match c with
                     | enter_procd ki a _ _ => [a * (if ki =? 0 then 1 else 1000 + ki)]
                     | enter_procdcoprime d _ _ => [d]
                     | enter_procdbigprime d _ _ _ _ _ => [d]
                     | _ => []
                     end) t.

(** k = 3 with zmax = 90 = 5 * 18. *)
Definition tight_bounds : bounds := {|
  t_k := 3; t_dmax := 20; t_zmax := 90; t_cpmax := 5; t_cdmin := 21;
  t_sdmin := 21; t_pdmin := 11; t_bpmin := 12; t_kdivs := [3] |}.

(** k = 3 up to dmax = 100 with the cached primes 2 and 5 and no cached
    cofactors: [enumd] does all the enumeration. *)
Definition loop_bounds : bounds := {|
  t_k := 3; t_dmax := 100; t_zmax := 1000; t_cpmax := 10; t_cdmin := 101;
  t_sdmin := 101; t_pdmin := 51; t_bpmin := 60; t_kdivs := [3] |}.

(** k = 3 up to dmax = 100: cached primes up to 10, cofactors cached for
    d >= 20, with inverses for d >= 34, d prime from 51 on. *)
Definition small_bounds : bounds := {|
  t_k := 3; t_dmax := 100; t_zmax := 1000; t_cpmax := 10; t_cdmin := 20;
  t_sdmin := 34; t_pdmin := 51; t_bpmin := 60; t_kdivs := [3] |}.

Definition accept_all (h : list call) (c : call) : bool := true.

(** A reporter that answers false at the boundary after the uncached phase. *)
Definition refuse_uncached (h : list call) (c : call) : bool :=
  match c with
  | report_phase PHASE_UNCACHED => false
  | _ => true
  end.

Definition small_pipe : pipe := {| pipe_start := 11; pipe_end := 30; pipe_primes := [11; 23] |}.

(** A reporter that lets no prime through. *)
Definition refuse_primes (h : list call) (c : call) : bool :=
  match c with
  | report_p _ => false
  | _ => true
  end.

(** The pipe of a single worker for pmin = 2 and pmax = 100, and for
    pmin = pmax = 11. *)
Definition primes_to_100 : pipe :=
  {| pipe_start := 2; pipe_end := 100;
     pipe_primes := [2; 3; 5; 7; 11; 13; 17; 19; 23; 29; 31; 37; 41; 43; 47; 53; 59; 61;
                     67; 71; 73; 79; 83; 89; 97] |}.

Definition only_11 : pipe := {| pipe_start := 11; pipe_end := 11; pipe_primes := [11] |}.

(** The primes, phases and moduli d reported in a run. *)
Definition outline (t : list call) : list call :=
  filter (fun c => match c with
                   | report_p _ | report_phase _ | report_d _ _ => true
                   | _ => false
                   end) t.

End Toy.

(** ** Notions used to state the properties *)

Module Spec.
Import Worker.

(** The ceiling of x/y for 0 < y. *)
Definition ceil_div (x y : Z) : Z := (x + y - 1) / y.

(** The fudged bound of line 571. *)
Definition fudged (zmax : Z) : Z := zmax + Z.shiftr zmax 62 + 1.

(** Which z-check a call is, with the modulus d, its part a coprime to k,
    the residue modulus b and the progression length it is given. *)
Inductive zcheck : Type :=
| CheckOne (d a b : Z)
| CheckAFew (d a b n : Z)
| CheckLift (d ki a : Z).

Definition zchecks (t : list call) : list zcheck :=
  flat_map (fun c => match c with
                     | zrcheckone d _ a _ _ b _ _ _ _ => [CheckOne d a b]
                     | zrcheckafew d _ a _ _ b _ _ _ _ n => [CheckAFew d a b n]
                     | zrchecklift d _ ki a _ _ => [CheckLift d ki a]
                     | _ => []
                     end) t.

Section Dispatch.
Variable T : tables.

(** d, the residue modulus b and the length n as [procd] computes them
    (lines 92-103). *)
Definition procd_d (ki a : Z) : Z := u64 (a * kd_d (kdtab T ki)).

Definition procd_b (ki a : Z) : Z :=
  let d := procd_d ki a in
  let si := sgnz_index T d in
  let m := f_m (k27ftab T (kd_fi (kdtab T ki))) in
  let b7 := if onezmod7 T d si then 7 else 1 in
  let b2 := 1 + Z.land (Z.land m 1) d in
  u32 (m * b2 * b7).

Definition procd_n (ki a : Z) : Z :=
  u64 (fastceilboundl_div T (zmaxld T) (a * procd_b ki a)).

(** b and l as [procdcoprime] computes them (lines 144-150). *)
Definition coprime_b (d : Z) : Z :=
  km T (Z.land (Z.land (km1 T) d) 1 + 2 * (if onezmod7 T d (sgnz_index T d) then 1 else 0)).

Definition coprime_l (d : Z) : Z :=
  u64 (fastceilboundl_div T (zmaxld T) (d * coprime_b d)).

(** The test of lines 104 and 151. *)
Definition short_or_few (l c : Z) : Prop := l <= ZSHORT T \/ u64 (l * c) <= ZFEW T.

(** [fastceilboundl] and the long double division taken as exact. *)
Definition exact_ceiling : Prop :=
  forall x y, 0 < y -> fastceilboundl_div T x y = ceil_div x y.

End Dispatch.

Section Enumeration.
Variable T : tables.

(** The entries [(qq,qpi,qe)] the loop of [enumd] records from the state
    [(pi,q,e)] on, in the order it records them; [None] when [fuel]
    iterations are not enough. *)
Fixpoint enumd_items (fuel : nat) (d pi q e : Z) : option (list (Z * Z * Z)) :=
  match fuel with
  | O => None
  | S fuel' =>
      if pi =? 0 then Some []
      else
        let q' := u64 (q * cptab T pi) in
        let e' := u32 (e + 1) in
        option_map (cons (q, pi, e))
          (if d * q' >? dmax T
           then enumd_items fuel' d (u32 (pi - 1)) (cptab T (u32 (pi - 1))) 1
           else enumd_items fuel' d pi q' e')
  end.

(** What [zcubes.c] relies on about the table of cached primes and
    [pimaxp] ([cbrts.h]): [cptab[1..cpcnt]] are primes in increasing order,
    and [pimaxp(p,d,dmax)] is the largest index of a prime q <= p with
    d*q <= dmax, 0 when there is none (the softassert of line 274). *)
Record cptab_ok : Prop := {
  dmax_range : 0 <= dmax T < 2 ^ 63;
  cpcnt_range : 0 <= cpcnt T < 2 ^ 32;
  cptab_prime : forall i, 1 <= i <= cpcnt T -> Z.prime (cptab T i);
  cptab_increasing : forall i j, 1 <= i -> i < j -> j <= cpcnt T -> cptab T i < cptab T j;
  pimaxp_range : forall p d, 0 <= pimaxp T p d (dmax T) <= cpcnt T;
  pimaxp_fits : forall p d, 1 <= d -> pimaxp T p d (dmax T) <> 0 ->
    cptab T (pimaxp T p d (dmax T)) <= p /\
    d * cptab T (pimaxp T p d (dmax T)) <= dmax T;
  pimaxp_largest : forall p d i, 1 <= d -> 1 <= i <= cpcnt T -> cptab T i <= p ->
    d * cptab T i <= dmax T -> i <= pimaxp T p d (dmax T)
}.

(** The state [(pi,q,e)] of the loop of [enumd] for the modulus [d]: q is the
    e-th power of the pi-th cached prime, which is below d, and d*q fits. *)
Definition loop_state (d pi q e : Z) : Prop :=
  pi = 0 \/
  (1 <= pi <= cpcnt T /\ 1 <= e /\ q = cptab T pi ^ e /\ d * q <= dmax T /\
   cptab T pi < d).

(** A recorded entry of the loop for [d] started at the prime index [pi0]. *)
Definition fitting_item (d pi0 : Z) (it : Z * Z * Z) : Prop :=
  let '(q, pi, e) := it in
  1 <= pi <= pi0 /\ 1 <= e /\ q = cptab T pi ^ e /\ d * q <= dmax T.

(** A modulus offered to [prockd] that is within the bound. *)
Definition offer_within_dmax (c : call) : Prop :=
  match c with
  | enter_prockd d _ _ => 1 <= d <= dmax T
  | _ => True
  end.

(** What [enumcd] relies on about the table of cached cofactors for what
    it offers: [cdentry(p,d,dmax)] is an entry with d*x->d <= dmax (the
    softassert of line 204), the entries below it are not larger, and the
    entries with x->d <= sdmax are those of [sdtab] (line 229). *)
Record cdtab_fits : Prop := {
  cdentry_fits : forall p d x, 1 <= d -> cdentry T p d (dmax T) = Some x ->
    forall x', (x' <= x)%nat -> cd_d (cdtab T x') <> 0 ->
               1 <= cd_d (cdtab T x') /\ d * cd_d (cdtab T x') <= dmax T;
  cdtab_small : forall x, cd_d (cdtab T x) <> 0 -> cd_d (cdtab T x) <= sdmax T ->
    sd_d (sdtab T (cd_sdpi (cdtab T x))) = cd_d (cdtab T x)
}.

End Enumeration.

(** *** Cube roots *)

(** x is a cube root of k modulo d, reduced. *)
Definition cube_root (k d x : Z) : Prop :=
  0 <= x < d /\ (x * x * x) mod d = k mod d.

(** [zd] lists every cube root of k modulo d once. *)
Definition all_roots (k d : Z) (zd : list Z) : Prop :=
  NoDup zd /\ forall x, In x zd <-> cube_root k d x.

(** d has [w] distinct prime factors. *)
Definition omega (d : Z) (w : nat) : Prop :=
  exists ps, NoDup ps /\ (forall p, In p ps <-> Z.prime p /\ (p | d)) /\
             List.length ps = w.

(** Every prime factor of d is at least p. *)
Definition rough (d p : Z) : Prop :=
  forall r, Z.prime r -> (r | d) -> p <= r.

(** A triple (d, zd, n) with the n cube roots of k modulo d, n <= 3^omega(d). *)
Definition triple_ok (k d : Z) (zd : list Z) (n : Z) : Prop :=
  n = count zd /\ all_roots k d zd /\ exists w, omega d w /\ n <= 3 ^ Z.of_nat w.

Section Roots.
Variable T : tables.

Definition offer_has_roots (c : call) : Prop :=
  match c with
  | enter_prockd d zd n => triple_ok (K T) d zd n
  | _ => True
  end.

(** The roots a cofactor entry of [cdtab] points to in [cdroots]. *)
Definition cd_roots (e : cdrec) : list Z :=
  entries (cd_n e) (fun j => cdroots T (cd_r e + j)).

(** What [enumd] and [enumcd] rely on to lift roots: the Montgomery
    inversion gives the inverse modulo d, [fcrt64] and [b32_crt64] combine
    residues by the Chinese remainder theorem, and the caches hold the cube
    roots of K: at most 3 for a prime power (the buffer [qz[3]]), at most
    3^omega for a cofactor, the same in [sdroots] and [cdroots]. *)
Record lifting_ok : Prop := {
  m64_inv_ok : forall a d, 1 <= a -> 2 <= d -> Z.coprime a d ->
    0 <= m64_inv_mod T a d < d /\ (a * m64_inv_mod T a d) mod d = 1;
  fcrt64_ok : forall a d ainv za z,
    1 <= a -> 2 <= d -> 0 <= ainv < d -> (a * ainv) mod d = 1 ->
    0 <= za < a -> 0 <= z < d ->
    let r := fcrt64 T (a * ainv - 1) (a - za) z (a * d) in
    0 <= r < a * d /\ r mod d = z /\ r mod a = za;
  cached_roots_ok : forall pi e, 1 <= pi <= cpcnt T -> 1 <= e ->
    cptab T pi ^ e <= dmax T ->
    all_roots (K T) (cptab T pi ^ e) (cached_cuberoots_modq T pi e) /\
    (List.length (cached_cuberoots_modq T pi e) <= 3)%nat;
  cd_roots_ok : forall x, cd_d (cdtab T x) <> 0 ->
    0 <= cd_n (cdtab T x) /\
    all_roots (K T) (cd_d (cdtab T x)) (cd_roots (cdtab T x)) /\
    (exists w, omega (cd_d (cdtab T x)) w /\ cd_n (cdtab T x) <= 3 ^ Z.of_nat w) /\
    (forall r, Z.prime r -> (r | cd_d (cdtab T x)) -> r <= cd_p (cdtab T x));
  cdentry_below : forall p d x, 1 <= d -> cdentry T p d (dmax T) = Some x ->
    cd_p (cdtab T x) <= p;
  sd_roots_ok : forall x j, cd_d (cdtab T x) <> 0 -> cd_d (cdtab T x) <= sdmax T ->
    0 <= j < cd_n (cdtab T x) ->
    sdroots T (sd_r (sdtab T (cd_sdpi (cdtab T x))) + j)
    = cdroots T (cd_r (cdtab T x) + j);
  b32_crt64_ok : forall x d z zs,
    cd_d (cdtab T x) <> 0 -> cd_d (cdtab T x) <= sdmax T ->
    2 <= d -> Z.coprime d (cd_d (cdtab T x)) ->
    0 <= z < d -> 0 <= zs < cd_d (cdtab T x) ->
    let y := sdtab T (cd_sdpi (cdtab T x)) in
    let r := b32_crt64 T z d zs (sd_d y)
               (sdinvs T (sd_i y + b32_red T d (sd_d y) (sd_dinv y))) (sd_dinv y) in
    0 <= r < d * cd_d (cdtab T x) /\ r mod d = z /\ r mod cd_d (cdtab T x) = zs
}.

End Roots.

End Spec.

(** ** Notions used to state which moduli are dispatched *)

Module Coverage.
Import Worker Spec.

(** The entries of the dispatcher in a run: the modulus d coprime to k that
    is passed and the index of the divisor of k it is combined with, 0 for
    [procdcoprime] and [procdbigprime]. *)
Definition invocations (t : list call) : list (Z * Z) :=
  flat_map (fun c => match c with
                     | enter_procd ki a _ _ => [(a, ki)]
                     | enter_procdcoprime d _ _ => [(d, 0)]
                     | enter_procdbigprime d _ _ _ _ _ => [(d, 0)]
                     | _ => []
                     end) t.

(** The moduli offered to [prockd] in a run. *)
Definition offers (t : list call) : list Z :=
  flat_map (fun c => match c with enter_prockd d _ _ => [d] | _ => [] end) t.

(** A prime that can divide a modulus: it does not divide k, and k is a
    cube modulo it. *)
Definition good_prime (k q : Z) : Prop :=
  Z.prime q /\ ~ (q | k) /\ exists z, cube_root k q z.

(** d is a product of such primes. *)
Definition admissible (k d : Z) : Prop :=
  1 <= d /\ forall q, Z.prime q -> (q | d) -> good_prime k q.

Definition largest_prime_factor (d p : Z) : Prop :=
  Z.prime p /\ (p | d) /\ forall q, Z.prime q -> (q | d) -> q <= p.

Section Tables.
Variable T : tables.

(** q is one of the cached primes. *)
Definition cached (q : Z) : Prop := exists i, 1 <= i <= cpcnt T /\ cptab T i = q.

(** Every prime factor of m is a cached prime below p. *)
Definition smooth (m p : Z) : Prop :=
  forall q, Z.prime q -> (q | m) -> q < p /\ cached q.

(** The multiples d*m <= dmax of d by such an m. *)
Definition above (d p a : Z) : Prop :=
  exists m, a = d * m /\ 1 <= m /\ a <= dmax T /\ smooth m p.

Definition strictly_above (d p a : Z) : Prop :=
  exists m, a = d * m /\ 2 <= m /\ a <= dmax T /\ smooth m p.

(** The moduli a worker has to dispatch for the prime p. *)
Definition driven_by (p a : Z) : Prop :=
  admissible (K T) a /\ a <= dmax T /\ largest_prime_factor a p.

(** The divisor indices [prockd] combines d with: 0 for d itself, and
    ki >= 1 while d <= kdmax[ki]. *)
Definition class_of (d ki : Z) : Prop :=
  ki = 0 \/ (1 <= ki <= kdcnt T /\ d <= kdmax T ki).

(** The indices the loop of [prockd] runs through. *)
Fixpoint classes (fuel : nat) (i d : Z) : list Z :=
  if d <=? kdmax T i then
    match fuel with
    | O => []
    | S fuel' => i :: classes fuel' (i + 1) d
    end
  else [].

Definition keys_of (d : Z) : list (Z * Z) :=
  (d, 0) :: map (pair d) (classes (Z.to_nat (kdcnt T)) 1 d).

(** The computation [m] returns [v] and dispatches the moduli of the set
    [S], each once, each with its divisor indices; what it offers to
    [prockd] is among them, without repetition. *)
Definition covers {A : Type} (m : M A) (v : A) (S : Z -> Prop) : Prop :=
  forall h, exists t L,
    m h = (Ok v, rev t ++ h) /\
    invocations t = flat_map keys_of L /\
    NoDup L /\ (forall a, In a L <-> S a) /\
    NoDup (offers t) /\ incl (offers t) L.

(** The reporter lets every prime and every number of roots through, and
    the boundary after the cached phase. *)
Definition accepted (c : call) : bool :=
  match c with
  | report_p _ | report_c _ | report_phase PHASE_CACHED => true
  | _ => false
  end.

Definition accepts : Prop :=
  forall h c, accepted c = true -> answer T h c = true.

(** The worker's end of the pipe: increasing primes between [start] and
    [end], with [end <= dmax] as [main] checks, and 3*end within 64 bits
    (the assert of line 426 computes 3*p). *)
Record pipe_ok (pp : pipe) : Prop := {
  pipe_sorted : StronglySorted Z.lt (pipe_primes pp);
  pipe_prime : Forall Z.prime (pipe_primes pp);
  pipe_within : Forall (fun p => pipe_start pp <= p <= pipe_end pp) (pipe_primes pp);
  pipe_end_dmax : pipe_end pp <= dmax T;
  pipe_end_tripled : 3 * pipe_end pp < 2 ^ 64
}.

(** What the phase driver relies on about the cached primes: [cptab] holds
    the good primes up to cpmax >= sqrt(dmax), above them [cuberoots_modp]
    tells the good primes, and a cached prime has roots modulo its powers
    (the assert of line 405). *)
Record primes_cover : Prop := {
  cptab_zero : cptab T 0 < 2;
  cpcnt_room : cpcnt T + 1 < 2 ^ 32;
  cptab_good : forall i, 1 <= i <= cpcnt T ->
    good_prime (K T) (cptab T i) /\ cptab T i <= cpmax T;
  cptab_complete : forall q, good_prime (K T) q -> q <= cpmax T -> cached q;
  cpmax_sqrt : 0 <= cpmax T /\ dmax T <= cpmax T * cpmax T;
  above_sqrt : forall p, cpmax T < p -> above_sqrt_dmax T p = true;
  K_cached : K T < 3 * (cpmax T + 1);
  roots_cached : forall i e, 1 <= i <= cpcnt T -> 1 <= e -> cptab T i ^ e <= dmax T ->
    cached_cuberoots_modq T i e <> [] /\ cuberoots_modq T (K T) (cptab T i) e <> [];
  roots_modp : forall p, Z.prime p -> cpmax T < p ->
    (cuberoots_modp T (K T) p <> [] <-> good_prime (K T) p)
}.

(** What [prockd] and the phases of the large primes rely on: [kdmax]
    decreases along the divisors of k and closes with an entry below every
    d, and from pdmin on a prime has no multiple within dmax, neither by a
    divisor of k nor by a good prime. *)
Record divisors_ok : Prop := {
  kdcnt_nonneg : 0 <= kdcnt T;
  kdmax_decreasing : forall i, 1 <= i <= kdcnt T -> kdmax T (i + 1) <= kdmax T i;
  kdmax_end : kdmax T (kdcnt T + 1) < 1;
  kdmax_pdmin : forall i, 1 <= i <= kdcnt T -> kdmax T i < pdmin T;
  pdmin_alone : forall q, good_prime (K T) q -> 0 <= pdmin T /\ dmax T < pdmin T * q
}.

(** What [enumcd] and the near-prime phase rely on about the cached
    cofactors: [cdtab] lists products of cached primes by increasing size
    above a closing entry with d = 0, each with its largest prime factor;
    [cdentry(p,d,dmax)] is the last entry with d*x->d <= dmax and
    x->p <= p, and none is missing below it; [sdtab] lists the cofactors c
    with sdmin*c <= dmax in the same way. *)
Record cofactors_cover : Prop := {
  cdtab_bottom : cd_d (cdtab T 0) = 0 /\ cd_p (cdtab T 0) < 2;
  cdtab_sorted : forall x y, (1 <= y)%nat -> (y < x)%nat -> cd_d (cdtab T x) <> 0 ->
    0 < cd_d (cdtab T y) < cd_d (cdtab T x);
  cdtab_entry : forall x, cd_d (cdtab T x) <> 0 ->
    2 <= cd_d (cdtab T x) /\
    largest_prime_factor (cd_d (cdtab T x)) (cd_p (cdtab T x)) /\
    (forall q, Z.prime q -> (q | cd_d (cdtab T x)) -> cached q);
  cdentry_top : forall p d x, 1 <= d -> cdentry T p d (dmax T) = Some x ->
    cd_d (cdtab T x) <> 0 /\ cd_p (cdtab T x) <= p;
  cdentry_complete : forall p d c, 1 <= d -> cdmin T <= d -> 2 <= c ->
    d * c <= dmax T -> smooth c (p + 1) ->
    exists x y, cdentry T p d (dmax T) = Some x /\ (1 <= y <= x)%nat /\
                cd_d (cdtab T y) = c;
  sdmax_covers : forall d c, sdmin T <= d -> 1 <= c -> d * c <= dmax T -> c <= sdmax T;
  sdcnt_nonneg : 0 <= sdcnt T;
  sdtab_sorted : forall i j, 1 <= i -> i < j -> j <= sdcnt T ->
    sd_d (sdtab T i) < sd_d (sdtab T j);
  sdtab_entry : forall i, 1 <= i <= sdcnt T ->
    2 <= sd_d (sdtab T i) /\
    (forall q, Z.prime q -> (q | sd_d (sdtab T i)) -> cached q);
  sdtab_complete : forall c, 2 <= c -> sdmin T * c <= dmax T ->
    (forall q, Z.prime q -> (q | c) -> cached q) ->
    exists i, 1 <= i <= sdcnt T /\ sd_d (sdtab T i) = c
}.

End Tables.

End Coverage.

(** ** Notions used to state the properties of the supervisor *)

Module SupervisorNotions.
Import Supervisor.

Definition argc_of (argv : list string) : Z := Z.of_nat (List.length argv).

(** The number of workers after the adjustments of lines 534-541. *)
Definition cores_of (E : env) (argv : list string) : Z :=
  let cores0 := atoi E (arg argv 1) in
  let cores1 := if profiling E && negb (cores0 =? 1) then 1 else cores0 in
  if cores1 =? 0 then get_nprocs E else cores1.

(** The checks of lines 561-593 as conditions on the parsed values. *)
Record checks_pass (E : env) (argv : list string) (p0 pmax : Z) : Prop := {
  cp_k_good : goodk E (atoi E (arg argv 2)) = true;
  cp_k_pos : 0 <= atoi E (arg argv 2);
  cp_dmax : strto64 E (arg argv 5) <= DMAX E;
  cp_p0_k : atoi E (arg argv 2) mod p0 <> 0;
  cp_pmax : 2 <= pmax;
  cp_zbits : ui128_len E (strto128 E (arg argv 6)) <= ZMAXBITS E;
  cp_zmax : strto128 E (arg argv 6) < ZMAX E;
  cp_zmaxld : zmaxld_above E (strto128 E (arg argv 6)) = true;
  cp_sqrt : le_sqrt E p0 (strto64 E (arg argv 5)) = true;
  cp_prod : u64 (p0 * pmax) <= strto64 E (arg argv 5);
  cp_dz : strto64 E (arg argv 5) <= strto128 E (arg argv 6);
  cp_zmin : zmin_above_zmax E (strto64 E (arg argv 5)) (strto128 E (arg argv 6)) = false;
  cp_report : report_phase_precompute E = true
}.

Definition argv_pinned : list string :=
  ["zcubes"; "2"; "3"; "5"; "5"; "49"; "1000000"]%string.

Definition argv_reversed : list string :=
  ["zcubes"; "2"; "3"; "9"; "7"; "100"; "1000000"]%string.

(** The same environment with other answers to the three tests behind the
    warnings of lines 561-562. *)
Definition with_warning_tests (E : env) (npp : Z -> Z) (m3 : Z -> Z)
  (hcr : Z -> Z -> bool) : env := {|
  atoi := atoi E; strto64 := strto64 E; strto128 := strto128 E;
  profiling := profiling E; reporting := reporting E; get_nprocs := get_nprocs E;
  goodk := goodk E; DMAX := DMAX E; ZMAXBITS := ZMAXBITS E; ZMAX := ZMAX E;
  ui128_len := ui128_len E;
  primes_next_prime := npp; mod3 := m3; has_cuberoots_modp := hcr;
  le_sqrt := le_sqrt E; zmaxld_above := zmaxld_above E;
  zmin_above_zmax := zmin_above_zmax E;
  report_phase_precompute := report_phase_precompute E
|}.

Definition argv_p0_divides_k : list string :=
  ["zcubes"; "2"; "33"; "11x2"; "11x3"; "1000"; "1000000"]%string.

Definition argv_p0_composite : list string :=
  ["zcubes"; "2"; "3"; "4x2"; "4x3"; "100"; "1000000"]%string.

End SupervisorNotions.

(** ** Notions used to state the properties of a worker's runs *)

Module Notions.
Import Worker Spec Coverage.

Section Tables.
Variable T : tables.

(** [emits P m]: whatever the calls made before, a run of [m] adds calls
    [t] (oldest first) with [P t]. *)
Definition emits {A : Type} (P : list call -> Prop) (m : M A) : Prop :=
  forall h r h', m h = (r, h') -> exists t, h' = rev t ++ h /\ P t.

(** [quiet Q m]: every call [m] makes satisfies [Q]. *)
Definition quiet {A : Type} (Q : call -> Prop) (m : M A) : Prop :=
  emits (Forall Q) m.

(** The calls made inside [procd], [procdcoprime] and [procdbigprime]. *)
Definition dispatch_call (c : call) : bool :=
  match c with
  | report_d _ _ | profile_checkpoint
  | zrcheckone _ _ _ _ _ _ _ _ _ _ | zrcheckafew _ _ _ _ _ _ _ _ _ _ _
  | zrchecklift _ _ _ _ _ _
  | enter_procd _ _ _ _ | enter_procdcoprime _ _ _ | enter_procdbigprime _ _ _ _ _ _ => true
  | _ => false
  end.

(** The calls made inside [enumd] and [enumcd]. *)
Definition enumerator_call (c : call) : bool :=
  match c with
  | enter_prockd _ _ _ => true
  | _ => dispatch_call c
  end.

(** [quietR Q R m]: every call [m] makes satisfies [Q], and the value it
    returns satisfies [R]. *)
Definition quietR {A : Type} (Q : call -> Prop) (R : A -> Prop) (m : M A) : Prop :=
  forall h r h', m h = (r, h') ->
    exists t, h' = rev t ++ h /\ Forall Q t /\ forall a, r = Ok a -> R a.

Definition is_phase_report (c : call) : bool :=
  match c with report_phase _ => true | _ => false end.

Definition per_prime (c : call) : Prop := is_phase_report c = false.

(** The phases reported in a sequence of calls, in order. *)
Definition phases_of (t : list call) : list phase :=
  flat_map (fun c => match c with report_phase ph => [ph] | _ => [] end) t.

Definition six_phases : list phase :=
  [PHASE_CACHED; PHASE_UNCACHED; PHASE_COCACHED; PHASE_NEARPRIME; PHASE_PRIME;
   PHASE_BIGPRIME].

(** [reports l m]: the phases [m] reports are the first ones of [l], in the
    order of [l]. *)
Definition reports {A : Type} (l : list phase) (m : M A) : Prop :=
  emits (fun t => exists n, phases_of t = firstn n l) m.

(** The tables of [T] with another reporter. *)
Definition with_answer (a : list call -> call -> bool) : tables := {|
  K := K T; dmax := dmax T; pdmin := pdmin T; bpmin := bpmin T;
  zmax128 := zmax128 T; zmaxld := zmaxld T; ZSHORT := ZSHORT T; ZFEW := ZFEW T;
  fastceilboundl_div := fastceilboundl_div T; mod7 := mod7 T;
  above_sqrt_dmax := above_sqrt_dmax T; kdcnt := kdcnt T; kdtab := kdtab T;
  kdmax := kdmax T; k27ftab := k27ftab T; k27zs := k27zs T; km1 := km1 T; km := km T;
  kminv := kminv T; kmitab := kmitab T; kmztab := kmztab T;
  sgnz_index := sgnz_index T; onezmod7 := onezmod7 T; b32_red := b32_red T;
  crt7 := crt7 T; inv7 := inv7 T; b32_crt64 := b32_crt64 T;
  m64_inv_mod := m64_inv_mod T; fcrt64 := fcrt64 T; cpmax := cpmax T;
  cdmin := cdmin T; sdmin := sdmin T; sdmax := sdmax T; cpcnt := cpcnt T;
  sdcnt := sdcnt T; cptab := cptab T; pimaxp := pimaxp T;
  cached_cuberoots_e := cached_cuberoots_e T;
  cached_cuberoots_modq := cached_cuberoots_modq T;
  cuberoots_modq := cuberoots_modq T; cuberoots_modp := cuberoots_modp T;
  cdentry := cdentry T; cdtab := cdtab T; cdroots := cdroots T; sdtab := sdtab T;
  sdroots := sdroots T; sdinvs := sdinvs T;
  answer := a
|}.

(** [report_phase] at one of the five boundaries after PHASE_CACHED. *)
Definition later_phase_report (c : call) : bool :=
  match c with
  | report_phase PHASE_CACHED => false
  | report_phase _ => true
  | _ => false
  end.

(** How a run of [process_primes] that ends with [r] after the calls [h']
    meets the first boundary: [ta] are the calls of the cached phase. *)
Definition cached_boundary (pp : pipe) (h : list call) (r : result unit)
  (h' : list call) (ta : list call) : Prop :=
  (pipe_end pp < fst (read_pipe (pipe_primes pp)) /\ r = Ok tt /\ h' = h) \/
  (exists s, r = Stop s /\ h' = rev ta ++ h) \/
  (answer T (rev ta ++ h) (report_phase PHASE_CACHED) = false /\
   h' = report_phase PHASE_CACHED :: rev ta ++ h) \/
  (answer T (rev ta ++ h) (report_phase PHASE_CACHED) = true /\
   exists tb, h' = rev tb ++ report_phase PHASE_CACHED :: rev ta ++ h).

Definition rule (d ki a b l c : Z) (lift_ki : Z) : zcheck :=
  if (l <=? ZSHORT T) || (u64 (l * c) <=? ZFEW T)
  then if a * b >? zmax128 T then CheckOne d a b else CheckAFew d a b l
  else CheckLift d lift_ki a.

(** The decision table of the dispatcher in terms of the length l it
    computed. *)
Definition decides (d ki a b l c : Z) (t : list call) : Prop :=
  (short_or_few T l c -> a * b > zmax128 T -> zchecks t = [CheckOne d a b]) /\
  (short_or_few T l c -> a * b <= zmax128 T -> zchecks t = [CheckAFew d a b l]) /\
  (~ short_or_few T l c -> zchecks t = [CheckLift d ki a]).

(** The number of iterations the loop still needs. *)
Definition loop_measure (pi q : Z) : Z :=
  if pi =? 0 then 0 else 64 * pi - Z.log2 q.

(** A cofactor of the table that fits with d. *)
Definition cofactor_fits (d : Z) (e : cdrec) : Prop :=
  1 <= cd_d e /\ d * cd_d e <= dmax T.

Definition steady {A : Type} (m : M A) : Prop :=
  forall h, fst (m h) <> Stop Diverged.

(** A cofactor entry [enumcd] visits for the modulus d below the prime p. *)
Definition visited (d p : Z) (e : cdrec) : Prop :=
  (exists x, e = cdtab T x) /\ cd_d e <> 0 /\ 1 <= cd_d e /\
  d * cd_d e <= dmax T /\ cd_p e < p.

(** The calls that are no entry of the dispatcher or of [prockd]. *)
Definition silent (c : call) : bool :=
  match c with
  | enter_prockd _ _ _ | enter_procd _ _ _ _ | enter_procdcoprime _ _ _
  | enter_procdbigprime _ _ _ _ _ _ => false
  | _ => true
  end.

(** The computation returns [v], enters the dispatcher with the keys [I]
    and offers the moduli [O] to [prockd]. *)
Definition adds {A : Type} (I : list (Z * Z)) (O : list Z) (m : M A) (v : A) : Prop :=
  forall h, exists t, m h = (Ok v, rev t ++ h) /\ invocations t = I /\ offers t = O.

(** The moduli of the batched entries, and of the entries still to scan. *)
Definition batched (d : Z) (queue : list cdrec) (a : Z) : Prop :=
  exists e, In e queue /\ a = d * cd_d e.

Definition scanned (d p : Z) (x : nat) (a : Z) : Prop :=
  exists y, (1 <= y <= x)%nat /\ cd_p (cdtab T y) < p /\ a = d * cd_d (cdtab T y).

(** The batch holds different cofactors that are larger than [lo] and fit. *)
Definition batch_ok (d lo : Z) (queue : list cdrec) : Prop :=
  Forall (fun e => lo < cd_d e /\ d * cd_d e <= dmax T) queue /\ NoDup (map cd_d queue).

(** The entries the loop of [enumd] records from the state [(pi,e0)] on. *)
Definition queued (d pi e0 : Z) (it : Z * Z * Z) : Prop :=
  let '(q, i, e) := it in
  1 <= i <= pi /\ 1 <= e /\ q = cptab T i ^ e /\ d * q <= dmax T /\ (i < pi \/ e0 <= e).

(** The index [pi] the cached phase carries along: the cached primes
    before it are below the prime p at hand. *)
Definition scan_state (pi p : Z) : Prop :=
  0 <= pi <= cpcnt T + 1 /\ forall j, 1 <= j < pi -> cptab T j < p.

(** The exponents from e up to i, excluded. *)
Definition exponents (e i : Z) : list Z :=
  map (fun k => e + Z.of_nat k) (seq 0 (Z.to_nat (i - e))).

(** The index [pimax] the phase carries along: the cofactors after it do
    not fit with p. *)
Definition pimax_state (pimax : nat) (p : Z) : Prop :=
  Z.of_nat pimax <= sdcnt T /\
  forall i, Z.of_nat pimax < i <= sdcnt T -> dmax T < p * sd_d (sdtab T i).

(** The moduli driven by one of the primes of a list. *)
Definition driven_by_any (R : list Z) (a : Z) : Prop :=
  exists q, In q R /\ driven_by T q a.

Section Bound.
Variable pmax : Z.

(** The primes still in the pipe after the cached phase, from [lo] on. *)
Definition pending (lo : Z) (R : list Z) : Prop :=
  StronglySorted Z.lt R /\
  Forall (fun q => Z.prime q /\ cpmax T < q /\ lo <= q /\ q <= pmax) R.

End Bound.

End Tables.

End Notions.

(** ** The supervisor after the validation: [main], lines 600-640 *)

Module Supervision.
Import Supervisor.

(** What [wait] stores in [status] for a child that has ended. *)
Inductive status : Type :=
| Exited (code : Z)       (* WIFEXITED, with WEXITSTATUS = code *)
| Signalled.              (* not WIFEXITED: ended by a signal, as [abort] does *)

(** What the parent does that is seen outside it. *)
Inductive action : Type :=
| kill_SIGTERM (pid : Z)
| report_end
| report_comparisons (pcnt ccnt dcnt rcnt : Z)
| output_end (failed : Z).

(** How the process that runs lines 600-640 goes on. *)
Inductive ending : Type :=
| worker (i : Z)          (* [fork] returned 0 in the loop: it is worker i *)
| feeder                  (* [fork] returned 0 after the loop: it feeds the pipe *)
| exit (code : Z).        (* the parent calls [exit] *)

(** The operating system as the parent sees it. *)
Record os : Type := {
  fork : Z -> Z;              (* what the call of [fork] for [pids[i]] returns *)
  reaped : list status        (* the statuses [wait] hands over before it returns -1 *)
}.

(** [!WIFEXITED(status) || WEXITSTATUS(status)], line 622. *)
Definition abnormal (s : status) : bool :=
  match s with
  | Exited code => negb (code =? 0)
  | Signalled => true
  end.

(** The loop of lines 602-614 from [i] on, [n] workers still to fork;
    [pids] holds [pids[0..i)]. *)
Fixpoint fork_workers (O : os) (n : nat) (i : Z) (pids : list Z)
  : list action * (ending + list Z) :=
  match n with
  | O => ([], inr pids)
  | S n' =>
      let pid := fork O i in
      if pid =? 0 then ([], inl (worker i))
      else if pid <? 0 then (map kill_SIGTERM pids, inl (exit (-1)))
      else fork_workers O n' (i + 1) (pids ++ [pid])
  end.

(** The loop of line 622: does [wait] hand over a status that makes the
    parent give up? *)
Fixpoint wait_children (statuses : list status) : bool :=
  match statuses with
  | [] => false
  | s :: rest => if abnormal s then true else wait_children rest
  end.

(** One round of the loop of lines 631-636 on [argv[i]]. *)
Definition read_prediction (E : env) (st : Z * Z * Z * Z) (a : string) : Z * Z * Z * Z :=
  let '(pcnt, ccnt, dcnt, rcnt) := st in
  let pcnt := if memcmp_differs a "pcnt=" 5 then pcnt else strto64 E (from_offset 5 a) in
  let ccnt := if memcmp_differs a "ccnt=" 5 then ccnt else strto64 E (from_offset 5 a) in
  let dcnt := if memcmp_differs a "dcnt=" 5 then dcnt else strto64 E (from_offset 5 a) in
  let rcnt := if memcmp_differs a "rcnt=" 5 then rcnt else strto64 E (from_offset 5 a) in
  (pcnt, ccnt, dcnt, rcnt).

(** The predictions of the command line, from [argv[7]] on. *)
Definition predictions (E : env) (argv : list string) : Z * Z * Z * Z :=
  fold_left (read_prediction E) (skipn 7 argv) (0, 0, 0, 0).

(** Lines 628-640: all children have ended well. *)
Definition finish (E : env) (argv : list string) : list action :=
  [report_end] ++
  (if reporting E && (Z.of_nat (List.length argv) >? 7)
   then let '(pcnt, ccnt, dcnt, rcnt) := predictions E argv in
        [report_comparisons pcnt ccnt dcnt rcnt]
   else []) ++
  [output_end 0].

(** [main] from line 600 on, for [cores] workers. *)
Definition supervise (O : os) (E : env) (argv : list string) (cores : Z)
  : list action * ending :=
  match fork_workers O (Z.to_nat cores) 0 [] with
  | (acts, inl e) => (acts, e)
  | (_, inr pids) =>
      let pid := fork O cores in
      if pid =? 0 then ([], feeder)
      else
        let pids := pids ++ [pid] in
        if wait_children (reaped O)
        then (map kill_SIGTERM pids ++ [output_end 1], exit (-1))
        else (finish E argv, exit 0)
  end.

(** The pids [fork] returned for [pids[lo..lo+n)]. *)
Definition forked (O : os) (lo : Z) (n : nat) : list Z :=
  map (fun j => fork O (lo + Z.of_nat j)) (seq 0 n).

(** The messages of [main] that announce an error. *)
Definition is_error (m : message) : bool :=
  match m with
  | ErrBadK | ErrDmaxTooBig | ErrPmaxForm | ErrP0TooSmall | ErrPmaxAboveP0
  | ErrProfilingOrOptions | ErrP0DividesK | ErrPminPmax | ErrZmaxTooBig
  | ErrP0AboveSqrt | ErrBoundsOrder => true
  | _ => false
  end.

(** The messages [m] explain the outcome [o]: a return of -1 comes right
    after an error message, or after the warning about zmin, with no error
    message before; and after an error message [main] returns -1. *)
Definition explains (m : list message) (o : outcome) : Prop :=
  (o = Return (-1) ->
   exists m' e, m = m' ++ [e] /\ (is_error e = true \/ e = WarnZminAboveZmax) /\
                Forall (fun x => is_error x = false) m') /\
  ((exists e, In e m /\ is_error e = true) -> o = Return (-1)).

(** The pinned prime of a worker path, 1 when there is none. *)
Definition p0_of (path : worker_path) : Z :=
  match path with
  | Subprimes p0 => p0
  | Primes => 1
  end.

(** The four counters a prediction can name, the five bytes that name
    them, and their place in the values passed to [report_comparisons]. *)
Inductive counter : Type := Pcnt | Ccnt | Dcnt | Rcnt.

Definition prefix_of (c : counter) : string :=
  match c with
  | Pcnt => "pcnt="
  | Ccnt => "ccnt="
  | Dcnt => "dcnt="
  | Rcnt => "rcnt="
  end.

Definition value_of (c : counter) (v : Z * Z * Z * Z) : Z :=
  let '(pcnt, ccnt, dcnt, rcnt) := v in
  match c with
  | Pcnt => pcnt
  | Ccnt => ccnt
  | Dcnt => dcnt
  | Rcnt => rcnt
  end.

(** [memcmp(a,name,5) == 0]. *)
Definition names (a : string) (c : counter) : bool := negb (memcmp_differs a (prefix_of c) 5).

(** An operating system in which every [fork] succeeds in the parent. *)
Definition forks_succeed (O : os) (cores : Z) : Prop :=
  forall i, 0 <= i <= cores -> 0 < fork O i.

(** A run of three children: pids 101.., the statuses given. *)
Definition test_os (statuses : list status) : os :=
  {| fork := fun i => 101 + i; reaped := statuses |}.

(** The second fork fails. *)
Definition failing_os : os :=
  {| fork := fun i => if i =? 1 then -1 else 101 + i; reaped := [] |}.

Definition argv_predictions : list string :=
  ["zcubes"; "2"; "3"; "2"; "100"; "10000"; "1000000000000"; "1"; "pcnt=5"; "dcnt=7";
   "pcnt=25"]%string.

End Supervision.

(** ** The worker for a pinned largest prime: [process_subprimes], lines 322-381 *)

Module Pinned.
Import Worker.

(** The collaborators of [process_subprimes] that the other routines of a
    worker do not call. *)
Record helpers : Type := {
  primes_next_prime : Z -> Z;             (* primes.h *)
  mod3 : Z -> Z;                          (* cstd.h *)
  has_cuberoots_modp : Z -> Z -> bool;    (* cbrts.h *)
  b32_inv : Z -> Z                        (* b32.h *)
}.

(** How [process_subprimes] returns: after one of its two messages
    ([report_printf]), or at its end. *)
Inductive return_point : Type :=
| NothingForNonprime      (* "Nothing to do for nonprime p0=%u" *)
| NothingWithoutRoots     (* "Nothing to do, there are no cuberoots of k=%u mod p0=%u" *)
| Walked.

Section Subprimes.
Variable T : tables.
Variable H : helpers.

(** [for ( i=1,q=p ; (uint128_t)q*p <= bound ; i++, q*= p )], for the
    bound [dmax0] of line 351. *)
Fixpoint highest_power_within (bound : Z) (fuel : nat) (p i q : Z) : option (Z * Z) :=
  if q * p <=? bound then
    match fuel with
    | O => None
    | S fuel' => highest_power_within bound fuel' p (u32 (i + 1)) (u64 (q * p))
    end
  else Some (i, q).

(** Lines 357 and 361: [r[i*n0+j] = b32_crt64(zz[i],pp,z0[j],p0,qinvp0,p0inv)]. *)
Definition join_roots (zz : list Z) (pp : Z) (z0 : list Z) (p0 qinvp0 p0inv : Z) : list Z :=
  flat_map (fun zi => map (fun z0j => b32_crt64 T zi pp z0j p0 qinvp0 p0inv) z0) zz.

(** The body of the loop of lines 347-363 for the prime [p] below [p0]; the
    loop carries the index [pi] into [cptab]. *)
Definition subprime_body (p0 p0inv dmax0 : Z) (z0 : list Z) (itabp0 : Z -> Z)
  (pi p : Z) : M Z :=
  _ <- ask T (report_p p) ;;
  let pi := scan_cptab T (Z.to_nat (cpcnt T + 1 - pi)) pi p in
  if (pi >? cpcnt T) || (cptab T pi >? p) then ret pi
  else
    match highest_power_within dmax0 64 p 1 p with
    | None => halt Diverged
    | Some (i, q) =>
        let z := if cached_cuberoots_e T pi >=? i then cached_cuberoots_modq T pi i
                 else cuberoots_modq T (K T) p i in
        let n := count z in
        if n >? 0 then
          let m := u32 (n * count z0) in
          match powers_below 64 p p q with
          | None => halt Diverged
          | Some pps =>
              for_each pps (fun pp =>
                let zz := map (fun x => x mod pp) z in
                let qinvp0 := itabp0 (b32_red T pp p0 p0inv) in
                let r := join_roots zz pp z0 p0 qinvp0 p0inv in
                prockd T (u64 (pp * p0)) r m ;;;
                enumd T enumd_depth (u64 (pp * p0)) p r) ;;;
              let qinvp0 := itabp0 (b32_red T q p0 p0inv) in
              let r := join_roots z q z0 p0 qinvp0 p0inv in
              prockd T (u64 (q * p0)) r m ;;;
              enumd T enumd_depth (u64 (q * p0)) p r ;;;
              ret pi
          end
        else halt AssertionFailed
    end.

(** Lines 366-378: p0 itself has come out of the pipe. *)
Definition own_powers (p0 pi : Z) : M unit :=
  _ <- ask T (report_p p0) ;;
  let p := p0 in
  let pi := scan_cptab T (Z.to_nat (cpcnt T + 1 - pi)) pi p in
  match highest_power T 64 p 1 p with
  | None => halt Diverged
  | Some (i, q) =>
      let z := if cached_cuberoots_e T pi >=? i then cached_cuberoots_modq T pi i
               else cuberoots_modq T (K T) p0 i in
      let n := count z in
      if n >? 0 then
        _ <- ask T (report_c n) ;;
        match powers_below 64 p p q with
        | None => halt Diverged
        | Some pps =>
            for_each pps (fun pp =>
              let zz := map (fun x => x mod pp) z in
              prockd T pp zz n ;;;
              if pp >? p then enumd T enumd_depth pp p zz else ret tt) ;;;
            prockd T q z n ;;;
            if q >? p then enumd T enumd_depth q p z else ret tt
        end
      else halt AssertionFailed
  end.

(** [process_subprimes]: [p0] is a [uint32_t], [itabp0] the table of
    inverses modulo p0 that [main] builds.  The division of line 337 traps
    for p0 = 0. *)
Definition process_subprimes (p0 : Z) (itabp0 : Z -> Z) (pp : pipe) : M return_point :=
  let pmax := pipe_end pp in
  if negb ((pmax <=? p0) && (p0 <=? cpmax T)) then halt AssertionFailed
  else
    let pi := pimaxp T p0 1 (dmax T) in
    if negb (primes_next_prime H (u32 (p0 - 1)) =? p0) then ret NothingForNonprime
    else if (p0 >? 1) && (mod3 H p0 =? 1) && negb (has_cuberoots_modp H (K T) p0)
    then ret NothingWithoutRoots
    else if negb (cptab T pi =? p0) then halt AssertionFailed
    else if p0 =? 0 then halt Unspecified
    else
      let dmax0 := dmax T / p0 in
      let p0inv := if p0 >? 2 then b32_inv H p0 else 2 ^ 63 in
      let z := cached_cuberoots_modq T pi 1 in
      let n0 := count z in
      if negb (n0 >? 0) then halt AssertionFailed
      else
        let z0 := map u32 z in
        let '(p, rest) := read_pipe (pipe_primes pp) in
        let pi := pimaxp T p 1 dmax0 in
        let pmax := if pmax =? p0 then u64 (pmax - 1) else pmax in
        r <- phase_loop (fun p => (p <=? pmax) && (p <? p0))
               (subprime_body p0 p0inv dmax0 z0 itabp0) pi p rest ;;
        let '(pi, p, _) := r in
        (if p =? p0 then own_powers p0 pi else ret tt) ;;;
        if p >? pmax then ret Walked else halt AssertionFailed.

End Subprimes.

(** The helpers for small inputs, by exhaustive search. *)
Definition toy_helpers : helpers := {|
  primes_next_prime := Supervisor.primes_next_prime (Supervisor.test_env 1);
  mod3 := fun n => n mod 3;
  has_cuberoots_modp := Supervisor.has_root_b;
  b32_inv := fun _ => 0
|}.

(** The table of inverses modulo p0 that [invtab32] builds. *)
Definition toy_itab (p0 : Z) : Z -> Z := fun x => Toy.inverse x p0.

(** The pipes for p0 = 5 between 2 and 5, and for p0 = 7 between 2 and 5. *)
Definition pipe_to_5 : pipe := {| pipe_start := 2; pipe_end := 5; pipe_primes := [2; 3; 5] |}.

End Pinned.

(** ** Notions used to state how a worker behaves towards its collaborators *)

Module Behaviour.
Import Worker.

(** The modulus a z-check is called for. *)
Definition zcheck_of (c : call) : option Z :=
  match c with
  | zrcheckone d _ _ _ _ _ _ _ _ _ => Some d
  | zrcheckafew d _ _ _ _ _ _ _ _ _ _ => Some d
  | zrchecklift d _ _ _ _ _ => Some d
  | _ => None
  end.

(** The calls made between the entry of [procd], [procdcoprime] or
    [procdbigprime] and its return. *)
Definition inside_dispatcher (c : call) : bool :=
  match c with
  | report_d _ _ | profile_checkpoint
  | zrcheckone _ _ _ _ _ _ _ _ _ _ | zrcheckafew _ _ _ _ _ _ _ _ _ _ _
  | zrchecklift _ _ _ _ _ _ => true
  | _ => false
  end.

(** The primes passed to [report_p] in a sequence of calls, in order. *)
Definition reported_primes (t : list call) : list Z :=
  flat_map (fun c => match c with report_p p => [p] | _ => [] end) t.

(** The longest prefix of the pipe's primes within [pmax]. *)
Fixpoint up_to (pmax : Z) (primes : list Z) : list Z :=
  match primes with
  | [] => []
  | p :: rest => if p <=? pmax then p :: up_to pmax rest else []
  end.

(** A call other than [report_p]. *)
Definition not_report_p (c : call) : Prop :=
  match c with
  | report_p _ => False
  | _ => True
  end.

(** [announces p m]: a run of [m] starts with [report_p p] and does not
    call [report_p] again. *)
Definition announces {A : Type} (p : Z) (m : M A) : Prop :=
  forall h r h', m h = (r, h') ->
    exists t, h' = rev t ++ report_p p :: h /\ Forall not_report_p t.

(** [reads pmax pending m]: a run of [m] on a pipe that still holds the
    primes [pending] reports primes of [pending], in their order and none
    beyond [pmax]; when it returns, the next prime of the pipe is beyond
    [pmax]. *)
Definition reads (pmax : Z) (pending : list Z) (m : M unit) : Prop :=
  forall h r h', m h = (r, h') ->
    exists t remaining,
      h' = rev t ++ h /\ pending = reported_primes t ++ remaining /\
      Forall (fun q => q <= pmax) (reported_primes t) /\
      (r = Ok tt -> pmax < fst (read_pipe remaining)).

(** [preserves I m]: a run of [m] that starts after calls with the
    property [I] ends after calls with the property [I]. *)
Definition preserves {A : Type} (I : list call -> Prop) (m : M A) : Prop :=
  forall h, I h -> I (snd (m h)).

(** [ends_with R m]: no loop of [m] goes on for ever, and the value [m]
    returns satisfies [R]. *)
Definition ends_with {A : Type} (R : A -> Prop) (m : M A) : Prop :=
  forall h, match fst (m h) with
            | Ok a => R a
            | Stop s => s <> Diverged
            end.

Section Tables.
Variable T : tables.

(** The modulus d the dispatcher reports after the entry [c]. *)
Definition entry_modulus (c : call) : option Z :=
  match c with
  | enter_procd ki a _ _ => Some (u64 (a * kd_d (kdtab T ki)))
  | enter_procdcoprime d _ _ => Some d
  | enter_procdbigprime d _ _ _ _ _ => Some d
  | _ => None
  end.

(** The calls made so far (most recent first) follow the protocol of the
    dispatcher: each entry is followed by one [report_d] for its modulus; if
    the reporter refuses it nothing else is called before the next entry;
    if it accepts it, one z-check for that modulus and then
    [profile_checkpoint] are. *)
Inductive served : list call -> Prop :=
| served_nil : served []
| served_other c h : inside_dispatcher c = false -> entry_modulus c = None ->
    served h -> served (c :: h)
| served_refused e d n h : entry_modulus e = Some d ->
    answer T (e :: h) (report_d d n) = false ->
    served h -> served (report_d d n :: e :: h)
| served_checked e d n z h : entry_modulus e = Some d ->
    answer T (e :: h) (report_d d n) = true -> zcheck_of z = Some d ->
    served h -> served (profile_checkpoint :: z :: report_d d n :: e :: h).

(** A z-check covers every z up to zmax: the n progressions it is given
    (one for [zrcheckone]) have modulus a*b with n*a*b > zmax. *)
Definition reaches_zmax (c : call) : Prop :=
  match c with
  | zrcheckone _ _ a _ _ b _ _ _ _ => zmax128 T < a * b
  | zrcheckafew _ _ a _ _ b _ _ _ _ n => zmax128 T < n * (a * b)
  | _ => True
  end.

(** The length that lines 485 and 495 compute for the prime [q] and the
    residue modulus [m] reaches zmax: l progressions modulo q*m go beyond
    zmax, which line 486 checks of the first length. *)
Definition length_reaches (m q : Z) : Prop :=
  zmax128 T < length_for T q m * (q * m).

(** The locals [(l, lpmax)] of the big-prime phase serve the prime [q] for
    the residue modulus [m]: l progressions modulo q*m go beyond zmax. *)
Definition length_serves (m : Z) (st : Z * Z) (q : Z) : Prop :=
  1 <= q /\ zmax128 T < fst st * (q * m).

(** The same for the locals [(l, lpmax, l7, lpmax7)] and the two residue
    moduli [m] and [m7]. *)
Definition lengths_serve (m m7 : Z) (st : Z * Z * Z * Z) (q : Z) : Prop :=
  let '(l, _, l7, _) := st in
  1 <= q /\ zmax128 T < l * (q * m) /\ zmax128 T < l7 * (q * m7).

(** The moduli p0*b within dmax whose cofactor b has p as its largest
    prime factor: what the worker pinned to p0 has to dispatch for the prime
    p below p0. *)
Definition beside (p0 p a : Z) : Prop :=
  Coverage.admissible (K T) a /\ a <= dmax T /\
  exists b, a = p0 * b /\ Coverage.largest_prime_factor b p.

Definition beside_any (p0 : Z) (R : list Z) (a : Z) : Prop :=
  exists q, In q R /\ beside p0 q a.

(** The moduli p0 drives that are p0 itself or multiples of p0*p0. *)
Definition own (p0 a : Z) : Prop :=
  Coverage.driven_by T p0 a /\ (a = p0 \/ (p0 * p0 | a)).

(** What [process_subprimes] relies on for its prime p0: it is a cached
    prime with p0*p0 <= dmax, which the test of [main] against sqrt(dmax)
    is there for; the
    helpers tell that it is a prime with cube roots of k; and [pimaxp] at
    the bound dmax/p0 returns an index whose prime is not beyond p. *)
Record pinned_ok (H : Pinned.helpers) (p0 : Z) : Prop := {
  p0_cached : Coverage.cached T p0;
  p0_square : p0 * p0 <= dmax T;
  p0_next : Pinned.primes_next_prime H (u32 (p0 - 1)) = p0;
  p0_roots : Pinned.mod3 H p0 = 1 -> Pinned.has_cuberoots_modp H (K T) p0 = true;
  pimaxp_below : forall p, 0 <= pimaxp T p 1 (dmax T / p0) <= cpcnt T /\
    (pimaxp T p 1 (dmax T / p0) <> 0 -> cptab T (pimaxp T p 1 (dmax T / p0)) <= p)
}.

(** The pipe of a worker pinned to p0: increasing primes up to its end,
    which is not beyond p0. *)
Record subpipe_ok (p0 : Z) (pp : pipe) : Prop := {
  subpipe_sorted : StronglySorted Z.lt (pipe_primes pp);
  subpipe_prime : Forall Z.prime (pipe_primes pp);
  subpipe_within : Forall (fun p => p <= pipe_end pp) (pipe_primes pp);
  subpipe_end : pipe_end pp <= p0
}.

End Tables.

(** The tables of [T] with another [onezmod7]. *)
Definition with_onezmod7 (T : tables) (f : Z -> Z -> bool) : tables := {|
  K := K T; dmax := dmax T; pdmin := pdmin T; bpmin := bpmin T;
  zmax128 := zmax128 T; zmaxld := zmaxld T; ZSHORT := ZSHORT T; ZFEW := ZFEW T;
  fastceilboundl_div := fastceilboundl_div T; mod7 := mod7 T;
  above_sqrt_dmax := above_sqrt_dmax T; kdcnt := kdcnt T; kdtab := kdtab T;
  kdmax := kdmax T; k27ftab := k27ftab T; k27zs := k27zs T; km1 := km1 T; km := km T;
  kminv := kminv T; kmitab := kmitab T; kmztab := kmztab T;
  sgnz_index := sgnz_index T; onezmod7 := f; b32_red := b32_red T;
  crt7 := crt7 T; inv7 := inv7 T; b32_crt64 := b32_crt64 T;
  m64_inv_mod := m64_inv_mod T; fcrt64 := fcrt64 T; cpmax := cpmax T;
  cdmin := cdmin T; sdmin := sdmin T; sdmax := sdmax T; cpcnt := cpcnt T;
  sdcnt := sdcnt T; cptab := cptab T; pimaxp := pimaxp T;
  cached_cuberoots_e := cached_cuberoots_e T;
  cached_cuberoots_modq := cached_cuberoots_modq T;
  cuberoots_modq := cuberoots_modq T; cuberoots_modp := cuberoots_modp T;
  cdentry := cdentry T; cdtab := cdtab T; cdroots := cdroots T; sdtab := sdtab T;
  sdroots := sdroots T; sdinvs := sdinvs T;
  answer := answer T
|}.

(** Small tables for k = 2, where mod7(k*k) = 4 and the big-prime phase keeps
    the two lengths l and l7; [onezmod7] holds of the primes that are 6
    modulo 7. *)
Definition seven_bounds : Toy.bounds := {|
  Toy.t_k := 2; Toy.t_dmax := 100; Toy.t_zmax := 10000; Toy.t_cpmax := 10;
  Toy.t_cdmin := 20; Toy.t_sdmin := 34; Toy.t_pdmin := 51; Toy.t_bpmin := 60;
  Toy.t_kdivs := [2] |}.

Definition seven_tables : tables :=
  with_onezmod7 (Toy.toy seven_bounds Toy.accept_all) (fun p _ => p mod 7 =? 6).

End Behaviour.

(** * Verified properties *)

Lemma u64_small x : 0 <= x < 2 ^ 64 -> u64 x = x.
Proof. intros H. unfold u64. now apply Z.mod_small. Qed.

Lemma u32_small x : 0 <= x < 2 ^ 32 -> u32 x = x.
Proof. intros H. unfold u32. now apply Z.mod_small. Qed.

Lemma u64_range x : 0 <= u64 x < 2 ^ 64.
Proof. unfold u64. apply Z.mod_pos_bound. reflexivity. Qed.

Lemma u32_range x : 0 <= u32 x < 2 ^ 32.
Proof. unfold u32. apply Z.mod_pos_bound. reflexivity. Qed.

(** ** The supervisor *)

Section SupervisorFacts.
Import Supervisor SupervisorNotions.

Lemma main_after_usage E argv :
  7 <= argc_of argv -> 0 <= atoi E (arg argv 1) ->
  goodk E (atoi E (arg argv 2)) = true -> 0 <= atoi E (arg argv 2) ->
  strto64 E (arg argv 5) <= DMAX E ->
  exists m0, main E argv =
    match parse_bounds E argv (argc_of argv) (cores_of E argv) with
    | (m3, inr code) => (m0 ++ m3, Return code)
    | (m3, inl b) =>
        (m0 ++ m3 ++ fst (check_bounds E argv (argc_of argv) (cores_of E argv)
                            (atoi E (arg argv 2)) (strto64 E (arg argv 5)) b),
         snd (check_bounds E argv (argc_of argv) (cores_of E argv)
                (atoi E (arg argv 2)) (strto64 E (arg argv 5)) b))
    end.
Proof.
  intros Hc H1 Hk Hk0 Hd. unfold main. fold (argc_of argv).
  destruct (Z.ltb_spec (argc_of argv) 7); [lia|].
  destruct (Z.ltb_spec (atoi E (arg argv 1)) 0); [lia|].
  destruct (Z.ltb_spec (atoi E (arg argv 2)) 0); [lia|].
  rewrite Hk. cbn [negb orb].
  destruct (Z.gtb_spec (strto64 E (arg argv 5)) (DMAX E)); [lia|].
  fold (cores_of E argv).
  set (m1 := if profiling E && negb (atoi E (arg argv 1) =? 1) then [SettingCoresTo1] else []).
  match goal with |- context [ m1 ++ ?m ++ _ ] => set (m2 := m) end.
  exists (m1 ++ m2).
  destruct (parse_bounds E argv (argc_of argv) (cores_of E argv)) as [m3 [b|code]].
  - destruct (check_bounds _ _ _ _ _ _ b) as [m4 o]. cbn [fst snd].
    now rewrite <- !app_assoc.
  - now rewrite <- !app_assoc.
Qed.

Lemma parse_bounds_plain E argv argc cores :
  strchr_x (arg argv 3) = None ->
  parse_bounds E argv argc cores =
    let pmin := strto64 E (arg argv 3) in
    let pmax := strto64 E (arg argv 4) in
    if (cores >? 1) && (pmin =? pmax) && le_sqrt E pmax (strto64 E (arg argv 5))
    then ([], inl {| b_p0 := u32 pmin; b_pmin := 2; b_pmax := pmax |})
    else ([], inl {| b_p0 := 1; b_pmin := pmin; b_pmax := pmax |}).
Proof. intros H. unfold parse_bounds. now rewrite H. Qed.

(** Every way out of [main] before the bounds are parsed, other than the
    usage banner and the [cores] assertion, returns -1. *)
Lemma main_early_or_parsed E argv :
  7 <= argc_of argv -> 0 <= atoi E (arg argv 1) ->
  (exists m, main E argv = (m, Return (-1))) \/
  (exists m0, main E argv =
    match parse_bounds E argv (argc_of argv) (cores_of E argv) with
    | (m3, inr code) => (m0 ++ m3, Return code)
    | (m3, inl b) =>
        (m0 ++ m3 ++ fst (check_bounds E argv (argc_of argv) (cores_of E argv)
                            (atoi E (arg argv 2)) (strto64 E (arg argv 5)) b),
         snd (check_bounds E argv (argc_of argv) (cores_of E argv)
                (atoi E (arg argv 2)) (strto64 E (arg argv 5)) b))
    end).
Proof.
  intros Hc H1.
  destruct (Z.ltb (atoi E (arg argv 2)) 0 || negb (goodk E (atoi E (arg argv 2)))) eqn:Hk.
  - left. unfold main. fold (argc_of argv).
    destruct (Z.ltb_spec (argc_of argv) 7); [lia|].
    destruct (Z.ltb_spec (atoi E (arg argv 1)) 0); [lia|].
    rewrite Hk. eauto.
  - destruct (Z.gtb (strto64 E (arg argv 5)) (DMAX E)) eqn:Hd.
    + left. unfold main. fold (argc_of argv).
      destruct (Z.ltb_spec (argc_of argv) 7); [lia|].
      destruct (Z.ltb_spec (atoi E (arg argv 1)) 0); [lia|].
      rewrite Hk, Hd. eauto.
    + right. apply orb_false_elim in Hk as [Hk0 Hk1].
      apply negb_false_iff in Hk1. apply Z.ltb_ge in Hk0.
      apply main_after_usage; auto.
      destruct (Z.gtb_spec (strto64 E (arg argv 5)) (DMAX E)); [discriminate|lia].
Qed.

Lemma parse_bounds_code E argv argc cores m code :
  parse_bounds E argv argc cores = (m, inr code) -> code = -1.
Proof.
  unfold parse_bounds.
  repeat match goal with
         | |- context [match ?c with _ => _ end] => destruct c
         end; intros H; inversion H; reflexivity.
Qed.

(** C10, as the code has it: with argc < 7, that is fewer than six arguments
    after the program name, [main] prints the usage banner to stderr and
    returns 0, and does nothing else. *)
Theorem main_usage_when_argc_below_7 E argv :
  argc_of argv < 7 -> main E argv = ([Usage], Return 0).
Proof.
  intros H. unfold main. fold (argc_of argv).
  destruct (Z.ltb_spec (argc_of argv) 7); [reflexivity | lia].
Qed.

Lemma main_usage_when_argc_below_7_witness :
  argc_of ["zcubes"; "2"; "3"; "2"; "100"; "10000"]%string < 7 /\
  main (test_env 4) ["zcubes"; "2"; "3"; "2"; "100"; "10000"]%string = ([Usage], Return 0).
Proof.
  split; [reflexivity|].
  apply (main_usage_when_argc_below_7 (test_env 4)
           ["zcubes"; "2"; "3"; "2"; "100"; "10000"]%string).
  reflexivity.
Defined.

(** C10 as stated fails at six positional arguments (n k pmin pmax dmax
    zmax, fewer than seven): argc is 7, no banner is printed and the search
    is launched. *)
Lemma main_six_positional_arguments_run :
  (Z.of_nat (List.length (tl ["zcubes"; "1"; "3"; "2"; "100"; "10000"; "1000000000000"]%string)) <? 7) = true /\
  main (test_env 4) ["zcubes"; "1"; "3"; "2"; "100"; "10000"; "1000000000000"]%string
  = ([], Fork 1 Primes 2 100).
Proof. split; vm_compute; reflexivity. Qed.

Ltac case_if :=
  match goal with
  | |- context [if ?c then _ else _] => destruct c eqn:?
  end.

Lemma check_bounds_pass E argv argc cores p0 pmax :
  checks_pass E argv p0 pmax -> 1 < p0 -> profiling E = false ->
  snd (check_bounds E argv argc cores (atoi E (arg argv 2)) (strto64 E (arg argv 5))
         {| b_p0 := p0; b_pmin := 2; b_pmax := pmax |})
  = Fork cores (Subprimes p0) 2 pmax.
Proof.
  intros [] Hp0 Hprof. unfold check_bounds. cbn [b_p0 b_pmin b_pmax].
  destruct (Z.gtb_spec p0 1); [|lia].
  destruct (Z.eqb_spec (atoi E (arg argv 2) mod p0) 0); [contradiction|].
  change (2 <? 2) with false. cbn [andb].
  destruct (Z.ltb_spec pmax 2); [lia|].
  destruct (Z.gtb_spec (ui128_len E (strto128 E (arg argv 6))) (ZMAXBITS E)); [lia|].
  destruct (Z.ltb_spec (strto128 E (arg argv 6)) (ZMAX E)); [|lia].
  rewrite cp_zmaxld0, cp_sqrt0. cbn [negb orb].
  destruct (Z.ltb_spec (strto64 E (arg argv 5)) (u64 (p0 * pmax))); [lia|].
  destruct (Z.ltb_spec (strto128 E (arg argv 6)) (strto64 E (arg argv 5))); [lia|].
  rewrite cp_zmin0, cp_report0, Hprof. reflexivity.
Qed.

Lemma check_bounds_outcomes E argv argc cores k dmax b o :
  snd (check_bounds E argv argc cores k dmax b) = o ->
  o = Return (-1) \/ o = AssertFailed \/ o = ExitAfterPrecompute \/
  (o = ProfileRun /\ profiling E = true) \/
  o = Fork cores (if b_p0 b >? 1 then Subprimes (b_p0 b) else Primes)
        (if b_pmin b <? 2 then 2 else b_pmin b) (b_pmax b).
Proof.
  unfold check_bounds. intros <-.
  repeat (case_if; cbn [snd]; auto 6).
Qed.

Lemma check_bounds_pmax_below E argv argc cores k dmax b :
  b_p0 b = 1 -> b_pmax b < b_pmin b ->
  snd (check_bounds E argv argc cores k dmax b) = Return (-1).
Proof.
  intros H1 Hlt. unfold check_bounds. rewrite H1. change (1 >? 1) with false.
  cbn [andb].
  destruct (Z.ltb_spec (b_pmin b) 2);
    match goal with |- context [b_pmax b <? ?x] => destruct (Z.ltb_spec (b_pmax b) x) end;
    try reflexivity; lia.
Qed.

Lemma cores_of_profiling E argv : profiling E = true -> cores_of E argv = 1.
Proof.
  intros H. unfold cores_of. rewrite H. cbn [andb].
  destruct (Z.eqb_spec (atoi E (arg argv 1)) 1) as [->|]; reflexivity.
Qed.

(** C7, as the code has it.  With plain pmin = pmax = p, more than one worker
    and p <= sqrt(dmax) in the supervisor's double comparison, p0 is set to p
    and pmin to 2: the run can only end in an argument error, a failed
    assertion, the precompute checkpoint, or the fork of workers on the
    subprimes path, and it does fork them when the remaining checks pass.
    With plain pmin > pmax [main] returns -1. *)
Theorem main_plain_bounds_paths E argv :
  7 <= argc_of argv -> 0 <= atoi E (arg argv 1) ->
  strchr_x (arg argv 3) = None ->
  (forall p, strto64 E (arg argv 3) = p -> strto64 E (arg argv 4) = p ->
     1 < cores_of E argv -> le_sqrt E p (strto64 E (arg argv 5)) = true ->
     1 < u32 p ->
     (forall m o, main E argv = (m, o) ->
        o = Return (-1) \/ o = AssertFailed \/ o = ExitAfterPrecompute \/
        o = Fork (cores_of E argv) (Subprimes (u32 p)) 2 p) /\
     (checks_pass E argv (u32 p) p ->
        exists m, main E argv = (m, Fork (cores_of E argv) (Subprimes (u32 p)) 2 p)))
  /\
  (strto64 E (arg argv 4) < strto64 E (arg argv 3) ->
     exists m, main E argv = (m, Return (-1))).
Proof.
  intros Hc H1 Hx. split.
  - intros p Hmin Hmax Hcores Hsq Hp0.
    assert (Hpb : parse_bounds E argv (argc_of argv) (cores_of E argv)
                  = ([], inl {| b_p0 := u32 p; b_pmin := 2; b_pmax := p |})).
    { rewrite parse_bounds_plain by assumption. cbn zeta. rewrite Hmin, Hmax, Hsq.
      rewrite Z.eqb_refl. destruct (Z.gtb_spec (cores_of E argv) 1); [reflexivity|lia]. }
    assert (Hprof : profiling E = false).
    { destruct (profiling E) eqn:Hpr; [|reflexivity].
      rewrite (cores_of_profiling E argv Hpr) in Hcores. lia. }
    split.
    + intros m o Hm.
      destruct (main_early_or_parsed E argv Hc H1) as [[m' Hr]|[m0 Hr]];
        rewrite Hr in Hm.
      * inversion Hm. auto.
      * rewrite Hpb in Hm. injection Hm as _ Ho.
        apply check_bounds_outcomes in Ho. cbn [b_p0 b_pmin b_pmax] in Ho.
        destruct (Z.gtb_spec (u32 p) 1); [|lia]. change (2 <? 2) with false in Ho.
        destruct Ho as [?|[?|[?|[[_ Hpr]|?]]]]; try congruence; auto 6.
    + intros Hpass.
      destruct (main_after_usage E argv Hc H1 (cp_k_good _ _ _ _ Hpass)
                  (cp_k_pos _ _ _ _ Hpass) (cp_dmax _ _ _ _ Hpass)) as [m0 Hr].
      rewrite Hpb in Hr. rewrite Hr. eexists. f_equal.
      apply check_bounds_pass; assumption.
  - intros Hlt.
    destruct (main_early_or_parsed E argv Hc H1) as [[m' Hr]|[m0 Hr]]; [eauto|].
    rewrite parse_bounds_plain in Hr by assumption. cbn zeta in Hr.
    destruct (Z.eqb_spec (strto64 E (arg argv 3)) (strto64 E (arg argv 4))); [lia|].
    rewrite andb_false_r in Hr. cbn [andb] in Hr.
    rewrite check_bounds_pmax_below in Hr by (cbn; auto).
    eauto.
Qed.


Lemma main_plain_bounds_paths_witness :
  (exists m, main (test_env 4) argv_pinned = (m, Fork 2 (Subprimes 5) 2 5)) /\
  (exists m, main (test_env 4) argv_reversed = (m, Return (-1))).
Proof.
  split.
  - refine (proj2 (proj1 (main_plain_bounds_paths (test_env 4) argv_pinned _ _ _)
                     5 _ _ _ _ _) _).
    + vm_compute; congruence.
    + vm_compute; congruence.
    + reflexivity.
    + reflexivity.
    + reflexivity.
    + reflexivity.
    + reflexivity.
    + reflexivity.
    + constructor; vm_compute; congruence.
  - refine (proj2 (main_plain_bounds_paths (test_env 4) argv_reversed _ _ _) _).
    + vm_compute; congruence.
    + vm_compute; congruence.
    + reflexivity.
    + reflexivity.
Defined.

(** C7 as stated fails with a single worker: pmin = pmax = 5 is a prime below
    sqrt(49) and 5 does not divide k = 3, yet p0 stays 1 and the worker runs
    [process_primes] on [5,5]. *)
Lemma main_single_worker_not_pinned :
  strchr_x (arg ["zcubes"; "1"; "3"; "5"; "5"; "49"; "1000000"]%string 3) = None /\
  is_prime_b 5 = true /\ (5 * 5 <=? 49) = true /\
  main (test_env 4) ["zcubes"; "1"; "3"; "5"; "5"; "49"; "1000000"]%string
  = ([], Fork 1 Primes 5 5).
Proof. repeat split; vm_compute; reflexivity. Qed.

Lemma check_bounds_ignores_warning_tests E npp m3 hcr argv argc cores k dmax b :
  snd (check_bounds (with_warning_tests E npp m3 hcr) argv argc cores k dmax b)
  = snd (check_bounds E argv argc cores k dmax b).
Proof.
  unfold check_bounds. cbn [with_warning_tests atoi strto64 strto128 profiling
    reporting get_nprocs goodk DMAX ZMAXBITS ZMAX ui128_len primes_next_prime mod3
    has_cuberoots_modp le_sqrt zmaxld_above zmin_above_zmax report_phase_precompute].
  destruct ((b_p0 b >? 1) && (k mod b_p0 b =? 0)); [reflexivity|].
  destruct (b_pmax b <? (if b_pmin b <? 2 then 2 else b_pmin b)); [reflexivity|].
  destruct (ui128_len E (strto128 E (arg argv 6)) >? ZMAXBITS E); [reflexivity|].
  destruct (negb (strto128 E (arg argv 6) <? ZMAX E)); [reflexivity|].
  destruct (negb (zmaxld_above E (strto128 E (arg argv 6)))); [reflexivity|].
  destruct (negb (le_sqrt E (b_p0 b) dmax)); [reflexivity|].
  destruct ((false || (dmax <? u64 (b_p0 b * b_pmax b)) || (strto128 E (arg argv 6) <? dmax)));
    [reflexivity|].
  repeat (case_if; try reflexivity).
Qed.

Lemma parse_bounds_ignores_warning_tests E npp m3 hcr argv argc cores :
  parse_bounds (with_warning_tests E npp m3 hcr) argv argc cores
  = parse_bounds E argv argc cores.
Proof. reflexivity. Qed.

Lemma main_ignores_warning_tests E npp m3 hcr argv :
  snd (main (with_warning_tests E npp m3 hcr) argv) = snd (main E argv).
Proof.
  unfold main. rewrite parse_bounds_ignores_warning_tests.
  cbn [with_warning_tests atoi strto64 strto128 profiling
    reporting get_nprocs goodk DMAX ZMAXBITS ZMAX ui128_len primes_next_prime mod3
    has_cuberoots_modp le_sqrt zmaxld_above zmin_above_zmax report_phase_precompute].
  destruct (Z.of_nat (List.length argv) <? 7); [reflexivity|].
  destruct (atoi E (arg argv 1) <? 0); [reflexivity|].
  destruct ((atoi E (arg argv 2) <? 0) || negb (goodk E (atoi E (arg argv 2)))); [reflexivity|].
  destruct (strto64 E (arg argv 5) >? DMAX E); [reflexivity|].
  destruct (parse_bounds E argv _ _) as [m [b|c]]; [|reflexivity].
  match goal with
  | |- snd (let (_, _) := ?x in _) = snd (let (_, _) := ?y in _) =>
      pose proof (check_bounds_ignores_warning_tests E npp m3 hcr argv
                    (Z.of_nat (List.length argv))
                    (if (if profiling E && negb (atoi E (arg argv 1) =? 1) then 1
                         else atoi E (arg argv 1)) =? 0
                     then get_nprocs E
                     else if profiling E && negb (atoi E (arg argv 1) =? 1) then 1
                          else atoi E (arg argv 1))
                    (atoi E (arg argv 2)) (strto64 E (arg argv 5)) b) as Hcb;
      destruct x, y
  end.
  cbn [snd] in *. exact Hcb.
Qed.

Lemma check_bounds_warns_not_prime E argv argc cores k dmax b :
  1 < b_p0 b -> primes_next_prime E (b_p0 b - 1) <> b_p0 b ->
  In WarnP0NotPrime (fst (check_bounds E argv argc cores k dmax b)).
Proof.
  intros Hp Hn. unfold check_bounds.
  destruct (Z.gtb_spec (b_p0 b) 1); [|lia].
  destruct (Z.eqb_spec (primes_next_prime E (b_p0 b - 1)) (b_p0 b)); [contradiction|].
  cbn [andb negb].
  repeat (case_if; cbn [fst app]; try (left; reflexivity)).
Qed.

Lemma check_bounds_warns_no_cuberoots E argv argc cores k dmax b :
  1 < b_p0 b -> mod3 E (b_p0 b) = 1 -> has_cuberoots_modp E k (b_p0 b) = false ->
  In WarnNoCuberoots (fst (check_bounds E argv argc cores k dmax b)).
Proof.
  intros Hp H3 Hn. unfold check_bounds.
  destruct (Z.gtb_spec (b_p0 b) 1); [|lia].
  rewrite H3, Hn. change (1 =? 1) with true. cbn [andb negb].
  repeat (case_if; cbn [fst]; try (apply in_or_app; right; left; reflexivity)).
Qed.

Lemma parse_bounds_pinned_p0 E argv argc cores s m b :
  strchr_x (arg argv 3) = Some s ->
  parse_bounds E argv argc cores = (m, inl b) ->
  b_p0 b = u32 (atoi E (substring 0 s (arg argv 3))) /\ 1 < b_p0 b.
Proof.
  intros Hs. unfold parse_bounds. rewrite Hs.
  destruct (memcmp_differs _ _ _); [discriminate|].
  destruct (Z.ltb_spec (u32 (atoi E (substring 0 s (arg argv 3)))) 2); [discriminate|].
  destruct (_ >? _); [discriminate|].
  destruct (_ || _); [discriminate|].
  intros H'. injection H' as _ <-. cbn [b_p0]. split; [reflexivity|lia].
Qed.

(** C8, as the code has it.  In the P0xQ form, P0 dividing k is an argument
    error and [main] returns -1.  The primality of P0 and the existence of a
    cube root of k mod P0 have no influence on how [main] ends: when they fail
    and the run reaches lines 561-562, a warning is printed and validation
    goes on. *)
Theorem main_pinned_form_requirements E argv s :
  7 <= argc_of argv -> 0 <= atoi E (arg argv 1) ->
  strchr_x (arg argv 3) = Some s ->
  let p0 := u32 (atoi E (substring 0 s (arg argv 3))) in
  let k := atoi E (arg argv 2) in
  (k mod p0 = 0 -> exists m, main E argv = (m, Return (-1))) /\
  (forall npp m3 hcr,
     snd (main (with_warning_tests E npp m3 hcr) argv) = snd (main E argv)) /\
  (goodk E k = true -> 0 <= k -> strto64 E (arg argv 5) <= DMAX E ->
   (exists m b, parse_bounds E argv (argc_of argv) (cores_of E argv) = (m, inl b)) ->
   (primes_next_prime E (p0 - 1) <> p0 -> In WarnP0NotPrime (fst (main E argv))) /\
   (mod3 E p0 = 1 -> has_cuberoots_modp E k p0 = false ->
      In WarnNoCuberoots (fst (main E argv)))).
Proof.
  intros Hc H1 Hs p0 k. split; [|split].
  - intros Hdiv.
    destruct (main_early_or_parsed E argv Hc H1) as [[m' Hr]|[m0 Hr]]; [eauto|].
    destruct (parse_bounds E argv (argc_of argv) (cores_of E argv)) as [m3 [b|code]] eqn:Hpb.
    + destruct (parse_bounds_pinned_p0 _ _ _ _ _ _ _ Hs Hpb) as [Hb Hgt].
      rewrite Hr. eexists. f_equal. unfold check_bounds.
      destruct (Z.gtb_spec (b_p0 b) 1); [|lia].
      rewrite Hb. fold p0. fold k. rewrite Hdiv. reflexivity.
    + rewrite (parse_bounds_code _ _ _ _ _ _ Hpb) in Hr. eauto.
  - intros. apply main_ignores_warning_tests.
  - intros Hk Hk0 Hd (m3 & b & Hpb).
    destruct (main_after_usage E argv Hc H1 Hk Hk0 Hd) as [m0 Hr].
    rewrite Hpb in Hr.
    destruct (parse_bounds_pinned_p0 _ _ _ _ _ _ _ Hs Hpb) as [Hb Hgt].
    fold p0 in Hb. split.
    + intros Hnp. rewrite Hr. cbn [fst]. apply in_or_app. right. apply in_or_app. right.
      apply check_bounds_warns_not_prime; [assumption|]. now rewrite Hb.
    + intros H3 Hn. rewrite Hr. cbn [fst]. apply in_or_app. right. apply in_or_app. right.
      apply check_bounds_warns_no_cuberoots; [assumption| |]; now rewrite Hb.
Qed.


Lemma main_pinned_form_requirements_witness :
  (exists m, main (test_env 4) argv_p0_divides_k = (m, Return (-1))) /\
  In WarnP0NotPrime (fst (main (test_env 4) argv_p0_composite)).
Proof.
  split.
  - refine (proj1 (main_pinned_form_requirements (test_env 4) argv_p0_divides_k 2%nat
                     _ _ _) _).
    + vm_compute; congruence.
    + vm_compute; congruence.
    + reflexivity.
    + reflexivity.
  - refine (proj1 (proj2 (proj2 (main_pinned_form_requirements (test_env 4)
                     argv_p0_composite 1%nat _ _ _)) _ _ _ _) _).
    + vm_compute; congruence.
    + vm_compute; congruence.
    + reflexivity.
    + reflexivity.
    + vm_compute; congruence.
    + vm_compute; congruence.
    + eexists. eexists. vm_compute. reflexivity.
    + vm_compute; congruence.
Defined.

(** C8 as stated fails for a composite P0 and for a P0 = 1 mod 3 modulo which
    k has no cube root: [main] prints a warning and forks the workers. *)
Lemma main_pinned_composite_or_rootless_p0_forks :
  is_prime_b 4 = false /\
  main (test_env 4) ["zcubes"; "2"; "3"; "4x2"; "4x3"; "100"; "1000000"]%string
  = ([WarnP0NotPrime], Fork 2 (Subprimes 4) 2 3) /\
  has_root_b 3 7 = false /\
  main (test_env 4) ["zcubes"; "2"; "3"; "7x2"; "7x3"; "100"; "1000000"]%string
  = ([WarnNoCuberoots], Fork 2 (Subprimes 7) 2 3).
Proof. repeat split; vm_compute; reflexivity. Qed.

End SupervisorFacts.

(** ** Derived thresholds *)

Section PrecomputeFacts.
Import Precompute.

(** C9, as the code has it: pdmin is 1 + dmax/m, with m the smaller of kdmin
    and cptab[1] (cptab[1] alone when kdmin is 0), raised to k+1 when that
    value is at most k. *)
Theorem precompute_pdmin_clamped k dmax kdmin cptab1 :
  0 <= k < 2 ^ 32 - 1 -> 0 <= dmax < 2 ^ 63 -> 0 <= kdmin -> 0 < cptab1 ->
  precompute_pdmin k dmax kdmin cptab1
  = Some (Z.max (k + 1)
            (1 + dmax / (if kdmin =? 0 then cptab1 else Z.min kdmin cptab1))).
Proof.
  intros Hk Hd Hkd Hc. unfold precompute_pdmin.
  set (m := if kdmin =? 0 then cptab1 else Z.min kdmin cptab1).
  assert (Hm : 0 < m).
  { unfold m. destruct (Z.eqb_spec kdmin 0); lia. }
  destruct (Z.eqb_spec m 0); [lia|].
  assert (Hq : 0 <= dmax / m <= dmax).
  { split; [apply Z.div_pos; lia|]. apply Z.div_le_upper_bound; nia. }
  assert (2 ^ 63 < 2 ^ 64) by reflexivity.
  rewrite (u64_small (1 + dmax / m)) by lia.
  assert (2 ^ 32 < 2 ^ 64) by reflexivity.
  rewrite (u32_small (k + 1)) by lia.
  rewrite (u64_small (k + 1)) by lia.
  destruct (Z.leb_spec (1 + dmax / m) k); f_equal; lia.
Qed.

Lemma precompute_pdmin_clamped_witness :
  precompute_pdmin 3 49 3 2 = Some (Z.max (3 + 1) (1 + 49 / (if 3 =? 0 then 2 else Z.min 3 2))).
Proof.
  apply (precompute_pdmin_clamped 3 49 3 2); lia.
Defined.

(** C9 as stated fails when dmax is small against k: for k = 33, dmax = 49
    the quotient formula gives 25, the code leaves pdmin = 34. *)
Lemma precompute_pdmin_not_quotient :
  precompute_pdmin 33 49 3 2 = Some 34 /\ 1 + 49 / Z.min 3 2 = 25.
Proof. split; reflexivity. Qed.

(** The same for every content of the tables with entries of at least 2. *)
Lemma precompute_pdmin_not_quotient_any_tables kdmin cptab1 :
  kdmin = 0 \/ 2 <= kdmin -> 2 <= cptab1 ->
  precompute_pdmin 33 49 kdmin cptab1 = Some 34 /\
  1 + 49 / (if kdmin =? 0 then cptab1 else Z.min kdmin cptab1) <> 34.
Proof.
  intros Hk Hc.
  set (q := if kdmin =? 0 then cptab1 else Z.min kdmin cptab1).
  assert (2 <= q) by (unfold q; destruct (Z.eqb_spec kdmin 0); lia).
  assert (49 / q <= 24).
  { apply Z.lt_succ_r. apply Z.div_lt_upper_bound; lia. }
  assert (0 <= 49 / q) by (apply Z.div_pos; lia).
  split; [|lia].
  rewrite precompute_pdmin_clamped by lia. fold q. f_equal. lia.
Qed.

End PrecomputeFacts.

(** ** Runs of a worker: what a computation adds to the calls made so far *)

Section Runs.
Import Worker Notions.

Lemma emits_weaken {A} (P P' : list call -> Prop) (m : M A) :
  (forall t, P t -> P' t) -> emits P m -> emits P' m.
Proof.
  intros HP Hm h r h' Hrun. destruct (Hm h r h' Hrun) as (t & Ht & HPt). eauto.
Qed.

Lemma emits_ret {A} (P : list call -> Prop) (a : A) : P [] -> emits P (ret a).
Proof. intros HP h r h' Hrun. inversion Hrun. exists []. auto. Qed.

Lemma emits_halt {A} (P : list call -> Prop) s : P [] -> emits P (@halt A s).
Proof. intros HP h r h' Hrun. inversion Hrun. exists []. auto. Qed.

Lemma emits_emit (P : list call -> Prop) c : P [c] -> emits P (emit c).
Proof. intros HP h r h' Hrun. inversion Hrun. exists [c]. auto. Qed.

Lemma emits_ask T (P : list call -> Prop) c : P [c] -> emits P (ask T c).
Proof. intros HP h r h' Hrun. inversion Hrun. exists [c]. auto. Qed.

Lemma emits_bind {A B} (P1 P2 P : list call -> Prop) (m : M A) (f : A -> M B) :
  emits P1 m -> (forall a, emits P2 (f a)) ->
  (forall t1 t2, P1 t1 -> P2 t2 -> P (t1 ++ t2)) ->
  (forall t1, P1 t1 -> P t1) ->
  emits P (bind m f).
Proof.
  intros Hm Hf Happ Hstop h r h' Hrun. unfold bind in Hrun.
  destruct (m h) as [[a|s] h1] eqn:Hmh.
  - destruct (Hm _ _ _ Hmh) as (t1 & -> & H1).
    destruct (Hf a _ _ _ Hrun) as (t2 & -> & H2).
    exists (t1 ++ t2). split; [|auto]. now rewrite rev_app_distr, app_assoc.
  - inversion Hrun; subst. destruct (Hm _ _ _ Hmh) as (t1 & -> & H1). eauto.
Qed.

Lemma quiet_ret {A} Q (a : A) : quiet Q (ret a).
Proof. apply emits_ret. constructor. Qed.

Lemma quiet_halt {A} Q s : quiet Q (@halt A s).
Proof. apply emits_halt. constructor. Qed.

Lemma quiet_emit (Q : call -> Prop) c : Q c -> quiet Q (emit c).
Proof. intros. apply emits_emit. auto. Qed.

Lemma quiet_ask T (Q : call -> Prop) c : Q c -> quiet Q (ask T c).
Proof. intros. apply emits_ask. auto. Qed.

Lemma quiet_bind {A B} Q (m : M A) (f : A -> M B) :
  quiet Q m -> (forall a, quiet Q (f a)) -> quiet Q (bind m f).
Proof.
  intros Hm Hf. apply (emits_bind (Forall Q) (Forall Q)); auto.
  intros. apply Forall_app. auto.
Qed.

Lemma quiet_for_each {A} Q (l : list A) (f : A -> M unit) :
  (forall a, In a l -> quiet Q (f a)) -> quiet Q (for_each l f).
Proof.
  induction l as [|a l IH]; intros Hf; cbn [for_each].
  - apply quiet_ret.
  - apply quiet_bind; [apply Hf; now left|]. intros _. apply IH.
    intros. apply Hf. now right.
Qed.

Lemma quiet_weaken {A} (Q Q' : call -> Prop) (m : M A) :
  (forall c, Q c -> Q' c) -> quiet Q m -> quiet Q' m.
Proof.
  intros HQ. apply emits_weaken. intros t Ht. eapply Forall_impl; eauto.
Qed.

Lemma quiet_phase_loop {L} Q (cond : Z -> bool) (body : L -> Z -> M L) st p rest :
  (forall st p, cond p = true -> quiet Q (body st p)) ->
  quiet Q (phase_loop cond body st p rest).
Proof.
  intros Hb. revert st p. induction rest as [|p' rest IH]; intros st p; cbn [phase_loop].
  - destruct (cond p) eqn:Hc; [|apply quiet_ret].
    apply quiet_bind; [now apply Hb|]. intros st'.
    destruct (cond END_OF_PIPE); [apply quiet_halt|apply quiet_ret].
  - destruct (cond p) eqn:Hc; [|apply quiet_ret].
    apply quiet_bind; [now apply Hb|]. intros st'. apply IH.
Qed.

End Runs.

(** ** The calls of the dispatcher and of the enumerator *)

Section WorkerCalls.
Import Worker Notions.
Variable T : tables.
Variable Q : call -> Prop.

Hypothesis HQ : forall c, dispatch_call c = true -> Q c.

Ltac quiet_step :=
  first [ apply quiet_ret | apply quiet_halt
        | apply quiet_emit; apply HQ; reflexivity
        | apply quiet_ask; apply HQ; reflexivity
        | apply quiet_bind; [|intros ?]
        | match goal with |- quiet _ (if ?c then _ else _) => destruct c end ].

Lemma quiet_procd ki a za ca : quiet Q (procd T ki a za ca).
Proof. unfold procd. repeat quiet_step. Qed.

Lemma quiet_procdcoprime d z c : quiet Q (procdcoprime T d z c).
Proof. unfold procdcoprime. repeat quiet_step. Qed.

Lemma quiet_procdbigprime d z c si mi l : quiet Q (procdbigprime T d z c si mi l).
Proof. unfold procdbigprime. repeat quiet_step. Qed.

Lemma quiet_prockd_loop fuel i d zd n : quiet Q (prockd_loop T fuel i d zd n).
Proof.
  revert i. induction fuel as [|fuel IH]; intros i; cbn [prockd_loop];
    destruct (d <=? kdmax T i); try apply quiet_ret; try apply quiet_halt.
  apply quiet_bind; [apply quiet_procd|]. intros _. apply IH.
Qed.

Lemma quiet_prockd d zd n : Q (enter_prockd d zd n) -> quiet Q (prockd T d zd n).
Proof.
  intros Hd. unfold prockd.
  apply quiet_bind; [now apply quiet_emit|]. intros _.
  apply quiet_bind; [apply quiet_procdcoprime|]. intros _.
  apply quiet_prockd_loop.
Qed.

End WorkerCalls.

Section EnumeratorCalls.
Import Worker Notions.
Variable T : tables.
Variable Q : call -> Prop.

Hypothesis HQ : forall c, enumerator_call c = true -> Q c.

Lemma HQ_dispatch : forall c, dispatch_call c = true -> Q c.
Proof. intros c Hc. apply HQ. destruct c; try discriminate; reflexivity. Qed.

Lemma quiet_prockd_any d zd n : quiet Q (prockd T d zd n).
Proof. apply quiet_prockd; [apply HQ_dispatch|now apply HQ]. Qed.

Lemma quiet_enumcd_scan x first d p zd queue :
  quiet Q (enumcd_scan T x first d p zd queue).
Proof.
  assert (Hitems : forall q, quiet Q (for_each (rev q) (enumcd_item T d zd))).
  { intros q. apply quiet_for_each. intros. apply quiet_prockd_any. }
  revert first queue. induction x as [|x IH]; intros first queue; cbn [enumcd_scan].
  - destruct (negb first && _); [apply quiet_halt|].
    destruct (_ =? 0); [apply Hitems|].
    apply quiet_bind.
    { destruct (_ =? IBATCH); [|apply quiet_ret].
      apply quiet_bind; [apply Hitems|]. intros. apply quiet_ret. }
    intros q1. apply quiet_bind; [|intros; apply quiet_halt].
    destruct (_ <=? _).
    + apply quiet_bind; [apply quiet_prockd_any|]. intros. apply quiet_ret.
    + destruct (_ <? _); [apply quiet_ret|apply quiet_halt].
  - destruct (negb first && _); [apply IH|].
    destruct (_ =? 0); [apply Hitems|].
    apply quiet_bind.
    { destruct (_ =? IBATCH); [|apply quiet_ret].
      apply quiet_bind; [apply Hitems|]. intros. apply quiet_ret. }
    intros q1. apply quiet_bind; [|intros; apply IH].
    destruct (_ <=? _).
    + apply quiet_bind; [apply quiet_prockd_any|]. intros. apply quiet_ret.
    + destruct (_ <? _); [apply quiet_ret|apply quiet_halt].
Qed.

Lemma quiet_enumcd d p zd : quiet Q (enumcd T d p zd).
Proof.
  unfold enumcd. destruct (cdentry T _ _ _); [apply quiet_enumcd_scan|apply quiet_ret].
Qed.

Lemma quiet_enumd_loop fuel item d pi q e queue :
  (forall it, quiet Q (item it)) ->
  quiet Q (enumd_loop T fuel item d pi q e queue).
Proof.
  intros Hitem.
  assert (Hitems : forall q, quiet Q (for_each (rev q) item)).
  { intros q0. apply quiet_for_each. intros. apply Hitem. }
  revert pi q e queue. induction fuel as [|fuel IH]; intros pi q e queue;
    cbn [enumd_loop]; [apply quiet_halt|].
  destruct (pi =? 0); [apply Hitems|].
  apply quiet_bind.
  { destruct (_ =? IBATCH); [|apply quiet_ret].
    apply quiet_bind; [apply Hitems|]. intros. apply quiet_ret. }
  intros q1. destruct (_ >? _); apply IH.
Qed.

Lemma quiet_enumd depth d p zd : quiet Q (enumd T depth d p zd).
Proof.
  revert d p zd. induction depth as [|depth IH]; intros d p zd; cbn [enumd];
    [apply quiet_halt|].
  destruct (_ >=? _); [apply quiet_enumcd|].
  destruct (_ =? 0); [apply quiet_ret|].
  apply quiet_enumd_loop. intros [[a pi] e]. unfold enumd_item.
  apply quiet_bind; [apply quiet_prockd_any|]. intros _.
  destruct (_ >=? _); [apply quiet_enumcd|apply IH].
Qed.

End EnumeratorCalls.

(** ** Runs with a result *)

Section RunsWithResult.
Import Worker Notions.

Lemma quietR_ret {A} Q (R : A -> Prop) a : R a -> quietR Q R (ret a).
Proof.
  intros HR h r h' Hrun. inversion Hrun; subst. exists []. repeat split; [constructor|].
  intros a' Heq. injection Heq as <-. exact HR.
Qed.

Lemma quietR_halt {A} Q (R : A -> Prop) s : quietR Q R (halt s).
Proof.
  intros h r h' Hrun. inversion Hrun; subst. exists []. repeat split; [constructor|].
  intros a' Heq. discriminate.
Qed.

Lemma quietR_bind {A B} Q (R1 : A -> Prop) (R2 : B -> Prop) (m : M A) (f : A -> M B) :
  quietR Q R1 m -> (forall a, R1 a -> quietR Q R2 (f a)) -> quietR Q R2 (bind m f).
Proof.
  intros Hm Hf h r h' Hrun. unfold bind in Hrun.
  destruct (m h) as [[a|s] h1] eqn:Hmh; destruct (Hm _ _ _ Hmh) as (t1 & -> & Ht1 & HR).
  - destruct (Hf a (HR a eq_refl) _ _ _ Hrun) as (t2 & -> & Ht2 & HR2).
    exists (t1 ++ t2). split; [now rewrite rev_app_distr, app_assoc|].
    split; [apply Forall_app; auto|assumption].
  - inversion Hrun; subst. exists t1. repeat split; auto. discriminate.
Qed.

Lemma quietR_quiet {A} Q (R : A -> Prop) (m : M A) : quietR Q R m -> quiet Q m.
Proof.
  intros Hm h r h' Hrun. destruct (Hm _ _ _ Hrun) as (t & Ht & HQ & _). eauto.
Qed.

Lemma quiet_quietR {A} Q (m : M A) : quiet Q m -> quietR Q (fun _ => True) m.
Proof.
  intros Hm h r h' Hrun. destruct (Hm _ _ _ Hrun) as (t & Ht & HQ). eauto.
Qed.

Lemma quietR_then {A B} Q (R : B -> Prop) (m : M A) (k : M B) :
  quiet Q m -> quietR Q R k -> quietR Q R (bind m (fun _ => k)).
Proof.
  intros Hm Hk. apply (quietR_bind Q (fun _ => True)); [now apply quiet_quietR|auto].
Qed.

(** The walk of [enumcd]: when the entries it visits are [good] and the two
    ways to process a good entry make calls in [Q], so does the walk. *)
Lemma quiet_enumcd_scan_entries T Q (good : cdrec -> Prop) x first d p zd queue :
  (forall e, good e -> quiet Q (enumcd_item T d zd e)) ->
  (forall e, good e -> cd_d e <= sdmax T -> quiet Q (enumcd_small T d zd e)) ->
  (forall x', (x' <= x)%nat -> cd_d (cdtab T x') <> 0 ->
     (first = true /\ x' = x) \/ cd_p (cdtab T x') < p -> good (cdtab T x')) ->
  Forall good queue ->
  quiet Q (enumcd_scan T x first d p zd queue).
Proof.
  intros Hitem Hsmall. revert first queue.
  assert (Hitems : forall q, Forall good q ->
            quiet Q (for_each (rev q) (enumcd_item T d zd))).
  { intros q Hq. apply quiet_for_each. intros e He. apply Hitem.
    rewrite Forall_forall in Hq. apply Hq. now apply in_rev. }
  assert (Hbody : forall e first (next : list cdrec -> M unit) queue,
            (cd_d e <> 0 -> (negb first && (cd_p e >=? p)) = false -> good e) ->
            (forall q, Forall good q -> quiet Q (next q)) ->
            Forall good queue ->
            quiet Q (if negb first && (cd_p e >=? p) then next queue
                     else if cd_d e =? 0 then for_each (rev queue) (enumcd_item T d zd)
                     else
                       queue1 <- (if count queue =? IBATCH
                                  then for_each (rev queue) (enumcd_item T d zd) ;;; ret []
                                  else ret queue) ;;
                       queue2 <- (if cd_d e <=? sdmax T
                                  then enumcd_small T d zd e ;;; ret queue1
                                  else if d <? sdmin T then ret (e :: queue1)
                                       else halt Unspecified) ;;
                       next queue2)).
  { intros e first next queue Hgood Hnext Hqueue.
    destruct (negb first && (cd_p e >=? p)) eqn:Hskip; [now apply Hnext|].
    destruct (Z.eqb_spec (cd_d e) 0) as [H0|H0]; [now apply Hitems|].
    specialize (Hgood H0 eq_refl).
    apply (quietR_quiet Q (fun _ => True)).
    apply (quietR_bind Q (Forall good)).
    { destruct (_ =? IBATCH).
      - apply quietR_then; [now apply Hitems|]. apply quietR_ret. constructor.
      - now apply quietR_ret. }
    intros q1 Hq1. apply (quietR_bind Q (Forall good)).
    { destruct (Z.leb_spec (cd_d e) (sdmax T)).
      - apply quietR_then; [now apply Hsmall|]. now apply quietR_ret.
      - destruct (_ <? _); [|apply quietR_halt]. apply quietR_ret. now constructor. }
    intros q2 Hq2. apply quiet_quietR. now apply Hnext. }
  induction x as [|x IH]; intros first queue Hbelow Hqueue; cbn [enumcd_scan].
  - apply (Hbody (cdtab T 0) first (fun _ => halt Unspecified) queue); auto.
    + intros Hnz Hskip. apply Hbelow; auto.
      destruct first; [now left|right]. cbn in Hskip.
      destruct (Z.geb_spec (cd_p (cdtab T 0)) p); [discriminate|assumption].
    + intros. apply quiet_halt.
  - apply (Hbody (cdtab T (S x)) first (fun q => enumcd_scan T x false d p zd q) queue);
      auto.
    + intros Hnz Hskip. apply Hbelow; auto.
      destruct first; [now left|right]. cbn in Hskip.
      destruct (Z.geb_spec (cd_p (cdtab T (S x))) p); [discriminate|assumption].
    + intros q Hq. apply IH; auto. intros x' Hle Hnz [[Hf _]|Hp]; [discriminate|].
      apply Hbelow; auto.
Qed.

End RunsWithResult.

(** ** The phase driver: the calls of [report_phase] *)

Section PhaseOrder.
Import Worker Notions.
Variable T : tables.

Lemma phases_of_app t1 t2 : phases_of (t1 ++ t2) = phases_of t1 ++ phases_of t2.
Proof. unfold phases_of. apply flat_map_app. Qed.

Lemma phases_of_per_prime t : Forall per_prime t -> phases_of t = [].
Proof.
  induction 1 as [|c t Hc _ IH]; [reflexivity|].
  destruct c; try discriminate Hc; exact IH.
Qed.

Lemma per_prime_enumerator c : enumerator_call c = true -> per_prime c.
Proof. destruct c; try discriminate; reflexivity. Qed.

Lemma per_prime_dispatch c : dispatch_call c = true -> per_prime c.
Proof. destruct c; try discriminate; reflexivity. Qed.

Local Hint Resolve per_prime_enumerator per_prime_dispatch : core.

Ltac per_prime_step :=
  first [ apply quiet_ret | apply quiet_halt
        | apply quiet_prockd_any; solve [auto]
        | apply quiet_enumd; solve [auto]
        | apply quiet_enumcd; solve [auto]
        | apply quiet_procdcoprime; solve [auto]
        | apply quiet_procdbigprime; solve [auto]
        | apply quiet_ask; reflexivity
        | apply quiet_for_each; intros ? ?
        | apply quiet_bind; [|intros ?]
        | match goal with
          | |- quiet _ (if ?c then _ else _) => destruct c
          | |- quiet _ (match ?x with _ => _ end) => destruct x
          end
        | progress cbv zeta ].

Lemma quiet_with_roots {L} (st : L) p k :
  (forall z n, quiet per_prime (k z n)) -> quiet per_prime (with_roots T st p k).
Proof. intros Hk. unfold with_roots. repeat first [apply Hk | per_prime_step]. Qed.

Lemma quiet_cached_body pi p : quiet per_prime (cached_body T pi p).
Proof. unfold cached_body. repeat per_prime_step. Qed.

Lemma quiet_uncached_body st p : quiet per_prime (uncached_body T st p).
Proof. apply quiet_with_roots. intros. repeat per_prime_step. Qed.

Lemma quiet_cocached_body st p : quiet per_prime (cocached_body T st p).
Proof. apply quiet_with_roots. intros. repeat per_prime_step. Qed.

Lemma quiet_nearprime_body st p : quiet per_prime (nearprime_body T st p).
Proof. apply quiet_with_roots. intros. repeat per_prime_step. Qed.

Lemma quiet_prime_body st p : quiet per_prime (prime_body T st p).
Proof. apply quiet_with_roots. intros. repeat per_prime_step. Qed.

Lemma quiet_bigprime_body mi m pmax st p :
  quiet per_prime (bigprime_body T mi m pmax st p).
Proof. apply quiet_with_roots. intros. repeat per_prime_step. Qed.

Lemma quiet_bigprime7_body mi m mi7 m7 pmax st p :
  quiet per_prime (bigprime7_body T mi m mi7 m7 pmax st p).
Proof. apply quiet_with_roots. intros. repeat per_prime_step. Qed.

Lemma quiet_done p pmax : quiet per_prime (done p pmax).
Proof. unfold done. repeat per_prime_step. Qed.

Lemma reports_quiet {A} l (m : M A) : quiet per_prime m -> reports l m.
Proof.
  apply emits_weaken. intros t Ht. exists 0%nat. now apply phases_of_per_prime.
Qed.

Lemma reports_bind_quiet {A B} l (m : M A) (f : A -> M B) :
  quiet per_prime m -> (forall a, reports l (f a)) -> reports l (bind m f).
Proof.
  intros Hm Hf.
  apply (emits_bind (Forall per_prime) (fun t => exists n, phases_of t = firstn n l)); auto.
  - intros t1 t2 H1 [n H2]. exists n.
    now rewrite phases_of_app, (phases_of_per_prime _ H1).
  - intros t1 H1. exists 0%nat. now apply phases_of_per_prime.
Qed.

Lemma reports_ask {B} ph l (f : bool -> M B) :
  (forall a, reports l (f a)) -> reports (ph :: l) (bind (ask T (report_phase ph)) f).
Proof.
  intros Hf.
  apply (emits_bind (fun t => t = [report_phase ph])
           (fun t => exists n, phases_of t = firstn n l)); auto.
  - now apply emits_ask.
  - intros t1 t2 -> [n H2]. exists (S n). cbn. now rewrite <- H2.
  - intros t1 ->. now exists 1%nat.
Qed.

Lemma reports_phase6 p pmax rest : reports [PHASE_BIGPRIME] (phase6 T p pmax rest).
Proof.
  unfold phase6. apply reports_bind_quiet.
  - destruct (negb _); apply quiet_bind;
      try (intros; apply quiet_ret); apply quiet_phase_loop; intros.
    + apply quiet_bigprime_body.
    + apply quiet_bigprime7_body.
  - intros r. apply reports_ask. intros _. apply reports_quiet, quiet_done.
Qed.

Ltac phase_step next body :=
  apply reports_bind_quiet;
  [ apply quiet_phase_loop; intros; apply body
  | intros [[? ?] ?]; apply reports_ask; intros _;
    destruct (_ >? _); [apply reports_quiet, quiet_done | apply next] ].

Lemma reports_phase5 p pmax rest :
  reports [PHASE_PRIME; PHASE_BIGPRIME] (phase5 T p pmax rest).
Proof. unfold phase5. phase_step reports_phase6 quiet_prime_body. Qed.

Lemma reports_phase4 p pmax rest :
  reports [PHASE_NEARPRIME; PHASE_PRIME; PHASE_BIGPRIME] (phase4 T p pmax rest).
Proof. unfold phase4. phase_step reports_phase5 quiet_nearprime_body. Qed.

Lemma reports_phase3 p pmax rest :
  reports [PHASE_COCACHED; PHASE_NEARPRIME; PHASE_PRIME; PHASE_BIGPRIME]
    (phase3 T p pmax rest).
Proof. unfold phase3. phase_step reports_phase4 quiet_cocached_body. Qed.

Lemma reports_phase2 p pmax rest :
  reports [PHASE_UNCACHED; PHASE_COCACHED; PHASE_NEARPRIME; PHASE_PRIME; PHASE_BIGPRIME]
    (phase2 T p pmax rest).
Proof. unfold phase2. phase_step reports_phase3 quiet_uncached_body. Qed.

Lemma reports_process_primes pp : reports six_phases (process_primes T pp).
Proof.
  unfold process_primes. destruct (read_pipe _) as [p rest].
  destruct (_ >? _); [apply reports_quiet, quiet_ret|].
  apply reports_bind_quiet.
  - destruct (_ <=? _); [|apply quiet_ret].
    apply quiet_bind; [|intros; apply quiet_ret].
    apply quiet_phase_loop. intros. apply quiet_cached_body.
  - intros [p' rest']. apply reports_ask. intros ok.
    destruct (negb ok); [apply reports_quiet, quiet_done|].
    destruct (_ >? _); [apply reports_quiet, quiet_done|].
    destruct (negb _); [apply reports_quiet, quiet_halt|].
    destruct (negb _); [apply reports_quiet, quiet_halt|].
    apply reports_phase2.
Qed.

Lemma first_phases_increase n :
  StronglySorted Z.lt (map phase_id (firstn n six_phases)).
Proof.
  do 7 (destruct n as [|n]; [cbn; repeat constructor|]).
  cbn. repeat constructor.
Qed.

Lemma first_phases_nodup n : NoDup (firstn n six_phases).
Proof.
  do 7 (destruct n as [|n];
        [cbn; repeat constructor; cbn; intuition discriminate|]).
  cbn; repeat constructor; cbn; intuition discriminate.
Qed.

(** C6: in one execution of [process_primes], whatever the tables, the pipe
    and the calls made before, the phases passed to [report_phase] are the
    first ones of PHASE_CACHED, PHASE_UNCACHED, PHASE_COCACHED,
    PHASE_NEARPRIME, PHASE_PRIME, PHASE_BIGPRIME, in that order: the ids are
    strictly increasing and no phase is reported twice. *)
Theorem process_primes_reports_increasing_phases pp h :
  exists t, snd (process_primes T pp h) = rev t ++ h /\
    (exists n, phases_of t = firstn n six_phases) /\
    StronglySorted Z.lt (map phase_id (phases_of t)) /\
    NoDup (phases_of t).
Proof.
  destruct (process_primes T pp h) as [r h'] eqn:Hrun.
  destruct (reports_process_primes pp h r h' Hrun) as (t & -> & n & Hn).
  exists t. cbn [snd]. split; [reflexivity|]. split; [eauto|].
  rewrite Hn. split; [apply first_phases_increase | apply first_phases_nodup].
Qed.

End PhaseOrder.

(** ** The phase driver: which answers of the reporter it uses *)

Section ReporterAnswers.
Import Worker Notions.
Variable T : tables.

Local Abbreviation with_answer := (Notions.with_answer T).

Variable a : list call -> call -> bool.
Hypothesis Ha : forall h c, later_phase_report c = false -> a h c = answer T h c.

Ltac same_tables :=
  cbn [with_answer K dmax pdmin bpmin zmax128 zmaxld ZSHORT ZFEW fastceilboundl_div
       mod7 above_sqrt_dmax kdcnt kdtab kdmax k27ftab k27zs km1 km kminv kmitab kmztab
       sgnz_index onezmod7 b32_red crt7 inv7 b32_crt64 m64_inv_mod fcrt64 cpmax cdmin
       sdmin sdmax cpcnt sdcnt cptab pimaxp cached_cuberoots_e cached_cuberoots_modq
       cuberoots_modq cuberoots_modp cdentry cdtab cdroots sdtab sdroots sdinvs].

Lemma bind_ext {A B} (m m' : M A) (f f' : A -> M B) h :
  m h = m' h -> (forall x h1, f x h1 = f' x h1) -> bind m f h = bind m' f' h.
Proof. intros Hm Hf. unfold bind. rewrite Hm. destruct (m' h) as [[x|s] h1]; auto. Qed.

Lemma for_each_ext {A} (l : list A) (f f' : A -> M unit) h :
  (forall x h1, f x h1 = f' x h1) -> for_each l f h = for_each l f' h.
Proof.
  intros Hf. revert h. induction l as [|x l IH]; intros h; [reflexivity|].
  cbn [for_each]. apply bind_ext; auto.
Qed.

Lemma phase_loop_ext {L} cond (body body' : L -> Z -> M L) st p rest h :
  (forall st p h1, body st p h1 = body' st p h1) ->
  phase_loop cond body st p rest h = phase_loop cond body' st p rest h.
Proof.
  intros Hb. revert st p h. induction rest as [|p' rest IH]; intros st p h;
    cbn [phase_loop]; destruct (cond p); try reflexivity; apply bind_ext; auto.
Qed.

Lemma ask_ext c h : later_phase_report c = false -> ask (with_answer a) c h = ask T c h.
Proof. intros Hc. unfold ask. cbn [with_answer answer]. now rewrite Ha. Qed.

Ltac ext_step :=
  first [ match goal with |- ?x = ?y => constr_eq x y; reflexivity end
        | apply ask_ext; reflexivity
        | apply bind_ext; [|intros ? ?]
        | apply for_each_ext; intros ? ?
        | match goal with
          | |- (if ?c then _ else _) _ = (if ?c' then _ else _) _ =>
              constr_eq c c'; destruct c
          | |- (match ?x with _ => _ end) _ = (match ?x' with _ => _ end) _ =>
              constr_eq x x'; destruct x
          end
        | progress cbv zeta ].

Lemma procd_ext ki d za ca h : procd (with_answer a) ki d za ca h = procd T ki d za ca h.
Proof. unfold procd. same_tables. repeat ext_step. Qed.

Lemma procdcoprime_ext d z c h : procdcoprime (with_answer a) d z c h = procdcoprime T d z c h.
Proof. unfold procdcoprime. same_tables. repeat ext_step. Qed.

Lemma procdbigprime_ext d z c si mi l h :
  procdbigprime (with_answer a) d z c si mi l h = procdbigprime T d z c si mi l h.
Proof. unfold procdbigprime. same_tables. repeat ext_step. Qed.

Lemma prockd_loop_ext fuel i d zd n h :
  prockd_loop (with_answer a) fuel i d zd n h = prockd_loop T fuel i d zd n h.
Proof.
  revert i h. induction fuel as [|fuel IH]; intros i h; cbn [prockd_loop];
    same_tables; destruct (d <=? kdmax T i); try reflexivity.
  apply bind_ext; [apply procd_ext|]. intros. apply IH.
Qed.

Lemma prockd_ext d zd n h : prockd (with_answer a) d zd n h = prockd T d zd n h.
Proof.
  unfold prockd. same_tables.
  apply bind_ext; [reflexivity|]. intros.
  apply bind_ext; [apply procdcoprime_ext|]. intros. apply prockd_loop_ext.
Qed.

Lemma enumcd_scan_ext x first d p zd queue h :
  enumcd_scan (with_answer a) x first d p zd queue h = enumcd_scan T x first d p zd queue h.
Proof.
  assert (Hitem : forall y h1, enumcd_item (with_answer a) d zd y h1 = enumcd_item T d zd y h1).
  { intros. unfold enumcd_item. same_tables. apply prockd_ext. }
  assert (Hsmall : forall y h1, enumcd_small (with_answer a) d zd y h1 = enumcd_small T d zd y h1).
  { intros. unfold enumcd_small. same_tables. apply prockd_ext. }
  revert first queue h. induction x as [|x IH]; intros first queue h;
    cbn [enumcd_scan]; same_tables.
  - destruct (negb first && _); [reflexivity|].
    destruct (_ =? 0); [now apply for_each_ext|].
    apply bind_ext.
    + destruct (_ =? IBATCH); [|reflexivity].
      apply bind_ext; [now apply for_each_ext|reflexivity].
    + intros q1 h1. apply bind_ext; [|reflexivity].
      destruct (_ <=? _); [|reflexivity].
      apply bind_ext; [apply Hsmall|reflexivity].
  - destruct (negb first && _); [apply IH|].
    destruct (_ =? 0); [now apply for_each_ext|].
    apply bind_ext.
    + destruct (_ =? IBATCH); [|reflexivity].
      apply bind_ext; [now apply for_each_ext|reflexivity].
    + intros q1 h1. apply bind_ext; [|intros; apply IH].
      destruct (_ <=? _); [|reflexivity].
      apply bind_ext; [apply Hsmall|reflexivity].
Qed.

Lemma enumcd_ext d p zd h : enumcd (with_answer a) d p zd h = enumcd T d p zd h.
Proof.
  unfold enumcd. same_tables. destruct (cdentry T _ _ _); [|reflexivity].
  apply enumcd_scan_ext.
Qed.

Lemma enumd_loop_ext fuel item item' d pi q e queue h :
  (forall it h1, item it h1 = item' it h1) ->
  enumd_loop (with_answer a) fuel item d pi q e queue h = enumd_loop T fuel item' d pi q e queue h.
Proof.
  intros Hitem. revert pi q e queue h.
  induction fuel as [|fuel IH]; intros pi q e queue h; cbn [enumd_loop]; same_tables;
    [reflexivity|].
  destruct (pi =? 0); [now apply for_each_ext|].
  apply bind_ext.
  - destruct (_ =? IBATCH); [|reflexivity].
    apply bind_ext; [now apply for_each_ext|reflexivity].
  - intros q1 h1. destruct (_ >? _); apply IH.
Qed.

Lemma enumd_ext depth d p zd h : enumd (with_answer a) depth d p zd h = enumd T depth d p zd h.
Proof.
  revert d p zd h. induction depth as [|depth IH]; intros d p zd h; cbn [enumd];
    same_tables; [reflexivity|].
  destruct (_ >=? _); [apply enumcd_ext|].
  destruct (_ =? 0); [reflexivity|].
  apply enumd_loop_ext. intros [[x pi] e] h1. unfold enumd_item. same_tables.
  apply bind_ext; [apply prockd_ext|]. intros _ h2.
  destruct (_ >=? _); [apply enumcd_ext|apply IH].
Qed.

Ltac ext_worker :=
  repeat first [ apply prockd_ext | apply enumd_ext | apply enumcd_ext
               | apply procdcoprime_ext | apply procdbigprime_ext | ext_step ].

Lemma with_roots_ext {L} (st : L) p k k' h :
  (forall z n h1, k z n h1 = k' z n h1) ->
  with_roots (with_answer a) st p k h = with_roots T st p k' h.
Proof. intros Hk. unfold with_roots. same_tables. repeat first [apply Hk | ext_step]. Qed.

Lemma cached_body_ext pi p h : cached_body (with_answer a) pi p h = cached_body T pi p h.
Proof.
  unfold cached_body. same_tables.
  change (scan_cptab (with_answer a)) with (scan_cptab T).
  change (highest_power (with_answer a)) with (highest_power T).
  ext_worker.
Qed.

Lemma uncached_body_ext st p h : uncached_body (with_answer a) st p h = uncached_body T st p h.
Proof. apply with_roots_ext. intros. ext_worker. Qed.

Lemma cocached_body_ext st p h : cocached_body (with_answer a) st p h = cocached_body T st p h.
Proof. apply with_roots_ext. intros. ext_worker. Qed.

Lemma nearprime_body_ext st p h : nearprime_body (with_answer a) st p h = nearprime_body T st p h.
Proof.
  apply with_roots_ext. intros. same_tables.
  change (lower_pimax (with_answer a)) with (lower_pimax T).
  change (sd_entries (with_answer a)) with (sd_entries T).
  ext_worker.
Qed.

Lemma prime_body_ext st p h : prime_body (with_answer a) st p h = prime_body T st p h.
Proof. apply with_roots_ext. intros. ext_worker. Qed.

Lemma bigprime_body_ext mi m pmax st p h :
  bigprime_body (with_answer a) mi m pmax st p h = bigprime_body T mi m pmax st p h.
Proof.
  apply with_roots_ext. intros. same_tables.
  change (length_for (with_answer a)) with (length_for T). change (lpmax_for (with_answer a)) with (lpmax_for T).
  ext_worker.
Qed.

Lemma bigprime7_body_ext mi m mi7 m7 pmax st p h :
  bigprime7_body (with_answer a) mi m mi7 m7 pmax st p h = bigprime7_body T mi m mi7 m7 pmax st p h.
Proof.
  apply with_roots_ext. intros. same_tables.
  change (length_for (with_answer a)) with (length_for T). change (lpmax_for (with_answer a)) with (lpmax_for T).
  ext_worker.
Qed.

Lemma ask_later_ext {B} c (k k' : M B) h :
  (forall h1, k h1 = k' h1) ->
  bind (ask (with_answer a) c) (fun _ => k) h = bind (ask T c) (fun _ => k') h.
Proof. intros Hk. unfold bind, ask. apply Hk. Qed.

Lemma done_ext p pmax h : done p pmax h = done p pmax h.
Proof. reflexivity. Qed.

Lemma phase6_ext p pmax rest h : phase6 (with_answer a) p pmax rest h = phase6 T p pmax rest h.
Proof.
  unfold phase6. same_tables.
  change (length_for (with_answer a)) with (length_for T).
  change (lpmax_for (with_answer a)) with (lpmax_for T).
  apply bind_ext.
  - destruct (negb _); (apply bind_ext; [|reflexivity]); apply phase_loop_ext; intros.
    + apply bigprime_body_ext.
    + apply bigprime7_body_ext.
  - intros r h1. now apply ask_later_ext.
Qed.

Ltac phase_ext next body :=
  same_tables;
  apply bind_ext;
  [ apply phase_loop_ext; intros; apply body
  | intros [[? ?] ?] ?; apply ask_later_ext; intros ?;
    destruct (_ >? _); [reflexivity | apply next] ].

Lemma phase5_ext p pmax rest h : phase5 (with_answer a) p pmax rest h = phase5 T p pmax rest h.
Proof. unfold phase5. phase_ext phase6_ext prime_body_ext. Qed.

Lemma phase4_ext p pmax rest h : phase4 (with_answer a) p pmax rest h = phase4 T p pmax rest h.
Proof. unfold phase4. phase_ext phase5_ext nearprime_body_ext. Qed.

Lemma phase3_ext p pmax rest h : phase3 (with_answer a) p pmax rest h = phase3 T p pmax rest h.
Proof. unfold phase3. phase_ext phase4_ext cocached_body_ext. Qed.

Lemma phase2_ext p pmax rest h : phase2 (with_answer a) p pmax rest h = phase2 T p pmax rest h.
Proof. unfold phase2. phase_ext phase3_ext uncached_body_ext. Qed.

(** The answers of [report_phase] at the five boundaries after PHASE_CACHED
    are not used: a reporter that differs only there gives the same run. *)
Lemma process_primes_ext pp h :
  process_primes (with_answer a) pp h = process_primes T pp h.
Proof.
  unfold process_primes. same_tables. destruct (read_pipe _) as [p rest].
  destruct (_ >? _); [reflexivity|].
  apply bind_ext.
  - destruct (_ <=? _); [|reflexivity].
    apply bind_ext; [|reflexivity]. apply phase_loop_ext. intros. apply cached_body_ext.
  - intros [p' rest'] h1. apply bind_ext; [now apply ask_ext|].
    intros ok h2. destruct (negb ok); [reflexivity|].
    destruct (_ >? _); [reflexivity|].
    destruct (negb _); [reflexivity|].
    destruct (negb _); [reflexivity|].
    apply phase2_ext.
Qed.

End ReporterAnswers.

(** ** The phase driver: the boundary after the cached phase *)

Section CachedBoundary.
Import Worker Notions.
Variable T : tables.

Lemma emits_run {A} (P : list call -> Prop) (m : M A) h :
  emits P m -> exists t, snd (m h) = rev t ++ h /\ P t.
Proof. intros Hm. destruct (m h) as [r h'] eqn:Hrun. exact (Hm h r h' Hrun). Qed.

Local Abbreviation cached_boundary := (Notions.cached_boundary T).

Lemma process_primes_cached_boundary pp h :
  exists ta, Forall per_prime ta /\
    cached_boundary pp h (fst (process_primes T pp h)) (snd (process_primes T pp h)) ta.
Proof.
  destruct (process_primes T pp h) as [r h'] eqn:Hrun. cbn [fst snd].
  unfold cached_boundary. unfold process_primes in Hrun.
  destruct (read_pipe (pipe_primes pp)) as [p rest]. cbn [fst].
  destruct (Z.gtb_spec p (pipe_end pp)).
  { exists []. split; [constructor|]. left. inversion Hrun. auto. }
  set (m1 := if p <=? cpmax T then _ else _) in Hrun.
  assert (Hq : quiet per_prime m1).
  { unfold m1. destruct (_ <=? _); [|apply quiet_ret].
    apply quiet_bind; [|intros; apply quiet_ret].
    apply quiet_phase_loop. intros. apply quiet_cached_body. }
  unfold bind at 1 in Hrun. destruct (m1 h) as [[[p' rest']|s] h1] eqn:Hm1;
    destruct (Hq _ _ _ Hm1) as (ta & -> & Hta); exists ta; (split; [assumption|]).
  2:{ right. left. inversion Hrun. eauto. }
  unfold bind at 1 in Hrun. unfold ask at 1 in Hrun.
  destruct (answer T (rev ta ++ h) (report_phase PHASE_CACHED)) eqn:Hans;
    cbn [negb] in Hrun.
  - right. right. right. split; [reflexivity|].
    match type of Hrun with ?m ?hh = _ =>
      assert (Hm : quiet (fun _ => True) m)
    end.
    { destruct (_ >? _); [eapply quiet_weaken; [|apply quiet_done]; auto|].
      destruct (negb _); [apply quiet_halt|].
      destruct (negb _); [apply quiet_halt|].
      eapply emits_weaken; [|apply reports_phase2]. intros t _.
      apply Forall_forall. auto. }
    destruct (Hm _ _ _ Hrun) as (tb & Htb & _). eauto.
  - right. right. left. split; [reflexivity|].
    unfold done in Hrun. destruct (_ >? _); inversion Hrun; reflexivity.
Qed.

End CachedBoundary.

Section PhaseBoundaries.
Import Worker Notions.

(** C5, as the code has it.  The phases passed to [report_phase] in a run of
    [process_primes] are the first ones of the six, in order, one call at the
    end of each phase the run reaches.  Only the answer at PHASE_CACHED is
    tested: when it is false that call is the last one of the run.  The
    answers at the five later boundaries are not used: another reporter that
    differs only there gives the same run. *)
Theorem process_primes_phase_boundaries T pp h :
  (exists t, snd (process_primes T pp h) = rev t ++ h /\
             exists n, phases_of t = firstn n six_phases) /\
  (exists ta, Forall per_prime ta /\
     cached_boundary T pp h (fst (process_primes T pp h))
       (snd (process_primes T pp h)) ta) /\
  (forall a, (forall h' c, later_phase_report c = false -> a h' c = answer T h' c) ->
     process_primes (with_answer T a) pp h = process_primes T pp h).
Proof.
  split; [|split].
  - destruct (process_primes T pp h) as [r h'] eqn:Hrun.
    destruct (reports_process_primes T pp h r h' Hrun) as (t & -> & Hn).
    exists t. split; [reflexivity|exact Hn].
  - apply process_primes_cached_boundary.
  - intros a Ha. now apply process_primes_ext.
Qed.

Lemma process_primes_phase_boundaries_witness :
  process_primes (with_answer (Toy.toy Toy.small_bounds Toy.accept_all) Toy.refuse_uncached)
    Toy.small_pipe []
  = process_primes (Toy.toy Toy.small_bounds Toy.accept_all) Toy.small_pipe [].
Proof.
  apply (proj2 (proj2 (process_primes_phase_boundaries
                         (Toy.toy Toy.small_bounds Toy.accept_all) Toy.small_pipe []))).
  intros h' c Hc. destruct c as [| | |[]| | | | | | | |]; try reflexivity; discriminate Hc.
Defined.

(** C5 as stated fails at the later boundaries: with a reporter that answers
    false to [report_phase(PHASE_UNCACHED)], the worker still processes the
    prime 23 of the cocached phase and its multiples. *)
Lemma process_primes_goes_on_after_refused_phase :
  Toy.refuse_uncached [] (report_phase PHASE_UNCACHED) = false /\
  Toy.outline (Toy.trace (process_primes (Toy.toy Toy.small_bounds Toy.refuse_uncached)
                            Toy.small_pipe))
  = [report_phase PHASE_CACHED;
     report_p 11; report_d 11 1; report_d 33 1; report_d 55 1; report_d 22 1;
     report_d 66 1; report_d 44 1; report_d 88 1;
     report_phase PHASE_UNCACHED;
     report_p 23; report_d 23 1; report_d 69 1; report_d 46 1; report_d 92 1;
     report_phase PHASE_COCACHED].
Proof. split; vm_compute; reflexivity. Qed.

End PhaseBoundaries.

(** ** The dispatcher: which z-check is called *)

Section DispatchRule.
Import Worker Spec Notions.
Variable T : tables.

Lemma zchecks_app t1 t2 : zchecks (t1 ++ t2) = zchecks t1 ++ zchecks t2.
Proof. unfold zchecks. apply flat_map_app. Qed.

Local Abbreviation rule := (Notions.rule T).

Ltac run_cases :=
  repeat match goal with
         | |- context [if ?c then _ else _] => destruct c
         end;
  cbn [snd fst]; eexists [_; _; _; _]; (split; [reflexivity|split; reflexivity]).

Lemma procd_run ki a za ca h :
  answer T (enter_procd ki a za ca :: h)
    (report_d (procd_d T ki a) (ca * kd_n (kdtab T ki))) = true ->
  exists t, snd (procd T ki a za ca h) = rev t ++ h /\
    fst (procd T ki a za ca h) = Ok tt /\
    zchecks t = [rule (procd_d T ki a) ki a (procd_b T ki a) (procd_n T ki a) ca ki].
Proof.
  unfold rule, procd_n, procd_b, procd_d, procd, bind, emit, ask. cbv zeta.
  intros Hans. rewrite Hans. cbn [negb].
  match goal with
  | |- context [if ?c || ?c' then _ else _] => destruct (c || c')
  end.
  - match goal with
    | |- context [if ?c >? ?c' then _ else _] => destruct (c >? c')
    end; cbn [snd fst]; eexists [_; _; _; _]; (split; [reflexivity|split; reflexivity]).
  - cbn [snd fst]; eexists [_; _; _; _]; (split; [reflexivity|split; reflexivity]).
Qed.

Lemma procdcoprime_run d z c h :
  answer T (enter_procdcoprime d z c :: h) (report_d d c) = true ->
  exists t, snd (procdcoprime T d z c h) = rev t ++ h /\
    fst (procdcoprime T d z c h) = Ok tt /\
    zchecks t = [rule d 0 d (coprime_b T d) (coprime_l T d) c 0].
Proof.
  unfold rule, coprime_l, coprime_b, procdcoprime, bind, emit, ask. cbv zeta.
  intros Hans. rewrite Hans. cbn [negb].
  match goal with
  | |- context [if ?c || ?c' then _ else _] => destruct (c || c')
  end.
  - match goal with
    | |- context [if ?c >? ?c' then _ else _] => destruct (c >? c')
    end; cbn [snd fst]; eexists [_; _; _; _]; (split; [reflexivity|split; reflexivity]).
  - cbn [snd fst]; eexists [_; _; _; _]; (split; [reflexivity|split; reflexivity]).
Qed.

Lemma short_or_few_dec l c :
  short_or_few T l c <-> (l <=? ZSHORT T) || (u64 (l * c) <=? ZFEW T) = true.
Proof.
  unfold short_or_few. rewrite orb_true_iff, !Z.leb_le. reflexivity.
Qed.

Local Abbreviation decides := (Notions.decides T).

Lemma rule_decides d ki a b l c t :
  zchecks t = [rule d ki a b l c ki] -> decides d ki a b l c t.
Proof.
  intros Hz. unfold decides. rewrite Hz. unfold rule.
  destruct ((l <=? ZSHORT T) || (u64 (l * c) <=? ZFEW T)) eqn:Hs.
  - apply short_or_few_dec in Hs.
    destruct (Z.gtb_spec (a * b) (zmax128 T)); repeat split; intros;
      try reflexivity; try lia; contradiction.
  - assert (Hn : ~ short_or_few T l c).
    { rewrite short_or_few_dec. congruence. }
    repeat split; intros; try reflexivity; contradiction.
Qed.

Lemma shiftr_62_le z : 0 <= z -> 0 <= Z.shiftr z 62 <= z.
Proof.
  intros Hz. rewrite Z.shiftr_div_pow2 by lia. split.
  - apply Z.div_pos; lia.
  - apply Z.div_le_upper_bound; [reflexivity|].
    assert (1 <= 2 ^ 62) by (vm_compute; congruence). nia.
Qed.

(** Past zmax the exact ceiling of the fudged bound is 1 or 2. *)
Lemma ceiling_past_zmax zmax ab :
  0 <= zmax < ab -> 1 <= ceil_div (fudged zmax) ab <= 2.
Proof.
  intros H. pose proof (shiftr_62_le zmax (proj1 H)) as Hs.
  unfold ceil_div, fudged. split.
  - apply Z.div_le_lower_bound; lia.
  - apply Z.lt_succ_r. apply Z.div_lt_upper_bound; lia.
Qed.

Lemma exact_length_past_zmax ab :
  exact_ceiling T -> zmaxld T = fudged (zmax128 T) -> 0 <= zmax128 T < ab ->
  1 <= u64 (fastceilboundl_div T (zmaxld T) ab) <= 2.
Proof.
  intros Hex Hld Hz. rewrite Hex by lia. rewrite Hld.
  pose proof (ceiling_past_zmax _ _ Hz).
  rewrite u64_small; [assumption|].
  assert (2 < 2 ^ 64) by reflexivity. lia.
Qed.

(** C1, as the code has it.  For a modulus accepted by [report_d], with b the
    residue modulus and l = fastceilboundl(zmaxld/(a*b)) the length the code
    computes: [zrcheckone] is called when (l <= ZSHORT or l*ca <= ZFEW) and
    a*b > zmax, [zrcheckafew] with progression length l when (l <= ZSHORT or
    l*ca <= ZFEW) and a*b <= zmax, [zrchecklift] otherwise; in [procd] and,
    with a = d, in [procdcoprime].  When the ceiling of zmaxld/(a*b) is
    computed exactly from zmaxld = zmax + (zmax>>62) + 1 and ZSHORT >= 2,
    a*b > zmax alone gives [zrcheckone]. *)
Theorem dispatcher_decision_table h :
  (forall ki a za ca,
     answer T (enter_procd ki a za ca :: h)
       (report_d (procd_d T ki a) (ca * kd_n (kdtab T ki))) = true ->
     exists t, snd (procd T ki a za ca h) = rev t ++ h /\
       decides (procd_d T ki a) ki a (procd_b T ki a) (procd_n T ki a) ca t /\
       (exact_ceiling T -> zmaxld T = fudged (zmax128 T) -> 2 <= ZSHORT T ->
        0 <= zmax128 T < a * procd_b T ki a ->
        zchecks t = [CheckOne (procd_d T ki a) a (procd_b T ki a)])) /\
  (forall d z c,
     answer T (enter_procdcoprime d z c :: h) (report_d d c) = true ->
     exists t, snd (procdcoprime T d z c h) = rev t ++ h /\
       decides d 0 d (coprime_b T d) (coprime_l T d) c t /\
       (exact_ceiling T -> zmaxld T = fudged (zmax128 T) -> 2 <= ZSHORT T ->
        0 <= zmax128 T < d * coprime_b T d ->
        zchecks t = [CheckOne d d (coprime_b T d)])).
Proof.
  split.
  - intros ki a za ca Hans.
    destruct (procd_run ki a za ca h Hans) as (t & Ht & _ & Hz).
    exists t. split; [assumption|]. pose proof (rule_decides _ _ _ _ _ _ _ Hz) as Hd.
    split; [assumption|]. intros Hex Hld Hs Hab.
    apply Hd; [|lia]. left.
    pose proof (exact_length_past_zmax _ Hex Hld Hab). unfold procd_n. lia.
  - intros d z c Hans.
    destruct (procdcoprime_run d z c h Hans) as (t & Ht & _ & Hz).
    exists t. split; [assumption|]. pose proof (rule_decides _ _ _ _ _ _ _ Hz) as Hd.
    split; [assumption|]. intros Hex Hld Hs Hab.
    apply Hd; [|lia]. left.
    pose proof (exact_length_past_zmax _ Hex Hld Hab). unfold coprime_l. lia.
Qed.

End DispatchRule.

Section DispatchRuleExamples.
Import Worker Spec Notions.

Lemma toy_exact_ceiling B r : exact_ceiling (Toy.toy B r).
Proof. intros x y _. reflexivity. Qed.

Lemma dispatcher_decision_table_witness :
  (exists t, snd (procd (Toy.toy Toy.tight_bounds Toy.accept_all) 1 5 [2] 1 []) = rev t ++ []
             /\ zchecks t = [CheckAFew 15 5 18 2]) /\
  (exists t, snd (procdcoprime (Toy.toy Toy.tight_bounds Toy.accept_all) 11 [9] 1 [])
             = rev t ++ []
             /\ zchecks t = [CheckOne 11 11 18]).
Proof.
  pose proof (dispatcher_decision_table (Toy.toy Toy.tight_bounds Toy.accept_all) [])
    as [Hprocd Hcoprime].
  split.
  - destruct (Hprocd 1 5 [2] 1 eq_refl) as (t & Ht & (_ & Hfew & _) & _).
    exists t. split; [exact Ht|]. apply Hfew.
    + left. vm_compute. congruence.
    + vm_compute. congruence.
  - destruct (Hcoprime 11 [9] 1 eq_refl) as (t & Ht & _ & Hone).
    exists t. split; [exact Ht|]. apply Hone.
    + apply toy_exact_ceiling.
    + reflexivity.
    + vm_compute. congruence.
    + split; vm_compute; congruence.
Defined.

(** C1 as stated fails for the progression length: for zmax = 90 = 5 * 18 the
    ceiling of zmax/(a*b) is 1, and [procdcoprime] passes 2 to [zrcheckafew],
    the ceiling of zmaxld/(a*b) for the fudged zmaxld = 91. *)
Lemma procdcoprime_length_from_fudged_bound :
  coprime_b (Toy.toy Toy.tight_bounds Toy.accept_all) 5 = 18 /\
  (5 * 18 <=? zmax128 (Toy.toy Toy.tight_bounds Toy.accept_all)) = true /\
  ceil_div (zmax128 (Toy.toy Toy.tight_bounds Toy.accept_all)) (5 * 18) = 1 /\
  Toy.trace (procdcoprime (Toy.toy Toy.tight_bounds Toy.accept_all) 5 [2] 1)
  = [enter_procdcoprime 5 [2] 1; report_d 5 1;
     zrcheckafew 5 0 5 [2] 1 18 [5] 1 11 0 2; profile_checkpoint].
Proof. repeat split; vm_compute; reflexivity. Qed.

(** The same for any zmax that a*b divides: the exact ceiling of the fudged
    bound is above the ceiling of zmax/(a*b). *)
Lemma fudged_ceiling_above zmax ab :
  0 < ab -> 0 <= zmax -> zmax mod ab = 0 ->
  ceil_div zmax ab < ceil_div (fudged zmax) ab.
Proof.
  intros Hab Hz Hm. pose proof (shiftr_62_le zmax Hz) as Hs.
  apply Z.mod_divide in Hm; [|lia]. destruct Hm as [q ->].
  unfold ceil_div, fudged.
  assert (Hq : (q * ab + ab - 1) / ab = q).
  { replace (q * ab + ab - 1) with ((ab - 1) + q * ab) by ring.
    rewrite Z.div_add by lia. rewrite Z.div_small by lia. ring. }
  rewrite Hq. apply Z.lt_le_trans with (q + 1); [lia|].
  apply Z.div_le_lower_bound; [lia|]. nia.
Qed.

End DispatchRuleExamples.

(** ** The enumerator: the loop of [enumd] and its queue *)

Section EnumdLoop.
Import Worker Spec Notions.
Variable T : tables.

Lemma for_each_app {A} (l1 l2 : list A) (f : A -> M unit) h :
  for_each (l1 ++ l2) f h = bind (for_each l1 f) (fun _ => for_each l2 f) h.
Proof.
  revert h. induction l1 as [|x l1 IH]; intros h; cbn [for_each app].
  - unfold bind, ret. reflexivity.
  - unfold bind in *. destruct (f x h) as [[u|s] h1]; [apply IH|reflexivity].
Qed.

(** Batching does not change what the loop does: it runs [item] on the
    entries it records, in the order it records them. *)
Lemma enumd_loop_items fuel item d pi q e items :
  enumd_items T fuel d pi q e = Some items ->
  forall queue h,
    enumd_loop T fuel item d pi q e queue h = for_each (rev queue ++ items) item h.
Proof.
  revert pi q e items. induction fuel as [|fuel IH]; intros pi q e items Hit queue h;
    cbn [enumd_items enumd_loop] in *; [discriminate|].
  destruct (pi =? 0).
  { inversion Hit. now rewrite app_nil_r. }
  set (nxt := if d * u64 (q * cptab T pi) >? dmax T then _ else _) in Hit.
  destruct nxt as [items'|] eqn:Hn; [|discriminate]. inversion Hit; subst items.
  assert (Hnext : forall queue2 h2,
    (if d * u64 (q * cptab T pi) >? dmax T
     then enumd_loop T fuel item d (u32 (pi - 1)) (cptab T (u32 (pi - 1))) 1 queue2
     else enumd_loop T fuel item d pi (u64 (q * cptab T pi)) (u32 (e + 1)) queue2) h2
    = for_each (rev queue2 ++ items') item h2).
  { intros. unfold nxt in Hn. destruct (_ >? _); now apply IH. }
  destruct (count queue =? IBATCH).
  - unfold bind at 1 2. rewrite for_each_app. unfold bind.
    destruct (for_each (rev queue) item h) as [[u|s] h1]; [|reflexivity].
    unfold ret. rewrite Hnext. reflexivity.
  - unfold bind, ret. rewrite Hnext. cbn [rev]. now rewrite <- app_assoc.
Qed.

Lemma pow_ge_base c e : 1 <= c -> 1 <= e -> c <= c ^ e.
Proof.
  intros Hc He. replace e with (1 + (e - 1)) by ring.
  rewrite Z.pow_add_r, Z.pow_1_r by lia.
  assert (1 <= c ^ (e - 1)).
  { pose proof (Z.pow_le_mono_l 1 c (e - 1) ltac:(lia)) as Hp.
    rewrite Z.pow_1_l in Hp; lia. }
  nia.
Qed.

Lemma exponent_below_63 c e : 2 <= c -> 0 <= e -> c ^ e < 2 ^ 63 -> e < 63.
Proof.
  intros Hc He Hlt.
  assert (2 ^ e <= c ^ e) by (apply Z.pow_le_mono_l; lia).
  apply (Z.pow_lt_mono_r_iff 2); lia.
Qed.

Hypothesis Hcp : cptab_ok T.

Lemma cptab_ge_2 i : 1 <= i <= cpcnt T -> 2 <= cptab T i.
Proof. intros Hi. apply Z.prime_ge_2. now apply (cptab_prime T Hcp). Qed.

(** One step of the loop keeps [loop_state], and computes without
    wrap-around. *)
Lemma loop_state_step d pi q e :
  1 <= d -> loop_state T d pi q e -> pi <> 0 ->
  u64 (q * cptab T pi) = cptab T pi ^ (e + 1) /\
  u32 (e + 1) = e + 1 /\ u32 (pi - 1) = pi - 1 /\ e < 63 /\
  loop_state T d (pi - 1) (cptab T (pi - 1)) 1 /\
  (d * cptab T pi ^ (e + 1) <= dmax T -> loop_state T d pi (cptab T pi ^ (e + 1)) (e + 1)).
Proof.
  intros Hd [Hz|(Hpi & He & Hq & Hfit & Hlt)] Hnz; [contradiction|].
  pose proof (dmax_range T Hcp) as Hdm. pose proof (cpcnt_range T Hcp) as Hcnt.
  pose proof (cptab_ge_2 pi Hpi) as Hc2.
  assert (Hqc : cptab T pi <= q) by (subst q; apply pow_ge_base; lia).
  assert (Hq1 : q * cptab T pi = cptab T pi ^ (e + 1)).
  { subst q. rewrite Z.pow_add_r, Z.pow_1_r by lia. reflexivity. }
  assert (He63 : e < 63).
  { apply (exponent_below_63 (cptab T pi)); [lia|lia|]. rewrite <- Hq. nia. }
  assert (H63 : 2 ^ 63 < 2 ^ 64) by reflexivity.
  assert (H32 : 2 ^ 32 = 4294967296) by reflexivity.
  split; [|split; [|split; [|split; [|split]]]].
  - rewrite <- Hq1. apply u64_small. nia.
  - apply u32_small. lia.
  - apply u32_small. lia.
  - exact He63.
  - destruct (Z.eq_dec (pi - 1) 0) as [H0|H0]; [now left|right].
    assert (Hinc : cptab T (pi - 1) < cptab T pi)
      by (apply (cptab_increasing T Hcp); lia).
    pose proof (cptab_ge_2 (pi - 1) ltac:(lia)).
    repeat split; try lia; try (now rewrite Z.pow_1_r); nia.
  - intros Hfit'. right. repeat split; try lia.
Qed.

Lemma fitting_item_weaken d pi pi' it :
  pi <= pi' -> fitting_item T d pi it -> fitting_item T d pi' it.
Proof. destruct it as [[q i] e]. unfold fitting_item. intuition lia. Qed.

(** Every entry the loop records fits: the prime power q it holds has
    d*q <= dmax. *)
Lemma enumd_items_fit fuel d pi q e items :
  1 <= d -> loop_state T d pi q e ->
  enumd_items T fuel d pi q e = Some items ->
  Forall (fitting_item T d pi) items.
Proof.
  intros Hd. revert pi q e items.
  induction fuel as [|fuel IH]; intros pi q e items Hst Hit; cbn [enumd_items] in Hit;
    [discriminate|].
  destruct (Z.eqb_spec pi 0) as [H0|H0]; [inversion Hit; constructor|].
  destruct (loop_state_step d pi q e Hd Hst H0) as (Hq' & He' & Hpi' & _ & Hdown & Hup).
  rewrite Hq', He', Hpi' in Hit.
  destruct Hst as [?|(Hpi & He & Hq & Hfit & Hlt)]; [contradiction|].
  destruct (Z.gtb_spec (d * cptab T pi ^ (e + 1)) (dmax T)) as [Hgt|Hle].
  - destruct (enumd_items T fuel d (pi - 1) _ 1) as [items'|] eqn:Hn; [|discriminate].
    inversion Hit; subst items. constructor.
    + cbn. repeat split; try lia.
    + eapply Forall_impl; [|exact (IH _ _ _ _ Hdown Hn)].
      intros it. apply fitting_item_weaken. lia.
  - destruct (enumd_items T fuel d pi _ (e + 1)) as [items'|] eqn:Hn; [|discriminate].
    inversion Hit; subst items. constructor.
    + cbn. repeat split; try lia.
    + exact (IH _ _ _ _ (Hup Hle) Hn).
Qed.

Lemma enumd_items_total fuel d pi q e :
  1 <= d -> loop_state T d pi q e -> loop_measure pi q < Z.of_nat fuel ->
  exists items, enumd_items T fuel d pi q e = Some items.
Proof.
  intros Hd. revert pi q e.
  induction fuel as [|fuel IH]; intros pi q e Hst Hm.
  { unfold loop_measure in Hm. destruct (Z.eqb_spec pi 0); [lia|].
    destruct Hst as [?|(Hpi & He & Hq & Hfit & Hlt)]; [contradiction|].
    pose proof (dmax_range T Hcp). pose proof (cptab_ge_2 pi Hpi).
    assert (1 <= q) by (subst q; pose proof (pow_ge_base (cptab T pi) e); lia).
    assert (Z.log2 q < 63) by (apply Z.log2_lt_pow2; nia). lia. }
  cbn [enumd_items].
  destruct (Z.eqb_spec pi 0) as [H0|H0]; [eauto|].
  destruct (loop_state_step d pi q e Hd Hst H0) as (Hq' & He' & Hpi' & He63 & Hdown & Hup).
  rewrite Hq', He', Hpi'.
  destruct Hst as [?|(Hpi & He & Hq & Hfit & Hlt)]; [contradiction|].
  pose proof (dmax_range T Hcp) as Hdm. pose proof (cptab_ge_2 pi Hpi) as Hc2.
  assert (Hq1 : 1 <= q) by (subst q; pose proof (pow_ge_base (cptab T pi) e); lia).
  assert (Hlq : Z.log2 q < 63) by (apply Z.log2_lt_pow2; nia).
  assert (Hl0 : 0 <= Z.log2 q) by apply Z.log2_nonneg.
  unfold loop_measure in Hm. destruct (Z.eqb_spec pi 0); [contradiction|].
  destruct (Z.gtb_spec (d * cptab T pi ^ (e + 1)) (dmax T)) as [Hgt|Hle].
  - destruct (IH (pi - 1) (cptab T (pi - 1)) 1 Hdown) as [items' ->]; [|cbn; eauto].
    unfold loop_measure. destruct (Z.eqb_spec (pi - 1) 0); [lia|].
    pose proof (Z.log2_nonneg (cptab T (pi - 1))). lia.
  - destruct (IH pi (cptab T pi ^ (e + 1)) (e + 1) (Hup Hle)) as [items' ->]; [|cbn; eauto].
    unfold loop_measure. destruct (Z.eqb_spec pi 0); [contradiction|].
    assert (Z.log2 q + 1 <= Z.log2 (cptab T pi ^ (e + 1))); [|lia].
    rewrite Z.pow_add_r, Z.pow_1_r, <- Hq by lia.
    pose proof (Z.log2_mul_below q (cptab T pi) ltac:(lia) ltac:(lia)).
    assert (1 <= Z.log2 (cptab T pi)).
    { change 1 with (Z.log2 2). apply Z.log2_le_mono. lia. }
    lia.
Qed.

End EnumdLoop.

(** ** The enumerator: every modulus it offers is within dmax *)

Section OffersWithinDmax.
Import Worker Spec Notions.
Variable T : tables.
Hypothesis Hcp : cptab_ok T.
Hypothesis Hcd : cdtab_fits T.

Lemma offer_dispatch c : dispatch_call c = true -> offer_within_dmax T c.
Proof. destruct c; try discriminate; exact (fun _ => I). Qed.

Lemma quiet_prockd_within d zd n :
  1 <= d <= dmax T -> quiet (offer_within_dmax T) (prockd T d zd n).
Proof. intros Hd. apply quiet_prockd; [apply offer_dispatch|exact Hd]. Qed.

Lemma u64_product a d : 1 <= a -> 1 <= d -> a * d <= dmax T -> u64 (a * d) = a * d.
Proof.
  intros Ha Hd Hle. pose proof (dmax_range T Hcp).
  assert (2 ^ 63 < 2 ^ 64) by reflexivity. apply u64_small. nia.
Qed.

Local Abbreviation cofactor_fits := (Notions.cofactor_fits T).

Lemma quiet_enumcd_item d zd e :
  1 <= d -> cofactor_fits d e ->
  quiet (offer_within_dmax T) (enumcd_item T d zd e).
Proof.
  intros Hd [He Hfit]. unfold enumcd_item. apply quiet_prockd_within.
  rewrite u64_product by lia. nia.
Qed.

Lemma quiet_enumcd_small d zd x :
  1 <= d -> cofactor_fits d (cdtab T x) -> cd_d (cdtab T x) <= sdmax T ->
  quiet (offer_within_dmax T) (enumcd_small T d zd (cdtab T x)).
Proof.
  intros Hd [He Hfit] Hs. unfold enumcd_small. apply quiet_prockd_within.
  rewrite (cdtab_small T Hcd) by lia.
  rewrite Z.mul_comm, u64_product by lia. nia.
Qed.

Lemma quiet_enumcd_within d p zd :
  1 <= d -> quiet (offer_within_dmax T) (enumcd T d p zd).
Proof.
  intros Hd. unfold enumcd.
  destruct (cdentry T (u64 (p - 1)) d (dmax T)) as [x|] eqn:Hx; [|apply quiet_ret].
  apply (quiet_enumcd_scan_entries T (offer_within_dmax T)
           (fun e => cofactor_fits d e /\ exists x', e = cdtab T x' /\ cd_d e <> 0));
    [| | |constructor].
  - intros e [He _]. now apply quiet_enumcd_item.
  - intros e [He (x' & -> & Hnz)] Hs. now apply quiet_enumcd_small.
  - intros x' Hle Hnz _. split; [|eauto].
    exact (cdentry_fits T Hcd _ _ _ Hd Hx x' Hle Hnz).
Qed.

End OffersWithinDmax.

(** ** Runs that end: no loop runs out of iterations *)

Section Steady.
Import Worker Spec Notions.

Lemma steady_ret {A} (a : A) : steady (ret a).
Proof. intros h. discriminate. Qed.

Lemma steady_emit c : steady (emit c).
Proof. intros h. discriminate. Qed.

Lemma steady_ask T c : steady (ask T c).
Proof. intros h. discriminate. Qed.

Lemma steady_halt {A} s : s <> Diverged -> steady (@halt A s).
Proof. intros Hs h. cbn. congruence. Qed.

Lemma steady_bind {A B} (m : M A) (f : A -> M B) :
  steady m -> (forall a, steady (f a)) -> steady (bind m f).
Proof.
  intros Hm Hf h. unfold bind. specialize (Hm h).
  destruct (m h) as [[a|s] h1]; [apply Hf|].
  cbn in *. congruence.
Qed.

Lemma steady_for_each {A} (l : list A) (f : A -> M unit) :
  (forall a, In a l -> steady (f a)) -> steady (for_each l f).
Proof.
  induction l as [|a l IH]; intros Hf; cbn [for_each]; [apply steady_ret|].
  apply steady_bind; [apply Hf; now left|]. intros _. apply IH. intros. apply Hf. now right.
Qed.

Variable T : tables.

Ltac steady_step :=
  first [ apply steady_ret | apply steady_emit | apply steady_ask
        | apply steady_halt; discriminate
        | apply steady_bind; [|intros ?]
        | match goal with |- steady (if ?c then _ else _) => destruct c end ].

Lemma steady_procd ki a za ca : steady (procd T ki a za ca).
Proof. unfold procd. repeat steady_step. Qed.

Lemma steady_procdcoprime d z c : steady (procdcoprime T d z c).
Proof. unfold procdcoprime. repeat steady_step. Qed.

Lemma steady_procdbigprime d z c si mi l : steady (procdbigprime T d z c si mi l).
Proof. unfold procdbigprime. repeat steady_step. Qed.

Lemma steady_prockd_loop fuel i d zd n : steady (prockd_loop T fuel i d zd n).
Proof.
  revert i. induction fuel as [|fuel IH]; intros i; cbn [prockd_loop];
    destruct (_ <=? _); try apply steady_ret.
  - apply steady_halt. discriminate.
  - apply steady_bind; [apply steady_procd|]. intros _. apply IH.
Qed.

Lemma steady_prockd d zd n : steady (prockd T d zd n).
Proof.
  unfold prockd. apply steady_bind; [apply steady_emit|]. intros _.
  apply steady_bind; [apply steady_procdcoprime|]. intros _. apply steady_prockd_loop.
Qed.

Lemma steady_enumcd_scan x first d p zd queue :
  steady (enumcd_scan T x first d p zd queue).
Proof.
  assert (Hitems : forall q, steady (for_each (rev q) (enumcd_item T d zd))).
  { intros q. apply steady_for_each. intros. apply steady_prockd. }
  assert (Hsmall : forall e, steady (enumcd_small T d zd e)).
  { intros e. apply steady_prockd. }
  revert first queue. induction x as [|x IH]; intros first queue; cbn [enumcd_scan];
    repeat first [apply Hitems | apply IH | apply Hsmall | steady_step].
Qed.

Lemma steady_enumcd d p zd : steady (enumcd T d p zd).
Proof.
  unfold enumcd. destruct (cdentry T _ _ _); [apply steady_enumcd_scan|apply steady_ret].
Qed.

End Steady.

Section EnumdWithinDmax.
Import Worker Spec Notions.
Variable T : tables.
Hypothesis Hcp : cptab_ok T.
Hypothesis Hcd : cdtab_fits T.

(** The state in which [enumd] enters its loop. *)
Lemma enumd_start d p :
  1 <= d -> 2 <= p <= d -> d < 2 ^ 64 ->
  u64 (p - 1) = p - 1 /\
  (pimaxp T (p - 1) d (dmax T) <> 0 ->
   loop_state T d (pimaxp T (p - 1) d (dmax T))
     (cptab T (pimaxp T (p - 1) d (dmax T))) 1).
Proof.
  intros Hd Hp H64. split; [apply u64_small; lia|]. intros Hnz. right.
  pose proof (pimaxp_range T Hcp (p - 1) d).
  destruct (pimaxp_fits T Hcp (p - 1) d Hd Hnz).
  repeat split; try lia; now rewrite Z.pow_1_r.
Qed.

Lemma loop_fuel_enough pi : 1 <= pi -> 64 * pi - Z.log2 (cptab T pi) < Z.of_nat (loop_fuel pi).
Proof.
  intros Hpi. unfold loop_fuel. pose proof (Z.log2_nonneg (cptab T pi)). lia.
Qed.

(** [enumd] below cdmin: it runs [enumd_item] on the entries of its queue. *)
Lemma enumd_run depth d p zd :
  1 <= d -> 2 <= p <= d -> d < 2 ^ 64 -> d < cdmin T ->
  let pi := pimaxp T (p - 1) d (dmax T) in
  exists items,
    enumd_items T (loop_fuel pi) d pi (cptab T pi) 1 = Some items /\
    Forall (fitting_item T d pi) items /\
    forall h, enumd T (S depth) d p zd h
              = for_each items (enumd_item T (enumd T depth) d zd) h.
Proof.
  intros Hd Hp H64 Hlt pi.
  destruct (enumd_start d p Hd Hp H64) as [Hu Hst]. fold pi in Hst.
  assert (Hstate : loop_state T d pi (cptab T pi) 1).
  { destruct (Z.eq_dec pi 0) as [H0|H0]; [now left|auto]. }
  destruct (enumd_items_total T Hcp (loop_fuel pi) d pi (cptab T pi) 1 Hd Hstate)
    as [items Hitems].
  { unfold loop_measure. destruct (Z.eqb_spec pi 0).
    - unfold loop_fuel. lia.
    - pose proof (pimaxp_range T Hcp (p - 1) d). apply loop_fuel_enough. fold pi in H. lia. }
  exists items. split; [assumption|]. split.
  { exact (enumd_items_fit T Hcp _ _ _ _ _ _ Hd Hstate Hitems). }
  intros h. cbn [enumd]. rewrite Hu. fold pi.
  destruct (Z.geb_spec d (cdmin T)); [lia|].
  destruct (Z.eqb_spec pi 0) as [H0|H0].
  - rewrite H0 in Hitems. cbn in Hitems. inversion Hitems. reflexivity.
  - rewrite (enumd_loop_items T _ _ _ _ _ _ _ Hitems). reflexivity.
Qed.

(** What [enumd_item] passes on for a fitting entry: the modulus q*d, and
    q's prime as the new bound. *)
Lemma fitting_item_facts d pi q i e :
  1 <= d -> pi <= cpcnt T -> fitting_item T d pi (q, i, e) ->
  2 <= cptab T i /\ cptab T i <= q /\ u64 (q * d) = q * d /\
  1 <= q * d <= dmax T /\ 2 * d <= q * d.
Proof.
  intros Hd Hpi (Hi & He & Hq & Hfit).
  assert (Hc : 2 <= cptab T i) by (apply (cptab_ge_2 T Hcp); lia).
  assert (Hcq : cptab T i <= q) by (subst q; apply pow_ge_base; lia).
  split; [assumption|]. split; [assumption|].
  split; [apply (u64_product T Hcp); lia|]. nia.
Qed.

Lemma quiet_enumd_within depth d p zd :
  1 <= d -> 2 <= p <= d -> d < 2 ^ 64 ->
  quiet (offer_within_dmax T) (enumd T depth d p zd).
Proof.
  revert d p zd. induction depth as [|depth IH]; intros d p zd Hd Hp H64;
    [apply quiet_halt|].
  destruct (Z.geb_spec d (cdmin T)) as [Hge|Hlt].
  { cbn [enumd]. destruct (Z.geb_spec d (cdmin T)); [|lia].
    now apply quiet_enumcd_within. }
  destruct (enumd_run depth d p zd Hd Hp H64 Hlt) as (items & _ & Hfit & Hrun).
  intros h r h'. rewrite Hrun. revert h r h'.
  apply quiet_for_each. intros [[q i] e] Hin.
  rewrite Forall_forall in Hfit. specialize (Hfit _ Hin).
  pose proof (pimaxp_range T Hcp (p - 1) d) as Hr.
  destruct (fitting_item_facts d _ q i e Hd (proj2 Hr) Hfit) as (Hc & Hcq & Hu & Hab & H2).
  pose proof (dmax_range T Hcp). assert (2 ^ 63 < 2 ^ 64) by reflexivity.
  unfold enumd_item. rewrite Hu.
  apply quiet_bind; [now apply (quiet_prockd_within T)|]. intros _.
  destruct (_ >=? _).
  - apply quiet_enumcd_within; auto. lia.
  - apply IH; nia.
Qed.

Lemma steady_enumd depth d p zd :
  1 <= d <= dmax T -> 2 <= p <= d -> 63 - Z.log2 d < Z.of_nat depth ->
  steady (enumd T depth d p zd).
Proof.
  pose proof (dmax_range T Hcp) as Hdm. assert (H63 : 2 ^ 63 < 2 ^ 64) by reflexivity.
  revert d p zd. induction depth as [|depth IH]; intros d p zd Hd Hp Hdepth.
  { assert (Z.log2 d < 63) by (apply Z.log2_lt_pow2; lia). lia. }
  destruct (Z.geb_spec d (cdmin T)) as [Hge|Hlt].
  { cbn [enumd]. destruct (Z.geb_spec d (cdmin T)); [|lia]. apply steady_enumcd. }
  destruct (enumd_run depth d p zd (proj1 Hd) Hp ltac:(lia) Hlt) as (items & _ & Hfit & Hrun).
  intros h. rewrite Hrun. revert h.
  apply steady_for_each. intros [[q i] e] Hin.
  rewrite Forall_forall in Hfit. specialize (Hfit _ Hin).
  pose proof (pimaxp_range T Hcp (p - 1) d) as Hr.
  destruct (fitting_item_facts d _ q i e (proj1 Hd) (proj2 Hr) Hfit)
    as (Hc & Hcq & Hu & Hab & H2).
  unfold enumd_item. rewrite Hu.
  apply steady_bind; [apply steady_prockd|]. intros _.
  destruct (_ >=? _); [apply steady_enumcd|].
  apply IH; try nia.
  pose proof (Z.log2_double d ltac:(lia)) as Hdb.
  assert (Z.log2 (2 * d) <= Z.log2 (q * d)) by (apply Z.log2_le_mono; lia).
  lia.
Qed.

(** C4: for a modulus d with smallest prime factor p, every prime power q
    the loop of [enumd] queues for d satisfies d*q <= dmax (the test of line
    279 is made before q is queued), the loop does nothing else than to
    process the queued entries, and every modulus offered to [prockd], at
    this and at every deeper step, lies within dmax; the enumeration ends
    within 64 levels. *)
Theorem enumd_appends_within_dmax depth d p zd h :
  1 <= d <= dmax T -> 2 <= p <= d ->
  (d < cdmin T ->
   let pi := pimaxp T (p - 1) d (dmax T) in
   exists items,
     enumd_items T (loop_fuel pi) d pi (cptab T pi) 1 = Some items /\
     Forall (fitting_item T d pi) items /\
     enumd T (S depth) d p zd h
     = for_each items (enumd_item T (enumd T depth) d zd) h) /\
  (exists t, snd (enumd T depth d p zd h) = rev t ++ h /\
             Forall (offer_within_dmax T) t) /\
  (63 - Z.log2 d < Z.of_nat depth -> fst (enumd T depth d p zd h) <> Stop Diverged).
Proof.
  intros Hd Hp. pose proof (dmax_range T Hcp) as Hdm.
  assert (H63 : 2 ^ 63 < 2 ^ 64) by reflexivity.
  split; [|split].
  - intros Hlt pi.
    destruct (enumd_run depth d p zd (proj1 Hd) Hp ltac:(lia) Hlt) as (items & H1 & H2 & H3).
    exists items. auto.
  - apply emits_run. apply quiet_enumd_within; lia.
  - intros Hdepth. now apply steady_enumd.
Qed.

End EnumdWithinDmax.

(** ** The small instance meets what the enumerator relies on *)

Section ToyTables.
Import Worker Spec Notions.

Lemma prime_5 : Z.prime 5.
Proof.
  split; [lia|]. intros n Hn Hdiv. apply Z.mod_divide in Hdiv; [|lia].
  assert (n = 2 \/ n = 3 \/ n = 4) as [-> | [-> | ->]] by lia; discriminate.
Qed.

Lemma loop_cptab_1 r : cptab (Toy.toy Toy.loop_bounds r) 1 = 2.
Proof. reflexivity. Qed.

Lemma loop_cptab_2 r : cptab (Toy.toy Toy.loop_bounds r) 2 = 5.
Proof. reflexivity. Qed.

Lemma loop_pimaxp r p d :
  pimaxp (Toy.toy Toy.loop_bounds r) p d 100
  = (if (2 <=? p) && (d * 2 <=? 100) then 1 else 0)
    + (if (5 <=? p) && (d * 5 <=? 100) then 1 else 0).
Proof.
  change (pimaxp (Toy.toy Toy.loop_bounds r) p d 100)
    with (Z.of_nat (List.length (filter (fun q => (q <=? p) && (d * q <=? 100)) [2; 5]))).
  cbn [filter]. destruct (_ && _); destruct (_ && _); reflexivity.
Qed.

Ltac loop_cases p d :=
  destruct (Z.leb_spec 2 p); destruct (Z.leb_spec (d * 2) 100);
  destruct (Z.leb_spec 5 p); destruct (Z.leb_spec (d * 5) 100);
  cbn [andb Z.add]; rewrite ?loop_cptab_1, ?loop_cptab_2; try lia.

Lemma loop_cptab_ok r : cptab_ok (Toy.toy Toy.loop_bounds r).
Proof.
  constructor.
  - vm_compute. split; congruence.
  - vm_compute. split; congruence.
  - intros i Hi. change (cpcnt (Toy.toy Toy.loop_bounds r)) with 2 in Hi.
    assert (i = 1 \/ i = 2) as [-> | ->] by lia; [exact Z.prime_2|exact prime_5].
  - intros i j Hi Hij Hj. change (cpcnt (Toy.toy Toy.loop_bounds r)) with 2 in Hj.
    assert (i = 1 /\ j = 2) as [-> ->] by lia. vm_compute. reflexivity.
  - intros p d. change (dmax (Toy.toy Toy.loop_bounds r)) with 100.
    rewrite loop_pimaxp. change (cpcnt (Toy.toy Toy.loop_bounds r)) with 2.
    loop_cases p d.
  - intros p d Hd. change (dmax (Toy.toy Toy.loop_bounds r)) with 100.
    rewrite loop_pimaxp. loop_cases p d.
  - intros p d i Hd Hi. change (cpcnt (Toy.toy Toy.loop_bounds r)) with 2 in Hi.
    change (dmax (Toy.toy Toy.loop_bounds r)) with 100.
    rewrite loop_pimaxp.
    assert (i = 1 \/ i = 2) as [-> | ->] by lia;
      rewrite ?loop_cptab_1, ?loop_cptab_2; loop_cases p d.
Qed.

Lemma loop_cdtab_fits r : cdtab_fits (Toy.toy Toy.loop_bounds r).
Proof.
  constructor.
  - intros p d x _ Hx. discriminate Hx.
  - intros [|[|x]] Hnz; exfalso; apply Hnz; reflexivity.
Qed.

Lemma enumd_appends_within_dmax_witness :
  (exists t, snd (enumd (Toy.toy Toy.loop_bounds Toy.accept_all) enumd_depth 11 11 [9] [])
             = rev t ++ [] /\
             Forall (offer_within_dmax (Toy.toy Toy.loop_bounds Toy.accept_all)) t) /\
  fst (enumd (Toy.toy Toy.loop_bounds Toy.accept_all) enumd_depth 11 11 [9] [])
  <> Stop Diverged.
Proof.
  pose proof (enumd_appends_within_dmax (Toy.toy Toy.loop_bounds Toy.accept_all)
                (loop_cptab_ok _) (loop_cdtab_fits _) enumd_depth 11 11 [9] [])
    as Hw.
  destruct Hw as (_ & Hin & Hend).
  - split; vm_compute; congruence.
  - lia.
  - split; [exact Hin|]. apply Hend. vm_compute. reflexivity.
Defined.

End ToyTables.

(** ** Cube roots modulo a product of coprime moduli *)

Section ChineseRemainder.
Import Worker Spec Notions.

Lemma mod_eq_coprime a d x y :
  0 <= a -> 0 <= d -> Z.coprime a d ->
  x mod a = y mod a -> x mod d = y mod d -> x mod (a * d) = y mod (a * d).
Proof.
  intros Ha Hd Hco Hxa Hxd.
  rewrite (Z.combinecong_complete_coprime_nonneg_nonneg x a d y y Hco Hxa Hxd Ha Hd).
  rewrite (Z.combinecong_complete_coprime_nonneg_nonneg y a d y y Hco eq_refl eq_refl Ha Hd).
  reflexivity.
Qed.

Lemma cube_mod m x y : x mod m = y mod m -> (x * x * x) mod m = (y * y * y) mod m.
Proof.
  intros H. rewrite (Zmult_mod (x * x) x), (Zmult_mod x x), H.
  rewrite (Zmult_mod (y * y) y), (Zmult_mod y y). reflexivity.
Qed.

Lemma NoDup_flat_map_pairs {A B C : Type} (g : A -> B -> C) la lb :
  NoDup la -> NoDup lb ->
  (forall x y x' y', In x la -> In y lb -> In x' la -> In y' lb ->
                     g x y = g x' y' -> x = x' /\ y = y') ->
  NoDup (flat_map (fun x => map (g x) lb) la).
Proof.
  intros Hla Hlb Hinj. induction Hla as [|x la Hx Hla IH]; cbn [flat_map]; [constructor|].
  apply NoDup_app.
  - apply NoDup_map_NoDup_ForallPairs; [|assumption].
    intros y y' Hy Hy' Heq. apply (Hinj x y x y'); auto using in_eq.
  - apply IH. intros x1 y1 x2 y2 H1 H2 H3 H4. apply Hinj; auto using in_cons.
  - intros v Hv Hv'. apply in_map_iff in Hv as (y & <- & Hy).
    apply in_flat_map in Hv' as (x' & Hx' & Hv'). apply in_map_iff in Hv' as (y' & Heq & Hy').
    destruct (Hinj x' y' x y) as [-> _]; auto using in_eq, in_cons.
Qed.

Lemma in_lifted {A B C : Type} (g : A -> B -> C) la lb v :
  In v (flat_map (fun x => map (g x) lb) la) <->
  exists x y, In x la /\ In y lb /\ v = g x y.
Proof.
  rewrite in_flat_map. split.
  - intros (x & Hx & Hv). apply in_map_iff in Hv as (y & <- & Hy). eauto.
  - intros (x & y & Hx & Hy & ->). exists x. split; [assumption|].
    apply in_map_iff. eauto.
Qed.

Section Lift.
Variables (k a d : Z) (la ld : list Z) (g : Z -> Z -> Z).
Hypothesis Ha : 1 <= a.
Hypothesis Hd : 1 <= d.
Hypothesis Hco : Z.coprime a d.
Hypothesis Hla : all_roots k a la.
Hypothesis Hld : all_roots k d ld.
Hypothesis Hg : forall za z, In za la -> In z ld ->
  0 <= g za z < a * d /\ g za z mod d = z /\ g za z mod a = za.

Lemma lifted_is_root za z : In za la -> In z ld -> cube_root k (a * d) (g za z).
Proof.
  intros Hza Hz. destruct (Hg za z Hza Hz) as (Hr & Hmd & Hma).
  split; [assumption|].
  destruct (proj1 (proj2 Hla za) Hza) as [Hra Hca].
  destruct (proj1 (proj2 Hld z) Hz) as [Hrd Hcd].
  apply mod_eq_coprime; try lia; try assumption.
  - rewrite <- Hca. apply cube_mod. rewrite Hma. symmetry. now apply Z.mod_small.
  - rewrite <- Hcd. apply cube_mod. rewrite Hmd. symmetry. now apply Z.mod_small.
Qed.

Lemma root_is_lifted x :
  cube_root k (a * d) x -> exists za z, In za la /\ In z ld /\ x = g za z.
Proof.
  intros [Hr Hc]. exists (x mod a), (x mod d).
  assert (Hza : In (x mod a) la).
  { apply (proj2 Hla). split; [apply Z.mod_pos_bound; lia|].
    rewrite (cube_mod a (x mod a) x) by apply Zmod_mod.
    rewrite <- (Z.mod_mod_divide (x * x * x) (a * d) a) by (now exists d; ring).
    rewrite Hc. apply Z.mod_mod_divide. exists d; ring. }
  assert (Hz : In (x mod d) ld).
  { apply (proj2 Hld). split; [apply Z.mod_pos_bound; lia|].
    rewrite (cube_mod d (x mod d) x) by apply Zmod_mod.
    rewrite <- (Z.mod_mod_divide (x * x * x) (a * d) d) by (now exists a).
    rewrite Hc. apply Z.mod_mod_divide. now exists a. }
  split; [assumption|]. split; [assumption|].
  destruct (Hg _ _ Hza Hz) as (Hgr & Hmd & Hma).
  assert (Heq : x mod (a * d) = g (x mod a) (x mod d) mod (a * d)).
  { apply mod_eq_coprime; try assumption; try lia;
      rewrite ?Hma, ?Hmd, Zmod_mod; reflexivity. }
  rewrite (Z.mod_small x), (Z.mod_small (g _ _)) in Heq by assumption. exact Heq.
Qed.

Lemma lift_injective za z za' z' :
  In za la -> In z ld -> In za' la -> In z' ld ->
  g za z = g za' z' -> za = za' /\ z = z'.
Proof.
  intros H1 H2 H3 H4 Heq.
  destruct (Hg za z H1 H2) as (_ & Hmd & Hma).
  destruct (Hg za' z' H3 H4) as (_ & Hmd' & Hma').
  rewrite Heq in Hmd, Hma. split; congruence.
Qed.

(** The lifted roots, with the roots modulo a in the outer loop. *)
Lemma lifted_roots_outer_a :
  all_roots k (a * d) (flat_map (fun za => map (fun z => g za z) ld) la).
Proof.
  split.
  - apply NoDup_flat_map_pairs; [apply Hla|apply Hld|apply lift_injective].
  - intros x. rewrite in_lifted. split.
    + intros (za & z & Hza & Hz & ->). now apply lifted_is_root.
    + apply root_is_lifted.
Qed.

(** The same with the roots modulo d in the outer loop. *)
Lemma lifted_roots_outer_d :
  all_roots k (a * d) (flat_map (fun z => map (fun za => g za z) la) ld).
Proof.
  split.
  - apply (NoDup_flat_map_pairs (fun z za => g za z)); [apply Hld|apply Hla|].
    intros z za z' za' H1 H2 H3 H4 Heq.
    destruct (lift_injective za z za' z' H2 H1 H4 H3 Heq). auto.
  - intros x. rewrite (in_lifted (fun z za => g za z)). split.
    + intros (z & za & Hz & Hza & ->). now apply lifted_is_root.
    + intros Hx. destruct (root_is_lifted x Hx) as (za & z & Hza & Hz & ->). eauto.
Qed.

End Lift.

(** *** The number of distinct prime factors *)

Lemma divisor_search n b :
  0 <= b ->
  (exists m, 1 < m < b /\ (m | n)) \/ (forall m, 1 < m < b -> ~ (m | n)).
Proof.
  intros Hb. revert b Hb. apply natlike_ind.
  - right. intros m Hm. lia.
  - intros b Hb [(m & Hm & Hdiv)|Hnone].
    + left. exists m. split; [lia|assumption].
    + destruct (Z.eq_dec (n mod b) 0) as [H0|H0].
      * destruct (Z_lt_le_dec 1 b) as [H1|H1].
        -- left. exists b. split; [lia|]. apply Z.mod_divide; [lia|assumption].
        -- right. intros m Hm. lia.
      * right. intros m Hm Hdiv.
        destruct (Z.eq_dec m b) as [->|Hne].
        -- apply H0. now apply Z.mod0_divide.
        -- apply (Hnone m); [lia|assumption].
Qed.

Lemma exists_prime_divisor n : 1 < n -> exists p, Z.prime p /\ (p | n).
Proof.
  intros Hn. assert (H0 : 0 <= n) by lia. revert Hn.
  pattern n. apply Z_lt_induction; [|exact H0].
  clear n H0. intros n IH Hn.
  destruct (divisor_search n n ltac:(lia)) as [(m & Hm & Hdiv)|Hnone].
  - destruct (IH m ltac:(lia) ltac:(lia)) as (p & Hp & Hpm).
    exists p. split; [assumption|]. now apply Z.divide_trans with m.
  - exists n. split; [split; assumption|apply Z.divide_refl].
Qed.

Lemma omega_prime_power q e : Z.prime q -> 1 <= e -> omega (q ^ e) 1.
Proof.
  intros Hq He. exists [q]. split; [repeat constructor; auto|]. split; [|reflexivity].
  intros p. cbn. split.
  - intros [<-|[]]. split; [assumption|]. now apply Z.divide_pow_same_r.
  - intros [Hp Hdiv]. left. symmetry. apply (Z.divide_prime_pp p q e); auto. lia.
Qed.

Lemma omega_mul a d wa wd :
  Z.coprime a d -> omega a wa -> omega d wd -> omega (a * d) (wa + wd).
Proof.
  intros Hco (pa & Hna & Hpa & <-) (pd & Hnd & Hpd & <-).
  exists (pa ++ pd). split; [|split].
  - apply NoDup_app; auto. intros p Hin Hin'.
    apply Hpa in Hin as [Hp Hdiva]. apply Hpd in Hin' as [_ Hdivd].
    pose proof (Z.gcd_greatest a d p Hdiva Hdivd) as Hg. rewrite Hco in Hg.
    apply Z.divide_1_r in Hg. pose proof (Z.prime_ge_2 p Hp). lia.
  - intros p. rewrite in_app_iff, Hpa, Hpd. split.
    + intros [[Hp Hdiv]|[Hp Hdiv]]; (split; [assumption|]).
      * now apply Z.divide_mul_l.
      * now apply Z.divide_mul_r.
    + intros [Hp Hdiv]. apply Z.divide_prime_mul in Hdiv; [|assumption].
      destruct Hdiv; auto.
  - apply length_app.
Qed.

Lemma coprime_rough c d p :
  1 <= c -> rough d p -> (forall r, Z.prime r -> (r | c) -> r < p) -> Z.coprime c d.
Proof.
  intros Hc Hd Hsmall. unfold Z.coprime.
  pose proof (Z.gcd_nonneg c d) as Hg0.
  destruct (Z.eq_dec (Z.gcd c d) 0) as [H0|H0].
  { apply Z.gcd_eq_0_l in H0. lia. }
  destruct (Z.eq_dec (Z.gcd c d) 1) as [H1|H1]; [assumption|].
  destruct (exists_prime_divisor (Z.gcd c d) ltac:(lia)) as (r & Hr & Hdiv).
  assert (Hrc : (r | c)) by (eapply Z.divide_trans; [exact Hdiv|apply Z.gcd_divide_l]).
  assert (Hrd : (r | d)) by (eapply Z.divide_trans; [exact Hdiv|apply Z.gcd_divide_r]).
  specialize (Hsmall r Hr Hrc). specialize (Hd r Hr Hrd). lia.
Qed.

End ChineseRemainder.

(** ** The enumerator: the triples it offers *)

Section OfferedRoots.
Import Worker Spec Notions.
Variable T : tables.
Hypothesis Hcp : cptab_ok T.
Hypothesis Hcd : cdtab_fits T.
Hypothesis Hlift : lifting_ok T.

Lemma roots_dispatch c : dispatch_call c = true -> offer_has_roots T c.
Proof. destruct c; try discriminate; exact (fun _ => I). Qed.

Lemma quiet_prockd_roots d zd n :
  triple_ok (K T) d zd n -> quiet (offer_has_roots T) (prockd T d zd n).
Proof. intros Hd. apply quiet_prockd; [apply roots_dispatch|exact Hd]. Qed.

Lemma count_entries n f : 0 <= n -> count (entries n f) = n.
Proof.
  intros Hn. unfold count, entries. rewrite length_map, length_seq. lia.
Qed.

Lemma entries_map n (f : Z -> Z) : entries n f = map f (entries n (fun j => j)).
Proof. unfold entries. now rewrite map_map. Qed.

Lemma in_entries_id n j : In j (entries n (fun j => j)) -> 0 <= j < n.
Proof.
  unfold entries. rewrite in_map_iff. intros (i & <- & Hi). apply in_seq in Hi. lia.
Qed.

Lemma flat_map_map {A B C} (f : A -> B) (F : B -> list C) l :
  flat_map F (map f l) = flat_map (fun x => F (f x)) l.
Proof. induction l as [|x l IH]; cbn; [reflexivity|now rewrite IH]. Qed.

Lemma count_lifted {A B C} (g : A -> B -> C) (la : list A) (lb : list B) :
  count (flat_map (fun x => map (g x) lb) la) = count la * count lb.
Proof.
  unfold count. rewrite (flat_map_constant_length (c := List.length lb)).
  - lia.
  - intros. apply length_map.
Qed.

Lemma flat_map_ext_in {A B} (f g : A -> list B) l :
  (forall x, In x l -> f x = g x) -> flat_map f l = flat_map g l.
Proof.
  induction l as [|x l IH]; intros H; cbn; [reflexivity|].
  rewrite H by apply in_eq. rewrite IH; [reflexivity|]. intros. apply H. now right.
Qed.

(** The triple for a*d from the roots modulo the coprime a and d. *)
Lemma triple_lifted a d (la : list Z) wa zd n r :
  Z.coprime a d -> omega a wa -> count la <= 3 ^ Z.of_nat wa ->
  triple_ok (K T) d zd n ->
  all_roots (K T) (a * d) r -> count r = count la * count zd ->
  triple_ok (K T) (a * d) r (count r).
Proof.
  intros Hco Hwa Hna (Hn & _ & wd & Hwd & Hnd) Hall Hcount.
  split; [reflexivity|]. split; [assumption|].
  exists (wa + wd)%nat. split; [now apply omega_mul|].
  rewrite Hcount, Nat2Z.inj_add, Z.pow_add_r by lia.
  assert (0 <= count la) by (unfold count; lia).
  assert (0 <= count zd) by (unfold count; lia).
  subst n. nia.
Qed.

(** Lines 263-266 and 215-218: the roots lifted with [fcrt64] from the
    roots [la] modulo a and [zd] modulo d. *)
Lemma fcrt64_triple a d (la : list Z) wa zd n :
  1 <= a -> 2 <= d -> a * d <= dmax T ->
  Z.coprime a d -> all_roots (K T) a la -> omega a wa -> count la <= 3 ^ Z.of_nat wa ->
  triple_ok (K T) d zd n ->
  let r := flat_map (fun za =>
                       map (fun z => fcrt64 T (u64 (a * m64_inv_mod T a d - 1))
                                       (u64 (a - za)) z (u64 (a * d))) zd) la in
  u64 (a * d) = a * d /\ triple_ok (K T) (u64 (a * d)) r (count r).
Proof.
  intros Ha Hd Hfit Hco Hla Hwa Hna Htr r.
  pose proof (dmax_range T Hcp) as Hdm. assert (H63 : 2 ^ 63 < 2 ^ 64) by reflexivity.
  destruct (m64_inv_ok T Hlift a d Ha Hd Hco) as [Hinv Hone].
  assert (Hpos : 1 <= a * m64_inv_mod T a d).
  { destruct (Z.eq_dec (a * m64_inv_mod T a d) 0) as [H0|H0]; [|nia].
    rewrite H0, Z.mod_0_l in Hone by lia. discriminate. }
  assert (Hu : u64 (a * m64_inv_mod T a d - 1) = a * m64_inv_mod T a d - 1)
    by (apply u64_small; nia).
  assert (Hab : u64 (a * d) = a * d) by (apply u64_small; nia).
  split; [exact Hab|]. rewrite Hab.
  set (g := fun za z => fcrt64 T (a * m64_inv_mod T a d - 1) (a - za) z (a * d)).
  assert (Hr : r = flat_map (fun za => map (fun z => g za z) zd) la).
  { unfold r. rewrite Hu, Hab. apply flat_map_ext_in. intros za Hza.
    destruct (proj1 (proj2 Hla za) Hza) as [Hrange _].
    rewrite u64_small by nia. reflexivity. }
  rewrite Hr. apply (triple_lifted a d la wa zd n); auto.
  - apply (lifted_roots_outer_a (K T) a d la zd g); try lia; auto.
    + apply Htr.
    + intros za z Hza Hz.
      destruct (proj1 (proj2 Hla za) Hza) as [Hra _].
      destruct Htr as (_ & Hld & _).
      destruct (proj1 (proj2 Hld z) Hz) as [Hrz _].
      exact (fcrt64_ok T Hlift a d _ za z Ha Hd Hinv Hone Hra Hrz).
  - apply count_lifted.
Qed.

(** The roots of a cofactor entry, read through the indices 0 .. n-1. *)
Lemma cd_roots_indexed (F : Z -> list Z) e :
  flat_map (fun j => F (cdroots T (cd_r e + j))) (entries (cd_n e) (fun j => j))
  = flat_map F (cd_roots T e).
Proof. unfold cd_roots. now rewrite (entries_map _ (fun j => cdroots T (cd_r e + j))), flat_map_map. Qed.

Local Abbreviation visited := (Notions.visited T).

Lemma visited_coprime d p e :
  rough d p -> visited d p e -> Z.coprime (cd_d e) d.
Proof.
  intros Hrough ((x & ->) & Hnz & H1 & _ & Hp).
  apply (coprime_rough _ _ p); auto.
  intros r Hr Hdiv. destruct (cd_roots_ok T Hlift x Hnz) as (_ & _ & _ & Hle).
  specialize (Hle r Hr Hdiv). lia.
Qed.

Lemma quiet_enumcd_item_roots d p zd e :
  2 <= d -> rough d p -> triple_ok (K T) d zd (count zd) -> visited d p e ->
  quiet (offer_has_roots T) (enumcd_item T d zd e).
Proof.
  intros Hd Hrough Htr Hv. pose proof (visited_coprime d p e Hrough Hv) as Hco.
  destruct Hv as ((x & ->) & Hnz & H1 & Hfit & Hp).
  destruct (cd_roots_ok T Hlift x Hnz) as (Hn & Hall & (w & Hw & Hnw) & _).
  destruct (fcrt64_triple (cd_d (cdtab T x)) d (cd_roots T (cdtab T x)) w zd (count zd))
    as [Hab Hok]; auto; try lia.
  { unfold cd_roots. now rewrite count_entries. }
  unfold enumcd_item. cbv zeta.
  pose (F := fun za => map (fun z => fcrt64 T
                 (u64 (cd_d (cdtab T x) * m64_inv_mod T (cd_d (cdtab T x)) d - 1))
                 (u64 (cd_d (cdtab T x) - za)) z (u64 (cd_d (cdtab T x) * d))) zd).
  change (flat_map _ (entries _ _))
    with (flat_map (fun j => F (cdroots T (cd_r (cdtab T x) + j)))
            (entries (cd_n (cdtab T x)) (fun j => j))).
  rewrite (cd_roots_indexed F). unfold F.
  apply quiet_prockd_roots. exact Hok.
Qed.

Lemma quiet_enumcd_small_roots d p zd e :
  2 <= d -> rough d p -> triple_ok (K T) d zd (count zd) -> visited d p e ->
  cd_d e <= sdmax T ->
  quiet (offer_has_roots T) (enumcd_small T d zd e).
Proof.
  intros Hd Hrough Htr Hv Hs. pose proof (visited_coprime d p e Hrough Hv) as Hco.
  destruct Hv as ((x & ->) & Hnz & H1 & Hfit & Hp).
  destruct (cd_roots_ok T Hlift x Hnz) as (Hn & Hall & (w & Hw & Hnw) & _).
  pose proof (dmax_range T Hcp) as Hdm. assert (H63 : 2 ^ 63 < 2 ^ 64) by reflexivity.
  unfold enumcd_small. rewrite (cdtab_small T Hcd x Hnz Hs).
  set (y := sdtab T (cd_sdpi (cdtab T x))).
  set (g := fun za z => b32_crt64 T z d za (sd_d y)
                          (sdinvs T (sd_i y + b32_red T d (sd_d y) (sd_dinv y)))
                          (sd_dinv y)).
  match goal with |- quiet _ (prockd T _ ?r _) =>
    assert (Hr : r = flat_map (fun z => map (fun za => g za z) (cd_roots T (cdtab T x))) zd)
  end.
  { apply flat_map_ext_in. intros z Hz. unfold cd_roots.
    rewrite (entries_map _ (fun j => cdroots T (cd_r (cdtab T x) + j))), map_map.
    apply map_ext_in. intros j Hj. apply in_entries_id in Hj. unfold g, y.
    rewrite (sd_roots_ok T Hlift x j Hnz Hs Hj), (cdtab_small T Hcd x Hnz Hs).
    reflexivity. }
  rewrite Hr. rewrite (u64_small (d * _)) by nia.
  rewrite (Z.mul_comm d). apply quiet_prockd_roots.
  apply (triple_lifted _ d (cd_roots T (cdtab T x)) w zd (count zd)); auto.
  - unfold cd_roots. now rewrite count_entries.
  - apply (lifted_roots_outer_d (K T) _ d _ zd g); try lia; auto.
    + apply Htr.
    + intros za z Hza Hz.
      destruct (proj1 (proj2 Hall za) Hza) as [Hra _].
      destruct Htr as (_ & Hld & _).
      destruct (proj1 (proj2 Hld z) Hz) as [Hrz _].
      assert (Hco' : Z.coprime d (cd_d (cdtab T x)))
        by (unfold Z.coprime in *; now rewrite Z.gcd_comm).
      destruct (b32_crt64_ok T Hlift x d z za Hnz Hs Hd Hco' Hrz Hra) as (Hr1 & Hr2 & Hr3).
      unfold g. fold y. rewrite (Z.mul_comm _ d). auto.
  - rewrite (count_lifted (fun z za => g za z)). ring.
Qed.

Lemma quiet_enumcd_roots d p zd :
  2 <= p <= d -> d < 2 ^ 64 -> rough d p -> triple_ok (K T) d zd (count zd) ->
  quiet (offer_has_roots T) (enumcd T d p zd).
Proof.
  intros Hp H64 Hrough Htr. unfold enumcd. rewrite u64_small by lia.
  destruct (cdentry T (p - 1) d (dmax T)) as [x|] eqn:Hx; [|apply quiet_ret].
  apply (quiet_enumcd_scan_entries T (offer_has_roots T) (visited d p)); [| | |constructor].
  - intros e He. apply (quiet_enumcd_item_roots d p); auto; lia.
  - intros e He Hs. apply (quiet_enumcd_small_roots d p); auto; lia.
  - intros x' Hle Hnz Hvis.
    assert (Hd1 : 1 <= d) by lia.
    destruct (cdentry_fits T Hcd (p - 1) d x Hd1 Hx x' Hle Hnz) as [H1 Hfit].
    split; [eauto|]. repeat split; auto.
    destruct Hvis as [[_ ->]|Hlt]; [|assumption].
    pose proof (cdentry_below T Hlift (p - 1) d x Hd1 Hx). lia.
Qed.

Lemma cptab_monotone i j : 1 <= i -> i <= j -> j <= cpcnt T -> cptab T i <= cptab T j.
Proof.
  intros Hi Hij Hj. destruct (Z.eq_dec i j) as [->|Hne]; [lia|].
  pose proof (cptab_increasing T Hcp i j Hi ltac:(lia) Hj). lia.
Qed.

(** What a queued entry of [enumd] gives: a prime power coprime to d with
    its cached roots, and the invariant for the enumeration above q*d. *)
Lemma item_facts d p q i e :
  2 <= p <= d -> rough d p ->
  fitting_item T d (pimaxp T (p - 1) d (dmax T)) (q, i, e) ->
  Z.prime (cptab T i) /\ cptab T i < p /\ 1 <= q /\ q * d <= dmax T /\
  Z.coprime q d /\ omega q 1 /\
  all_roots (K T) q (cached_cuberoots_modq T i e) /\
  count (cached_cuberoots_modq T i e) <= 3 ^ Z.of_nat 1 /\
  rough (q * d) (cptab T i) /\ 2 <= cptab T i <= q * d.
Proof.
  intros Hp Hrough (Hi & He & Hq & Hfit).
  pose proof (pimaxp_range T Hcp (p - 1) d) as Hr.
  assert (Hnz : pimaxp T (p - 1) d (dmax T) <> 0) by lia.
  destruct (pimaxp_fits T Hcp (p - 1) d ltac:(lia) Hnz) as [Hle _].
  pose proof (cptab_monotone i _ ltac:(lia) (proj2 Hi) (proj2 Hr)) as Hmono.
  assert (Hprime : Z.prime (cptab T i)) by (apply (cptab_prime T Hcp); lia).
  pose proof (Z.prime_ge_2 _ Hprime) as Hc2.
  assert (Hcq : cptab T i <= q) by (subst q; apply pow_ge_base; lia).
  assert (Hndiv : ~ (cptab T i | d)).
  { intros Hdiv. specialize (Hrough _ Hprime Hdiv). lia. }
  assert (Hco : Z.coprime q d).
  { subst q. apply Z.coprime_pow_l; [lia|]. now apply Z.coprime_prime_l. }
  destruct (cached_roots_ok T Hlift i e ltac:(lia) He) as [Hall Hlen].
  { rewrite <- Hq. nia. }
  assert (Hq1 : 1 <= q) by lia.
  assert (Hqd : q * d <= dmax T) by lia.
  assert (Hqd' : cptab T i <= q * d) by nia.
  split; [assumption|]. split; [lia|]. split; [assumption|]. split; [assumption|].
  split; [assumption|]. split; [subst q; now apply omega_prime_power|].
  split; [now rewrite <- Hq in Hall|].
  split; [unfold count; change (3 ^ Z.of_nat 1) with 3; lia|].
  split; [|lia].
  intros r Hr' Hdiv. apply Z.divide_prime_mul in Hdiv; [|assumption].
  destruct Hdiv as [Hdiv|Hdiv].
  - subst q. apply Z.divide_prime_pp in Hdiv; auto; lia.
  - specialize (Hrough _ Hr' Hdiv). lia.
Qed.

Lemma quiet_enumd_roots depth d p zd :
  2 <= p <= d -> d <= dmax T -> rough d p -> triple_ok (K T) d zd (count zd) ->
  quiet (offer_has_roots T) (enumd T depth d p zd).
Proof.
  pose proof (dmax_range T Hcp) as Hdm. assert (H63 : 2 ^ 63 < 2 ^ 64) by reflexivity.
  revert d p zd. induction depth as [|depth IH]; intros d p zd Hp Hd Hrough Htr;
    [apply quiet_halt|].
  destruct (Z.geb_spec d (cdmin T)) as [Hge|Hlt].
  { cbn [enumd]. destruct (Z.geb_spec d (cdmin T)); [|lia].
    apply quiet_enumcd_roots; auto. lia. }
  destruct (enumd_run T Hcp depth d p zd ltac:(lia) Hp ltac:(lia) Hlt)
    as (items & _ & Hfit & Hrun).
  intros h r h'. rewrite Hrun. revert h r h'.
  apply quiet_for_each. intros [[q i] e] Hin.
  rewrite Forall_forall in Hfit. specialize (Hfit _ Hin).
  destruct (item_facts d p q i e Hp Hrough Hfit)
    as (Hprime & Hlt' & Hq1 & Hqd & Hco & Hw & Hall & Hcnt & Hrough' & Hp').
  destruct (fcrt64_triple q d (cached_cuberoots_modq T i e) 1 zd (count zd))
    as [Hab Hok]; auto; try lia.
  unfold enumd_item. cbv zeta. rewrite Hab in *.
  apply quiet_bind; [now apply quiet_prockd_roots|]. intros _.
  destruct (_ >=? _).
  - apply quiet_enumcd_roots; auto. lia.
  - apply IH; auto.
Qed.

End OfferedRoots.

(** ** The toy tables meet the lifting contract *)

Section ToyLifting.
Import Worker Spec Notions.

Lemma in_range lo n x : 0 <= lo -> In x (Toy.range lo n) <-> lo <= x < lo + n.
Proof.
  intros Hlo. unfold Toy.range. rewrite in_map_iff. split.
  - intros (i & <- & Hi). apply in_seq in Hi. lia.
  - intros Hx. exists (Z.to_nat x). split; [lia|]. apply in_seq. lia.
Qed.

Lemma NoDup_range lo n : NoDup (Toy.range lo n).
Proof.
  unfold Toy.range. generalize (seq_NoDup (Z.to_nat n) (Z.to_nat lo)).
  induction 1 as [|i l Hi Hl IH]; cbn [map]; constructor; [|exact IH].
  rewrite in_map_iff. intros (j & Hj & Hin). apply Nat2Z.inj in Hj. now subst j.
Qed.

Lemma toy_roots_all k d : all_roots k d (Toy.roots k d).
Proof.
  split.
  - apply NoDup_filter, NoDup_range.
  - intros x. unfold Toy.roots, cube_root. rewrite filter_In, in_range, Z.eqb_eq by lia.
    intuition lia.
Qed.

Lemma toy_inverse_ok a d :
  2 <= d -> Z.coprime a d ->
  0 <= Toy.inverse a d < d /\ (a * Toy.inverse a d) mod d = 1.
Proof.
  intros Hd Hco. unfold Toy.inverse.
  assert (Hone : 1 mod d = 1) by (apply Z.mod_small; lia).
  destruct (filter _ _) as [|y l] eqn:Hf.
  - exfalso.
    assert (Hin : In (Z.invmod a d)
                     (filter (fun y => (a * y) mod d =? 1 mod d) (Toy.range 0 d))).
    { apply filter_In. split.
      - apply in_range; [lia|]. rewrite <- (Z.mod_invmod d a).
        pose proof (Z.mod_pos_bound (Z.invmod a d) d). lia.
      - apply Z.eqb_eq. rewrite Z.mul_comm, Hone. now apply Z.invmod_coprime. }
    rewrite Hf in Hin. destruct Hin.
  - assert (Hin : In y (filter (fun y => (a * y) mod d =? 1 mod d) (Toy.range 0 d)))
      by (rewrite Hf; now left).
    apply filter_In in Hin. destruct Hin as [Hr Hy].
    apply in_range in Hr; [|lia]. apply Z.eqb_eq in Hy. split; [lia|congruence].
Qed.

(** The lifting of the toy tables: z + (a*ainv - 1) * (z + a - za) is z
    modulo d and za modulo a. *)
Lemma toy_fcrt64_ok a d ainv za z :
  1 <= a -> 2 <= d -> 0 <= ainv < d -> (a * ainv) mod d = 1 ->
  0 <= za < a -> 0 <= z < d ->
  let r := (z + (a * ainv - 1) * (z + (a - za))) mod (a * d) in
  0 <= r < a * d /\ r mod d = z /\ r mod a = za.
Proof.
  intros Ha Hd Hainv Hinv Hza Hz r. subst r.
  assert (Hpos : 0 < a * d) by nia.
  split; [apply Z.mod_pos_bound; lia|]. split.
  - rewrite Z.mod_mod_divide by (exists a; ring).
    pose proof (Z.div_mod (a * ainv) d ltac:(lia)) as Hdm. rewrite Hinv in Hdm.
    replace (z + (a * ainv - 1) * (z + (a - za)))
      with (z + ((a * ainv) / d * (z + (a - za))) * d) by nia.
    rewrite Z.mod_add by lia. apply Z.mod_small; lia.
  - rewrite Z.mod_mod_divide by (exists d; ring).
    replace (z + (a * ainv - 1) * (z + (a - za)))
      with (za + (ainv * (z + (a - za)) - 1) * a) by ring.
    rewrite Z.mod_add by lia. apply Z.mod_small; lia.
Qed.

Lemma pow_2_above e : 7 <= e -> 100 < 2 ^ e.
Proof.
  intros He. pose proof (Z.pow_le_mono_r 2 7 e ltac:(lia) He) as Hp.
  change (2 ^ 7) with 128 in Hp. lia.
Qed.

Lemma pow_5_above e : 3 <= e -> 100 < 5 ^ e.
Proof.
  intros He. pose proof (Z.pow_le_mono_r 5 3 e ltac:(lia) He) as Hp.
  change (5 ^ 3) with 125 in Hp. lia.
Qed.

Lemma loop_cached_roots r pi e :
  cached_cuberoots_modq (Toy.toy Toy.loop_bounds r) pi e
  = Toy.roots 3 (cptab (Toy.toy Toy.loop_bounds r) pi ^ e) \/ pi = 0.
Proof.
  destruct (Z.eq_dec pi 0) as [->|Hnz]; [now right|left].
  change (cached_cuberoots_modq (Toy.toy Toy.loop_bounds r) pi e)
    with (Toy.roots 3 (Toy.nthZ (Toy.good_primes 3 10) (pi - 1) ^ e)).
  change (cptab (Toy.toy Toy.loop_bounds r) pi)
    with (if pi =? 0 then 0 else Toy.nthZ (Toy.good_primes 3 10) (pi - 1)).
  destruct (Z.eqb_spec pi 0); [contradiction|reflexivity].
Qed.

Lemma loop_lifting_ok r : lifting_ok (Toy.toy Toy.loop_bounds r).
Proof.
  constructor.
  - intros a d _ Hd Hco. exact (toy_inverse_ok a d Hd Hco).
  - intros a d ainv za z. exact (toy_fcrt64_ok a d ainv za z).
  - intros pi e Hpi He Hle.
    change (cpcnt (Toy.toy Toy.loop_bounds r)) with 2 in Hpi.
    change (dmax (Toy.toy Toy.loop_bounds r)) with 100 in Hle.
    change (K (Toy.toy Toy.loop_bounds r)) with 3.
    destruct (loop_cached_roots r pi e) as [-> | ?]; [|lia].
    split; [apply toy_roots_all|].
    assert (pi = 1 \/ pi = 2) as [-> | ->] by lia.
    + rewrite loop_cptab_1 in *.
      assert (He' : e < 7) by (destruct (Z.lt_ge_cases e 7); [assumption|];
                                pose proof (pow_2_above e); lia).
      assert (e = 1 \/ e = 2 \/ e = 3 \/ e = 4 \/ e = 5 \/ e = 6)
        as [-> | [-> | [-> | [-> | [-> | ->]]]]] by lia; vm_compute; lia.
    + rewrite loop_cptab_2 in *.
      assert (He' : e < 3) by (destruct (Z.lt_ge_cases e 3); [assumption|];
                                pose proof (pow_5_above e); lia).
      assert (e = 1 \/ e = 2) as [-> | ->] by lia; vm_compute; lia.
  - intros [|[|x]] Hnz; exfalso; apply Hnz; reflexivity.
  - intros p d x _ Hx. discriminate Hx.
  - intros [|[|x]] j Hnz; exfalso; apply Hnz; reflexivity.
  - intros [|[|x]] d z zs Hnz; exfalso; apply Hnz; reflexivity.
Qed.

Lemma prime_11 : Z.prime 11.
Proof.
  split; [lia|]. intros n Hn Hdiv. apply Z.mod_divide in Hdiv; [|lia].
  assert (n = 2 \/ n = 3 \/ n = 4 \/ n = 5 \/ n = 6 \/ n = 7 \/ n = 8 \/ n = 9 \/ n = 10)
    as [-> | [-> | [-> | [-> | [-> | [-> | [-> | [-> | ->]]]]]]]] by lia; discriminate.
Qed.

Lemma rough_prime p : Z.prime p -> rough p p.
Proof.
  intros Hp r Hr Hdiv. rewrite (Z.divide_prime_prime r p Hr Hp Hdiv). lia.
Qed.

End ToyLifting.

(** ** Runs that dispatch a set of moduli *)

Section Covering.
Import Worker Spec Coverage Notions.
Variable T : tables.

Lemma invocations_app t1 t2 : invocations (t1 ++ t2) = invocations t1 ++ invocations t2.
Proof. apply flat_map_app. Qed.

Lemma offers_app t1 t2 : offers (t1 ++ t2) = offers t1 ++ offers t2.
Proof. apply flat_map_app. Qed.

Lemma NoDup_app_disjoint {A} (l1 l2 : list A) :
  NoDup l1 -> NoDup l2 -> (forall a, In a l1 -> In a l2 -> False) -> NoDup (l1 ++ l2).
Proof.
  intros H1 H2 Hd. induction H1 as [|a l1 Ha H1 IH]; cbn [app]; [exact H2|].
  constructor.
  - rewrite in_app_iff. intros [Hin|Hin]; [contradiction|]. apply (Hd a); [now left|exact Hin].
  - apply IH. intros b Hb. apply Hd. now right.
Qed.

Lemma NoDup_map_injective {A B} (f : A -> B) (l : list A) :
  (forall x y, In x l -> In y l -> f x = f y -> x = y) -> NoDup l -> NoDup (map f l).
Proof.
  intros Hinj Hnd. induction Hnd as [|a l Ha Hnd IH]; cbn [map]; constructor.
  - rewrite in_map_iff. intros (b & Heq & Hb).
    rewrite (Hinj b a) in Hb; auto; [now right|now left].
  - apply IH. intros x y Hx Hy. apply Hinj; now right.
Qed.

Lemma covers_ret {A} (v : A) : covers T (ret v) v (fun _ => False).
Proof.
  intros h. exists [], []. repeat split; try constructor; try easy.
Qed.

Lemma covers_ext {A} (m : M A) v (S S' : Z -> Prop) :
  covers T m v S -> (forall a, S a <-> S' a) -> covers T m v S'.
Proof.
  intros Hm Heq h. destruct (Hm h) as (t & L & Hrun & Hinv & Hnd & Hin & Hoff & Hincl).
  exists t, L. repeat split; auto; intros Ha.
  - apply Heq, Hin, Ha.
  - apply Hin, Heq, Ha.
Qed.

Lemma covers_bind {A B} (m : M A) (f : A -> M B) v w (S1 S2 : Z -> Prop) :
  covers T m v S1 -> covers T (f v) w S2 ->
  (forall a, S1 a -> S2 a -> False) ->
  covers T (bind m f) w (fun a => S1 a \/ S2 a).
Proof.
  intros Hm Hf Hdis h.
  destruct (Hm h) as (t1 & L1 & Hrun1 & Hinv1 & Hnd1 & Hin1 & Hoff1 & Hincl1).
  destruct (Hf (rev t1 ++ h)) as (t2 & L2 & Hrun2 & Hinv2 & Hnd2 & Hin2 & Hoff2 & Hincl2).
  exists (t1 ++ t2), (L1 ++ L2).
  assert (Hd : forall a, In a L1 -> In a L2 -> False).
  { intros a H1 H2. apply (Hdis a); [now apply Hin1|now apply Hin2]. }
  split; [|split; [|split; [|split; [|split]]]].
  - unfold bind. rewrite Hrun1, Hrun2, rev_app_distr, <- app_assoc. reflexivity.
  - rewrite invocations_app, flat_map_app. congruence.
  - now apply NoDup_app_disjoint.
  - intros a. rewrite in_app_iff, Hin1, Hin2. reflexivity.
  - rewrite offers_app. apply NoDup_app_disjoint; auto.
    intros a H1 H2. apply (Hd a); [now apply Hincl1|now apply Hincl2].
  - rewrite offers_app. apply incl_app; [now apply incl_appl|now apply incl_appr].
Qed.

(** A step that dispatches nothing. *)
Lemma covers_then {A B} (m : M A) (f : A -> M B) v w (S : Z -> Prop) :
  covers T m v (fun _ => False) -> covers T (f v) w S -> covers T (bind m f) w S.
Proof.
  intros Hm Hf. eapply covers_ext.
  - eapply covers_bind; [exact Hm|exact Hf|]. intros a [].
  - intros a. tauto.
Qed.

Lemma covers_first {A B} (m : M A) (f : A -> M B) v w (S : Z -> Prop) :
  covers T m v S -> covers T (f v) w (fun _ => False) -> covers T (bind m f) w S.
Proof.
  intros Hm Hf. eapply covers_ext.
  - eapply covers_bind; [exact Hm|exact Hf|]. intros a _ [].
  - intros a. tauto.
Qed.

Lemma silent_call c : silent c = true -> invocations [c] = [] /\ offers [c] = [].
Proof. destruct c; try discriminate; split; reflexivity. Qed.

Lemma covers_emit c : silent c = true -> covers T (emit c) tt (fun _ => False).
Proof.
  intros Hc h. destruct (silent_call c Hc) as [Hi Ho]. exists [c], [].
  rewrite Hi, Ho. repeat split; try constructor; try easy.
Qed.

(** A call of the reporter whose answer is used: it is accepted. *)
Lemma covers_ask c : accepts T -> accepted c = true -> covers T (ask T c) true (fun _ => False).
Proof.
  intros Hacc Hc h. assert (Hs : silent c = true) by (destruct c; try discriminate; reflexivity).
  destruct (silent_call c Hs) as [Hi Ho]. exists [c], [].
  unfold ask. rewrite (Hacc h c Hc), Hi, Ho.
  repeat split; try constructor; try easy.
Qed.

(** A call of the reporter whose answer does not change what is dispatched. *)
Lemma covers_ask_any {B} c (f : bool -> M B) w (S : Z -> Prop) :
  silent c = true -> (forall b, covers T (f b) w S) -> covers T (bind (ask T c) f) w S.
Proof.
  intros Hs Hf h. destruct (silent_call c Hs) as [Hi Ho].
  destruct (Hf (answer T h c) (c :: h)) as (t & L & Hrun & Hinv & Hnd & Hin & Hoff & Hincl).
  exists (c :: t), L. unfold bind, ask. rewrite Hrun.
  change (c :: t) with ([c] ++ t). rewrite invocations_app, offers_app, Hi, Ho.
  cbn [app rev]. rewrite <- app_assoc. cbn [app]. repeat split; auto; apply Hin.
Qed.

Lemma adds_ret {A} (v : A) : adds [] [] (ret v) v.
Proof. intros h. exists []. auto. Qed.

Lemma adds_emit c : adds (invocations [c]) (offers [c]) (emit c) tt.
Proof. intros h. exists [c]. auto. Qed.

Lemma adds_bind {A B} I1 O1 I2 O2 (m : M A) (f : A -> M B) v w :
  adds I1 O1 m v -> adds I2 O2 (f v) w -> adds (I1 ++ I2) (O1 ++ O2) (bind m f) w.
Proof.
  intros Hm Hf h. destruct (Hm h) as (t1 & Hrun1 & Hi1 & Ho1).
  destruct (Hf (rev t1 ++ h)) as (t2 & Hrun2 & Hi2 & Ho2).
  exists (t1 ++ t2). unfold bind.
  rewrite Hrun1, Hrun2, rev_app_distr, <- app_assoc, invocations_app, offers_app.
  subst. auto.
Qed.

Lemma adds_ask_any {B} I O c (f : bool -> M B) w :
  silent c = true -> (forall b, adds I O (f b) w) -> adds I O (bind (ask T c) f) w.
Proof.
  intros Hs Hf h. destruct (silent_call c Hs) as [Hi Ho].
  destruct (Hf (answer T h c) (c :: h)) as (t & Hrun & Hinv & Hoff).
  exists (c :: t). unfold bind, ask. rewrite Hrun.
  change (c :: t) with ([c] ++ t). rewrite invocations_app, offers_app, Hi, Ho.
  cbn [app rev]. rewrite <- app_assoc. auto.
Qed.

Lemma adds_covers {A} (m : M A) v (L O : list Z) (S : Z -> Prop) :
  adds (flat_map (keys_of T) L) O m v -> NoDup L -> (forall a, In a L <-> S a) ->
  NoDup O -> incl O L ->
  covers T m v S.
Proof.
  intros Hm Hnd Hin HO Hincl h. destruct (Hm h) as (t & Hrun & Hi & Ho).
  exists t, L. rewrite Ho. repeat split; auto; apply Hin.
Qed.

(** A dispatcher function enters once and calls the reporter and a z-check. *)
Ltac adds_silent :=
  repeat first
    [ apply adds_ret
    | apply adds_ask_any; [reflexivity|intros ?; cbv beta]
    | eapply (adds_bind [] [] [] []); [|cbv beta]
    | match goal with |- adds [] [] (emit ?c) _ => exact (adds_emit c) end
    | match goal with |- adds _ _ (if ?c then _ else _) _ => destruct c end ].

Lemma adds_procd ki a za ca : adds [(a, ki)] [] (procd T ki a za ca) tt.
Proof.
  unfold procd. apply (adds_bind [(a, ki)] [] [] [] _ _ tt); [exact (adds_emit _)|].
  cbv beta zeta. adds_silent.
Qed.

Lemma adds_procdcoprime d z c : adds [(d, 0)] [] (procdcoprime T d z c) tt.
Proof.
  unfold procdcoprime. apply (adds_bind [(d, 0)] [] [] [] _ _ tt); [exact (adds_emit _)|].
  cbv beta zeta. adds_silent.
Qed.

Lemma adds_procdbigprime d z c si mi l :
  adds [(d, 0)] [] (procdbigprime T d z c si mi l) tt.
Proof.
  unfold procdbigprime. apply (adds_bind [(d, 0)] [] [] [] _ _ tt); [exact (adds_emit _)|].
  cbv beta zeta. adds_silent.
Qed.

End Covering.

(** ** The divisors of k a modulus is combined with *)

Section DivisorClasses.
Import Worker Spec Coverage Notions.
Variable T : tables.
Hypothesis Hkd : divisors_ok T.

Lemma kdmax_chain i j : 1 <= i -> i <= j -> j <= kdcnt T + 1 -> kdmax T j <= kdmax T i.
Proof.
  intros Hi Hij Hj. replace j with (i + Z.of_nat (Z.to_nat (j - i))) in * by lia.
  induction (Z.to_nat (j - i)) as [|n IH]; [rewrite Z.add_0_r; lia|].
  rewrite Nat2Z.inj_succ in *.
  pose proof (kdmax_decreasing T Hkd (i + Z.of_nat n) ltac:(lia)) as Hstep.
  replace (i + Z.succ (Z.of_nat n)) with (i + Z.of_nat n + 1) by lia.
  specialize (IH ltac:(lia) ltac:(lia)). lia.
Qed.

Lemma classes_spec fuel i d ki :
  1 <= d -> 1 <= i -> i + Z.of_nat fuel = kdcnt T + 1 ->
  In ki (classes T fuel i d) <-> (i <= ki <= kdcnt T /\ d <= kdmax T ki).
Proof.
  intros Hd. revert i. induction fuel as [|fuel IH]; intros i Hi Hsum; cbn [classes].
  - replace i with (kdcnt T + 1) by lia. pose proof (kdmax_end T Hkd).
    destruct (Z.leb_spec d (kdmax T (kdcnt T + 1))); [lia|]. cbn. lia.
  - destruct (Z.leb_spec d (kdmax T i)) as [Hle|Hgt].
    + cbn [In]. rewrite IH by lia. split.
      * intros [<-|H]; lia.
      * intros [Hr Hk]. destruct (Z.eq_dec i ki); [now left|right; lia].
    + cbn [In]. split; [tauto|]. intros [Hr Hk].
      pose proof (kdmax_chain i ki Hi ltac:(lia) ltac:(lia)). lia.
Qed.

Lemma classes_increasing fuel i d ki : In ki (classes T fuel i d) -> i <= ki.
Proof.
  revert i. induction fuel as [|fuel IH]; intros i; cbn [classes];
    destruct (_ <=? _); cbn [In]; try tauto.
  intros [<-|H]; [lia|]. apply IH in H. lia.
Qed.

Lemma classes_NoDup fuel i d : NoDup (classes T fuel i d).
Proof.
  revert i. induction fuel as [|fuel IH]; intros i; cbn [classes];
    destruct (_ <=? _); try constructor; [|apply IH].
  intros Hin. apply classes_increasing in Hin. lia.
Qed.

Lemma in_keys_of d a ki :
  1 <= d -> In (a, ki) (keys_of T d) <-> a = d /\ class_of T d ki.
Proof.
  intros Hd. pose proof (kdcnt_nonneg T Hkd) as Hcnt.
  unfold keys_of, class_of. cbn [In]. rewrite in_map_iff. split.
  - intros [Heq|(i & Heq & Hin)]; inversion Heq; subst; [now split; [|left]|].
    split; [reflexivity|right].
    apply classes_spec in Hin; lia.
  - intros [-> [->|[Hr Hk]]]; [now left|right]. exists ki. split; [reflexivity|].
    apply classes_spec; lia.
Qed.

Lemma keys_of_NoDup d : 1 <= d -> NoDup (keys_of T d).
Proof.
  intros Hd. unfold keys_of. constructor.
  - rewrite in_map_iff. intros (i & Heq & Hin). inversion Heq; subst.
    apply classes_increasing in Hin. lia.
  - apply NoDup_map_injective; [|apply classes_NoDup].
    intros x y _ _ Heq. now inversion Heq.
Qed.

Lemma in_keys L a ki :
  Forall (fun d => 1 <= d) L ->
  In (a, ki) (flat_map (keys_of T) L) <-> In a L /\ class_of T a ki.
Proof.
  intros HL. rewrite in_flat_map. rewrite Forall_forall in HL. split.
  - intros (d & Hd & Hin). apply in_keys_of in Hin; [|auto]. destruct Hin as [-> Hc]. auto.
  - intros [Hin Hc]. exists a. split; [assumption|]. apply in_keys_of; auto.
Qed.

Lemma keys_NoDup L :
  Forall (fun d => 1 <= d) L -> NoDup L -> NoDup (flat_map (keys_of T) L).
Proof.
  intros HL Hnd. induction Hnd as [|d L Hd Hnd IH]; cbn [flat_map]; [constructor|].
  inversion HL as [|? ? Hd1 HL']; subst.
  apply NoDup_app_disjoint; [now apply keys_of_NoDup|now apply IH|].
  intros [a ki] H1 H2. apply in_keys_of in H1; [|assumption]. apply in_keys in H2; [|assumption].
  destruct H1 as [-> _]. tauto.
Qed.

(** From pdmin on, d is combined with no divisor of k. *)
Lemma keys_of_alone d : 1 <= d -> pdmin T <= d -> keys_of T d = [(d, 0)].
Proof.
  intros Hd Hp. unfold keys_of. f_equal.
  destruct (classes T (Z.to_nat (kdcnt T)) 1 d) as [|i l] eqn:Hc; [reflexivity|exfalso].
  assert (Hin : In i (classes T (Z.to_nat (kdcnt T)) 1 d)) by (rewrite Hc; now left).
  pose proof (kdcnt_nonneg T Hkd).
  apply classes_spec in Hin; try lia.
  pose proof (kdmax_pdmin T Hkd i ltac:(lia)). lia.
Qed.

Lemma adds_prockd_loop fuel i d zd n :
  1 <= d -> 1 <= i -> i + Z.of_nat fuel = kdcnt T + 1 ->
  adds (map (pair d) (classes T fuel i d)) [] (prockd_loop T fuel i d zd n) tt.
Proof.
  intros Hd. revert i. induction fuel as [|fuel IH]; intros i Hi Hsum;
    cbn [classes prockd_loop].
  - replace i with (kdcnt T + 1) by lia. pose proof (kdmax_end T Hkd).
    destruct (Z.leb_spec d (kdmax T (kdcnt T + 1))); [lia|]. apply adds_ret.
  - destruct (Z.leb_spec d (kdmax T i)); [|apply adds_ret]. cbn [map].
    apply (adds_bind [(d, i)] [] _ [] _ _ tt); [apply adds_procd|].
    apply IH; lia.
Qed.

Lemma adds_prockd d zd n : 1 <= d -> adds (keys_of T d) [d] (prockd T d zd n) tt.
Proof.
  intros Hd. unfold prockd, keys_of. pose proof (kdcnt_nonneg T Hkd).
  apply (adds_bind [] [d] _ [] _ _ tt); [exact (adds_emit _)|].
  apply (adds_bind [(d, 0)] [] _ [] _ _ tt); [apply adds_procdcoprime|].
  apply adds_prockd_loop; lia.
Qed.

Lemma covers_prockd d zd n : 1 <= d -> covers T (prockd T d zd n) tt (eq d).
Proof.
  intros Hd. apply (adds_covers T _ _ [d] [d]).
  - cbn [flat_map]. rewrite app_nil_r. now apply adds_prockd.
  - repeat constructor. intros [].
  - intros a. cbn. intuition.
  - repeat constructor. intros [].
  - apply incl_refl.
Qed.

(** From pdmin on a modulus is dispatched by one entry of the dispatcher. *)
Lemma covers_entry (m : M unit) d :
  1 <= d -> pdmin T <= d -> adds [(d, 0)] [] m tt -> covers T m tt (eq d).
Proof.
  intros Hd Hp Hm. apply (adds_covers T _ _ [d] []).
  - cbn [flat_map]. rewrite app_nil_r, keys_of_alone; assumption.
  - repeat constructor. intros [].
  - intros a. cbn. intuition.
  - constructor.
  - intros a [].
Qed.

End DivisorClasses.

(** ** The largest prime factor of a modulus and its power *)

Section PrimePowers.
Import Worker Spec Coverage Notions.

Lemma exists_largest_prime_factor m : 2 <= m -> exists q, largest_prime_factor m q.
Proof.
  intros Hm. assert (H0 : 0 <= m) by lia. revert Hm.
  pattern m. apply Z_lt_induction; [|exact H0].
  clear m H0. intros m IH Hm.
  destruct (exists_prime_divisor m ltac:(lia)) as (p & Hp & [m1 Hm1]).
  pose proof (Z.prime_ge_2 p Hp) as Hp2.
  destruct (Z.eq_dec m1 1) as [->|Hne].
  - exists p. split; [assumption|]. split; [exists 1; lia|].
    intros q Hq Hdiv. replace m with p in Hdiv by lia.
    rewrite (Z.divide_prime_prime q p Hq Hp Hdiv). lia.
  - assert (H1 : 2 <= m1) by nia.
    destruct (IH m1 ltac:(nia) H1) as (q1 & Hq1 & Hdiv1 & Hmax1).
    destruct (Z_le_gt_dec q1 p) as [Hle|Hgt].
    + exists p. split; [assumption|]. split; [exists m1; lia|].
      intros q Hq Hdiv. subst m. apply Z.divide_prime_mul in Hdiv; [|assumption].
      destruct Hdiv as [Hdiv|Hdiv]; [specialize (Hmax1 q Hq Hdiv); lia|].
      rewrite (Z.divide_prime_prime q p Hq Hp Hdiv). lia.
    + exists q1. split; [assumption|]. split.
      { subst m. now apply Z.divide_mul_l. }
      intros q Hq Hdiv. subst m. apply Z.divide_prime_mul in Hdiv; [|assumption].
      destruct Hdiv as [Hdiv|Hdiv]; [now apply Hmax1|].
      rewrite (Z.divide_prime_prime q p Hq Hp Hdiv). lia.
Qed.

Lemma largest_prime_factor_unique m p q :
  largest_prime_factor m p -> largest_prime_factor m q -> p = q.
Proof.
  intros (Hp & Hdp & Hmp) (Hq & Hdq & Hmq).
  specialize (Hmp q Hq Hdq). specialize (Hmq p Hp Hdp). lia.
Qed.

(** m = q^e * m' with q not dividing m'. *)
Lemma split_power q m :
  2 <= q -> 1 <= m ->
  exists e m', 0 <= e /\ 1 <= m' /\ m = q ^ e * m' /\ ~ (q | m').
Proof.
  intros Hq Hm. assert (H0 : 0 <= m) by lia. revert Hm.
  pattern m. apply Z_lt_induction; [|exact H0].
  clear m H0. intros m IH Hm.
  destruct (Z.eq_dec (m mod q) 0) as [Hz|Hnz].
  - apply Z.mod_divide in Hz; [|lia]. destruct Hz as [m1 Hm1].
    destruct (IH m1 ltac:(nia) ltac:(nia)) as (e & m' & He & Hm' & Heq & Hnd).
    exists (e + 1), m'. repeat split; try lia; [|assumption].
    rewrite Z.pow_add_r, Z.pow_1_r by lia. subst m m1. ring.
  - exists 0, m. repeat split; try lia.
    intros Hdiv. apply Hnz. apply Z.mod_divide in Hdiv; lia.
Qed.

Lemma largest_prime_split m :
  2 <= m ->
  exists q e m', largest_prime_factor m q /\ 1 <= e /\ 1 <= m' /\ m = q ^ e * m' /\
                 (forall r, Z.prime r -> (r | m') -> r < q).
Proof.
  intros Hm. destruct (exists_largest_prime_factor m Hm) as (q & Hq & Hdiv & Hmax).
  pose proof (Z.prime_ge_2 q Hq) as Hq2.
  destruct (split_power q m Hq2 ltac:(lia)) as (e & m' & He & Hm' & Heq & Hnd).
  exists q, e, m'. split; [exact (conj Hq (conj Hdiv Hmax))|].
  assert (He1 : 1 <= e).
  { destruct (Z.eq_dec e 0) as [->|]; [|lia]. exfalso. apply Hnd.
    rewrite Z.pow_0_r, Z.mul_1_l in Heq. now subst m'. }
  repeat split; try assumption.
  intros r Hr Hrm.
  assert (Hrq : r <= q).
  { apply Hmax; [assumption|]. rewrite Heq. now apply Z.divide_mul_r. }
  destruct (Z.eq_dec r q) as [->|]; [contradiction|lia].
Qed.

Lemma prime_divides_power_part q e m r :
  Z.prime q -> Z.prime r -> 0 <= e -> (r | q ^ e * m) -> r = q \/ (r | m).
Proof.
  intros Hq Hr He Hdiv. apply Z.divide_prime_mul in Hdiv; [|assumption].
  destruct Hdiv as [Hdiv|Hdiv]; [left|now right].
  now apply (Z.divide_prime_pp r q e).
Qed.

(** The largest prime, its exponent and the rest are determined. *)
Lemma power_split_unique q1 e1 m1 q2 e2 m2 :
  Z.prime q1 -> Z.prime q2 -> 1 <= e1 -> 1 <= e2 -> 1 <= m1 -> 1 <= m2 ->
  (forall r, Z.prime r -> (r | m1) -> r < q1) ->
  (forall r, Z.prime r -> (r | m2) -> r < q2) ->
  q1 ^ e1 * m1 = q2 ^ e2 * m2 ->
  q1 = q2 /\ e1 = e2 /\ m1 = m2.
Proof.
  intros Hq1 Hq2 He1 He2 Hm1 Hm2 Hs1 Hs2 Heq.
  pose proof (Z.prime_ge_2 q1 Hq1) as H1. pose proof (Z.prime_ge_2 q2 Hq2) as H2.
  assert (Hd1 : (q1 | q2 ^ e2 * m2)).
  { rewrite <- Heq. apply Z.divide_mul_l. apply Z.divide_pow_same_r; lia. }
  assert (Hd2 : (q2 | q1 ^ e1 * m1)).
  { rewrite Heq. apply Z.divide_mul_l. apply Z.divide_pow_same_r; lia. }
  apply prime_divides_power_part in Hd1; try assumption; [|lia].
  apply prime_divides_power_part in Hd2; try assumption; [|lia].
  assert (Hq : q1 = q2).
  { destruct Hd1 as [?|Hd1]; [assumption|]. destruct Hd2 as [?|Hd2]; [congruence|].
    specialize (Hs2 q1 Hq1 Hd1). specialize (Hs1 q2 Hq2 Hd2). lia. }
  subst q2. split; [reflexivity|].
  assert (Hnd1 : ~ (q1 | m1)) by (intros Hd; specialize (Hs1 q1 Hq1 Hd); lia).
  assert (Hnd2 : ~ (q1 | m2)) by (intros Hd; specialize (Hs2 q1 Hq1 Hd); lia).
  assert (Hcancel : forall a b c d, a <= b -> 0 <= a ->
            q1 ^ a * c = q1 ^ b * d -> ~ (q1 | c) -> a = b /\ c = d).
  { intros a b c d Hab Ha Hcd Hnd.
    replace b with (a + (b - a)) in Hcd by ring.
    rewrite Z.pow_add_r, <- Z.mul_assoc in Hcd by lia.
    assert (Hq0 : 0 < q1 ^ a) by (apply Z.pow_pos_nonneg; lia).
    apply Z.mul_reg_l in Hcd; [|lia].
    destruct (Z.eq_dec a b) as [->|Hne].
    - split; [reflexivity|]. rewrite Z.sub_diag, Z.pow_0_r in Hcd. lia.
    - exfalso. apply Hnd. rewrite Hcd. apply Z.divide_mul_l.
      apply Z.divide_pow_same_r; lia. }
  destruct (Z_le_gt_dec e1 e2) as [Hle|Hgt].
  - apply (Hcancel e1 e2 m1 m2); auto; lia.
  - destruct (Hcancel e2 e1 m2 m1) as [-> ->]; auto; lia.
Qed.

End PrimePowers.

(** ** The moduli above d *)

Section ModuliAbove.
Import Worker Spec Coverage Notions.
Variable T : tables.
Hypothesis Hcp : cptab_ok T.
Hypothesis Hpc : primes_cover T.

Lemma smooth_one p : smooth T 1 p.
Proof.
  intros q Hq Hdiv. apply Z.divide_1_r in Hdiv. pose proof (Z.prime_ge_2 q Hq). lia.
Qed.

Lemma above_split d p a :
  above T d p a <-> (a = d /\ d <= dmax T) \/ strictly_above T d p a.
Proof.
  split.
  - intros (m & Ha & Hm & Hle & Hs). destruct (Z.eq_dec m 1) as [->|Hne].
    + left. lia.
    + right. exists m. split; [assumption|]. split; [lia|]. split; assumption.
  - intros [[-> Hle]|(m & Ha & Hm & Hle & Hs)].
    + exists 1. split; [lia|]. split; [lia|]. split; [lia|apply smooth_one].
    + exists m. split; [assumption|]. split; [lia|]. split; assumption.
Qed.

Lemma divide_pos_le_prime r m : Z.prime r -> 1 <= m -> (r | m) -> r <= m.
Proof. intros Hr Hm Hdiv. apply Z.divide_pos_le; [lia|assumption]. Qed.

Lemma pow_ge_1 q e : 1 <= q -> 0 <= e -> 1 <= q ^ e.
Proof.
  intros Hq He. pose proof (Z.pow_le_mono_l 1 q e ltac:(lia)) as H.
  rewrite Z.pow_1_l in H; lia.
Qed.

(** The moduli strictly above d are those above d*q^e, for the largest
    prime q of the cofactor and its exponent e. *)
Lemma strictly_above_items d p a :
  1 <= d ->
  strictly_above T d p a <->
  exists i e, 1 <= i <= cpcnt T /\ cptab T i < p /\ 1 <= e /\
              above T (d * cptab T i ^ e) (cptab T i) a.
Proof.
  intros Hd. split.
  - intros (m & Ha & Hm & Hle & Hs).
    destruct (largest_prime_split m Hm)
      as (q & e & m' & (Hq & Hqm & Hmax) & He & Hm' & Heq & Hbelow).
    destruct (Hs q Hq Hqm) as [Hqp (i & Hi & Hci)].
    exists i, e. rewrite Hci.
    split; [assumption|]. split; [assumption|]. split; [assumption|].
    exists m'. split; [subst a m; ring|]. split; [assumption|]. split; [assumption|].
    intros r Hr Hdiv. split; [now apply Hbelow|].
    apply (Hs r); [assumption|]. rewrite Heq. now apply Z.divide_mul_r.
  - intros (i & e & Hi & Hlt & He & (m' & Ha & Hm' & Hle & Hs)).
    pose proof (cptab_prime T Hcp i Hi) as Hq. pose proof (Z.prime_ge_2 _ Hq) as Hq2.
    pose proof (pow_ge_base (cptab T i) e ltac:(lia) He) as Hpow.
    exists (cptab T i ^ e * m').
    split; [subst a; ring|]. split; [nia|]. split; [assumption|].
    intros r Hr Hdiv. apply prime_divides_power_part in Hdiv; try assumption; [|lia].
    destruct Hdiv as [->|Hdiv].
    + split; [assumption|now exists i].
    + destruct (Hs r Hr Hdiv). split; [lia|assumption].
Qed.

(** Different primes or exponents give different moduli. *)
Lemma above_disjoint d q1 e1 q2 e2 a :
  1 <= d -> Z.prime q1 -> Z.prime q2 -> 1 <= e1 -> 1 <= e2 ->
  above T (d * q1 ^ e1) q1 a -> above T (d * q2 ^ e2) q2 a -> q1 = q2 /\ e1 = e2.
Proof.
  intros Hd Hq1 Hq2 He1 He2 (m1 & Ha1 & Hm1 & _ & Hs1) (m2 & Ha2 & Hm2 & _ & Hs2).
  assert (Heq : q1 ^ e1 * m1 = q2 ^ e2 * m2).
  { apply (Z.mul_reg_l _ _ d); [lia|]. rewrite !Z.mul_assoc. congruence. }
  destruct (power_split_unique q1 e1 m1 q2 e2 m2) as (H1 & H2 & _); auto.
  - intros r Hr Hdiv. now destruct (Hs1 r Hr Hdiv).
  - intros r Hr Hdiv. now destruct (Hs2 r Hr Hdiv).
Qed.

Lemma cached_good q : cached T q -> good_prime (K T) q.
Proof. intros (i & Hi & <-). now apply (cptab_good T Hpc). Qed.

(** The moduli a prime p drives are those above its powers. *)
Lemma driven_by_powers p a :
  Z.prime p ->
  driven_by T p a <-> good_prime (K T) p /\ exists e, 1 <= e /\ above T (p ^ e) p a.
Proof.
  intros Hp. pose proof (Z.prime_ge_2 p Hp) as Hp2.
  pose proof (cpmax_sqrt T Hpc) as [Hc0 Hsq]. split.
  - intros ([Ha Hadm] & Hle & (_ & Hpa & Hmax)). split; [now apply Hadm|].
    destruct (split_power p a Hp2 Ha) as (e & m' & He & Hm' & Heq & Hnd).
    assert (He1 : 1 <= e).
    { destruct (Z.eq_dec e 0) as [->|]; [|lia]. exfalso. apply Hnd.
      rewrite Z.pow_0_r, Z.mul_1_l in Heq. now subst m'. }
    exists e. split; [assumption|]. exists m'.
    split; [assumption|]. split; [assumption|]. split; [assumption|].
    intros q Hq Hqm.
    assert (Hra : (q | a)) by (rewrite Heq; now apply Z.divide_mul_r).
    specialize (Hmax q Hq Hra).
    assert (Hlt : q < p) by (destruct (Z.eq_dec q p) as [->|]; [contradiction|lia]).
    split; [assumption|].
    apply (cptab_complete T Hpc); [now apply Hadm|].
    destruct (Z_le_gt_dec p (cpmax T)) as [Hpc'|Hpc']; [lia|].
    pose proof (divide_pos_le_prime q m' Hq Hm' Hqm) as Hqm'.
    pose proof (pow_ge_base p e ltac:(lia) He1) as Hpow.
    assert (p * m' <= cpmax T * cpmax T) by nia. nia.
  - intros [Hgood (e & He & (m' & Ha & Hm' & Hle & Hs))].
    pose proof (pow_ge_1 p e ltac:(lia) ltac:(lia)) as Hpow.
    assert (Hdiv : forall r, Z.prime r -> (r | a) -> r = p \/ (r | m')).
    { intros r Hr Hra. subst a. apply prime_divides_power_part in Hra; auto; lia. }
    split; [split; [nia|]|split; [assumption|split; [assumption|split]]].
    + intros r Hr Hra. destruct (Hdiv r Hr Hra) as [->|Hrm]; [assumption|].
      apply cached_good. now destruct (Hs r Hr Hrm).
    + subst a. apply Z.divide_mul_l. apply Z.divide_pow_same_r; lia.
    + intros r Hr Hra. destruct (Hdiv r Hr Hra) as [->|Hrm]; [lia|].
      destruct (Hs r Hr Hrm). lia.
Qed.

(** Beyond cpmax the square of p is beyond dmax. *)
Lemma above_power_uncached p e a :
  cpmax T < p -> 1 <= e -> above T (p ^ e) p a -> e = 1.
Proof.
  intros Hp He (m & Ha & Hm & Hle & _). pose proof (cpmax_sqrt T Hpc) as [Hc0 Hsq].
  destruct (Z.eq_dec e 1) as [|Hne]; [assumption|exfalso].
  assert (Hpow : p ^ 2 <= p ^ e) by (apply Z.pow_le_mono_r; lia).
  change (p ^ 2) with (p * p) in Hpow || rewrite Z.pow_2_r in Hpow. nia.
Qed.

Lemma driven_by_uncached p a :
  Z.prime p -> cpmax T < p ->
  driven_by T p a <-> good_prime (K T) p /\ above T p p a.
Proof.
  intros Hp Hc. rewrite (driven_by_powers p a Hp). split.
  - intros [Hg (e & He & Ha)]. split; [assumption|].
    rewrite (above_power_uncached p e a Hc He Ha), Z.pow_1_r in Ha. assumption.
  - intros [Hg Ha]. split; [assumption|]. exists 1. rewrite Z.pow_1_r. split; [lia|assumption].
Qed.

Lemma driven_by_bad p a : ~ good_prime (K T) p -> ~ driven_by T p a.
Proof. intros Hbad ([_ Hadm] & _ & (Hp & Hdiv & _)). apply Hbad. now apply Hadm. Qed.

End ModuliAbove.

(** ** Loops that dispatch a family of sets *)

Section CoveringLoops.
Import Worker Spec Coverage Notions.
Variable T : tables.

Lemma covers_for_each {A} (l : list A) (f : A -> M unit) (S : A -> Z -> Prop) :
  (forall x, In x l -> covers T (f x) tt (S x)) ->
  NoDup l ->
  (forall x y a, In x l -> In y l -> S x a -> S y a -> x = y) ->
  covers T (for_each l f) tt (fun a => exists x, In x l /\ S x a).
Proof.
  intros Hf Hnd Hdis. induction Hnd as [|x l Hx Hnd IH]; cbn [for_each].
  - eapply covers_ext; [apply covers_ret|]. intros a. split; [intros []|].
    intros (x & [] & _).
  - eapply covers_ext.
    + eapply (covers_bind T _ _ tt tt (S x)).
      * apply Hf. now left.
      * apply IH.
        -- intros y Hy. apply Hf. now right.
        -- intros y z a Hy Hz. apply Hdis; now right.
      * intros a Hxa (y & Hy & Hya).
        assert (x = y) by (apply (Hdis x y a); auto; [now left|now right]).
        subst y. contradiction.
    + intros a. split.
      * intros [Hxa|(y & Hy & Hya)]; [exists x|exists y]; split; auto; [now left|now right].
      * intros (y & [<-|Hy] & Hya); [now left|right; eauto].
Qed.

End CoveringLoops.

(** ** [enumcd] dispatches the moduli above d through the cached cofactors *)

Section EnumcdCovers.
Import Worker Spec Coverage Notions.
Variable T : tables.
Hypothesis Hcp : cptab_ok T.
Hypothesis Hcd : cdtab_fits T.
Hypothesis Hkd : divisors_ok T.
Hypothesis Hcc : cofactors_cover T.

Local Abbreviation scanned := (Notions.scanned T).

Local Abbreviation batch_ok := (Notions.batch_ok T).

Lemma NoDup_map_eq {A B} (f : A -> B) (l : list A) x y :
  NoDup (map f l) -> In x l -> In y l -> f x = f y -> x = y.
Proof.
  induction l as [|a l IH]; cbn [map]; intros Hnd Hx Hy Heq; [destruct Hx|].
  inversion Hnd as [|? ? Ha Hnd']; subst.
  destruct Hx as [->|Hx], Hy as [->|Hy]; auto.
  - exfalso. apply Ha. rewrite Heq. now apply in_map.
  - exfalso. apply Ha. rewrite <- Heq. now apply in_map.
Qed.

Lemma NoDup_of_map {A B} (f : A -> B) (l : list A) : NoDup (map f l) -> NoDup l.
Proof.
  induction l as [|a l IH]; cbn [map]; intros Hnd; constructor; inversion Hnd; subst; auto.
  intros Hin. apply H1. now apply in_map.
Qed.

Lemma covers_enumcd_item d zd e :
  1 <= d -> 1 <= cd_d e -> d * cd_d e <= dmax T ->
  covers T (enumcd_item T d zd e) tt (eq (d * cd_d e)).
Proof.
  intros Hd He Hfit. unfold enumcd_item. cbv zeta.
  rewrite (u64_product T Hcp) by lia. rewrite (Z.mul_comm (cd_d e) d).
  apply (covers_prockd T Hkd). nia.
Qed.

Lemma covers_enumcd_small d zd x :
  1 <= d -> 1 <= cd_d (cdtab T x) -> d * cd_d (cdtab T x) <= dmax T ->
  cd_d (cdtab T x) <= sdmax T ->
  covers T (enumcd_small T d zd (cdtab T x)) tt (eq (d * cd_d (cdtab T x))).
Proof.
  intros Hd He Hfit Hs. unfold enumcd_small. cbv zeta.
  rewrite (cdtab_small T Hcd) by lia.
  rewrite (u64_product T Hcp) by lia.
  apply (covers_prockd T Hkd). nia.
Qed.

Lemma covers_flush d zd lo queue :
  1 <= d -> 0 <= lo -> batch_ok d lo queue ->
  covers T (for_each (rev queue) (enumcd_item T d zd)) tt (batched d queue).
Proof.
  intros Hd Hlo [Hall Hnd]. rewrite Forall_forall in Hall.
  eapply covers_ext.
  - apply (covers_for_each T (rev queue) _ (fun e => eq (d * cd_d e))).
    + intros e He. apply in_rev in He. destruct (Hall e He).
      apply covers_enumcd_item; lia.
    + apply NoDup_rev. now apply NoDup_of_map in Hnd.
    + intros e1 e2 a H1 H2 <- Heq. apply in_rev in H1, H2.
      apply (NoDup_map_eq cd_d queue); auto. nia.
  - intros a. unfold batched. split.
    + intros (e & He & <-). exists e. split; [now apply in_rev|reflexivity].
    + intros (e & He & ->). exists e. split; [now apply -> in_rev|reflexivity].
Qed.

Lemma batch_ok_lower d lo lo' queue :
  lo' <= lo -> batch_ok d lo queue -> batch_ok d lo' queue.
Proof.
  intros Hle [Hall Hnd]. split; [|assumption].
  eapply Forall_impl; [|exact Hall]. cbn. intros e [? ?]. split; lia.
Qed.

Lemma batch_ok_cons d lo e queue :
  lo < cd_d e -> d * cd_d e <= dmax T -> batch_ok d (cd_d e) queue ->
  batch_ok d lo (e :: queue).
Proof.
  intros Hlo Hfit [Hall Hnd]. split.
  - constructor; [split; assumption|].
    eapply Forall_impl; [|exact Hall]. cbn. intros e' [? ?]. split; lia.
  - cbn [map]. constructor; [|assumption].
    rewrite in_map_iff. intros (e' & Heq & Hin).
    rewrite Forall_forall in Hall. destruct (Hall e' Hin). lia.
Qed.

Lemma batch_ok_nil d lo : batch_ok d lo [].
Proof. split; constructor. Qed.

(** The entries of [cdtab] below a used entry. *)
Lemma cdtab_below x y :
  cd_d (cdtab T x) <> 0 -> (y < x)%nat -> 0 <= cd_d (cdtab T y) < cd_d (cdtab T x).
Proof.
  intros Hx Hy. destruct y as [|y].
  - rewrite (proj1 (cdtab_bottom T Hcc)).
    destruct (cdtab_entry T Hcc x Hx) as [H2 _]. lia.
  - pose proof (cdtab_sorted T Hcc x (S y) ltac:(lia) Hy Hx). lia.
Qed.

Lemma covers_enumcd_scan x :
  forall first d p zd queue,
    1 <= d -> 2 <= p ->
    (x = 0%nat \/ cd_d (cdtab T x) <> 0) ->
    (forall y, (1 <= y <= x)%nat -> d * cd_d (cdtab T y) <= dmax T) ->
    (first = true -> cd_p (cdtab T x) < p) ->
    (sdmin T <= d -> forall y, (1 <= y <= x)%nat -> cd_d (cdtab T y) <= sdmax T) ->
    batch_ok d (cd_d (cdtab T x)) queue ->
    covers T (enumcd_scan T x first d p zd queue) tt
      (fun a => batched d queue a \/ scanned d p x a).
Proof.
  induction x as [|x IH]; intros first d p zd queue Hd Hp Hx Hfit Hfirst Hsmall Hq.
  - destruct (cdtab_bottom T Hcc) as [Hd0 Hp0]. cbn [enumcd_scan]. cbv zeta.
    destruct (Z.geb_spec (cd_p (cdtab T 0)) p); [lia|]. rewrite andb_false_r, Hd0.
    cbn [Z.eqb]. eapply covers_ext.
    + apply (covers_flush d zd 0); [lia|lia|]. now rewrite Hd0 in Hq.
    + intros a. split; [now left|]. intros [Hb|(y & Hy & _)]; [assumption|lia].
  - destruct Hx as [Hx|Hx]; [discriminate|].
    destruct (cdtab_entry T Hcc _ Hx) as (He2 & _ & _).
    pose proof (cdtab_below (S x) x Hx ltac:(lia)) as Hlow.
    assert (Hx' : x = 0%nat \/ cd_d (cdtab T x) <> 0).
    { destruct x as [|x']; [now left|right].
      pose proof (cdtab_sorted T Hcc (S (S x')) (S x') ltac:(lia) ltac:(lia) Hx). lia. }
    assert (Hfit' : forall y, (1 <= y <= x)%nat -> d * cd_d (cdtab T y) <= dmax T)
      by (intros y Hy; apply Hfit; lia).
    assert (Hsmall' : sdmin T <= d ->
              forall y, (1 <= y <= x)%nat -> cd_d (cdtab T y) <= sdmax T)
      by (intros Hs y Hy; apply Hsmall; [assumption|lia]).
    assert (Hscan : forall a, scanned d p (S x) a <->
              (cd_p (cdtab T (S x)) < p /\ a = d * cd_d (cdtab T (S x))) \/ scanned d p x a).
    { intros a. unfold scanned. split.
      - intros (y & Hy & Hlt & Ha). destruct (Nat.eq_dec y (S x)) as [->|Hne]; [now left|].
        right. exists y. split; [lia|auto].
      - intros [[Hlt Ha]|(y & Hy & Hlt & Ha)]; [exists (S x)|exists y]; split; auto; lia. }
    assert (Hfresh : forall a, scanned d p x a -> a < d * cd_d (cdtab T (S x))).
    { intros a (y & Hy & _ & ->). pose proof (cdtab_below (S x) y Hx ltac:(lia)). nia. }
    assert (Hold : forall q a, batch_ok d (cd_d (cdtab T (S x))) q -> batched d q a ->
              d * cd_d (cdtab T (S x)) < a).
    { intros q a [Hall _] (e & He & ->). rewrite Forall_forall in Hall.
      destruct (Hall e He). nia. }
    cbn [enumcd_scan]. cbv zeta.
    destruct (negb first && (cd_p (cdtab T (S x)) >=? p)) eqn:Hskip.
    { apply andb_prop in Hskip as [_ Hge]. apply Z.geb_le in Hge.
      eapply covers_ext.
      - apply (IH false d p zd queue); auto; [discriminate|].
        apply (batch_ok_lower d (cd_d (cdtab T (S x)))); [lia|assumption].
      - intros a. rewrite Hscan. split; [tauto|]. intros [H|[[Hlt _]|H]]; auto; lia. }
    assert (Hlt : cd_p (cdtab T (S x)) < p).
    { destruct first; [now apply Hfirst|]. cbn [negb andb] in Hskip.
      destruct (Z.geb_spec (cd_p (cdtab T (S x))) p); [discriminate|lia]. }
    destruct (Z.eqb_spec (cd_d (cdtab T (S x))) 0) as [|_]; [contradiction|].
    (* the rest of the iteration, from the batch [q1] on *)
    assert (Hrest : forall q1, batch_ok d (cd_d (cdtab T (S x))) q1 ->
      covers T
        (bind (if cd_d (cdtab T (S x)) <=? sdmax T
               then bind (enumcd_small T d zd (cdtab T (S x))) (fun _ => ret q1)
               else if d <? sdmin T then ret (cdtab T (S x) :: q1)
                    else halt Unspecified)
              (fun queue2 => enumcd_scan T x false d p zd queue2)) tt
        (fun a => batched d q1 a \/ scanned d p (S x) a)).
    { intros q1 Hq1.
      destruct (Z.leb_spec (cd_d (cdtab T (S x))) (sdmax T)) as [Hs|Hs].
      - eapply covers_ext.
        + eapply (covers_bind T _ _ q1 tt (eq (d * cd_d (cdtab T (S x))))).
          * eapply covers_first; [|apply covers_ret].
            apply covers_enumcd_small; try lia. apply Hfit. lia.
          * apply (IH false d p zd q1); auto; [discriminate|].
            apply (batch_ok_lower d (cd_d (cdtab T (S x)))); [lia|assumption].
          * intros a <- [H|H]; [apply (Hold q1) in H; auto; lia|apply Hfresh in H; lia].
        + intros a. rewrite Hscan. split; [intros [<-|[H|H]]; auto|].
          intros [H|[[_ ->]|H]]; auto.
      - destruct (Z.ltb_spec d (sdmin T)) as [Hb|Hb].
        + eapply covers_ext.
          * eapply covers_then; [apply covers_ret|].
            apply (IH false d p zd (cdtab T (S x) :: q1)); auto; [discriminate|].
            apply batch_ok_cons; [lia|apply Hfit; lia|assumption].
          * intros a. rewrite Hscan. unfold batched. cbn [In]. split.
            -- intros [(e & [<-|He] & ->)|H]; eauto.
            -- intros [(e & He & ->)|[[_ ->]|H]]; eauto.
        + specialize (Hsmall Hb (S x) ltac:(lia)). lia. }
    destruct (count queue =? IBATCH).
    + eapply covers_ext.
      * eapply (covers_bind T _ _ [] tt (batched d queue)).
        -- eapply covers_first; [|apply covers_ret].
           apply (covers_flush d zd (cd_d (cdtab T (S x)))); [lia|lia|assumption].
        -- apply Hrest. apply batch_ok_nil.
        -- intros a Ha [(e & [] & _)|Hs]. apply Hscan in Hs.
           apply (Hold queue) in Ha; [|assumption].
           destruct Hs as [[_ ->]|Hs]; [lia|apply Hfresh in Hs; lia].
      * intros a. split; [intros [H|[(e & [] & _)|H]]; auto|].
        intros [H|H]; auto.
    + eapply covers_then; [apply covers_ret|]. now apply Hrest.
Qed.

Lemma cdtab_used x y :
  cd_d (cdtab T x) <> 0 -> (1 <= y <= x)%nat -> cd_d (cdtab T y) <> 0.
Proof.
  intros Hx Hy. destruct (Nat.eq_dec y x) as [->|Hne]; [assumption|].
  pose proof (cdtab_sorted T Hcc x y ltac:(lia) ltac:(lia) Hx). lia.
Qed.

Lemma covers_enumcd d p zd :
  1 <= d <= dmax T -> cdmin T <= d -> 2 <= p < 2 ^ 64 ->
  covers T (enumcd T d p zd) tt (strictly_above T d p).
Proof.
  intros Hd Hmin Hp. unfold enumcd. rewrite (u64_small (p - 1)) by lia.
  destruct (cdentry T (p - 1) d (dmax T)) as [x|] eqn:Hx.
  - destruct (cdentry_top T Hcc _ _ _ (proj1 Hd) Hx) as [Hnz Hpx].
    assert (Hfit : forall y, (1 <= y <= x)%nat -> d * cd_d (cdtab T y) <= dmax T).
    { intros y Hy.
      apply (cdentry_fits T Hcd _ _ _ (proj1 Hd) Hx y); [lia|]. now apply (cdtab_used x). }
    eapply covers_ext.
    + apply (covers_enumcd_scan x true d p zd []); auto; try lia.
      * intros Hs y Hy. apply (sdmax_covers T Hcc d); auto.
        destruct (cdtab_entry T Hcc y (cdtab_used x y Hnz Hy)). lia.
      * apply batch_ok_nil.
    + intros a. split.
      * intros [(e & [] & _)|(y & Hy & Hlt & ->)].
        destruct (cdtab_entry T Hcc y (cdtab_used x y Hnz Hy)) as (H2 & (_ & _ & Hmax) & Hc).
        exists (cd_d (cdtab T y)). split; [reflexivity|]. split; [assumption|].
        split; [now apply Hfit|]. intros q Hq Hdiv. split; [|now apply Hc].
        specialize (Hmax q Hq Hdiv). lia.
      * intros (m & -> & Hm & Hle & Hs). right.
        destruct (cdentry_complete T Hcc (p - 1) d m (proj1 Hd) Hmin Hm Hle)
          as (x' & y & Hx' & Hy & Hc).
        { intros q Hq Hdiv. destruct (Hs q Hq Hdiv). split; [lia|assumption]. }
        rewrite Hx in Hx'. inversion Hx'; subst x'.
        exists y. split; [assumption|]. split; [|now rewrite Hc].
        destruct (cdtab_entry T Hcc y (cdtab_used x y Hnz Hy)) as (_ & (Hpr & Hdv & _) & _).
        rewrite Hc in Hdv. now destruct (Hs _ Hpr Hdv).
  - eapply covers_ext; [apply covers_ret|]. intros a. split; [intros []|].
    intros (m & -> & Hm & Hle & Hs).
    destruct (cdentry_complete T Hcc (p - 1) d m (proj1 Hd) Hmin Hm Hle)
      as (x' & y & Hx' & _).
    { intros q Hq Hdiv. destruct (Hs q Hq Hdiv). split; [lia|assumption]. }
    congruence.
Qed.

End EnumcdCovers.

(** ** [enumd] dispatches the moduli above d *)

Section EnumdCovers.
Import Worker Spec Coverage Notions.
Variable T : tables.
Hypothesis Hcp : cptab_ok T.
Hypothesis Hcd : cdtab_fits T.
Hypothesis Hpc : primes_cover T.
Hypothesis Hkd : divisors_ok T.
Hypothesis Hcc : cofactors_cover T.

Local Abbreviation queued := (Notions.queued T).

Lemma enumd_items_queued fuel d pi q e0 items :
  1 <= d -> loop_state T d pi q e0 ->
  enumd_items T fuel d pi q e0 = Some items ->
  NoDup items /\ forall it, In it items <-> queued d pi e0 it.
Proof.
  intros Hd. revert pi q e0 items.
  induction fuel as [|fuel IH]; intros pi q e0 items Hst Hit; cbn [enumd_items] in Hit;
    [discriminate|].
  destruct (Z.eqb_spec pi 0) as [H0|H0].
  { inversion Hit. split; [constructor|]. intros [[q' i] e]. cbn. split; [tauto|lia]. }
  destruct (loop_state_step T Hcp d pi q e0 Hd Hst H0) as (Hq' & He' & Hpi' & _ & Hdown & Hup).
  rewrite Hq', He', Hpi' in Hit.
  destruct Hst as [?|(Hpi & He & Hq & Hfit & Hlt)]; [contradiction|].
  pose proof (cptab_ge_2 T Hcp pi Hpi) as Hc2.
  destruct (Z.gtb_spec (d * cptab T pi ^ (e0 + 1)) (dmax T)) as [Hgt|Hle].
  - destruct (enumd_items T fuel d (pi - 1) _ 1) as [items'|] eqn:Hn; [|discriminate].
    inversion Hit; subst items. destruct (IH _ _ _ _ Hdown Hn) as [Hnd Hin].
    split.
    + constructor; [|assumption]. rewrite Hin. cbn. lia.
    + intros [[q' i] e]. cbn [In]. rewrite Hin. cbn. split.
      * intros [Heq|H]; [inversion Heq; subst; lia|lia].
      * intros (Hi & He1 & Hq1 & Hf1 & Hor).
        destruct (Z.eq_dec i pi) as [->|Hne]; [|right; lia].
        destruct (Z.eq_dec e e0) as [->|Hne']; [left; congruence|exfalso].
        assert (cptab T pi ^ (e0 + 1) <= cptab T pi ^ e) by (apply Z.pow_le_mono_r; lia).
        subst q'. nia.
  - destruct (enumd_items T fuel d pi _ (e0 + 1)) as [items'|] eqn:Hn; [|discriminate].
    inversion Hit; subst items. destruct (IH _ _ _ _ (Hup Hle) Hn) as [Hnd Hin].
    split.
    + constructor; [|assumption]. rewrite Hin. cbn. lia.
    + intros [[q' i] e]. cbn [In]. rewrite Hin. cbn. split.
      * intros [Heq|H]; [inversion Heq; subst; lia|lia].
      * intros (Hi & He1 & Hq1 & Hf1 & Hor).
        destruct (Z.eq_dec i pi) as [->|Hne]; [|right; lia].
        destruct (Z.eq_dec e e0) as [->|Hne']; [left; congruence|right; lia].
Qed.

Lemma cptab_injective i j :
  1 <= i <= cpcnt T -> 1 <= j <= cpcnt T -> cptab T i = cptab T j -> i = j.
Proof.
  intros Hi Hj Heq. destruct (Z.lt_trichotomy i j) as [Hlt|[?|Hlt]]; [|assumption|].
  - pose proof (cptab_increasing T Hcp i j ltac:(lia) Hlt ltac:(lia)). lia.
  - pose proof (cptab_increasing T Hcp j i ltac:(lia) Hlt ltac:(lia)). lia.
Qed.

Lemma cptab_le i j : 1 <= i -> i <= j -> j <= cpcnt T -> cptab T i <= cptab T j.
Proof.
  intros Hi Hij Hj. destruct (Z.eq_dec i j) as [->|Hne]; [lia|].
  pose proof (cptab_increasing T Hcp i j Hi ltac:(lia) Hj). lia.
Qed.

(** The entries queued for d below p are the prime powers that fit. *)
Lemma queued_start d p i e :
  1 <= d -> 2 <= p ->
  queued d (pimaxp T (p - 1) d (dmax T)) 1 (cptab T i ^ e, i, e) <->
  (1 <= i <= cpcnt T /\ cptab T i < p /\ 1 <= e /\ d * cptab T i ^ e <= dmax T).
Proof.
  intros Hd Hp. pose proof (pimaxp_range T Hcp (p - 1) d) as Hr. cbn. split.
  - intros (Hi & He & _ & Hfit & _).
    assert (Hnz : pimaxp T (p - 1) d (dmax T) <> 0) by lia.
    destruct (pimaxp_fits T Hcp (p - 1) d Hd Hnz) as [Hle _].
    pose proof (cptab_le i _ ltac:(lia) (proj2 Hi) (proj2 Hr)). lia.
  - intros (Hi & Hlt & He & Hfit).
    pose proof (cptab_ge_2 T Hcp i Hi) as Hc2.
    pose proof (pow_ge_base (cptab T i) e ltac:(lia) He) as Hpow.
    assert (i <= pimaxp T (p - 1) d (dmax T)).
    { apply (pimaxp_largest T Hcp); auto; [lia|nia]. }
    lia.
Qed.

Lemma covers_enumd_item (enum_above : Z -> Z -> list Z -> M unit) d zd i e :
  1 <= d -> 1 <= i <= cpcnt T -> 1 <= e -> d * cptab T i ^ e <= dmax T ->
  (d * cptab T i ^ e < cdmin T ->
   forall zd', covers T (enum_above (d * cptab T i ^ e) (cptab T i) zd') tt
                 (strictly_above T (d * cptab T i ^ e) (cptab T i))) ->
  covers T (enumd_item T enum_above d zd (cptab T i ^ e, i, e)) tt
    (above T (d * cptab T i ^ e) (cptab T i)).
Proof.
  intros Hd Hi He Hfit Habove.
  pose proof (cptab_ge_2 T Hcp i Hi) as Hc2.
  pose proof (pow_ge_base (cptab T i) e ltac:(lia) He) as Hpow.
  pose proof (dmax_range T Hcp) as Hdm. assert (H63 : 2 ^ 63 < 2 ^ 64) by reflexivity.
  unfold enumd_item. cbv zeta.
  rewrite (u64_product T Hcp) by lia. rewrite (Z.mul_comm (cptab T i ^ e) d).
  eapply covers_ext.
  - eapply (covers_bind T _ _ tt tt (eq (d * cptab T i ^ e))).
    + apply (covers_prockd T Hkd). nia.
    + destruct (Z.geb_spec (d * cptab T i ^ e) (cdmin T)) as [Hge|Hlt].
      * apply (covers_enumcd T Hcp Hcd Hkd Hcc); [nia|lia|nia].
      * apply Habove. lia.
    + intros a <- (m & Ha & Hm & _). nia.
  - intros a. rewrite above_split. split.
    + intros [<-|H]; [left; split; [reflexivity|assumption]|now right].
    + intros [[-> _]|H]; [now left|now right].
Qed.

Lemma covers_enumd depth :
  forall d p zd,
    1 <= d <= dmax T -> 2 <= p <= d -> 63 - Z.log2 d < Z.of_nat depth ->
    covers T (enumd T depth d p zd) tt (strictly_above T d p).
Proof.
  pose proof (dmax_range T Hcp) as Hdm. assert (H63 : 2 ^ 63 < 2 ^ 64) by reflexivity.
  induction depth as [|depth IH]; intros d p zd Hd Hp Hdepth.
  { assert (Z.log2 d < 63) by (apply Z.log2_lt_pow2; lia). lia. }
  destruct (Z.geb_spec d (cdmin T)) as [Hge|Hlt].
  { cbn [enumd]. destruct (Z.geb_spec d (cdmin T)); [|lia].
    apply (covers_enumcd T Hcp Hcd Hkd Hcc); lia. }
  destruct (enumd_run T Hcp depth d p zd (proj1 Hd) Hp ltac:(lia) Hlt)
    as (items & Hitems & _ & Hrun).
  destruct (enumd_start T Hcp d p (proj1 Hd) Hp ltac:(lia)) as [_ Hst].
  assert (Hstate : loop_state T d (pimaxp T (p - 1) d (dmax T))
                     (cptab T (pimaxp T (p - 1) d (dmax T))) 1).
  { destruct (Z.eq_dec (pimaxp T (p - 1) d (dmax T)) 0) as [H0|H0]; [now left|auto]. }
  destruct (enumd_items_queued _ _ _ _ _ _ (proj1 Hd) Hstate Hitems) as [Hnd Hin].
  assert (Hitem : forall it, In it items ->
            exists i e, it = (cptab T i ^ e, i, e) /\
              1 <= i <= cpcnt T /\ cptab T i < p /\ 1 <= e /\ d * cptab T i ^ e <= dmax T).
  { intros [[q i] e] Hit. apply Hin in Hit.
    assert (Hq : q = cptab T i ^ e) by (cbn in Hit; tauto). subst q.
    exists i, e. split; [reflexivity|]. apply queued_start; auto; lia. }
  intros h. rewrite Hrun. revert h.
  eapply covers_ext.
  - apply (covers_for_each T items _
             (fun it a => let '(q, i, e) := it in above T (d * q) (cptab T i) a)).
    + intros it Hit. destruct (Hitem it Hit) as (i & e & -> & Hi & Hlti & He & Hfit).
      pose proof (cptab_ge_2 T Hcp i Hi) as Hc2.
      pose proof (pow_ge_base (cptab T i) e ltac:(lia) He) as Hpow.
      apply covers_enumd_item; [lia|assumption|assumption|assumption|].
      intros Hlt' zd'. apply IH; [nia|nia|].
      pose proof (Z.log2_double d ltac:(lia)) as Hdb.
      assert (Z.log2 (2 * d) <= Z.log2 (d * cptab T i ^ e)) by (apply Z.log2_le_mono; nia).
      lia.
    + exact Hnd.
    + intros it1 it2 a H1 H2.
      destruct (Hitem it1 H1) as (i1 & e1 & -> & Hi1 & _ & He1 & _).
      destruct (Hitem it2 H2) as (i2 & e2 & -> & Hi2 & _ & He2 & _).
      intros Ha1 Ha2.
      destruct (above_disjoint T d _ e1 _ e2 a (proj1 Hd)
                  (cptab_prime T Hcp i1 Hi1) (cptab_prime T Hcp i2 Hi2) He1 He2 Ha1 Ha2)
        as [Hq ->].
      rewrite (cptab_injective i1 i2 Hi1 Hi2 Hq). reflexivity.
  - intros a. rewrite (strictly_above_items T Hcp d p a (proj1 Hd)). split.
    + intros (it & Hit & Ha). destruct (Hitem it Hit) as (i & e & -> & Hi & Hlti & He & Hfit).
      exists i, e. auto.
    + intros (i & e & Hi & Hlti & He & Ha). exists (cptab T i ^ e, i, e). split; [|assumption].
      apply Hin. apply queued_start; [lia|lia|].
      destruct Ha as (m & Ha & Hm & Hle & _).
      pose proof (cptab_ge_2 T Hcp i Hi) as Hc2.
      pose proof (pow_ge_base (cptab T i) e ltac:(lia) He) as Hpow.
      repeat split; try lia. nia.
Qed.

End EnumdCovers.

(** ** The cached phase dispatches the moduli a cached prime drives *)

Section CachedPhase.
Import Worker Spec Coverage Notions.
Variable T : tables.
Hypothesis Hcp : cptab_ok T.
Hypothesis Hcd : cdtab_fits T.
Hypothesis Hpc : primes_cover T.
Hypothesis Hkd : divisors_ok T.
Hypothesis Hcc : cofactors_cover T.
Hypothesis Hacc : accepts T.

Local Abbreviation scan_state := (Notions.scan_state T).

Lemma scan_state_later pi p p' : p <= p' -> scan_state pi p -> scan_state pi p'.
Proof.
  intros Hle [Hr Hb]. split; [assumption|]. intros j Hj. specialize (Hb j Hj). lia.
Qed.

Lemma scan_cptab_spec fuel pi p :
  2 <= p -> scan_state pi p -> Z.of_nat fuel = cpcnt T + 1 - pi ->
  let pi' := scan_cptab T fuel pi p in
  scan_state pi' p /\ 1 <= pi' /\ (pi' <= cpcnt T -> p <= cptab T pi').
Proof.
  intros Hp. pose proof (cpcnt_range T Hcp) as Hcnt.
  revert pi. induction fuel as [|fuel IH]; intros pi [Hr Hb] Hfuel; cbn [scan_cptab].
  - cbv zeta. split; [split; assumption|]. lia.
  - pose proof (cpcnt_room T Hpc) as Hroom. pose proof (cptab_zero T Hpc) as Hz.
    destruct (Z.leb_spec pi (cpcnt T)) as [Hle|Hgt]; [|lia].
    destruct (Z.ltb_spec (cptab T pi) p) as [Hlt|Hge]; cbn [andb].
    + rewrite u32_small by lia. apply IH; [|lia]. split; [lia|].
      intros j Hj. destruct (Z.eq_dec j pi) as [->|]; [assumption|apply Hb; lia].
    + cbv zeta. split; [split; assumption|].
      assert (pi <> 0) by (intros ->; lia). lia.
Qed.

Lemma highest_power_spec fuel p i :
  2 <= p -> 1 <= i -> p ^ i <= dmax T -> 65 <= i + Z.of_nat fuel ->
  exists i', highest_power T fuel p i (p ^ i) = Some (i', p ^ i') /\
             i <= i' /\ p ^ i' <= dmax T /\ dmax T < p ^ (i' + 1).
Proof.
  intros Hp. pose proof (dmax_range T Hcp) as Hdm.
  assert (H63 : 2 ^ 63 < 2 ^ 64) by reflexivity.
  revert i. induction fuel as [|fuel IH]; intros i Hi Hle Hfuel; cbn [highest_power].
  - exfalso. pose proof (exponent_below_63 p i Hp ltac:(lia) ltac:(lia)). lia.
  - assert (Hnext : p ^ i * p = p ^ (i + 1)) by (rewrite Z.pow_add_r, Z.pow_1_r; lia).
    rewrite Hnext.
    destruct (Z.leb_spec (p ^ (i + 1)) (dmax T)) as [Hfit|Hout].
    + assert (i < 63) by (apply (exponent_below_63 p i Hp); lia).
      rewrite u32_small by lia. rewrite u64_small by (pose proof (pow_ge_1 p (i + 1)); lia).
      destruct (IH (i + 1)) as (i' & Heq & Hi' & Hb); [lia|assumption|lia|].
      exists i'. split; [assumption|]. split; [lia|assumption].
    + exists i. split; [reflexivity|]. split; [lia|]. split; assumption.
Qed.

Lemma in_exponents e i x : In x (exponents e i) <-> e <= x < i.
Proof.
  unfold exponents. rewrite in_map_iff. split.
  - intros (k & <- & Hk). apply in_seq in Hk. lia.
  - intros Hx. exists (Z.to_nat (x - e)). split; [lia|]. apply in_seq. lia.
Qed.

Lemma exponents_NoDup e i : NoDup (exponents e i).
Proof.
  unfold exponents. apply NoDup_map_injective; [|apply seq_NoDup].
  intros x y _ _ Heq. lia.
Qed.

Lemma exponents_step e i : e < i -> exponents e i = e :: exponents (e + 1) i.
Proof.
  intros Hlt. unfold exponents.
  replace (Z.to_nat (i - e)) with (S (Z.to_nat (i - (e + 1)))) by lia.
  cbn [seq map]. rewrite Z.add_0_r. f_equal.
  rewrite <- seq_shift, map_map. apply map_ext. intros k. lia.
Qed.

Lemma powers_below_spec fuel p e i :
  2 <= p -> 1 <= e -> e <= i -> p ^ i <= dmax T -> i - e <= Z.of_nat fuel ->
  powers_below fuel p (p ^ e) (p ^ i) = Some (map (Z.pow p) (exponents e i)).
Proof.
  intros Hp. pose proof (dmax_range T Hcp) as Hdm.
  assert (H63 : 2 ^ 63 < 2 ^ 64) by reflexivity.
  revert e. induction fuel as [|fuel IH]; intros e He Hei Hle Hfuel; cbn [powers_below].
  - replace e with i by lia. rewrite Z.ltb_irrefl.
    unfold exponents. now rewrite Z.sub_diag.
  - destruct (Z.ltb_spec (p ^ e) (p ^ i)) as [Hlt|Hge].
    + assert (Hei' : e < i).
      { destruct (Z_lt_ge_dec e i); [assumption|]. replace e with i in Hlt by lia. lia. }
      assert (Hnext : p ^ e * p = p ^ (e + 1)) by (rewrite Z.pow_add_r, Z.pow_1_r; lia).
      assert (Hmono : p ^ (e + 1) <= p ^ i) by (apply Z.pow_le_mono_r; lia).
      rewrite Hnext, u64_small by (pose proof (pow_ge_1 p (e + 1)); lia).
      rewrite (IH (e + 1)) by lia. cbn [option_map].
      rewrite (exponents_step e i Hei'). reflexivity.
    + assert (e = i).
      { destruct (Z.eq_dec e i); [assumption|exfalso].
        assert (p ^ e < p ^ i) by (apply Z.pow_lt_mono_r; lia). lia. }
      subst e. unfold exponents. now rewrite Z.sub_diag.
Qed.

(** A modulus d with its roots is offered and the moduli above it are
    enumerated. *)
Lemma covers_power d p zd n :
  1 <= d <= dmax T -> 2 <= p <= d ->
  covers T (prockd T d zd n ;;; enumd T enumd_depth d p zd) tt (above T d p).
Proof.
  intros Hd Hp. eapply covers_ext.
  - eapply (covers_bind T _ _ tt tt (eq d)).
    + apply (covers_prockd T Hkd). lia.
    + apply (covers_enumd T Hcp Hcd Hkd Hcc); auto.
      pose proof (Z.log2_nonneg d). unfold enumd_depth. lia.
    + intros a <- (m & Ha & Hm & _). nia.
  - intros a. rewrite above_split. split.
    + intros [<-|H]; [left; split; [reflexivity|lia]|now right].
    + intros [[-> _]|H]; [now left|now right].
Qed.

Lemma covers_power_ret {B} d p zd n (v : B) :
  1 <= d <= dmax T -> 2 <= p <= d ->
  covers T (prockd T d zd n ;;; enumd T enumd_depth d p zd ;;; ret v) v (above T d p).
Proof.
  intros Hd Hp. eapply covers_ext.
  - eapply (covers_bind T _ _ tt v (eq d)).
    + apply (covers_prockd T Hkd). lia.
    + eapply covers_first; [|apply covers_ret].
      apply (covers_enumd T Hcp Hcd Hkd Hcc); auto.
      pose proof (Z.log2_nonneg d). unfold enumd_depth. lia.
    + intros a <- (m & Ha & Hm & _). nia.
  - intros a. rewrite above_split. split.
    + intros [<-|H]; [left; split; [reflexivity|lia]|now right].
    + intros [[-> _]|H]; [now left|now right].
Qed.

Lemma count_positive {A} (l : list A) : l <> [] -> (count l >? 0) = true.
Proof.
  destruct l; [congruence|]. intros _. apply Z.gtb_lt. unfold count. cbn [List.length]. lia.
Qed.

(** The powers of p that fit drive what p drives. *)
Lemma driven_by_fitting_powers p i a :
  Z.prime p -> good_prime (K T) p -> 1 <= i -> p ^ i <= dmax T -> dmax T < p ^ (i + 1) ->
  driven_by T p a <->
  (exists pp, In pp (map (Z.pow p) (exponents 1 i)) /\ above T pp p a) \/
  above T (p ^ i) p a.
Proof.
  intros Hp Hg Hi Hle Hgt. pose proof (Z.prime_ge_2 p Hp) as Hp2.
  rewrite (driven_by_powers T Hpc p a Hp). split.
  - intros [_ (e & He & Ha)].
    assert (Hei : e <= i).
    { destruct (Z_le_gt_dec e i); [assumption|exfalso].
      assert (p ^ (i + 1) <= p ^ e) by (apply Z.pow_le_mono_r; lia).
      destruct Ha as (m & Ha & Hm & Hdm & _). nia. }
    destruct (Z.eq_dec e i) as [->|Hne]; [now right|left].
    exists (p ^ e). split; [|assumption]. apply in_map. apply in_exponents. lia.
  - intros [(pp & Hin & Ha)|Ha]; (split; [assumption|]).
    + apply in_map_iff in Hin. destruct Hin as (e & <- & He). apply in_exponents in He.
      exists e. split; [lia|assumption].
    + exists i. split; assumption.
Qed.

Lemma covers_cached_body pi p :
  Z.prime p -> p <= cpmax T -> p <= dmax T -> scan_state pi p ->
  exists pi', covers T (cached_body T pi p) pi' (driven_by T p) /\ scan_state pi' p.
Proof.
  intros Hp Hpmax Hpd Hst. pose proof (Z.prime_ge_2 p Hp) as Hp2.
  pose proof (cpcnt_range T Hcp) as Hcnt.
  destruct (scan_cptab_spec (Z.to_nat (cpcnt T + 1 - pi)) pi p Hp2 Hst) as (Hst' & Hpi1 & Hge).
  { destruct Hst. lia. }
  set (pi' := scan_cptab T (Z.to_nat (cpcnt T + 1 - pi)) pi p) in *.
  exists pi'. split; [|assumption].
  unfold cached_body. eapply covers_then; [apply (covers_ask T); [assumption|reflexivity]|].
  cbn [negb]. cbv zeta. fold pi'.
  destruct ((pi' >? cpcnt T) || (cptab T pi' >? p)) eqn:Hout.
  { eapply covers_ext; [apply covers_ret|]. intros a. split; [intros []|].
    intros Hdr. apply (driven_by_powers T Hpc p a Hp) in Hdr as [Hg _].
    destruct (cptab_complete T Hpc p Hg Hpmax) as (j & Hj & Hcj).
    apply orb_prop in Hout. destruct Hst' as [_ Hbelow].
    destruct (Z_lt_ge_dec j pi') as [Hlt|Hge'].
    - specialize (Hbelow j ltac:(lia)). lia.
    - destruct Hout as [Hout|Hout]; [lia|].
      pose proof (cptab_le T Hcp pi' j Hpi1 ltac:(lia) ltac:(lia)). lia. }
  apply orb_false_elim in Hout as [Hin Hle].
  assert (Hpi : 1 <= pi' <= cpcnt T) by lia.
  assert (Hcpi : cptab T pi' = p) by (specialize (Hge ltac:(lia)); lia).
  destruct (cptab_good T Hpc pi' Hpi) as [Hg _]. rewrite Hcpi in Hg.
  destruct (highest_power_spec 64 p 1 Hp2 ltac:(lia)) as (i & Hhp & Hi & Hfit & Hnext).
  { now rewrite Z.pow_1_r. }
  { lia. }
  rewrite Z.pow_1_r in Hhp. rewrite Hhp.
  destruct (roots_cached T Hpc pi' i Hpi Hi) as [Hz1 Hz2]; [now rewrite Hcpi|].
  rewrite Hcpi in Hz2.
  set (z := if cached_cuberoots_e T pi' >=? i then _ else _).
  assert (Hz : z <> []) by (unfold z; destruct (_ >=? _); assumption).
  rewrite (count_positive z Hz).
  eapply covers_then; [apply (covers_ask T); [assumption|reflexivity]|].
  cbn [negb].
  pose proof (powers_below_spec 64 p 1 i Hp2 ltac:(lia) Hi Hfit) as Hpb.
  rewrite Z.pow_1_r in Hpb. rewrite Hpb.
  2:{ pose proof (exponent_below_63 p i Hp2 ltac:(lia)).
      pose proof (dmax_range T Hcp). lia. }
  assert (Hpp : forall pp, In pp (map (Z.pow p) (exponents 1 i)) ->
            exists e, pp = p ^ e /\ 1 <= e < i /\ 1 <= pp <= dmax T /\ p <= pp).
  { intros pp Hpp. apply in_map_iff in Hpp. destruct Hpp as (e & <- & He).
    apply in_exponents in He. exists e. split; [reflexivity|]. split; [assumption|].
    pose proof (pow_ge_base p e ltac:(lia) ltac:(lia)).
    assert (p ^ e <= p ^ i) by (apply Z.pow_le_mono_r; lia). lia. }
  eapply covers_ext.
  - eapply (covers_bind T _ _ tt pi'
              (fun a => exists pp, In pp (map (Z.pow p) (exponents 1 i)) /\ above T pp p a)
              (above T (p ^ i) p)).
    + apply (covers_for_each T _ _ (fun pp => above T pp p)).
      * intros pp Hin'. destruct (Hpp pp Hin') as (e & _ & _ & Hr & Hle').
        cbv zeta. apply covers_power; lia.
      * apply NoDup_map_injective; [|apply exponents_NoDup].
        intros x y Hx Hy Heq. apply in_exponents in Hx, Hy.
        apply (Z.pow_inj_r p); lia.
      * intros pp1 pp2 a H1 H2 Ha1 Ha2.
        destruct (Hpp pp1 H1) as (e1 & -> & He1 & _). destruct (Hpp pp2 H2) as (e2 & -> & He2 & _).
        rewrite <- (Z.mul_1_l (p ^ e1)) in Ha1. rewrite <- (Z.mul_1_l (p ^ e2)) in Ha2.
        destruct (above_disjoint T 1 p e1 p e2 a) as [_ ->]; auto; lia.
    + pose proof (pow_ge_base p i ltac:(lia) Hi). apply covers_power_ret; lia.
    + intros a (pp & Hin' & Ha1) Ha2.
      destruct (Hpp pp Hin') as (e & -> & He & _).
      rewrite <- (Z.mul_1_l (p ^ e)) in Ha1. rewrite <- (Z.mul_1_l (p ^ i)) in Ha2.
      destruct (above_disjoint T 1 p e p i a) as [_ ->]; auto; lia.
  - intros a. now rewrite (driven_by_fitting_powers p i a Hp Hg Hi Hfit Hnext).
Qed.

End CachedPhase.

(** ** The phases of the primes beyond cpmax *)

Section LargePrimes.
Import Worker Spec Coverage Notions.
Variable T : tables.
Hypothesis Hcp : cptab_ok T.
Hypothesis Hcd : cdtab_fits T.
Hypothesis Hpc : primes_cover T.
Hypothesis Hkd : divisors_ok T.
Hypothesis Hcc : cofactors_cover T.
Hypothesis Hacc : accepts T.

Lemma count_zero {A} (l : list A) : (count l =? 0) = true <-> l = [].
Proof.
  unfold count. destruct l as [|a l]; cbn [List.length]; split; intros H.
  - reflexivity.
  - reflexivity.
  - apply Z.eqb_eq in H. lia.
  - discriminate.
Qed.

(** The common start of the bodies: a prime that is not good is skipped,
    and drives nothing. *)
Lemma covers_with_roots {L} (st : L) p (k : list Z -> Z -> M L) (Q : L -> Prop) :
  Z.prime p -> cpmax T < p -> Q st ->
  (good_prime (K T) p ->
   forall z n, exists v, covers T (k z n) v (driven_by T p) /\ Q v) ->
  exists v, covers T (with_roots T st p k) v (driven_by T p) /\ Q v.
Proof.
  intros Hp Hc Hst Hk. unfold with_roots.
  destruct (cuberoots_modp T (K T) p) as [|z0 z] eqn:Hz.
  - exists st. split; [|assumption].
    eapply covers_then; [apply (covers_ask T); [assumption|reflexivity]|].
    cbn [negb]. cbv zeta. change (count (@nil Z) =? 0) with true. cbv iota.
    eapply covers_ext; [apply covers_ret|]. intros a. split; [intros []|].
    apply driven_by_bad. intros Hg. apply (roots_modp T Hpc p Hp Hc) in Hg. congruence.
  - assert (Hg : good_prime (K T) p).
    { apply (roots_modp T Hpc p Hp Hc). rewrite Hz. discriminate. }
    destruct (Hk Hg (z0 :: z) (count (z0 :: z))) as (v & Hv & HQ).
    exists v. split; [|assumption].
    eapply covers_then; [apply (covers_ask T); [assumption|reflexivity]|].
    cbn [negb]. cbv zeta.
    destruct (count (z0 :: z) =? 0) eqn:Hn; [apply count_zero in Hn; discriminate|].
    eapply covers_then; [apply (covers_ask T); [assumption|reflexivity]|].
    cbn [negb]. exact Hv.
Qed.

Lemma covers_uncached_body p :
  Z.prime p -> cpmax T < p -> p <= dmax T ->
  covers T (uncached_body T tt p) tt (driven_by T p).
Proof.
  intros Hp Hc Hd. pose proof (Z.prime_ge_2 p Hp).
  destruct (covers_with_roots tt p
              (fun z n => prockd T p z n ;;; enumd T enumd_depth p p z)
              (fun _ => True) Hp Hc I) as ([] & Hv & _); [|exact Hv].
  intros Hg z n. exists tt. split; [|exact I].
  eapply covers_ext; [apply (covers_power T Hcp Hcd Hkd Hcc); lia|].
  intros a. rewrite (driven_by_uncached T Hpc p a Hp Hc). tauto.
Qed.

Lemma covers_cocached_body p :
  Z.prime p -> cpmax T < p -> p <= dmax T -> cdmin T <= p ->
  covers T (cocached_body T tt p) tt (driven_by T p).
Proof.
  intros Hp Hc Hd Hmin. pose proof (Z.prime_ge_2 p Hp).
  pose proof (dmax_range T Hcp). assert (2 ^ 63 < 2 ^ 64) by reflexivity.
  destruct (covers_with_roots tt p
              (fun z n => prockd T p z n ;;; enumcd T p p z)
              (fun _ => True) Hp Hc I) as ([] & Hv & _); [|exact Hv].
  intros Hg z n. exists tt. split; [|exact I].
  eapply covers_ext.
  - eapply (covers_bind T _ _ tt tt (eq p)).
    + apply (covers_prockd T Hkd). lia.
    + apply (covers_enumcd T Hcp Hcd Hkd Hcc); lia.
    + intros a <- (m & Ha & Hm & _). nia.
  - intros a. rewrite (driven_by_uncached T Hpc p a Hp Hc), above_split. split.
    + intros [<-|Hs]; (split; [assumption|]); [left; split; [reflexivity|assumption]|now right].
    + intros [_ [[-> _]|Hs]]; [now left|now right].
Qed.

(** From pdmin on a prime drives itself only. *)
Lemma driven_by_alone p a :
  Z.prime p -> cpmax T < p -> pdmin T <= p -> p <= dmax T -> good_prime (K T) p ->
  driven_by T p a <-> p = a.
Proof.
  intros Hp Hc Hmin Hd Hg. rewrite (driven_by_uncached T Hpc p a Hp Hc), above_split.
  split.
  - intros [_ [[-> _]|(m & Ha & Hm & Hle & Hs)]]; [reflexivity|exfalso].
    destruct (exists_prime_divisor m ltac:(lia)) as (r & Hr & Hdiv).
    destruct (Hs r Hr Hdiv) as [_ Hcached].
    destruct (pdmin_alone T Hkd r (cached_good T Hpc r Hcached)) as [H0 Hout].
    pose proof (divide_pos_le_prime r m Hr ltac:(lia) Hdiv).
    pose proof (Z.prime_ge_2 r Hr). nia.
  - intros <-. split; [assumption|]. left. split; [reflexivity|assumption].
Qed.

Lemma covers_prime_body p :
  Z.prime p -> cpmax T < p -> pdmin T <= p -> p <= dmax T ->
  covers T (prime_body T tt p) tt (driven_by T p).
Proof.
  intros Hp Hc Hmin Hd. pose proof (Z.prime_ge_2 p Hp).
  destruct (covers_with_roots tt p (fun z n => procdcoprime T p z n)
              (fun _ => True) Hp Hc I) as ([] & Hv & _); [|exact Hv].
  intros Hg z n. exists tt. split; [|exact I].
  eapply covers_ext.
  - apply (covers_entry T Hkd _ p); [lia|assumption|apply adds_procdcoprime].
  - intros a. now rewrite (driven_by_alone p a Hp Hc Hmin Hd Hg).
Qed.

Lemma covers_bigprime_body mi m pmax st p :
  Z.prime p -> cpmax T < p -> pdmin T <= p -> p <= dmax T ->
  exists st', covers T (bigprime_body T mi m pmax st p) st' (driven_by T p).
Proof.
  intros Hp Hc Hmin Hd. pose proof (Z.prime_ge_2 p Hp).
  destruct (covers_with_roots st p
              (fun z n =>
                 let si := sgnz_index T p in
                 let '(l, lpmax) := st in
                 let '(l, lpmax) := if p >? lpmax
                                    then (length_for T p m, lpmax_for T (length_for T p m) m pmax)
                                    else (l, lpmax) in
                 procdbigprime T p z n si mi l ;;; ret (l, lpmax))
              (fun _ => True) Hp Hc I) as (v & Hv & _); [|exists v; exact Hv].
  intros Hg z n. destruct st as [l lpmax]. cbv zeta.
  destruct (if p >? lpmax then _ else _) as [l' lpmax'].
  exists (l', lpmax'). split; [|exact I].
  eapply covers_ext.
  - eapply covers_first; [|apply covers_ret].
    apply (covers_entry T Hkd _ p); [lia|assumption|apply adds_procdbigprime].
  - intros a. now rewrite (driven_by_alone p a Hp Hc Hmin Hd Hg).
Qed.

Lemma covers_bigprime7_body mi m mi7 m7 pmax st p :
  Z.prime p -> cpmax T < p -> pdmin T <= p -> p <= dmax T ->
  exists st', covers T (bigprime7_body T mi m mi7 m7 pmax st p) st' (driven_by T p).
Proof.
  intros Hp Hc Hmin Hd. pose proof (Z.prime_ge_2 p Hp).
  destruct (covers_with_roots st p
              (fun z n =>
                 let si := sgnz_index T p in
                 let '(l, lpmax, l7, lpmax7) := st in
                 if onezmod7 T p si then
                   let '(l7, lpmax7) := if p >? lpmax7
                                        then (length_for T p m7, lpmax_for T l m7 pmax)
                                        else (l7, lpmax7) in
                   procdbigprime T p z n si mi7 l7 ;;; ret (l, lpmax, l7, lpmax7)
                 else
                   let '(l, lpmax) := if p >? lpmax
                                      then (length_for T p m, lpmax_for T (length_for T p m) m pmax)
                                      else (l, lpmax) in
                   procdbigprime T p z n si mi l ;;; ret (l, lpmax, l7, lpmax7))
              (fun _ => True) Hp Hc I) as (v & Hv & _); [|exists v; exact Hv].
  intros Hg z n. destruct st as [[[l lpmax] l7] lpmax7]. cbv zeta.
  assert (Hone : forall si mi' l' (v : Z * Z * Z * Z),
            covers T (procdbigprime T p z n si mi' l' ;;; ret v) v (driven_by T p)).
  { intros si mi' l' v. eapply covers_ext.
    - eapply covers_first; [|apply covers_ret].
      apply (covers_entry T Hkd _ p); [lia|assumption|apply adds_procdbigprime].
    - intros a. now rewrite (driven_by_alone p a Hp Hc Hmin Hd Hg). }
  destruct (onezmod7 T p (sgnz_index T p)).
  - destruct (if p >? lpmax7 then _ else _) as [l7' lpmax7'].
    eexists. split; [apply Hone|exact I].
  - destruct (if p >? lpmax then _ else _) as [l' lpmax'].
    eexists. split; [apply Hone|exact I].
Qed.

End LargePrimes.

(** ** The near-prime phase *)

Section NearPrimes.
Import Worker Spec Coverage Notions.
Variable T : tables.
Hypothesis Hcp : cptab_ok T.
Hypothesis Hcd : cdtab_fits T.
Hypothesis Hpc : primes_cover T.
Hypothesis Hkd : divisors_ok T.
Hypothesis Hcc : cofactors_cover T.
Hypothesis Hacc : accepts T.

Local Abbreviation pimax_state := (Notions.pimax_state T).

Lemma pimax_state_later pimax p p' :
  p <= p' -> pimax_state pimax p -> pimax_state pimax p'.
Proof.
  intros Hle [Hr Hout]. split; [assumption|]. intros i Hi. specialize (Hout i Hi).
  destruct (sdtab_entry T Hcc i ltac:(lia)) as [H2 _]. nia.
Qed.

Lemma sdtab_le i j : 1 <= i -> i <= j -> j <= sdcnt T -> sd_d (sdtab T i) <= sd_d (sdtab T j).
Proof.
  intros Hi Hij Hj. destruct (Z.eq_dec i j) as [->|Hne]; [lia|].
  pose proof (sdtab_sorted T Hcc i j Hi ltac:(lia) Hj). lia.
Qed.

Lemma lower_pimax_spec pimax p :
  0 <= p -> pimax_state pimax p ->
  pimax_state (lower_pimax T pimax p) p /\
  forall i, 1 <= i <= Z.of_nat (lower_pimax T pimax p) -> p * sd_d (sdtab T i) <= dmax T.
Proof.
  intros Hp. induction pimax as [|n IH]; intros [Hr Hout]; cbn [lower_pimax].
  - split; [split; assumption|]. intros i Hi. lia.
  - destruct (Z.gtb_spec (p * sd_d (sdtab T (Z.of_nat (S n)))) (dmax T)) as [Hgt|Hle].
    + apply IH. split; [lia|]. intros i Hi.
      destruct (Z.eq_dec i (Z.of_nat (S n))) as [->|Hne]; [lia|apply Hout; lia].
    + split; [split; assumption|]. intros i Hi.
      pose proof (sdtab_le i (Z.of_nat (S n)) ltac:(lia) ltac:(lia) Hr). nia.
Qed.

Lemma in_sd_entries pimax x :
  In x (sd_entries T pimax) <-> exists i, 1 <= i <= Z.of_nat pimax /\ x = sdtab T i.
Proof.
  unfold sd_entries. rewrite in_map_iff. split.
  - intros (i & <- & Hi). apply in_rev, in_seq in Hi. exists (Z.of_nat i). split; [lia|reflexivity].
  - intros (i & Hi & ->). exists (Z.to_nat i). split; [f_equal; lia|].
    apply -> in_rev. apply in_seq. lia.
Qed.

Lemma sdtab_same i j :
  1 <= i <= sdcnt T -> 1 <= j <= sdcnt T -> sd_d (sdtab T i) = sd_d (sdtab T j) -> i = j.
Proof.
  intros Hi Hj Heq. destruct (Z.lt_trichotomy i j) as [Hlt|[?|Hlt]]; [|assumption|].
  - pose proof (sdtab_sorted T Hcc i j ltac:(lia) Hlt ltac:(lia)). lia.
  - pose proof (sdtab_sorted T Hcc j i ltac:(lia) Hlt ltac:(lia)). lia.
Qed.

Lemma sd_entries_NoDup pimax : Z.of_nat pimax <= sdcnt T -> NoDup (sd_entries T pimax).
Proof.
  intros Hr. unfold sd_entries. apply NoDup_map_injective.
  - intros i j Hi Hj Heq. apply in_rev, in_seq in Hi. apply in_rev, in_seq in Hj.
    assert (Z.of_nat i = Z.of_nat j); [|lia].
    apply sdtab_same; try lia. now rewrite Heq.
  - apply NoDup_rev, seq_NoDup.
Qed.

(** The moduli above a prime p beyond sdmin are its products with the
    cofactors of [sdtab] that fit. *)
Lemma above_near_prime pimax p a :
  Z.prime p -> cpmax T < p -> sdmin T <= p -> p <= dmax T ->
  pimax_state pimax p ->
  (forall i, 1 <= i <= Z.of_nat pimax -> p * sd_d (sdtab T i) <= dmax T) ->
  above T p p a <->
  p = a \/ exists x, In x (sd_entries T pimax) /\ p * sd_d x = a.
Proof.
  intros Hp Hc Hmin Hd [Hr Hout] Hfit. pose proof (Z.prime_ge_2 p Hp) as Hp2.
  pose proof (cpmax_sqrt T Hpc) as [Hc0 Hsq].
  rewrite above_split. split.
  - intros [[-> _]|(m & Ha & Hm & Hle & Hs)]; [now left|right].
    destruct (sdtab_complete T Hcc m Hm) as (i & Hi & Hsd).
    { nia. }
    { intros q Hq Hdiv. now destruct (Hs q Hq Hdiv). }
    exists (sdtab T i). split; [|now rewrite Hsd].
    apply in_sd_entries. exists i. split; [|reflexivity].
    destruct (Z_le_gt_dec i (Z.of_nat pimax)) as [|Hgt]; [lia|].
    specialize (Hout i ltac:(lia)). rewrite Hsd in Hout. lia.
  - intros [<-|(x & Hx & <-)]; [left; split; [reflexivity|assumption]|right].
    apply in_sd_entries in Hx. destruct Hx as (i & Hi & ->).
    destruct (sdtab_entry T Hcc i ltac:(lia)) as [H2 Hcached].
    exists (sd_d (sdtab T i)). split; [reflexivity|]. split; [assumption|].
    split; [now apply Hfit|]. intros q Hq Hdiv. split; [|now apply Hcached].
    pose proof (divide_pos_le_prime q (sd_d (sdtab T i)) Hq ltac:(lia) Hdiv).
    specialize (Hfit i Hi). nia.
Qed.

Lemma covers_nearprime_body pimax p :
  Z.prime p -> cpmax T < p -> sdmin T <= p -> p <= dmax T ->
  pimax_state pimax p ->
  exists pimax', covers T (nearprime_body T pimax p) pimax' (driven_by T p) /\
                 pimax_state pimax' p.
Proof.
  intros Hp Hc Hmin Hd Hst. pose proof (Z.prime_ge_2 p Hp) as Hp2.
  apply (covers_with_roots T Hpc Hacc pimax p _ (fun v => pimax_state v p) Hp Hc Hst).
  intros Hg z n.
  destruct (lower_pimax_spec pimax p ltac:(lia) Hst) as [Hst' Hfit].
  exists (lower_pimax T pimax p). split; [|assumption]. cbv zeta.
  assert (Hentry : forall x, In x (sd_entries T (lower_pimax T pimax p)) ->
            exists i, 1 <= i <= sdcnt T /\ x = sdtab T i /\
                      2 <= sd_d x /\ p * sd_d x <= dmax T).
  { intros x Hx. apply in_sd_entries in Hx. destruct Hx as (i & Hi & ->).
    destruct Hst' as [Hr _]. exists i. split; [lia|]. split; [reflexivity|].
    destruct (sdtab_entry T Hcc i ltac:(lia)) as [H2 _]. split; [assumption|now apply Hfit]. }
  eapply covers_ext.
  - eapply (covers_bind T _ _ tt _ (eq p)).
    + apply (covers_prockd T Hkd). lia.
    + eapply covers_first; [|apply covers_ret].
      apply (covers_for_each T _ _ (fun x => eq (p * sd_d x))).
      * intros x Hx. destruct (Hentry x Hx) as (i & _ & _ & H2 & Hle).
        rewrite (u64_product T Hcp) by lia. apply (covers_prockd T Hkd). nia.
      * apply sd_entries_NoDup. now destruct Hst'.
      * intros x y a Hx Hy <- Heq.
        destruct (Hentry x Hx) as (i & Hi & -> & _). destruct (Hentry y Hy) as (j & Hj & -> & _).
        f_equal. apply sdtab_same; auto. nia.
    + intros a <- (x & Hx & Heq). destruct (Hentry x Hx) as (_ & _ & _ & H2 & _). nia.
  - intros a. rewrite (driven_by_uncached T Hpc p a Hp Hc).
    rewrite (above_near_prime (lower_pimax T pimax p) p a Hp Hc Hmin Hd Hst' Hfit). tauto.
Qed.

End NearPrimes.

(** ** The loops of the phase driver *)

Section PhaseLoops.
Import Worker Spec Coverage Notions.
Variable T : tables.

Local Abbreviation driven_by_any := (Notions.driven_by_any T).

Lemma driven_by_one p q a : driven_by T p a -> driven_by T q a -> p = q.
Proof.
  intros (_ & _ & Hp) (_ & _ & Hq). exact (largest_prime_factor_unique a p q Hp Hq).
Qed.

Lemma driven_by_any_app R1 R2 a :
  driven_by_any (R1 ++ R2) a <-> driven_by_any R1 a \/ driven_by_any R2 a.
Proof.
  unfold driven_by_any. split.
  - intros (q & Hq & Hd). apply in_app_iff in Hq. destruct Hq; eauto.
  - intros [(q & Hq & Hd)|(q & Hq & Hd)]; exists q; rewrite in_app_iff; auto.
Qed.

Lemma sorted_app_lt (R1 R2 : list Z) x y :
  StronglySorted Z.lt (R1 ++ R2) -> In x R1 -> In y R2 -> x < y.
Proof.
  induction R1 as [|a R1 IH]; cbn [app]; intros Hs Hx Hy; [destruct Hx|].
  inversion Hs as [|? ? Hs' Hall]; subst. destruct Hx as [->|Hx].
  - rewrite Forall_forall in Hall. apply Hall. apply in_app_iff. now right.
  - now apply IH.
Qed.

Lemma sorted_app_r (R1 R2 : list Z) :
  StronglySorted Z.lt (R1 ++ R2) -> StronglySorted Z.lt R2.
Proof.
  induction R1 as [|a R1 IH]; cbn [app]; intros Hs; [assumption|].
  inversion Hs; subst. now apply IH.
Qed.

Lemma driven_by_any_disjoint R1 R2 a :
  StronglySorted Z.lt (R1 ++ R2) -> driven_by_any R1 a -> driven_by_any R2 a -> False.
Proof.
  intros Hs (p & Hp & Hdp) (q & Hq & Hdq).
  pose proof (sorted_app_lt R1 R2 p q Hs Hp Hq). pose proof (driven_by_one p q a Hdp Hdq). lia.
Qed.

(** A loop of the driver runs its body on the primes at the head of the
    pipe that meet its condition, and hands on the rest. *)
Lemma covers_phase_loop {L} (cond : Z -> bool) (body : L -> Z -> M L)
  (Q : L -> Z -> Prop) (P : Z -> Prop) :
  cond END_OF_PIPE = false ->
  (forall st p p', p <= p' -> Q st p -> Q st p') ->
  (forall st p, P p -> cond p = true -> Q st p ->
     exists st', covers T (body st p) st' (driven_by T p) /\ Q st' p) ->
  forall rest p st,
    StronglySorted Z.lt (p :: rest) -> Forall P (p :: rest) -> Q st p ->
    exists st' done todo,
      p :: rest = done ++ todo /\
      covers T (phase_loop cond body st p rest)
        (st', fst (read_pipe todo), snd (read_pipe todo)) (driven_by_any done) /\
      match todo with [] => True | q :: _ => cond q = false end.
Proof.
  intros Hend Hmono Hbody. induction rest as [|p' rest IH]; intros p st Hs HP HQ.
  - cbn [phase_loop]. destruct (cond p) eqn:Hc.
    + inversion HP as [|? ? Hp _]; subst.
      destruct (Hbody st p Hp Hc HQ) as (st' & Hcov & _).
      exists st', [p], []. split; [reflexivity|]. split; [|exact I].
      rewrite Hend. eapply covers_ext.
      * eapply covers_first; [exact Hcov|apply covers_ret].
      * intros a. unfold driven_by_any. cbn [In]. split; [eauto|].
        intros (q & [<-|[]] & Hd). assumption.
    + exists st, [], [p]. split; [reflexivity|]. split; [|assumption].
      eapply covers_ext; [apply covers_ret|]. intros a. split; [intros []|].
      intros (q & [] & _).
  - cbn [phase_loop]. destruct (cond p) eqn:Hc.
    + inversion HP as [|? ? Hp HP']; subst. inversion Hs as [|? ? Hs' Hlt]; subst.
      destruct (Hbody st p Hp Hc HQ) as (st' & Hcov & HQ').
      assert (Hpp : p < p') by (inversion Hlt; assumption).
      destruct (IH p' st' Hs' HP' (Hmono st' p p' ltac:(lia) HQ'))
        as (st'' & done' & todo & Heq & Hcov' & Htodo).
      exists st'', (p :: done'), todo. split; [cbn [app]; now rewrite Heq|].
      split; [|assumption]. eapply covers_ext.
      * eapply covers_bind; [exact Hcov|exact Hcov'|].
        intros a Hd (q & Hq & Hdq). pose proof (driven_by_one p q a Hd Hdq) as ->.
        assert (Hin : In q (p' :: rest)) by (rewrite Heq; apply in_app_iff; now left).
        rewrite Forall_forall in Hlt. specialize (Hlt q Hin). lia.
      * intros a. unfold driven_by_any. cbn [In]. split.
        -- intros [Hd|(q & Hq & Hd)]; eauto.
        -- intros (q & [<-|Hq] & Hd); eauto.
    + exists st, [], (p :: p' :: rest). split; [reflexivity|]. split; [|assumption].
      eapply covers_ext; [apply covers_ret|]. intros a. split; [intros []|].
      intros (q & [] & _).
Qed.

End PhaseLoops.

(** ** The phases one after the other *)

Section PhaseChain.
Import Worker Spec Coverage Notions.
Variable T : tables.
Hypothesis Hcp : cptab_ok T.
Hypothesis Hcd : cdtab_fits T.
Hypothesis Hpc : primes_cover T.
Hypothesis Hkd : divisors_ok T.
Hypothesis Hcc : cofactors_cover T.
Hypothesis Hacc : accepts T.
Variable pmax : Z.
Hypothesis Hpmax : pmax <= dmax T.

Local Abbreviation pending := (Notions.pending T pmax).

Lemma pending_raise lo lo' q R : pending lo (q :: R) -> lo' <= q -> pending lo' (q :: R).
Proof.
  intros [Hs Hall] Hq. split; [assumption|].
  inversion Hs as [|? ? _ Hlt]; subst. rewrite Forall_forall in *.
  intros x Hx. destruct (Hall x Hx) as (H1 & H2 & H3 & H4).
  split; [assumption|]. split; [assumption|]. split; [|assumption].
  destruct Hx as [<-|Hx]; [assumption|]. specialize (Hlt x Hx). lia.
Qed.

Lemma pending_rest lo R1 R2 : pending lo (R1 ++ R2) -> pending lo R2.
Proof.
  intros [Hs Hall]. split; [now apply sorted_app_r in Hs|].
  apply Forall_app in Hall. tauto.
Qed.

Lemma end_of_pipe_beyond : pmax < END_OF_PIPE.
Proof.
  pose proof (dmax_range T Hcp). unfold END_OF_PIPE.
  assert (2 ^ 63 < 2 ^ 64 - 1) by reflexivity. lia.
Qed.

Lemma covers_done p : pmax < p -> covers T (done p pmax) tt (fun _ => False).
Proof.
  intros Hp. unfold done. destruct (Z.gtb_spec p pmax); [apply covers_ret|lia].
Qed.

(** One phase: its loop, the report of the boundary, and the phases after
    it on the primes left. *)
Lemma covers_phase_step {L} (cond : Z -> bool) (body : L -> Z -> M L)
  (Q : L -> Z -> Prop) (ph : phase) (next : Z -> Z -> list Z -> M unit)
  (lo lo' : Z) st p rest :
  cond END_OF_PIPE = false ->
  (forall st p p', p <= p' -> Q st p -> Q st p') ->
  (forall st p, (Z.prime p /\ cpmax T < p /\ lo <= p /\ p <= pmax) -> cond p = true ->
     Q st p -> exists st', covers T (body st p) st' (driven_by T p) /\ Q st' p) ->
  (forall q, lo <= q -> q <= pmax -> cond q = false -> lo' <= q) ->
  (forall q todo, pending lo' (q :: todo) ->
     covers T (next q pmax todo) tt (driven_by_any T (q :: todo))) ->
  pending lo (p :: rest) -> Q st p ->
  covers T
    (r <- phase_loop cond body st p rest ;;
     let '(_, p, rest) := r in
     _ <- ask T (report_phase ph) ;;
     if p >? pmax then done p pmax else next p pmax rest)
    tt (driven_by_any T (p :: rest)).
Proof.
  intros Hend Hmono Hbody Hlo Hnext Hpend HQ.
  destruct (covers_phase_loop T cond body Q _ Hend Hmono Hbody rest p st
              (proj1 Hpend) (proj2 Hpend) HQ)
    as (st' & done' & todo & Heq & Hcov & Htodo).
  rewrite Heq in *. destruct todo as [|q todo]; cbn [read_pipe fst snd] in Hcov.
  - eapply covers_ext.
    + eapply covers_first; [exact Hcov|].
      cbv beta iota. apply covers_ask_any; [reflexivity|]. intros _.
      pose proof end_of_pipe_beyond.
      destruct (Z.gtb_spec END_OF_PIPE pmax); [|lia].
      apply covers_done. assumption.
    + intros a. now rewrite app_nil_r.
  - assert (Hq : pending lo (q :: todo)) by exact (pending_rest lo _ _ Hpend).
    assert (Hqmax : lo <= q <= pmax).
    { destruct Hq as [_ Hall]. inversion Hall as [|? ? (_ & _ & H) _]. assumption. }
    eapply covers_ext.
    + eapply covers_bind; [exact Hcov| |].
      * cbv beta iota. apply covers_ask_any; [reflexivity|]. intros _.
        destruct (Z.gtb_spec q pmax); [lia|].
        apply Hnext. apply (pending_raise lo); [assumption|]. apply Hlo; [lia|lia|assumption].
      * cbv beta. intros a H1 H2.
        exact (driven_by_any_disjoint T _ _ a (proj1 Hpend) H1 H2).
    + intros a. now rewrite driven_by_any_app.
Qed.

Lemma pending_prime lo R q :
  pending lo R -> In q R -> Z.prime q /\ cpmax T < q /\ lo <= q /\ q <= pmax.
Proof. intros [_ Hall] Hq. rewrite Forall_forall in Hall. now apply Hall. Qed.

Lemma andb_end (c : bool) : c && (END_OF_PIPE <=? pmax) = false.
Proof.
  pose proof end_of_pipe_beyond. destruct (Z.leb_spec END_OF_PIPE pmax); [lia|].
  apply andb_false_r.
Qed.

Lemma below_threshold lo q : q <= pmax -> (q <? lo) && (q <=? pmax) = false -> lo <= q.
Proof.
  intros Hq Hc. destruct (Z.ltb_spec q lo); [|assumption].
  destruct (Z.leb_spec q pmax); [discriminate|lia].
Qed.

(** The loop of phase 6 takes every prime left. *)
Lemma covers_bigprime_loop {L} (body : L -> Z -> M L) st q todo :
  (forall st p, Z.prime p -> cpmax T < p -> pdmin T <= p -> p <= dmax T ->
     exists st', covers T (body st p) st' (driven_by T p)) ->
  pending (pdmin T) (q :: todo) ->
  covers T
    (r <- (r <- phase_loop (fun p => p <=? pmax) body st q todo ;; ret (snd (fst r))) ;;
     _ <- ask T (report_phase PHASE_BIGPRIME) ;;
     done r pmax)
    tt (driven_by_any T (q :: todo)).
Proof.
  intros Hbody Hpend. pose proof end_of_pipe_beyond as Hend.
  destruct (covers_phase_loop T (fun p => p <=? pmax) body (fun _ _ => True)
              (fun p => Z.prime p /\ cpmax T < p /\ pdmin T <= p /\ p <= pmax))
    with (rest := todo) (p := q) (st := st)
    as (st' & done' & todo' & Heq & Hcov & Htodo).
  - destruct (Z.leb_spec END_OF_PIPE pmax); [lia|reflexivity].
  - auto.
  - intros st0 p (Hp & Hc & Hmin & Hle) _ _.
    destruct (Hbody st0 p Hp Hc Hmin ltac:(lia)) as (st' & Hcov). eauto.
  - exact (proj1 Hpend).
  - exact (proj2 Hpend).
  - exact I.
  - destruct todo' as [|q' todo'].
    + rewrite app_nil_r in Heq. rewrite Heq. cbn [read_pipe fst snd] in Hcov.
      eapply covers_first.
      * eapply covers_first; [exact Hcov|apply covers_ret].
      * cbn [fst snd]. apply covers_ask_any; [reflexivity|]. intros _.
        apply covers_done. assumption.
    + exfalso. assert (Hin : In q' (q :: todo)) by (rewrite Heq; apply in_app_iff; right; now left).
      destruct (pending_prime _ _ _ Hpend Hin) as (_ & _ & _ & Hle).
      apply Z.leb_gt in Htodo. lia.
Qed.

Lemma covers_phase6 q todo :
  pending (pdmin T) (q :: todo) ->
  covers T (phase6 T q pmax todo) tt (driven_by_any T (q :: todo)).
Proof.
  intros Hpend. unfold phase6. cbv zeta.
  destruct (negb (mod7 T (K T * K T) =? 4)).
  - apply covers_bigprime_loop; [|assumption].
    intros st p. apply (covers_bigprime_body T Hpc Hkd Hacc).
  - apply covers_bigprime_loop; [|assumption].
    intros st p. apply (covers_bigprime7_body T Hpc Hkd Hacc).
Qed.

Lemma covers_phase5 q todo :
  pending (pdmin T) (q :: todo) ->
  covers T (phase5 T q pmax todo) tt (driven_by_any T (q :: todo)).
Proof.
  intros Hpend. unfold phase5.
  apply (covers_phase_step _ _ (fun _ _ => True) _ _ (pdmin T) (pdmin T)); auto.
  - apply andb_end.
  - intros [] p (Hp & Hc & Hmin & Hle) _ _. exists tt. split; [|exact I].
    apply (covers_prime_body T Hpc Hkd Hacc); auto. lia.
  - intros. apply covers_phase6. assumption.
Qed.

Lemma covers_phase4 q todo :
  pending (sdmin T) (q :: todo) ->
  covers T (phase4 T q pmax todo) tt (driven_by_any T (q :: todo)).
Proof.
  intros Hpend. unfold phase4.
  apply (covers_phase_step _ _ (pimax_state T) _ _ (sdmin T) (pdmin T)); auto.
  - apply andb_end.
  - intros st p p'. apply (pimax_state_later T Hcc).
  - intros st p (Hp & Hc & Hmin & Hle) _ Hst.
    apply (covers_nearprime_body T Hcp Hpc Hkd Hcc Hacc); auto. lia.
  - intros q' _. apply below_threshold.
  - intros. apply covers_phase5. assumption.
  - pose proof (sdcnt_nonneg T Hcc). split; [lia|]. intros i Hi. lia.
Qed.

Lemma covers_phase3 q todo :
  pending (cdmin T) (q :: todo) ->
  covers T (phase3 T q pmax todo) tt (driven_by_any T (q :: todo)).
Proof.
  intros Hpend. unfold phase3.
  apply (covers_phase_step _ _ (fun _ _ => True) _ _ (cdmin T) (sdmin T)); auto.
  - apply andb_end.
  - intros [] p (Hp & Hc & Hmin & Hle) _ _. exists tt. split; [|exact I].
    apply (covers_cocached_body T Hcp Hcd Hpc Hkd Hcc Hacc); auto. lia.
  - intros q' _. apply below_threshold.
  - intros. apply covers_phase4. assumption.
Qed.

Lemma covers_phase2 q todo :
  pending (cpmax T) (q :: todo) ->
  covers T (phase2 T q pmax todo) tt (driven_by_any T (q :: todo)).
Proof.
  intros Hpend. unfold phase2.
  apply (covers_phase_step _ _ (fun _ _ => True) _ _ (cpmax T) (cdmin T)); auto.
  - apply andb_end.
  - intros [] p (Hp & Hc & Hmin & Hle) _ _. exists tt. split; [|exact I].
    apply (covers_uncached_body T Hcp Hcd Hpc Hkd Hcc Hacc); auto. lia.
  - intros q' _. apply below_threshold.
  - intros. apply covers_phase3. assumption.
Qed.

End PhaseChain.

(** ** The phase driver dispatches every modulus once *)

Section DispatchedOnce.
Import Worker Spec Coverage Notions.
Variable T : tables.
Hypothesis Hcp : cptab_ok T.
Hypothesis Hcd : cdtab_fits T.
Hypothesis Hpc : primes_cover T.
Hypothesis Hkd : divisors_ok T.
Hypothesis Hcc : cofactors_cover T.
Hypothesis Hacc : accepts T.

Lemma pipe_pending pp R1 R2 :
  pipe_ok T pp -> pipe_primes pp = R1 ++ R2 ->
  match R2 with [] => True | q :: _ => cpmax T < q end ->
  pending T (pipe_end pp) (cpmax T) R2.
Proof.
  intros Hpp Heq Hq. destruct Hpp as [Hs Hprime Hin _ _]. rewrite Heq in *.
  split; [now apply sorted_app_r in Hs|].
  apply Forall_app in Hprime as [_ Hprime]. apply Forall_app in Hin as [_ Hin].
  apply sorted_app_r in Hs.
  destruct R2 as [|q R2]; [constructor|].
  inversion Hs as [|? ? _ Hlt]; subst. rewrite Forall_forall in *.
  intros x Hx. specialize (Hprime x Hx). specialize (Hin x Hx).
  assert (q <= x) by (destruct Hx as [<-|Hx]; [lia|specialize (Hlt x Hx); lia]).
  split; [assumption|]. split; [lia|]. split; lia.
Qed.

(** After the cached phase: the boundary is reported and accepted, the
    asserts of lines 425-426 hold, and the later phases take the primes
    left. *)
Lemma covers_after_cached pp R :
  pipe_ok T pp -> pending T (pipe_end pp) (cpmax T) R ->
  covers T
    (ok <- ask T (report_phase PHASE_CACHED) ;;
     if negb ok then done (fst (read_pipe R)) (pipe_end pp)
     else if fst (read_pipe R) >? pipe_end pp then done (fst (read_pipe R)) (pipe_end pp)
     else if negb (above_sqrt_dmax T (fst (read_pipe R))) then halt AssertionFailed
     else if negb (u64 (3 * fst (read_pipe R)) >? K T) then halt AssertionFailed
     else phase2 T (fst (read_pipe R)) (pipe_end pp) (snd (read_pipe R)))
    tt (driven_by_any T R).
Proof.
  intros Hpp Hpend. pose proof (pipe_end_dmax T pp Hpp) as Hmax.
  eapply covers_then; [apply (covers_ask T); [assumption|reflexivity]|].
  cbn [negb]. destruct R as [|q R]; cbn [read_pipe fst snd].
  - pose proof (end_of_pipe_beyond T Hcp (pipe_end pp) Hmax).
    destruct (Z.gtb_spec END_OF_PIPE (pipe_end pp)); [|lia].
    eapply covers_ext; [apply (covers_done T); assumption|].
    intros a. split; [intros []|]. intros (x & [] & _).
  - destruct (pending_prime T _ _ _ q Hpend ltac:(now left)) as (Hq & Hc & _ & Hle).
    destruct (Z.gtb_spec q (pipe_end pp)); [lia|].
    rewrite (above_sqrt T Hpc q Hc). cbn [negb].
    pose proof (pipe_end_tripled T pp Hpp). pose proof (K_cached T Hpc).
    pose proof (Z.prime_ge_2 q Hq).
    rewrite u64_small by lia.
    destruct (Z.gtb_spec (3 * q) (K T)); [|lia]. cbn [negb].
    apply (covers_phase2 T Hcp Hcd Hpc Hkd Hcc Hacc); assumption.
Qed.

Lemma covers_process_primes pp :
  pipe_ok T pp ->
  covers T (process_primes T pp) tt (driven_by_any T (pipe_primes pp)).
Proof.
  intros Hpp. pose proof (pipe_end_dmax T pp Hpp) as Hmax.
  pose proof (end_of_pipe_beyond T Hcp (pipe_end pp) Hmax) as Hend.
  unfold process_primes. cbv zeta.
  destruct (pipe_primes pp) as [|p rest] eqn:HR; cbn [read_pipe].
  { destruct (Z.gtb_spec END_OF_PIPE (pipe_end pp)); [|lia].
    eapply covers_ext; [apply covers_ret|].
    intros a. split; [intros []|]. intros (x & [] & _). }
  assert (Hp : Z.prime p /\ pipe_start pp <= p <= pipe_end pp).
  { destruct Hpp as [_ Hprime Hin _ _]. rewrite HR in *.
    inversion Hprime; inversion Hin; subst. auto. }
  destruct Hp as [Hprime Hrange].
  destruct (Z.gtb_spec p (pipe_end pp)); [lia|].
  destruct (Z.leb_spec p (cpmax T)) as [Hle|Hgt].
  - destruct (covers_phase_loop T
                (fun p => (p <=? cpmax T) && (p <=? pipe_end pp)) (cached_body T)
                (scan_state T)
                (fun p => Z.prime p /\ pipe_start pp <= p <= pipe_end pp))
      with (rest := rest) (p := p) (st := pimaxp T (pipe_start pp) 1 (dmax T))
      as (st' & done' & todo & Heq & Hcov & Htodo).
    + apply (andb_end T Hcp (pipe_end pp) Hmax).
    + intros st q q'. apply scan_state_later.
    + intros st q (Hq & Hr) Hc Hst. apply andb_prop in Hc as [Hc _]. apply Z.leb_le in Hc.
      apply (covers_cached_body T Hcp Hcd Hpc Hkd Hcc Hacc); auto. lia.
    + destruct Hpp as [Hs _ _ _ _]. now rewrite HR in Hs.
    + destruct Hpp as [_ Hprime' Hin _ _]. rewrite HR in *. rewrite Forall_forall in *.
      intros x Hx. split; [now apply Hprime'|now apply Hin].
    + pose proof (pimaxp_range T Hcp (pipe_start pp) 1) as Hr. split; [lia|].
      intros j Hj.
      assert (Hnz : pimaxp T (pipe_start pp) 1 (dmax T) <> 0) by lia.
      destruct (pimaxp_fits T Hcp (pipe_start pp) 1 ltac:(lia) Hnz) as [Hfit _].
      pose proof (cptab_increasing T Hcp j _ ltac:(lia) (proj2 Hj) (proj2 Hr)). lia.
    + assert (Hpend : pending T (pipe_end pp) (cpmax T) todo).
      { apply (pipe_pending pp done' todo Hpp); [congruence|].
        destruct todo as [|q todo]; [exact I|].
        assert (Hq : In q (p :: rest)) by (rewrite Heq; apply in_app_iff; right; now left).
        destruct Hpp as [_ _ Hin _ _]. rewrite HR in Hin. rewrite Forall_forall in Hin.
        specialize (Hin q Hq).
        destruct (Z.leb_spec q (cpmax T)); [|assumption].
        destruct (Z.leb_spec q (pipe_end pp)); [discriminate|lia]. }
      rewrite Heq. eapply covers_ext.
      * eapply covers_bind.
        -- eapply covers_first; [exact Hcov|apply covers_ret].
        -- cbn [fst snd]. apply covers_after_cached; assumption.
        -- cbv beta. intros a H1 H2. destruct Hpp as [Hs _ _ _ _].
           rewrite HR, Heq in Hs. exact (driven_by_any_disjoint T _ _ a Hs H1 H2).
      * intros a. now rewrite driven_by_any_app.
  - eapply covers_then; [apply covers_ret|].
    apply (covers_after_cached pp (p :: rest) Hpp).
    apply (pipe_pending pp [] (p :: rest) Hpp); [exact HR|assumption].
Qed.

End DispatchedOnce.

Section DispatchedOnceTheorem.
Import Worker Spec Coverage Notions.
Variable T : tables.
Hypothesis Hcp : cptab_ok T.
Hypothesis Hcd : cdtab_fits T.
Hypothesis Hpc : primes_cover T.
Hypothesis Hkd : divisors_ok T.
Hypothesis Hcc : cofactors_cover T.
Hypothesis Hacc : accepts T.

(** C2, as the code has it: in a worker whose reporter lets every prime and
    every number of roots through and accepts the boundary after the cached
    phase, [process_primes] runs to its end and enters the dispatcher
    ([procd], [procdcoprime] or [procdbigprime]) exactly once for each
    admissible modulus d <= dmax (every prime factor of d is prime to k and
    has k as a cube modulo it) whose largest prime factor is a prime the
    worker reads from its pipe and each divisor index ki that goes with d
    (ki = 0, or 1 <= ki <= kdcnt with d <= kdmax[ki]), and for nothing else;
    no modulus is offered to [prockd] twice. *)
Theorem process_primes_dispatches_once pp h :
  pipe_ok T pp ->
  exists t,
    process_primes T pp h = (Ok tt, rev t ++ h) /\
    NoDup (invocations t) /\
    (forall d ki,
       In (d, ki) (invocations t) <->
       (exists p, In p (pipe_primes pp) /\ largest_prime_factor d p) /\
       admissible (K T) d /\ d <= dmax T /\ class_of T d ki) /\
    NoDup (offers t).
Proof.
  intros Hpp.
  destruct (covers_process_primes T Hcp Hcd Hpc Hkd Hcc Hacc pp Hpp h)
    as (t & L & Hrun & Hinv & Hnd & Hin & Hoff & _).
  assert (Hpos : Forall (fun d => 1 <= d) L).
  { apply Forall_forall. intros d Hd. apply Hin in Hd.
    destruct Hd as (p & _ & ([H1 _] & _)). exact H1. }
  exists t. split; [exact Hrun|]. rewrite Hinv.
  split; [apply (keys_NoDup T Hkd); assumption|]. split; [|exact Hoff].
  intros d ki. rewrite (in_keys T Hkd L d ki Hpos), Hin. unfold driven_by_any, driven_by.
  split.
  - intros [(p & Hp & Ha & Hle & Hl) Hc]. split; [eauto|auto].
  - intros [(p & Hp & Hl) (Ha & Hle & Hc)]. split; [exists p; auto|assumption].
Qed.

End DispatchedOnceTheorem.

(** ** The small instance meets what the phase driver relies on *)

Section ToyCoverage.
Import Worker Spec Coverage Notions.

Lemma is_prime_sound p : Toy.is_prime p = true -> Z.prime p.
Proof.
  unfold Toy.is_prime. intros H. apply andb_prop in H as [H2 Hall].
  apply Z.leb_le in H2. rewrite forallb_forall in Hall.
  split; [lia|]. intros n Hn Hdiv.
  specialize (Hall n). rewrite in_range in Hall by lia. specialize (Hall ltac:(lia)).
  apply Z.mod_divide in Hdiv; [|lia]. rewrite Hdiv in Hall. discriminate.
Qed.

Lemma not_prime_multiple a b : 1 < a -> 1 < b -> ~ Z.prime (a * b).
Proof.
  intros Ha Hb [_ Hp]. apply (Hp a); [nia|]. exists b. ring.
Qed.

Lemma good_prime_2 : good_prime 3 2.
Proof.
  split; [exact Z.prime_2|]. split.
  - intros Hdiv. apply Z.mod_divide in Hdiv; [discriminate|lia].
  - exists 1. split; [lia|reflexivity].
Qed.

Lemma good_prime_5 : good_prime 3 5.
Proof.
  split; [exact prime_5|]. split.
  - intros Hdiv. apply Z.mod_divide in Hdiv; [discriminate|lia].
  - exists 2. split; [lia|reflexivity].
Qed.

Lemma good_prime_cases q :
  good_prime 3 q -> q <= 10 -> q = 2 \/ q = 5.
Proof.
  intros (Hq & Hnd & (z & Hz & Hroot)) Hle. pose proof (Z.prime_ge_2 q Hq).
  assert (q = 2 \/ q = 3 \/ q = 2 * 2 \/ q = 5 \/ q = 2 * 3 \/ q = 7 \/ q = 2 * 4 \/
          q = 3 * 3 \/ q = 2 * 5) as Hcases by lia.
  destruct Hcases as [->|[->|[->|[->|[->|[->|[->|[->| ->]]]]]]]]; auto;
    try (exfalso; revert Hq; apply not_prime_multiple; lia).
  - exfalso. apply Hnd. apply Z.divide_refl.
  - exfalso.
    assert (z = 0 \/ z = 1 \/ z = 2 \/ z = 3 \/ z = 4 \/ z = 5 \/ z = 6) as Hc by lia.
    destruct Hc as [->|[->|[->|[->|[->|[->| ->]]]]]]; discriminate.
Qed.

Lemma loop_cached r q : cached (Toy.toy Toy.loop_bounds r) q <-> q = 2 \/ q = 5.
Proof.
  unfold cached. change (cpcnt (Toy.toy Toy.loop_bounds r)) with 2. split.
  - intros (i & Hi & <-). assert (i = 1 \/ i = 2) as [-> | ->] by lia; auto.
  - intros [-> | ->]; [exists 1|exists 2]; split; try lia; reflexivity.
Qed.

Lemma loop_primes_cover r : primes_cover (Toy.toy Toy.loop_bounds r).
Proof.
  constructor.
  - reflexivity.
  - reflexivity.
  - intros i Hi. change (cpcnt (Toy.toy Toy.loop_bounds r)) with 2 in Hi.
    change (K (Toy.toy Toy.loop_bounds r)) with 3.
    change (cpmax (Toy.toy Toy.loop_bounds r)) with 10.
    assert (i = 1 \/ i = 2) as [-> | ->] by lia.
    + rewrite loop_cptab_1. split; [exact good_prime_2|lia].
    + rewrite loop_cptab_2. split; [exact good_prime_5|lia].
  - intros q Hq Hle. apply loop_cached. now apply good_prime_cases.
  - split; [discriminate|]. discriminate.
  - intros p Hp. change (cpmax (Toy.toy Toy.loop_bounds r)) with 10 in Hp.
    change (above_sqrt_dmax (Toy.toy Toy.loop_bounds r) p) with (p * p >? 100).
    apply Z.gtb_lt. nia.
  - reflexivity.
  - intros i e Hi He Hle.
    change (cpcnt (Toy.toy Toy.loop_bounds r)) with 2 in Hi.
    change (dmax (Toy.toy Toy.loop_bounds r)) with 100 in Hle.
    change (K (Toy.toy Toy.loop_bounds r)) with 3.
    destruct (loop_cached_roots r i e) as [-> | ?]; [|lia].
    change (cuberoots_modq (Toy.toy Toy.loop_bounds r) 3
              (cptab (Toy.toy Toy.loop_bounds r) i) e)
      with (Toy.roots 3 (cptab (Toy.toy Toy.loop_bounds r) i ^ e)).
    assert (Toy.roots 3 (cptab (Toy.toy Toy.loop_bounds r) i ^ e) <> []); [|tauto].
    assert (i = 1 \/ i = 2) as [-> | ->] by lia.
    + rewrite loop_cptab_1 in *.
      assert (He' : e < 7) by (destruct (Z.lt_ge_cases e 7); [assumption|];
                                pose proof (pow_2_above e); lia).
      assert (e = 1 \/ e = 2 \/ e = 3 \/ e = 4 \/ e = 5 \/ e = 6)
        as [-> | [-> | [-> | [-> | [-> | ->]]]]] by lia; discriminate.
    + rewrite loop_cptab_2 in *.
      assert (He' : e < 3) by (destruct (Z.lt_ge_cases e 3); [assumption|];
                                pose proof (pow_5_above e); lia).
      assert (e = 1 \/ e = 2) as [-> | ->] by lia; discriminate.
  - intros p Hp Hc. change (cpmax (Toy.toy Toy.loop_bounds r)) with 10 in Hc.
    change (K (Toy.toy Toy.loop_bounds r)) with 3.
    change (cuberoots_modp (Toy.toy Toy.loop_bounds r) 3 p) with (Toy.roots 3 p).
    destruct (toy_roots_all 3 p) as [_ Hroots]. split.
    + intros Hne. split; [assumption|]. split.
      * intros Hdiv. apply Z.divide_pos_le in Hdiv; lia.
      * destruct (Toy.roots 3 p) as [|z l]; [congruence|].
        exists z. apply Hroots. now left.
    + intros (_ & _ & (z & Hz)) Hnil. apply Hroots in Hz. rewrite Hnil in Hz. destruct Hz.
Qed.

Lemma loop_divisors_ok r : divisors_ok (Toy.toy Toy.loop_bounds r).
Proof.
  constructor.
  - discriminate.
  - intros i Hi. change (kdcnt (Toy.toy Toy.loop_bounds r)) with 1 in Hi.
    assert (i = 1) as -> by lia. discriminate.
  - reflexivity.
  - intros i Hi. change (kdcnt (Toy.toy Toy.loop_bounds r)) with 1 in Hi.
    assert (i = 1) as -> by lia. reflexivity.
  - intros q (Hq & _). pose proof (Z.prime_ge_2 q Hq).
    change (pdmin (Toy.toy Toy.loop_bounds r)) with 51.
    change (dmax (Toy.toy Toy.loop_bounds r)) with 100. lia.
Qed.

Lemma loop_cofactors_cover r : cofactors_cover (Toy.toy Toy.loop_bounds r).
Proof.
  constructor.
  - split; reflexivity.
  - intros [|[|x]] y _ _ Hnz; exfalso; apply Hnz; reflexivity.
  - intros [|[|x]] Hnz; exfalso; apply Hnz; reflexivity.
  - intros p d x _ Hx. discriminate Hx.
  - intros p d c Hd Hmin Hc Hfit _.
    change (cdmin (Toy.toy Toy.loop_bounds r)) with 101 in Hmin.
    change (dmax (Toy.toy Toy.loop_bounds r)) with 100 in Hfit. nia.
  - intros d c Hmin Hc Hfit.
    change (sdmin (Toy.toy Toy.loop_bounds r)) with 101 in Hmin.
    change (dmax (Toy.toy Toy.loop_bounds r)) with 100 in Hfit. nia.
  - discriminate.
  - intros i j Hi Hij Hj. change (sdcnt (Toy.toy Toy.loop_bounds r)) with 0 in Hj. lia.
  - intros i Hi. change (sdcnt (Toy.toy Toy.loop_bounds r)) with 0 in Hi. lia.
  - intros c Hc Hfit.
    change (sdmin (Toy.toy Toy.loop_bounds r)) with 101 in Hfit.
    change (dmax (Toy.toy Toy.loop_bounds r)) with 100 in Hfit. lia.
Qed.

(** *** The instance with cached cofactors: cdtab = 2, 4, 5 and sdtab = 2 *)

Lemma small_cdentry r p d :
  1 <= d ->
  cdentry (Toy.toy Toy.small_bounds r) p d 100
  = if d * 5 <=? 100
    then (if 5 <=? p then Some 3%nat else if 2 <=? p then Some 2%nat else None)
    else if d * 4 <=? 100 then (if 2 <=? p then Some 2%nat else None)
    else if d * 2 <=? 100 then (if 2 <=? p then Some 1%nat else None)
    else None.
Proof.
  intros Hd.
  change (cdentry (Toy.toy Toy.small_bounds r) p d 100)
    with (match List.length (filter (fun c => d * c <=? 100) [2; 4; 5]) with
          | O => None
          | n =>
              match filter (fun i => Toy.largest_prime_factor (Toy.nthZ [2; 4; 5] (i - 1)) <=? p)
                           (rev (Toy.range 1 (Z.of_nat n))) with
              | i :: _ => Some (Z.to_nat i)
              | [] => None
              end
          end).
  cbn [filter].
  destruct (Z.leb_spec (d * 2) 100); destruct (Z.leb_spec (d * 4) 100);
    destruct (Z.leb_spec (d * 5) 100); try lia; cbn [List.length].
  - change (rev (Toy.range 1 (Z.of_nat 3))) with [3; 2; 1]. cbn [filter].
    change (Toy.largest_prime_factor (Toy.nthZ [2; 4; 5] (3 - 1))) with 5.
    change (Toy.largest_prime_factor (Toy.nthZ [2; 4; 5] (2 - 1))) with 2.
    change (Toy.largest_prime_factor (Toy.nthZ [2; 4; 5] (1 - 1))) with 2.
    destruct (Z.leb_spec 5 p); destruct (Z.leb_spec 2 p); try lia; reflexivity.
  - change (rev (Toy.range 1 (Z.of_nat 2))) with [2; 1]. cbn [filter].
    change (Toy.largest_prime_factor (Toy.nthZ [2; 4; 5] (2 - 1))) with 2.
    change (Toy.largest_prime_factor (Toy.nthZ [2; 4; 5] (1 - 1))) with 2.
    destruct (Z.leb_spec 2 p); reflexivity.
  - change (rev (Toy.range 1 (Z.of_nat 1))) with [1]. cbn [filter].
    change (Toy.largest_prime_factor (Toy.nthZ [2; 4; 5] (1 - 1))) with 2.
    destruct (Z.leb_spec 2 p); reflexivity.
  - reflexivity.
Qed.

Lemma small_cd_d r x :
  cd_d (cdtab (Toy.toy Toy.small_bounds r) x)
  = match x with 1%nat => 2 | 2%nat => 4 | 3%nat => 5 | _ => 0 end.
Proof. destruct x as [|[|[|[|[|x]]]]]; reflexivity. Qed.

Lemma small_cd_p r x :
  cd_p (cdtab (Toy.toy Toy.small_bounds r) x)
  = match x with 1%nat => 2 | 2%nat => 2 | 3%nat => 5 | _ => 0 end.
Proof. destruct x as [|[|[|[|[|x]]]]]; reflexivity. Qed.

Ltac small_entries x :=
  destruct x as [|[|[|[|x]]]]; rewrite ?small_cd_d, ?small_cd_p in *; cbv iota in *.

Ltac small_cdentry_cases p d :=
  rewrite small_cdentry by assumption;
  destruct (Z.leb_spec (d * 5) 100); destruct (Z.leb_spec (d * 4) 100);
  destruct (Z.leb_spec (d * 2) 100); destruct (Z.leb_spec 5 p);
  destruct (Z.leb_spec 2 p); try lia.

Lemma small_cptab_ok r : cptab_ok (Toy.toy Toy.small_bounds r).
Proof.
  pose proof (loop_cptab_ok r) as H. constructor.
  - exact (dmax_range _ H).
  - exact (cpcnt_range _ H).
  - exact (cptab_prime _ H).
  - exact (cptab_increasing _ H).
  - exact (pimaxp_range _ H).
  - exact (pimaxp_fits _ H).
  - exact (pimaxp_largest _ H).
Qed.

Lemma small_primes_cover r : primes_cover (Toy.toy Toy.small_bounds r).
Proof.
  pose proof (loop_primes_cover r) as H. constructor.
  - exact (cptab_zero _ H).
  - exact (cpcnt_room _ H).
  - exact (cptab_good _ H).
  - exact (cptab_complete _ H).
  - exact (cpmax_sqrt _ H).
  - exact (above_sqrt _ H).
  - exact (K_cached _ H).
  - exact (roots_cached _ H).
  - exact (roots_modp _ H).
Qed.

Lemma small_divisors_ok r : divisors_ok (Toy.toy Toy.small_bounds r).
Proof.
  pose proof (loop_divisors_ok r) as H. constructor.
  - exact (kdcnt_nonneg _ H).
  - exact (kdmax_decreasing _ H).
  - exact (kdmax_end _ H).
  - exact (kdmax_pdmin _ H).
  - exact (pdmin_alone _ H).
Qed.

Lemma small_cdtab_fits r : cdtab_fits (Toy.toy Toy.small_bounds r).
Proof.
  constructor.
  - intros p d x Hd Hx x' Hle Hnz.
    change (dmax (Toy.toy Toy.small_bounds r)) with 100 in *.
    revert Hx. small_cdentry_cases p d; intros Hx; inversion Hx; subst x;
      small_entries x'; lia.
  - intros x Hnz Hs. change (sdmax (Toy.toy Toy.small_bounds r)) with 2 in Hs.
    small_entries x; try lia. reflexivity.
Qed.

Lemma largest_prime_factor_power q e :
  Z.prime q -> 1 <= e -> largest_prime_factor (q ^ e) q.
Proof.
  intros Hq He. split; [assumption|]. split.
  - apply Z.divide_pow_same_r; lia.
  - intros r Hr Hdiv. rewrite (Z.divide_prime_pp r q e Hr Hq ltac:(lia) Hdiv). lia.
Qed.

Lemma small_cofactors_cover r : cofactors_cover (Toy.toy Toy.small_bounds r).
Proof.
  assert (Hc : forall q, cached (Toy.toy Toy.small_bounds r) q <-> q = 2 \/ q = 5)
    by exact (loop_cached r).
  assert (H2 : forall q, Z.prime q -> (q | 2) -> q = 2).
  { intros q Hq Hdiv. exact (Z.divide_prime_prime q 2 Hq Z.prime_2 Hdiv). }
  assert (H4 : forall q, Z.prime q -> (q | 4) -> q = 2).
  { intros q Hq Hdiv. exact (Z.divide_prime_pp q 2 2 Hq Z.prime_2 ltac:(lia) Hdiv). }
  assert (H5 : forall q, Z.prime q -> (q | 5) -> q = 5).
  { intros q Hq Hdiv. exact (Z.divide_prime_prime q 5 Hq prime_5 Hdiv). }
  constructor.
  - split; reflexivity.
  - intros x y Hy Hlt Hnz. small_entries x; small_entries y; lia.
  - intros x Hnz. small_entries x; try lia.
    + split; [lia|]. split; [exact (largest_prime_factor_power 2 1 Z.prime_2 ltac:(lia))|].
      intros q Hq Hdiv. apply Hc. left. now apply H2.
    + split; [lia|]. split; [exact (largest_prime_factor_power 2 2 Z.prime_2 ltac:(lia))|].
      intros q Hq Hdiv. apply Hc. left. now apply H4.
    + split; [lia|]. split; [exact (largest_prime_factor_power 5 1 prime_5 ltac:(lia))|].
      intros q Hq Hdiv. apply Hc. right. now apply H5.
  - intros p d x Hd Hx. change (dmax (Toy.toy Toy.small_bounds r)) with 100 in *.
    revert Hx. small_cdentry_cases p d; intros Hx; inversion Hx; subst x;
      rewrite small_cd_d, small_cd_p; cbv iota; lia.
  - intros p d c Hd Hmin Hc2 Hfit Hs.
    change (cdmin (Toy.toy Toy.small_bounds r)) with 20 in Hmin.
    change (dmax (Toy.toy Toy.small_bounds r)) with 100 in *.
    assert (c = 2 \/ c = 3 \/ c = 4 \/ c = 5) as Hcases by nia.
    assert (H3 : Z.prime 3) by (apply is_prime_sound; reflexivity).
    destruct Hcases as [->|[->|[->| ->]]].
    + destruct (Hs 2 Z.prime_2 (Z.divide_refl 2)) as [Hp _].
      small_cdentry_cases p d;
        (eexists; exists 1%nat; split; [reflexivity|split; [lia|reflexivity]]).
    + destruct (Hs 3 H3 (Z.divide_refl 3)) as [_ Hc3]. apply Hc in Hc3. lia.
    + destruct (Hs 2 Z.prime_2 ltac:(exists 2; reflexivity)) as [Hp _].
      small_cdentry_cases p d;
        (eexists; exists 2%nat; split; [reflexivity|split; [lia|reflexivity]]).
    + destruct (Hs 5 prime_5 (Z.divide_refl 5)) as [Hp _].
      small_cdentry_cases p d;
        (eexists; exists 3%nat; split; [reflexivity|split; [lia|reflexivity]]).
  - intros d c Hmin Hc1 Hfit.
    change (sdmin (Toy.toy Toy.small_bounds r)) with 34 in Hmin.
    change (dmax (Toy.toy Toy.small_bounds r)) with 100 in Hfit.
    change (sdmax (Toy.toy Toy.small_bounds r)) with 2. nia.
  - discriminate.
  - intros i j Hi Hij Hj. change (sdcnt (Toy.toy Toy.small_bounds r)) with 1 in Hj. lia.
  - intros i Hi. change (sdcnt (Toy.toy Toy.small_bounds r)) with 1 in Hi.
    assert (i = 1) as -> by lia.
    change (sd_d (sdtab (Toy.toy Toy.small_bounds r) 1)) with 2.
    split; [lia|]. intros q Hq Hdiv. apply Hc. left. now apply H2.
  - intros c Hc2 Hfit _.
    change (sdmin (Toy.toy Toy.small_bounds r)) with 34 in Hfit.
    change (dmax (Toy.toy Toy.small_bounds r)) with 100 in Hfit.
    exists 1. change (sdcnt (Toy.toy Toy.small_bounds r)) with 1.
    split; [lia|]. change (sd_d (sdtab (Toy.toy Toy.small_bounds r) 1)) with 2. lia.
Qed.

Lemma accept_all_accepts : accepts (Toy.toy Toy.small_bounds Toy.accept_all).
Proof. intros h c _. reflexivity. Qed.

Lemma primes_to_100_ok : pipe_ok (Toy.toy Toy.small_bounds Toy.accept_all) Toy.primes_to_100.
Proof.
  constructor.
  - repeat constructor.
  - repeat constructor; apply is_prime_sound; reflexivity.
  - repeat constructor; discriminate.
  - discriminate.
  - reflexivity.
Qed.

Lemma process_primes_dispatches_once_witness :
  exists t,
    process_primes (Toy.toy Toy.small_bounds Toy.accept_all) Toy.primes_to_100 []
    = (Ok tt, rev t ++ []) /\
    NoDup (invocations t) /\
    (forall d ki,
       In (d, ki) (invocations t) <->
       (exists p, In p (pipe_primes Toy.primes_to_100) /\ largest_prime_factor d p) /\
       admissible 3 d /\ d <= 100 /\
       class_of (Toy.toy Toy.small_bounds Toy.accept_all) d ki) /\
    NoDup (offers t).
Proof.
  exact (process_primes_dispatches_once (Toy.toy Toy.small_bounds Toy.accept_all)
           (small_cptab_ok _) (small_cdtab_fits _) (small_primes_cover _)
           (small_divisors_ok _) (small_cofactors_cover _) accept_all_accepts
           Toy.primes_to_100 [] primes_to_100_ok).
Defined.

(** The claim as the spec states it: a reporter that refuses the prime 11
    makes the worker skip it, and the admissible modulus 11, whose largest
    prime factor 11 lies in [pmin,pmax] = [11,11], is never dispatched. *)
Lemma process_primes_skips_refused_prime :
  let T := Toy.toy Toy.loop_bounds Toy.refuse_primes in
  let t := Toy.trace (process_primes T Toy.only_11) in
  admissible (K T) 11 /\ 11 <= dmax T /\ largest_prime_factor 11 11 /\
  pipe_start Toy.only_11 <= 11 <= pipe_end Toy.only_11 /\
  In 11 (pipe_primes Toy.only_11) /\
  fst (process_primes T Toy.only_11 []) = Ok tt /\
  invocations t = [].
Proof.
  cbv zeta. change (K (Toy.toy Toy.loop_bounds Toy.refuse_primes)) with 3.
  assert (H11 : forall q, Z.prime q -> (q | 11) -> q = 11).
  { intros q Hq Hdiv. exact (Z.divide_prime_prime q 11 Hq prime_11 Hdiv). }
  split; [split; [lia|]|].
  - intros q Hq Hdiv. rewrite (H11 q Hq Hdiv). split; [exact prime_11|]. split.
    + intros Hd. apply Z.mod_divide in Hd; [discriminate|lia].
    + exists 9. split; [lia|reflexivity].
  - split; [discriminate|]. split.
    + split; [exact prime_11|]. split; [apply Z.divide_refl|].
      intros q Hq Hdiv. rewrite (H11 q Hq Hdiv). lia.
    + split; [split; discriminate|]. split; [now left|]. split; reflexivity.
Qed.

End ToyCoverage.

(** ** The enumerator: every triple it offers, in a run that returns *)

Section OfferedRootsInRun.
Import Worker Spec Coverage Notions.
Variable T : tables.
Hypothesis Hcp : cptab_ok T.
Hypothesis Hcd : cdtab_fits T.
Hypothesis Hlift : lifting_ok T.
Hypothesis Hkd : divisors_ok T.
Hypothesis Hcc : cofactors_cover T.

Lemma rev_app_same {A} (t t' : list A) h : rev t ++ h = rev t' ++ h -> t = t'.
Proof.
  intros Heq. apply app_inv_tail in Heq.
  rewrite <- (rev_involutive t), <- (rev_involutive t'). now f_equal.
Qed.

(** C3: the triples (d, zd, n) that [enumd] and, through it, [enumcd] offer
    to the dispatcher, starting from a modulus d with its n cube roots zd and
    smallest prime factor p: the run returns, and in every triple offered zd
    lists each cube root of K modulo d, reduced, exactly once, n is their
    number, and n <= 3^omega(d).  The tables meet their contracts; among
    them, a modulus d >= sdmin has only cofactors up to sdmax
    ([sdmax_covers]), so that no cofactor is lifted with the Montgomery data
    that line 206 leaves at zero. *)
Theorem enumerator_offers_all_cube_roots depth d p zd h :
  2 <= p <= d -> d <= dmax T -> rough d p -> triple_ok (K T) d zd (count zd) ->
  63 - Z.log2 d < Z.of_nat depth ->
  exists t, enumd T depth d p zd h = (Ok tt, rev t ++ h) /\
    forall d' zd' n', In (enter_prockd d' zd' n') t ->
      n' = count zd' /\
      (forall z, In z zd' -> 0 <= z < d' /\ (z * z * z) mod d' = K T mod d') /\
      (forall z, 0 <= z < d' -> (z * z * z) mod d' = K T mod d' -> In z zd') /\
      NoDup zd' /\
      exists w, omega d' w /\ n' <= 3 ^ Z.of_nat w.
Proof.
  intros Hp Hd Hrough Htr Hdepth.
  destruct (covers_enumd T Hcp Hcd Hkd Hcc depth d p zd ltac:(lia) Hp Hdepth h)
    as (t & L & Hrun & _).
  destruct (emits_run _ _ h (quiet_enumd_roots T Hcp Hcd Hlift depth d p zd Hp Hd Hrough Htr))
    as (t' & Ht' & Hall).
  rewrite Hrun in Ht'. cbn [snd] in Ht'. apply rev_app_same in Ht'. subst t'.
  exists t. split; [exact Hrun|]. intros d' zd' n' Hin.
  rewrite Forall_forall in Hall. specialize (Hall _ Hin).
  destruct Hall as (Hn & [Hnd Hroots] & Hw).
  split; [exact Hn|]. split; [intros x Hx; exact (proj1 (Hroots x) Hx)|].
  split; [|split; [exact Hnd|exact Hw]].
  intros x Hx Hc. apply Hroots. split; assumption.
Qed.

End OfferedRootsInRun.

Section ToyOfferedRoots.
Import Worker Spec Coverage Notions.

Lemma prime_23 : Z.prime 23.
Proof.
  split; [lia|]. intros n Hn Hdiv. apply Z.mod_divide in Hdiv; [|lia].
  assert (Hc : n = 2 \/ n = 3 \/ n = 4 \/ n = 5 \/ n = 6 \/ n = 7 \/ n = 8 \/ n = 9 \/
               n = 10 \/ n = 11 \/ n = 12 \/ n = 13 \/ n = 14 \/ n = 15 \/ n = 16 \/
               n = 17 \/ n = 18 \/ n = 19 \/ n = 20 \/ n = 21 \/ n = 22) by lia.
  repeat (destruct Hc as [->|Hc]; [discriminate|]). subst n. discriminate.
Qed.

(** The lifting by a cofactor with cached inverses, for the cofactor 2:
    z + d * ((zs - z) mod 2) is z modulo d and zs modulo 2 when d is odd. *)
Lemma toy_b32_crt64_2 d z zs :
  2 <= d -> Z.coprime d 2 -> 0 <= z < d -> 0 <= zs < 2 ->
  let r := z + d * (((zs - z) * Toy.inverse (d mod 2) 2) mod 2) in
  0 <= r < d * 2 /\ r mod d = z /\ r mod 2 = zs.
Proof.
  intros Hd Hco Hz Hzs.
  assert (Hodd : d mod 2 = 1).
  { pose proof (Z.mod_pos_bound d 2 ltac:(lia)) as Hb.
    destruct (Z.eq_dec (d mod 2) 1) as [|Hne]; [assumption|exfalso].
    assert (H0 : d mod 2 = 0) by lia. apply Z.mod_divide in H0; [|lia].
    apply Z.divide_gcd_iff in H0; [|lia]. unfold Z.coprime in Hco.
    rewrite Z.gcd_comm in Hco. lia. }
  rewrite Hodd. change (Toy.inverse 1 2) with 1. rewrite Z.mul_1_r. cbv zeta.
  pose proof (Z.mod_pos_bound (zs - z) 2 ltac:(lia)) as Ht.
  set (t := (zs - z) mod 2) in *.
  split; [nia|]. split.
  - replace (z + d * t) with (z + t * d) by ring.
    rewrite Z.mod_add by lia. apply Z.mod_small. lia.
  - pose proof (Z.div_mod d 2 ltac:(lia)) as Hd2. rewrite Hodd in Hd2.
    pose proof (Z.div_mod (zs - z) 2 ltac:(lia)) as Ht2. fold t in Ht2.
    replace (z + d * t) with (zs + (d / 2 * t - (zs - z) / 2) * 2) by nia.
    rewrite Z.mod_add by lia. apply Z.mod_small. lia.
Qed.

Lemma small_lifting_ok r : lifting_ok (Toy.toy Toy.small_bounds r).
Proof.
  pose proof (loop_lifting_ok r) as Hloop. pose proof (small_cofactors_cover r) as Hcc.
  constructor.
  - intros a d _ Hd Hco. exact (toy_inverse_ok a d Hd Hco).
  - intros a d ainv za z. exact (toy_fcrt64_ok a d ainv za z).
  - exact (cached_roots_ok _ Hloop).
  - intros x Hnz.
    destruct (cdtab_entry _ Hcc x Hnz) as [_ [[_ [_ Hmax]] _]].
    assert (Hx : x = 1%nat \/ x = 2%nat \/ x = 3%nat).
    { rewrite small_cd_d in Hnz. destruct x as [|[|[|[|x]]]]; auto; contradiction. }
    split; [|split; [|split; [|exact Hmax]]].
    + destruct Hx as [-> | [-> | ->]]; vm_compute; congruence.
    + destruct Hx as [-> | [-> | ->]].
      * exact (toy_roots_all 3 2).
      * exact (toy_roots_all 3 4).
      * exact (toy_roots_all 3 5).
    + exists 1%nat. destruct Hx as [-> | [-> | ->]]; (split; [|vm_compute; congruence]).
      * exact (omega_prime_power 2 1 Z.prime_2 ltac:(lia)).
      * exact (omega_prime_power 2 2 Z.prime_2 ltac:(lia)).
      * exact (omega_prime_power 5 1 prime_5 ltac:(lia)).
  - intros p d x Hd Hx. exact (proj2 (cdentry_top _ Hcc p d x Hd Hx)).
  - intros x j Hnz Hle Hj.
    assert (x = 1%nat).
    { rewrite small_cd_d in Hnz, Hle. change (sdmax (Toy.toy Toy.small_bounds r)) with 2 in Hle.
      destruct x as [|[|[|[|x]]]]; try reflexivity; try contradiction; lia. }
    subst x. change (cd_n (cdtab (Toy.toy Toy.small_bounds r) 1)) with 1 in Hj.
    assert (j = 0) by lia. subst j. reflexivity.
  - intros x d z zs Hnz Hle Hd Hco Hz Hzs.
    assert (x = 1%nat).
    { rewrite small_cd_d in Hnz, Hle. change (sdmax (Toy.toy Toy.small_bounds r)) with 2 in Hle.
      destruct x as [|[|[|[|x]]]]; try reflexivity; try contradiction; lia. }
    subst x. change (cd_d (cdtab (Toy.toy Toy.small_bounds r) 1)) with 2 in *.
    cbv zeta.
    match goal with |- context [b32_crt64 ?T z d zs ?m ?i ?v] =>
      change (b32_crt64 T z d zs m i v)
        with (z + d * (((zs - z) *
                Toy.inverse ((2 * 2 ^ 32 + d mod 2) mod 2 ^ 32)
                            ((2 * 2 ^ 32 + d mod 2) / 2 ^ 32)) mod 2))
    end.
    pose proof (Z.mod_pos_bound d 2 ltac:(lia)) as Hb.
    assert (H32 : 2 < 2 ^ 32) by reflexivity.
    replace ((2 * 2 ^ 32 + d mod 2) mod 2 ^ 32) with (d mod 2).
    2:{ rewrite Z.add_comm, Z.mod_add by lia. symmetry. apply Z.mod_small. lia. }
    replace ((2 * 2 ^ 32 + d mod 2) / 2 ^ 32) with 2.
    2:{ rewrite Z.add_comm, Z.div_add by lia. rewrite Z.div_small by lia. reflexivity. }
    exact (toy_b32_crt64_2 d z zs Hd Hco Hz Hzs).
Qed.

(** The run of the toy enumerator from 23 goes through [enumcd]: the cofactor
    2 is lifted with the cached inverses (lines 224-230), the cofactor 4 in a
    batch (lines 208-218). *)
Lemma toy_enumd_23_run :
  fst (enumd (Toy.toy Toy.small_bounds Toy.accept_all) enumd_depth 23 23 [12] []) = Ok tt /\
  Toy.offered (Toy.trace (enumd (Toy.toy Toy.small_bounds Toy.accept_all)
                                enumd_depth 23 23 [12]))
  = [(46, [35]); (92, [35])].
Proof. vm_compute. split; reflexivity. Qed.

Lemma enumerator_offers_all_cube_roots_witness :
  exists t,
    enumd (Toy.toy Toy.small_bounds Toy.accept_all) enumd_depth 23 23 [12] []
    = (Ok tt, rev t ++ []) /\
    forall d' zd' n', In (enter_prockd d' zd' n') t ->
      n' = count zd' /\
      (forall z, In z zd' -> 0 <= z < d' /\ (z * z * z) mod d' = 3 mod d') /\
      (forall z, 0 <= z < d' -> (z * z * z) mod d' = 3 mod d' -> In z zd') /\
      NoDup zd' /\
      exists w, omega d' w /\ n' <= 3 ^ Z.of_nat w.
Proof.
  apply (enumerator_offers_all_cube_roots (Toy.toy Toy.small_bounds Toy.accept_all)
           (small_cptab_ok _) (small_cdtab_fits _) (small_lifting_ok _)
           (small_divisors_ok _) (small_cofactors_cover _)
           enumd_depth 23 23 [12] []).
  - lia.
  - vm_compute. congruence.
  - exact (rough_prime 23 prime_23).
  - split; [reflexivity|]. split.
    + exact (toy_roots_all 3 23).
    + exists 1%nat. split; [|vm_compute; congruence].
      exact (omega_prime_power 23 1 prime_23 ltac:(lia)).
  - vm_compute. reflexivity.
Defined.

End ToyOfferedRoots.

(** ** The supervisor's children *)

Section SupervisionFacts.
Import Supervisor SupervisorNotions Supervision.

Lemma forked_snoc O lo n : forked O lo (S n) = forked O lo n ++ [fork O (lo + Z.of_nat n)].
Proof. unfold forked. rewrite seq_S, map_app. reflexivity. Qed.

Lemma forked_shift O lo n : forked O lo (S n) = fork O lo :: forked O (lo + 1) n.
Proof.
  unfold forked. cbn [seq map]. rewrite Z.add_0_r. f_equal.
  rewrite <- seq_shift, map_map. apply map_ext. intros j. f_equal. lia.
Qed.

(** The loop forks while [fork] succeeds. *)
Lemma fork_workers_succeed O n : forall i pids,
  (forall j, i <= j < i + Z.of_nat n -> 0 < fork O j) ->
  fork_workers O n i pids = ([], inr (pids ++ forked O i n)).
Proof.
  induction n as [|n IH]; intros i pids Hok.
  - cbn. now rewrite app_nil_r.
  - cbn [fork_workers]. pose proof (Hok i ltac:(lia)) as Hi.
    destruct (Z.eqb_spec (fork O i) 0); [lia|].
    destruct (Z.ltb_spec (fork O i) 0); [lia|].
    rewrite IH by (intros j Hj; apply Hok; lia).
    rewrite forked_shift, <- app_assoc. reflexivity.
Qed.

(** The loop stops at the first [fork] that fails. *)
Lemma fork_workers_fail O n : forall i pids k,
  (k < n)%nat -> (forall j, i <= j < i + Z.of_nat k -> 0 < fork O j) ->
  fork O (i + Z.of_nat k) < 0 ->
  fork_workers O n i pids = (map kill_SIGTERM (pids ++ forked O i k), inl (exit (-1))).
Proof.
  induction n as [|n IH]; intros i pids k Hk Hok Hfail; [lia|].
  cbn [fork_workers]. destruct k as [|k].
  - rewrite Z.add_0_r in Hfail.
    destruct (Z.eqb_spec (fork O i) 0); [lia|].
    destruct (Z.ltb_spec (fork O i) 0); [|lia].
    cbn. now rewrite app_nil_r.
  - pose proof (Hok i ltac:(lia)) as Hi.
    destruct (Z.eqb_spec (fork O i) 0); [lia|].
    destruct (Z.ltb_spec (fork O i) 0); [lia|].
    rewrite (IH (i + 1) (pids ++ [fork O i]) k).
    + rewrite forked_shift, <- app_assoc. reflexivity.
    + lia.
    + intros j Hj. apply Hok. lia.
    + replace (i + 1 + Z.of_nat k) with (i + Z.of_nat (S k)) by lia. assumption.
Qed.

(** When the fork of worker i fails, the parent sends SIGTERM to the
    workers 0..i-1 it has forked, in that order, and exits with -1: no
    further worker and no feeder is forked, nothing is waited for, and
    neither [report_end] nor [output_end] is called. *)
Theorem supervise_fork_failure O E argv cores i :
  0 <= i < cores -> (forall j, 0 <= j < i -> 0 < fork O j) -> fork O i < 0 ->
  supervise O E argv cores = (map kill_SIGTERM (forked O 0 (Z.to_nat i)), exit (-1)).
Proof.
  intros Hi Hok Hfail. unfold supervise.
  rewrite (fork_workers_fail O (Z.to_nat cores) 0 [] (Z.to_nat i)).
  - reflexivity.
  - lia.
  - intros j Hj. apply Hok. lia.
  - rewrite Z2Nat.id by lia. assumption.
Qed.

Lemma supervise_fork_failure_witness :
  supervise failing_os (test_env 4) argv_pinned 2 = ([kill_SIGTERM 101], exit (-1)).
Proof.
  apply (supervise_fork_failure failing_os (test_env 4) argv_pinned 2 1).
  - lia.
  - intros j Hj. assert (j = 0) as -> by lia. reflexivity.
  - reflexivity.
Defined.

Lemma wait_children_spec statuses :
  wait_children statuses = true <-> Exists (fun s => s <> Exited 0) statuses.
Proof.
  induction statuses as [|s rest IH]; cbn [wait_children].
  - split; [discriminate|]. intros H. inversion H.
  - destruct s as [code|]; cbn [abnormal].
    + destruct (Z.eqb_spec code 0) as [->|Hne]; cbn [negb].
      * rewrite IH. split; [now constructor 2|].
        intros H. inversion H; subst; [congruence|assumption].
      * split; [|reflexivity]. intros _. constructor 1. congruence.
    + split; [|reflexivity]. intros _. constructor 1. discriminate.
Qed.

(** With every fork successful, the parent waits for its children.  If
    each of them exits with status 0, it calls [report_end], compares the
    predictions when reporting is on and there are arguments after the
    sixth, calls [output_end] with flag 0 and exits with 0, sending no
    signal.  If one of them ends by a signal or with another status, it
    sends SIGTERM to all cores+1 children, workers first and feeder last,
    calls [output_end] with flag 1 and exits with -1, and [report_end] and
    [report_comparisons] are not called. *)
Theorem supervise_after_children O E argv cores :
  0 <= cores -> forks_succeed O cores ->
  (Forall (fun s => s = Exited 0) (reaped O) ->
     supervise O E argv cores = (finish E argv, exit 0)) /\
  (Exists (fun s => s <> Exited 0) (reaped O) ->
     supervise O E argv cores
     = (map kill_SIGTERM (forked O 0 (S (Z.to_nat cores))) ++ [output_end 1], exit (-1))).
Proof.
  intros Hc Hok. unfold supervise.
  rewrite (fork_workers_succeed O (Z.to_nat cores) 0 []) by (intros j Hj; apply Hok; lia).
  pose proof (Hok cores ltac:(lia)) as Hfeed.
  destruct (Z.eqb_spec (fork O cores) 0); [lia|].
  cbn [app]. split.
  - intros Hall. destruct (wait_children (reaped O)) eqn:Hw; [|reflexivity].
    apply wait_children_spec in Hw. apply Exists_exists in Hw as (s & Hin & Hs).
    rewrite Forall_forall in Hall. specialize (Hall s Hin). contradiction.
  - intros Hex. apply wait_children_spec in Hex. rewrite Hex.
    rewrite forked_snoc, Z.add_0_l, Z2Nat.id by lia. reflexivity.
Qed.

Lemma supervise_after_children_witness :
  supervise (test_os [Exited 0; Exited 0; Exited 0]) (test_env 4) argv_pinned 2
  = ([report_end; output_end 0], exit 0) /\
  supervise (test_os [Exited 0; Signalled]) (test_env 4) argv_pinned 2
  = ([kill_SIGTERM 101; kill_SIGTERM 102; kill_SIGTERM 103; output_end 1], exit (-1)).
Proof.
  split.
  - refine (proj1 (supervise_after_children (test_os [Exited 0; Exited 0; Exited 0])
                     (test_env 4) argv_pinned 2 _ _) _).
    + lia.
    + intros i Hi. change (0 < 101 + i). lia.
    + repeat constructor.
  - refine (proj2 (supervise_after_children (test_os [Exited 0; Signalled])
                     (test_env 4) argv_pinned 2 _ _) _).
    + lia.
    + intros i Hi. change (0 < 101 + i). lia.
    + constructor 2. constructor 1. discriminate.
Defined.

End SupervisionFacts.

(** ** The predictions of the command line *)

Section Predictions.
Import Supervisor SupervisorNotions Supervision.

Lemma read_prediction_other E c st a :
  names a c = false -> value_of c (read_prediction E st a) = value_of c st.
Proof.
  destruct st as [[[pcnt ccnt] dcnt] rcnt]. unfold names, read_prediction.
  intros Hn. apply negb_false_iff in Hn.
  destruct c; cbn [prefix_of] in Hn; cbn [value_of]; now rewrite Hn.
Qed.

Lemma read_prediction_named E c st a :
  names a c = true -> value_of c (read_prediction E st a) = strto64 E (from_offset 5 a).
Proof.
  destruct st as [[[pcnt ccnt] dcnt] rcnt]. unfold names, read_prediction.
  intros Hn. apply negb_true_iff in Hn.
  destruct c; cbn [prefix_of] in Hn; cbn [value_of]; now rewrite Hn.
Qed.

Lemma fold_predictions_other E c args : forall st,
  Forall (fun b => names b c = false) args ->
  value_of c (fold_left (read_prediction E) args st) = value_of c st.
Proof.
  induction args as [|a args IH]; intros st Hall; [reflexivity|].
  inversion Hall; subst. cbn [fold_left]. rewrite IH by assumption.
  now apply read_prediction_other.
Qed.

(** Each of the four values passed to [report_comparisons] is the number
    after the five naming bytes of the last argument from [argv[7]] on that
    starts with them, and 0 when no argument does. *)
Theorem predictions_take_last_value E argv c :
  (forall before a after,
     skipn 7 argv = before ++ a :: after -> names a c = true ->
     Forall (fun b => names b c = false) after ->
     value_of c (predictions E argv) = strto64 E (from_offset 5 a)) /\
  (Forall (fun b => names b c = false) (skipn 7 argv) ->
     value_of c (predictions E argv) = 0).
Proof.
  unfold predictions. split.
  - intros before a after -> Ha Hafter.
    rewrite fold_left_app. cbn [fold_left].
    rewrite fold_predictions_other by assumption.
    now apply read_prediction_named.
  - intros Hall. rewrite fold_predictions_other by assumption. now destruct c.
Qed.

End Predictions.

(** ** What the validation of [main] establishes *)

Section ValidatedBounds.
Import Supervisor SupervisorNotions Supervision.

Ltac split_if :=
  match goal with
  | H : context [if ?c then _ else _] |- _ => destruct c eqn:?
  end.

Lemma check_bounds_fork E argv argc cores k dmax b m c path pmin pmax :
  check_bounds E argv argc cores k dmax b = (m, Fork c path pmin pmax) ->
  let zmax := strto128 E (arg argv 6) in
  c = cores /\ path = (if b_p0 b >? 1 then Subprimes (b_p0 b) else Primes) /\
  pmin = (if b_pmin b <? 2 then 2 else b_pmin b) /\ pmax = b_pmax b /\
  (1 < b_p0 b -> k mod b_p0 b <> 0) /\ pmin <= pmax /\
  ui128_len E zmax <= ZMAXBITS E /\ zmax < ZMAX E /\
  le_sqrt E (b_p0 b) dmax = true /\ u64 (b_p0 b * pmax) <= dmax /\ dmax <= zmax /\
  profiling E = false /\ report_phase_precompute E = true /\
  Forall (fun e => is_error e = false) m.
Proof.
  intros H zmax. unfold check_bounds in H.
  set (w1 := if (b_p0 b >? 1) && negb (primes_next_prime E (b_p0 b - 1) =? b_p0 b)
             then [WarnP0NotPrime] else []) in H.
  set (w2 := if (b_p0 b >? 1) && (mod3 E (b_p0 b) =? 1) &&
                negb (has_cuberoots_modp E k (b_p0 b))
             then [WarnNoCuberoots] else []) in H.
  set (w3 := if negb (reporting E) && (argc >? 7) then [WarnIgnoringOption] else []) in H.
  set (w4 := if zmin_above_zmax E dmax (strto128 E (arg argv 6))
             then [WarnZminAboveZmax] else []) in H.
  assert (Hw : Forall (fun e => is_error e = false) (w1 ++ w2 ++ w3 ++ w4)).
  { apply Forall_app; split; [|apply Forall_app; split; [|apply Forall_app; split]];
      [unfold w1|unfold w2|unfold w3|unfold w4];
      match goal with |- Forall _ (if ?c then _ else _) => destruct c end;
      repeat constructor. }
  destruct ((b_p0 b >? 1) && (k mod b_p0 b =? 0)) eqn:Hdiv; [inversion H|].
  destruct (b_pmax b <? (if b_pmin b <? 2 then 2 else b_pmin b)) eqn:Hpm; [inversion H|].
  destruct (ui128_len E (strto128 E (arg argv 6)) >? ZMAXBITS E) eqn:Hbits; [inversion H|].
  destruct (strto128 E (arg argv 6) <? ZMAX E) eqn:Hz; cbn [negb] in H; [|inversion H].
  destruct (zmaxld_above E (strto128 E (arg argv 6))) eqn:Hld; cbn [negb] in H; [|inversion H].
  destruct (le_sqrt E (b_p0 b) dmax) eqn:Hsq; cbn [negb] in H; [|inversion H].
  cbn [orb] in H.
  destruct (dmax <? u64 (b_p0 b * b_pmax b)) eqn:Hprod; cbn [orb] in H; [inversion H|].
  destruct (strto128 E (arg argv 6) <? dmax) eqn:Hdz; [inversion H|].
  destruct (zmin_above_zmax E dmax (strto128 E (arg argv 6)) &&
            (_ =? 0)) eqn:Hzm; [inversion H|].
  destruct (report_phase_precompute E) eqn:Hrep; cbn [negb] in H; [|inversion H].
  destruct (profiling E) eqn:Hprof; [inversion H|].
  injection H as <- <- <- <- <-.
  apply Z.ltb_ge in Hpm, Hprod, Hdz. apply Z.ltb_lt in Hz.
  assert (Hb : ui128_len E (strto128 E (arg argv 6)) <= ZMAXBITS E).
  { destruct (Z.gtb_spec (ui128_len E (strto128 E (arg argv 6))) (ZMAXBITS E));
      [discriminate|lia]. }
  split; [reflexivity|]. split; [reflexivity|]. split; [reflexivity|].
  split; [reflexivity|]. split.
  { intros Hp0. destruct (Z.gtb_spec (b_p0 b) 1); [|lia]. cbn [andb] in Hdiv.
    destruct (Z.eqb_spec (k mod b_p0 b) 0); [discriminate|assumption]. }
  split; [exact Hpm|]. split; [exact Hb|]. split; [exact Hz|]. split; [reflexivity|].
  split; [exact Hprod|]. split; [exact Hdz|]. split; [reflexivity|]. split; [reflexivity|].
  exact Hw.
Qed.

Lemma parse_bounds_facts E argv argc cores m b :
  (forall s, 0 <= strto64 E s < 2 ^ 64) ->
  parse_bounds E argv argc cores = (m, inl b) ->
  m = [] /\ 0 <= b_p0 b < 2 ^ 32 /\ 0 <= b_pmax b < 2 ^ 64 /\
  (b_pmax b <= b_p0 b \/ b_p0 b = 1 \/
   (2 ^ 32 <= b_pmax b /\ le_sqrt E (b_pmax b) (strto64 E (arg argv 5)) = true)).
Proof.
  intros Hr. unfold parse_bounds.
  destruct (strchr_x (arg argv 3)) as [s|].
  - destruct (memcmp_differs _ _ _); [discriminate|].
    destruct (Z.ltb_spec (u32 (atoi E (substring 0 s (arg argv 3)))) 2); [discriminate|].
    destruct (Z.gtb_spec (u64 (atoi E (from_offset (S s) (arg argv 4))))
                (u32 (atoi E (substring 0 s (arg argv 3))))); [discriminate|].
    destruct (_ || _); [discriminate|].
    intros H'. injection H' as <- <-. cbn [b_p0 b_pmin b_pmax].
    split; [reflexivity|]. split; [apply u32_range|]. split; [apply u64_range|].
    left. assumption.
  - cbv zeta.
    destruct ((cores >? 1) && (strto64 E (arg argv 3) =? strto64 E (arg argv 4)) &&
              le_sqrt E (strto64 E (arg argv 4)) (strto64 E (arg argv 5))) eqn:Hpin;
      intros H'; injection H' as <- <-; cbn [b_p0 b_pmin b_pmax].
    + apply andb_prop in Hpin as [Hpin Hle]. apply andb_prop in Hpin as [_ Heq].
      apply Z.eqb_eq in Heq. rewrite Heq.
      split; [reflexivity|]. split; [apply u32_range|]. split; [apply Hr|].
      destruct (Z_lt_ge_dec (strto64 E (arg argv 4)) (2 ^ 32)) as [Hlt|Hge].
      * left. pose proof (Hr (arg argv 4)) as H4. rewrite u32_small by lia. lia.
      * right. right. split; [lia|exact Hle].
    + split; [reflexivity|]. split; [split; [lia|reflexivity]|]. split; [apply Hr|].
      right. left. reflexivity.
Qed.

(** When [main] forks the workers, the bounds it has read are in order:
    argc >= 7, k >= 0 is a good k, dmax <= DMAX, 2 <= pmin <= pmax,
    dmax <= zmax < ZMAX, profiling is off and no error message has been
    printed.  Without a pinned prime, pmax <= dmax.  With the pinned prime
    p0: 1 < p0 < 2^32, p0 does not divide k, the test of line 576 has not
    found sqrt(dmax) < p0, pmax <= p0 and p0*pmax <= dmax.  The bounds on
    pmax fail only if the test of line 559 has let through a pmax of 2^32 or
    more, which its conversion to 32 bits then cuts.  Nothing is assumed of
    the tests in floating point; [strto64] returns a [uint64_t]. *)
Theorem main_forks_with_ordered_bounds E argv m cores path pmin pmax :
  (forall s, 0 <= strto64 E s < 2 ^ 64) ->
  main E argv = (m, Fork cores path pmin pmax) ->
  let k := atoi E (arg argv 2) in
  let dmax := strto64 E (arg argv 5) in
  let zmax := strto128 E (arg argv 6) in
  7 <= argc_of argv /\ cores = cores_of E argv /\
  0 <= k /\ goodk E k = true /\ dmax <= DMAX E /\
  2 <= pmin <= pmax /\ dmax <= zmax /\ zmax < ZMAX E /\
  profiling E = false /\ Forall (fun e => is_error e = false) m /\
  (path = Primes ->
   pmax <= dmax \/ (2 ^ 32 <= pmax /\ le_sqrt E pmax dmax = true)) /\
  (forall p0, path = Subprimes p0 ->
   1 < p0 < 2 ^ 32 /\ k mod p0 <> 0 /\ le_sqrt E p0 dmax = true /\
   (pmax <= p0 /\ p0 * pmax <= dmax \/
    (2 ^ 32 <= pmax /\ le_sqrt E pmax dmax = true))).
Proof.
  intros Hr Hmain k dmax zmax.
  unfold main in Hmain. fold (argc_of argv) in Hmain.
  destruct (Z.ltb_spec (argc_of argv) 7) as [|Hargc]; [inversion Hmain|].
  destruct (atoi E (arg argv 1) <? 0); [inversion Hmain|].
  fold (cores_of E argv) in Hmain. fold k in Hmain.
  set (m1 := if profiling E && negb (atoi E (arg argv 1) =? 1)
             then [SettingCoresTo1] else []) in Hmain.
  match type of Hmain with context [m1 ++ ?x ++ _] => set (m2 := x) in Hmain end.
  assert (Hm12 : Forall (fun e => is_error e = false) (m1 ++ m2)).
  { apply Forall_app; split; [unfold m1|unfold m2];
      match goal with |- Forall _ (if ?c then _ else _) => destruct c end;
      repeat constructor. }
  destruct ((k <? 0) || negb (goodk E k)) eqn:Hk; [inversion Hmain|].
  apply orb_false_elim in Hk as [Hk0 Hkg]. apply Z.ltb_ge in Hk0.
  apply negb_false_iff in Hkg.
  fold dmax in Hmain.
  destruct (Z.gtb_spec dmax (DMAX E)) as [|Hdmax]; [inversion Hmain|].
  destruct (parse_bounds E argv (argc_of argv) (cores_of E argv)) as [m3 [b|code]] eqn:Hpb;
    [|inversion Hmain].
  destruct (check_bounds E argv (argc_of argv) (cores_of E argv) k dmax b)
    as [m4 o] eqn:Hcb.
  injection Hmain as <- ->.
  destruct (parse_bounds_facts _ _ _ _ _ _ Hr Hpb) as (-> & Hp0 & Hpmax & Hcase).
  destruct (check_bounds_fork _ _ _ _ _ _ _ _ _ _ _ _ Hcb)
    as (-> & -> & -> & -> & Hdiv & Hle & _ & Hz & Hsqrt & Hprod & Hdz & Hprof & _ & Hm4).
  fold dmax in Hsqrt, Hcase. fold zmax in Hz, Hdz.
  assert (Hpmin : 2 <= (if b_pmin b <? 2 then 2 else b_pmin b)).
  { destruct (Z.ltb_spec (b_pmin b) 2); lia. }
  split; [lia|]. split; [reflexivity|]. split; [exact Hk0|]. split; [exact Hkg|].
  split; [lia|]. split; [lia|]. split; [exact Hdz|]. split; [exact Hz|].
  split; [exact Hprof|]. split.
  { cbn [app]. rewrite app_assoc. apply Forall_app. split; assumption. }
  split.
  - intros Hpath. destruct (Z.gtb_spec (b_p0 b) 1) as [|Hp1]; [discriminate|].
    destruct Hcase as [Hc|[Hc|Hc]].
    + lia.
    + left. rewrite Hc, Z.mul_1_l, u64_small in Hprod by lia. exact Hprod.
    + right. exact Hc.
  - intros p0 Hpath. destruct (Z.gtb_spec (b_p0 b) 1) as [Hgt|]; [|discriminate].
    injection Hpath as <-.
    split; [lia|]. split; [exact (Hdiv Hgt)|]. split; [exact Hsqrt|].
    destruct Hcase as [Hc|[Hc|Hc]].
    + left. split; [exact Hc|].
      assert (Hfit : b_p0 b * b_pmax b < 2 ^ 64).
      { assert (b_p0 b * b_pmax b <= b_p0 b * b_p0 b) by nia.
        assert (b_p0 b * b_p0 b < 2 ^ 32 * 2 ^ 32) by nia.
        change (2 ^ 32 * 2 ^ 32) with (2 ^ 64) in *. lia. }
      rewrite u64_small in Hprod by nia. exact Hprod.
    + lia.
    + right. exact Hc.
Qed.

Lemma main_forks_with_ordered_bounds_witness :
  main (test_env 4) argv_pinned = ([], Fork 2 (Subprimes 5) 2 5) /\
  2 <= 2 <= 5 /\
  strto64 (test_env 4) (arg argv_pinned 5) <= strto128 (test_env 4) (arg argv_pinned 6) /\
  (5 <= 5 /\ 5 * 5 <= strto64 (test_env 4) (arg argv_pinned 5) \/
   (2 ^ 32 <= 5 /\
    le_sqrt (test_env 4) 5 (strto64 (test_env 4) (arg argv_pinned 5)) = true)).
Proof.
  split; [reflexivity|].
  pose proof (main_forks_with_ordered_bounds (test_env 4) argv_pinned []
                2 (Subprimes 5) 2 5 (fun s => u64_range _) eq_refl) as H.
  cbv zeta in H.
  destruct H as (_ & _ & _ & _ & _ & H1 & H2 & _ & _ & _ & _ & H3).
  destruct (H3 5 eq_refl) as (_ & _ & _ & H4).
  exact (conj H1 (conj H2 H4)).
Defined.

End ValidatedBounds.

(** ** Exit code -1 and the error messages *)

Section ErrorMessages.
Import Supervisor SupervisorNotions Supervision.

Lemma explains_after w m o :
  Forall (fun x => is_error x = false) w -> explains m o -> explains (w ++ m) o.
Proof.
  intros Hw [H1 H2]. split.
  - intros Ho. destruct (H1 Ho) as (m' & e & -> & He & Hm').
    exists (w ++ m'), e. rewrite app_assoc. split; [reflexivity|]. split; [assumption|].
    apply Forall_app. split; assumption.
  - intros (e & Hin & He). apply H2. exists e. split; [|assumption].
    apply in_app_or in Hin as [Hin|Hin]; [|assumption].
    rewrite Forall_forall in Hw. rewrite (Hw e Hin) in He. discriminate.
Qed.

Lemma explains_error e : is_error e = true -> explains [e] (Return (-1)).
Proof.
  intros He. split.
  - intros _. exists [], e. split; [reflexivity|]. split; [now left|constructor].
  - reflexivity.
Qed.

Lemma explains_quiet m o :
  Forall (fun x => is_error x = false) m -> o <> Return (-1) -> explains m o.
Proof.
  intros Hm Ho. split; [contradiction|].
  intros (e & Hin & He). rewrite Forall_forall in Hm. rewrite (Hm e Hin) in He. discriminate.
Qed.

Lemma explains_warned_error w e :
  Forall (fun x => is_error x = false) w -> is_error e = true ->
  explains (w ++ [e]) (Return (-1)).
Proof. intros Hw He. apply explains_after; [assumption|now apply explains_error]. Qed.

Lemma parse_bounds_explains E argv argc cores :
  match parse_bounds E argv argc cores with
  | (m, inr code) => code = -1 /\ exists e, m = [e] /\ is_error e = true
  | (m, inl _) => m = []
  end.
Proof.
  assert (Herr : forall e, is_error e = true ->
            (-1 = -1 /\ exists e', [e] = [e'] /\ is_error e' = true)).
  { intros e He. split; [reflexivity|]. exists e. split; [reflexivity|assumption]. }
  unfold parse_bounds. destruct (strchr_x (arg argv 3)) as [s|]; cbv zeta.
  - destruct (memcmp_differs _ _ _); [now apply Herr|].
    destruct (_ <? 2); [now apply Herr|].
    destruct (_ >? _); [now apply Herr|].
    destruct (_ || _); [now apply Herr|reflexivity].
  - destruct (_ && _); reflexivity.
Qed.

Ltac warnings :=
  match goal with |- Forall _ ?w => unfold w end;
  match goal with |- Forall _ (if ?c then _ else _) => destruct c end;
  repeat constructor.

Ltac explained :=
  repeat (apply explains_after; [assumption|]);
  first [ apply explains_error; reflexivity
        | apply explains_quiet; [assumption|discriminate] ].

Lemma check_bounds_explains E argv argc cores k dmax b :
  explains (fst (check_bounds E argv argc cores k dmax b))
           (snd (check_bounds E argv argc cores k dmax b)).
Proof.
  unfold check_bounds. cbv zeta.
  set (w1 := if (b_p0 b >? 1) && negb (primes_next_prime E (b_p0 b - 1) =? b_p0 b)
             then [WarnP0NotPrime] else []).
  set (w2 := if (b_p0 b >? 1) && (mod3 E (b_p0 b) =? 1) &&
                negb (has_cuberoots_modp E k (b_p0 b))
             then [WarnNoCuberoots] else []).
  set (w3 := if negb (reporting E) && (argc >? 7) then [WarnIgnoringOption] else []).
  set (w4 := if zmin_above_zmax E dmax (strto128 E (arg argv 6))
             then [WarnZminAboveZmax] else []).
  assert (H1 : Forall (fun x => is_error x = false) w1) by warnings.
  assert (H2 : Forall (fun x => is_error x = false) w2) by warnings.
  assert (H3 : Forall (fun x => is_error x = false) w3) by warnings.
  assert (H4 : Forall (fun x => is_error x = false) w4) by warnings.
  destruct ((b_p0 b >? 1) && (k mod b_p0 b =? 0)); cbn [fst snd]; [explained|].
  destruct (b_pmax b <? _); cbn [fst snd]; [explained|].
  destruct (_ >? ZMAXBITS E); cbn [fst snd]; [explained|].
  destruct (negb (_ <? ZMAX E)); cbn [fst snd]; [explained|].
  destruct (negb (zmaxld_above E _)); cbn [fst snd]; [explained|].
  destruct (negb (le_sqrt E _ _)); cbn [fst snd]; [explained|].
  destruct (_ || _); cbn [fst snd]; [explained|].
  destruct (zmin_above_zmax E dmax (strto128 E (arg argv 6))) eqn:Hz; cbn [andb].
  - destruct (_ =? 0); cbn [fst snd].
    + split; [|reflexivity]. intros _. exists (w1 ++ w2 ++ w3), WarnZminAboveZmax.
      unfold w4. rewrite <- !app_assoc. split; [reflexivity|]. split; [now right|].
      repeat (apply Forall_app; split; [assumption|]). assumption.
    + destruct (negb (report_phase_precompute E)); cbn [fst snd]; [explained|].
      destruct (profiling E); cbn [fst snd]; explained.
  - destruct (negb (report_phase_precompute E)); cbn [fst snd]; [explained|].
    destruct (profiling E); cbn [fst snd]; explained.
Qed.

(** Every return of -1 from [main] before the fork is explained on stderr:
    the last message printed is an error message, or the warning that zmin
    exceeds zmax (given with no option), and no error message comes before
    it.  Conversely an error message is never followed by anything but the
    return of -1: after one, no worker is forked. *)
Theorem main_explains_exit_code E argv :
  explains (fst (main E argv)) (snd (main E argv)).
Proof.
  unfold main.
  destruct (Z.of_nat (List.length argv) <? 7);
    [apply explains_quiet; [repeat constructor|discriminate]|].
  destruct (atoi E (arg argv 1) <? 0);
    [apply explains_quiet; [constructor|discriminate]|].
  set (m1 := if profiling E && negb (atoi E (arg argv 1) =? 1)
             then [SettingCoresTo1] else []).
  match goal with |- context [m1 ++ ?x ++ _] => set (m2 := x) end.
  assert (H1 : Forall (fun x => is_error x = false) m1) by warnings.
  assert (H2 : Forall (fun x => is_error x = false) m2) by warnings.
  destruct (_ || _); cbn [fst snd].
  { rewrite app_assoc. apply explains_warned_error; [|reflexivity].
    apply Forall_app. split; assumption. }
  destruct (_ >? DMAX E); cbn [fst snd].
  { rewrite app_assoc. apply explains_warned_error; [|reflexivity].
    apply Forall_app. split; assumption. }
  match goal with |- context [parse_bounds ?a ?b ?c ?d] =>
    pose proof (parse_bounds_explains a b c d) as Hpb;
    destruct (parse_bounds a b c d) as [m3 [b0|code]]
  end.
  - subst m3.
    match goal with |- context [check_bounds ?a ?b ?c ?d ?e ?f ?g] =>
      pose proof (check_bounds_explains a b c d e f g) as Hcb;
      destruct (check_bounds a b c d e f g) as [m4 o]
    end.
    cbn [fst snd app] in *. apply explains_after; [assumption|].
    apply explains_after; assumption.
  - destruct Hpb as (-> & e & -> & He). cbn [fst snd].
    apply explains_after; [assumption|]. apply explains_after; [assumption|].
    now apply explains_error.
Qed.

End ErrorMessages.

(** ** Properties of the calls made so far that a worker preserves *)

Section Preservation.
Import Worker Notions Behaviour.

Lemma preserves_ret {A} I (a : A) : preserves I (ret a).
Proof. intros h Hh. exact Hh. Qed.

Lemma preserves_halt {A} I s : preserves I (@halt A s).
Proof. intros h Hh. exact Hh. Qed.

Lemma preserves_bind {A B} I (m : M A) (f : A -> M B) :
  preserves I m -> (forall a, preserves I (f a)) -> preserves I (bind m f).
Proof.
  intros Hm Hf h Hh. unfold bind. specialize (Hm h Hh).
  destruct (m h) as [[a|s] h1]; cbn [snd] in *; [now apply Hf|assumption].
Qed.

Lemma preserves_for_each {A} I (l : list A) (f : A -> M unit) :
  (forall a, preserves I (f a)) -> preserves I (for_each l f).
Proof.
  intros Hf. induction l as [|a l IH]; cbn [for_each].
  - apply preserves_ret.
  - apply preserves_bind; [apply Hf|]. intros _. exact IH.
Qed.

Lemma preserves_phase_loop {L} I (cond : Z -> bool) (body : L -> Z -> M L) st p rest :
  (forall st p, preserves I (body st p)) ->
  preserves I (phase_loop cond body st p rest).
Proof.
  intros Hb. revert st p. induction rest as [|p' rest IH]; intros st p; cbn [phase_loop].
  - destruct (cond p); [|apply preserves_ret].
    apply preserves_bind; [apply Hb|]. intros st'.
    destruct (cond END_OF_PIPE); [apply preserves_halt|apply preserves_ret].
  - destruct (cond p); [|apply preserves_ret].
    apply preserves_bind; [apply Hb|]. intros st'. apply IH.
Qed.

Section WorkerRoutines.
Variable T : tables.
Variable I : list call -> Prop.

(** The property is kept by the calls made outside the dispatcher and by
    the three functions of the dispatcher. *)
Hypothesis Hcall : forall c h, dispatch_call c = false -> I h -> I (c :: h).
Hypothesis Hprocd : forall ki a za ca, preserves I (procd T ki a za ca).
Hypothesis Hprocdcoprime : forall d z c, preserves I (procdcoprime T d z c).
Hypothesis Hprocdbigprime : forall d z c si mi l, preserves I (procdbigprime T d z c si mi l).

Lemma preserves_emit c : dispatch_call c = false -> preserves I (emit c).
Proof. intros Hc h Hh. now apply Hcall. Qed.

Lemma preserves_ask c : dispatch_call c = false -> preserves I (ask T c).
Proof. intros Hc h Hh. now apply Hcall. Qed.

Lemma preserves_prockd_loop fuel i d zd n : preserves I (prockd_loop T fuel i d zd n).
Proof.
  revert i. induction fuel as [|fuel IH]; intros i; cbn [prockd_loop];
    destruct (d <=? kdmax T i); try apply preserves_ret; try apply preserves_halt.
  apply preserves_bind; [apply Hprocd|]. intros _. apply IH.
Qed.

Lemma preserves_prockd d zd n : preserves I (prockd T d zd n).
Proof.
  unfold prockd.
  apply preserves_bind; [now apply preserves_emit|]. intros _.
  apply preserves_bind; [apply Hprocdcoprime|]. intros _.
  apply preserves_prockd_loop.
Qed.

Lemma preserves_enumcd_scan x first d p zd queue :
  preserves I (enumcd_scan T x first d p zd queue).
Proof.
  assert (Hitems : forall q, preserves I (for_each (rev q) (enumcd_item T d zd))).
  { intros q. apply preserves_for_each. intros. apply preserves_prockd. }
  revert first queue. induction x as [|x IH]; intros first queue; cbn [enumcd_scan].
  - destruct (negb first && _); [apply preserves_halt|].
    destruct (_ =? 0); [apply Hitems|].
    apply preserves_bind.
    { destruct (_ =? IBATCH); [|apply preserves_ret].
      apply preserves_bind; [apply Hitems|]. intros. apply preserves_ret. }
    intros q1. apply preserves_bind; [|intros; apply preserves_halt].
    destruct (_ <=? _).
    + apply preserves_bind; [apply preserves_prockd|]. intros. apply preserves_ret.
    + destruct (_ <? _); [apply preserves_ret|apply preserves_halt].
  - destruct (negb first && _); [apply IH|].
    destruct (_ =? 0); [apply Hitems|].
    apply preserves_bind.
    { destruct (_ =? IBATCH); [|apply preserves_ret].
      apply preserves_bind; [apply Hitems|]. intros. apply preserves_ret. }
    intros q1. apply preserves_bind; [|intros; apply IH].
    destruct (_ <=? _).
    + apply preserves_bind; [apply preserves_prockd|]. intros. apply preserves_ret.
    + destruct (_ <? _); [apply preserves_ret|apply preserves_halt].
Qed.

Lemma preserves_enumcd d p zd : preserves I (enumcd T d p zd).
Proof.
  unfold enumcd. destruct (cdentry T _ _ _); [apply preserves_enumcd_scan|apply preserves_ret].
Qed.

Lemma preserves_enumd_loop fuel item d pi q e queue :
  (forall it, preserves I (item it)) ->
  preserves I (enumd_loop T fuel item d pi q e queue).
Proof.
  intros Hitem.
  assert (Hitems : forall q, preserves I (for_each (rev q) item)).
  { intros q0. now apply preserves_for_each. }
  revert pi q e queue. induction fuel as [|fuel IH]; intros pi q e queue;
    cbn [enumd_loop]; [apply preserves_halt|].
  destruct (pi =? 0); [apply Hitems|].
  apply preserves_bind.
  { destruct (_ =? IBATCH); [|apply preserves_ret].
    apply preserves_bind; [apply Hitems|]. intros. apply preserves_ret. }
  intros q1. destruct (_ >? _); apply IH.
Qed.

Lemma preserves_enumd depth d p zd : preserves I (enumd T depth d p zd).
Proof.
  revert d p zd. induction depth as [|depth IH]; intros d p zd; cbn [enumd];
    [apply preserves_halt|].
  destruct (_ >=? _); [apply preserves_enumcd|].
  destruct (_ =? 0); [apply preserves_ret|].
  apply preserves_enumd_loop. intros [[a pi] e]. unfold enumd_item.
  apply preserves_bind; [apply preserves_prockd|]. intros _.
  destruct (_ >=? _); [apply preserves_enumcd|apply IH].
Qed.

Ltac preserves_step :=
  first [ apply preserves_ret | apply preserves_halt
        | apply preserves_prockd | apply preserves_enumd | apply preserves_enumcd
        | apply Hprocdcoprime | apply Hprocdbigprime
        | apply preserves_emit; reflexivity
        | apply preserves_ask; reflexivity
        | apply preserves_for_each; intros ?
        | apply preserves_bind; [|intros ?]
        | match goal with
          | |- preserves _ (if ?c then _ else _) => destruct c
          | |- preserves _ (match (if ?c then _ else _) with _ => _ end) => destruct c
          | |- preserves _ (match ?c with _ => _ end) => destruct c
          | |- preserves _ (let '(_, _) := ?c in _) => destruct c
          end
        | progress cbv zeta ].

Lemma preserves_with_roots {L} (st : L) p k :
  (forall z n, preserves I (k z n)) -> preserves I (with_roots T st p k).
Proof. intros Hk. unfold with_roots. repeat preserves_step. apply Hk. Qed.

Lemma preserves_cached_body pi p : preserves I (cached_body T pi p).
Proof. unfold cached_body. repeat preserves_step. Qed.

Lemma preserves_uncached_body st p : preserves I (uncached_body T st p).
Proof. apply preserves_with_roots. intros. repeat preserves_step. Qed.

Lemma preserves_cocached_body st p : preserves I (cocached_body T st p).
Proof. apply preserves_with_roots. intros. repeat preserves_step. Qed.

Lemma preserves_nearprime_body st p : preserves I (nearprime_body T st p).
Proof. apply preserves_with_roots. intros. repeat preserves_step. Qed.

Lemma preserves_prime_body st p : preserves I (prime_body T st p).
Proof. apply preserves_with_roots. intros. repeat preserves_step. Qed.

Lemma preserves_bigprime_body mi m pmax st p : preserves I (bigprime_body T mi m pmax st p).
Proof.
  apply preserves_with_roots. intros. destruct st as [l lpmax].
  repeat preserves_step.
Qed.

Lemma preserves_bigprime7_body mi m mi7 m7 pmax st p :
  preserves I (bigprime7_body T mi m mi7 m7 pmax st p).
Proof.
  apply preserves_with_roots. intros. destruct st as [[[l lpmax] l7] lpmax7].
  repeat preserves_step.
Qed.

Lemma preserves_done p pmax : preserves I (done p pmax).
Proof. unfold done. repeat preserves_step. Qed.

Lemma preserves_phase6 p pmax rest : preserves I (phase6 T p pmax rest).
Proof.
  unfold phase6. cbv zeta. apply preserves_bind.
  - destruct (negb _).
    + apply preserves_bind; [|intros; apply preserves_ret].
      apply preserves_phase_loop. intros. apply preserves_bigprime_body.
    + apply preserves_bind; [|intros; apply preserves_ret].
      apply preserves_phase_loop. intros. apply preserves_bigprime7_body.
  - intros r. apply preserves_bind; [apply preserves_ask; reflexivity|].
    intros _. apply preserves_done.
Qed.

Ltac phase_preserved next body :=
  apply preserves_bind;
  [ apply preserves_phase_loop; intros; apply body
  | intros [[? q] rest']; apply preserves_bind; [apply preserves_ask; reflexivity|];
    intros _; destruct (q >? _); [apply preserves_done|apply next] ].

Lemma preserves_phase5 p pmax rest : preserves I (phase5 T p pmax rest).
Proof. unfold phase5. phase_preserved preserves_phase6 preserves_prime_body. Qed.

Lemma preserves_phase4 p pmax rest : preserves I (phase4 T p pmax rest).
Proof. unfold phase4. phase_preserved preserves_phase5 preserves_nearprime_body. Qed.

Lemma preserves_phase3 p pmax rest : preserves I (phase3 T p pmax rest).
Proof. unfold phase3. phase_preserved preserves_phase4 preserves_cocached_body. Qed.

Lemma preserves_phase2 p pmax rest : preserves I (phase2 T p pmax rest).
Proof. unfold phase2. phase_preserved preserves_phase3 preserves_uncached_body. Qed.

Lemma preserves_process_primes pp : preserves I (process_primes T pp).
Proof.
  unfold process_primes. cbv zeta.
  destruct (read_pipe (pipe_primes pp)) as [p rest].
  destruct (p >? pipe_end pp); [apply preserves_ret|].
  apply preserves_bind.
  - destruct (p <=? cpmax T); [|apply preserves_ret].
    apply preserves_bind; [|intros; apply preserves_ret].
    apply preserves_phase_loop. intros. apply preserves_cached_body.
  - intros [q rest']. apply preserves_bind; [apply preserves_ask; reflexivity|].
    intros ok. destruct (negb ok); [apply preserves_done|].
    destruct (q >? _); [apply preserves_done|].
    destruct (negb _); [apply preserves_halt|].
    destruct (negb _); [apply preserves_halt|].
    apply preserves_phase2.
Qed.

Lemma preserves_subprime_body p0 p0inv dmax0 z0 itabp0 pi p :
  preserves I (Pinned.subprime_body T p0 p0inv dmax0 z0 itabp0 pi p).
Proof. unfold Pinned.subprime_body. repeat preserves_step. Qed.

Lemma preserves_own_powers p0 pi : preserves I (Pinned.own_powers T p0 pi).
Proof. unfold Pinned.own_powers. repeat preserves_step. Qed.

Lemma preserves_process_subprimes H p0 itabp0 pp :
  preserves I (Pinned.process_subprimes T H p0 itabp0 pp).
Proof.
  unfold Pinned.process_subprimes. cbv zeta.
  repeat match goal with
         | |- preserves _ (if ?c then halt _ else _) => destruct c; [apply preserves_halt|]
         | |- preserves _ (if ?c then ret _ else _) => destruct c; [apply preserves_ret|]
         end.
  destruct (read_pipe (pipe_primes pp)) as [p rest].
  apply preserves_bind.
  - apply preserves_phase_loop. intros. apply preserves_subprime_body.
  - intros [[pi q] rest']. apply preserves_bind.
    + destruct (q =? p0); [apply preserves_own_powers|apply preserves_ret].
    + intros _. destruct (q >? _); [apply preserves_ret|apply preserves_halt].
Qed.

End WorkerRoutines.

End Preservation.

(** ** The protocol of the dispatcher *)

Section DispatcherProtocol.
Import Worker Notions Behaviour.
Variable T : tables.

Lemma served_call c h : dispatch_call c = false -> served T h -> served T (c :: h).
Proof.
  intros Hc Hh. apply served_other; [| |assumption]; destruct c; try discriminate; reflexivity.
Qed.

Ltac checked_run :=
  match goal with
  | |- context [if ?c || ?c' then _ else _] => destruct (c || c')
  | |- context [if ?c =? 1 then _ else _] => destruct (c =? 1)
  end;
  try match goal with
      | |- context [if ?c >? ?c' then _ else _] => destruct (c >? c')
      end;
  cbn [snd fst]; eexists; (split; [|reflexivity]); reflexivity.

Lemma procd_checked ki a za ca h :
  answer T (enter_procd ki a za ca :: h)
    (report_d (u64 (a * kd_d (kdtab T ki))) (ca * kd_n (kdtab T ki))) = true ->
  exists z, zcheck_of z = Some (u64 (a * kd_d (kdtab T ki))) /\
    snd (procd T ki a za ca h)
    = profile_checkpoint :: z
        :: report_d (u64 (a * kd_d (kdtab T ki))) (ca * kd_n (kdtab T ki))
        :: enter_procd ki a za ca :: h.
Proof.
  unfold procd, bind, emit, ask. cbv zeta. intros Hans. rewrite Hans. cbn [negb].
  checked_run.
Qed.

Lemma procdcoprime_checked d z c h :
  answer T (enter_procdcoprime d z c :: h) (report_d d c) = true ->
  exists x, zcheck_of x = Some d /\
    snd (procdcoprime T d z c h)
    = profile_checkpoint :: x :: report_d d c :: enter_procdcoprime d z c :: h.
Proof.
  unfold procdcoprime, bind, emit, ask. cbv zeta. intros Hans. rewrite Hans. cbn [negb].
  checked_run.
Qed.

Lemma procdbigprime_checked d z c si mi l h :
  answer T (enter_procdbigprime d z c si mi l :: h) (report_d d c) = true ->
  exists x, zcheck_of x = Some d /\
    snd (procdbigprime T d z c si mi l h)
    = profile_checkpoint :: x :: report_d d c :: enter_procdbigprime d z c si mi l :: h.
Proof.
  unfold procdbigprime, bind, emit, ask. cbv zeta. intros Hans. rewrite Hans. cbn [negb].
  checked_run.
Qed.

Lemma procd_refused ki a za ca h :
  answer T (enter_procd ki a za ca :: h)
    (report_d (u64 (a * kd_d (kdtab T ki))) (ca * kd_n (kdtab T ki))) = false ->
  procd T ki a za ca h
  = (Ok tt, report_d (u64 (a * kd_d (kdtab T ki))) (ca * kd_n (kdtab T ki))
            :: enter_procd ki a za ca :: h).
Proof.
  unfold procd, bind, emit, ask. cbv zeta. intros Hans. rewrite Hans. reflexivity.
Qed.

Lemma procdcoprime_refused d z c h :
  answer T (enter_procdcoprime d z c :: h) (report_d d c) = false ->
  procdcoprime T d z c h = (Ok tt, report_d d c :: enter_procdcoprime d z c :: h).
Proof.
  unfold procdcoprime, bind, emit, ask. cbv zeta. intros Hans. rewrite Hans. reflexivity.
Qed.

Lemma procdbigprime_refused d z c si mi l h :
  answer T (enter_procdbigprime d z c si mi l :: h) (report_d d c) = false ->
  procdbigprime T d z c si mi l h
  = (Ok tt, report_d d c :: enter_procdbigprime d z c si mi l :: h).
Proof.
  unfold procdbigprime, bind, emit, ask. cbv zeta. intros Hans. rewrite Hans. reflexivity.
Qed.

Lemma served_procd ki a za ca : preserves (served T) (procd T ki a za ca).
Proof.
  intros h Hh.
  destruct (answer T (enter_procd ki a za ca :: h)
              (report_d (u64 (a * kd_d (kdtab T ki))) (ca * kd_n (kdtab T ki)))) eqn:Hans.
  - destruct (procd_checked ki a za ca h Hans) as (z & Hz & ->).
    eapply served_checked; eauto; reflexivity.
  - rewrite (procd_refused ki a za ca h Hans). cbn [snd].
    eapply served_refused; eauto; reflexivity.
Qed.

Lemma served_procdcoprime d z c : preserves (served T) (procdcoprime T d z c).
Proof.
  intros h Hh.
  destruct (answer T (enter_procdcoprime d z c :: h) (report_d d c)) eqn:Hans.
  - destruct (procdcoprime_checked d z c h Hans) as (x & Hx & ->).
    eapply served_checked; eauto; reflexivity.
  - rewrite (procdcoprime_refused d z c h Hans). cbn [snd].
    eapply served_refused; eauto; reflexivity.
Qed.

Lemma served_procdbigprime d z c si mi l :
  preserves (served T) (procdbigprime T d z c si mi l).
Proof.
  intros h Hh.
  destruct (answer T (enter_procdbigprime d z c si mi l :: h) (report_d d c)) eqn:Hans.
  - destruct (procdbigprime_checked d z c si mi l h Hans) as (x & Hx & ->).
    eapply served_checked; eauto; reflexivity.
  - rewrite (procdbigprime_refused d z c si mi l h Hans). cbn [snd].
    eapply served_refused; eauto; reflexivity.
Qed.

(** In a run of [process_primes], whatever the tables, the pipe and the
    reporter, every entry of [procd], [procdcoprime] or [procdbigprime] is
    followed by one [report_d] for its modulus d; when the reporter answers
    false nothing more is called for d, and when it answers true exactly one
    z-check ([zrcheckone], [zrcheckafew] or [zrchecklift]) for d and then
    [profile_checkpoint] are called.  No z-check is made in any other
    place. *)
Theorem process_primes_serves_each_modulus pp h :
  served T h -> served T (snd (process_primes T pp h)).
Proof.
  exact (preserves_process_primes T (served T) served_call served_procd
           served_procdcoprime served_procdbigprime pp h).
Qed.

(** In a run of [process_subprimes], whatever the tables, the helpers, the
    pinned prime, the pipe and the reporter, every entry of [procd] or
    [procdcoprime] is followed by one [report_d] for its modulus d; when the
    reporter answers false nothing more is called for d, and when it answers
    true exactly one z-check for d and then [profile_checkpoint] are called.
    No z-check is made in any other place. *)
Theorem process_subprimes_serves_each_modulus H p0 itabp0 pp h :
  served T h -> served T (snd (Pinned.process_subprimes T H p0 itabp0 pp h)).
Proof.
  exact (preserves_process_subprimes T (served T) served_call served_procd
           served_procdcoprime H p0 itabp0 pp h).
Qed.

End DispatcherProtocol.

Section DispatcherProtocolExamples.
Import Worker Notions Behaviour.

Lemma process_primes_serves_each_modulus_witness :
  served (Toy.toy Toy.small_bounds Toy.accept_all)
    (snd (process_primes (Toy.toy Toy.small_bounds Toy.accept_all) Toy.small_pipe [])).
Proof.
  apply (process_primes_serves_each_modulus (Toy.toy Toy.small_bounds Toy.accept_all)
           Toy.small_pipe []).
  constructor.
Defined.

Lemma process_subprimes_serves_each_modulus_witness :
  served (Toy.toy Toy.small_bounds Toy.accept_all)
    (snd (Pinned.process_subprimes (Toy.toy Toy.small_bounds Toy.accept_all)
            Pinned.toy_helpers 5 (Pinned.toy_itab 5) Pinned.pipe_to_5 [])).
Proof.
  apply (process_subprimes_serves_each_modulus (Toy.toy Toy.small_bounds Toy.accept_all)
           Pinned.toy_helpers 5 (Pinned.toy_itab 5) Pinned.pipe_to_5 []).
  constructor.
Defined.

End DispatcherProtocolExamples.

(** ** The primes a worker reports *)

Section PipeOrder.
Import Worker Notions Behaviour.
Variable T : tables.

Lemma reported_primes_app t1 t2 :
  reported_primes (t1 ++ t2) = reported_primes t1 ++ reported_primes t2.
Proof. unfold reported_primes. apply flat_map_app. Qed.

Lemma reported_primes_none t : Forall not_report_p t -> reported_primes t = [].
Proof.
  induction 1 as [|c t Hc _ IH]; [reflexivity|].
  destruct c; try contradiction; exact IH.
Qed.

Lemma not_report_p_enumerator c : enumerator_call c = true -> not_report_p c.
Proof. destruct c; try discriminate; intros _; exact I. Qed.

Lemma not_report_p_dispatch c : dispatch_call c = true -> not_report_p c.
Proof. destruct c; try discriminate; intros _; exact I. Qed.

Ltac others_step :=
  first [ apply quiet_ret | apply quiet_halt
        | apply (quiet_prockd_any T not_report_p not_report_p_enumerator)
        | apply (quiet_enumd T not_report_p not_report_p_enumerator)
        | apply (quiet_enumcd T not_report_p not_report_p_enumerator)
        | apply (quiet_procdcoprime T not_report_p not_report_p_dispatch)
        | apply (quiet_procdbigprime T not_report_p not_report_p_dispatch)
        | apply quiet_ask; exact I
        | apply quiet_for_each; intros ? ?
        | apply quiet_bind; [|intros ?]
        | match goal with
          | |- quiet _ (if ?c then _ else _) => destruct c
          | |- quiet _ (match (if ?c then _ else _) with _ => _ end) => destruct c
          | |- quiet _ (match ?x with _ => _ end) => destruct x
          end
        | progress cbv zeta ].

Lemma announces_ask {A} p (f : bool -> M A) :
  (forall b, quiet not_report_p (f b)) -> announces p (bind (ask T (report_p p)) f).
Proof.
  intros Hf h r h' Hrun. unfold bind, ask in Hrun.
  destruct (Hf _ _ _ _ Hrun) as (t & -> & Ht). exists t. auto.
Qed.

Lemma announces_with_roots {L} (st : L) p k :
  (forall z n, quiet not_report_p (k z n)) -> announces p (with_roots T st p k).
Proof.
  intros Hk. unfold with_roots. apply announces_ask. intros ok.
  repeat first [apply Hk | others_step].
Qed.

Lemma announces_cached_body pi p : announces p (cached_body T pi p).
Proof. unfold cached_body. apply announces_ask. intros ok. repeat others_step. Qed.

Lemma announces_uncached_body st p : announces p (uncached_body T st p).
Proof. apply announces_with_roots. intros. repeat others_step. Qed.

Lemma announces_cocached_body st p : announces p (cocached_body T st p).
Proof. apply announces_with_roots. intros. repeat others_step. Qed.

Lemma announces_nearprime_body st p : announces p (nearprime_body T st p).
Proof. apply announces_with_roots. intros. repeat others_step. Qed.

Lemma announces_prime_body st p : announces p (prime_body T st p).
Proof. apply announces_with_roots. intros. repeat others_step. Qed.

Lemma announces_bigprime_body mi m pmax st p :
  announces p (bigprime_body T mi m pmax st p).
Proof. apply announces_with_roots. intros. repeat others_step. Qed.

Lemma announces_bigprime7_body mi m mi7 m7 pmax st p :
  announces p (bigprime7_body T mi m mi7 m7 pmax st p).
Proof. apply announces_with_roots. intros. repeat others_step. Qed.

(** What a loop over the pipe reports: the primes it takes from the pipe,
    in the order of the pipe, as long as its condition holds. *)
Lemma phase_loop_reads {L} (cond : Z -> bool) (body : L -> Z -> M L) :
  (forall st p, announces p (body st p)) -> cond END_OF_PIPE = false ->
  forall rest pending st p h r h',
    read_pipe pending = (p, rest) ->
    phase_loop cond body st p rest h = (r, h') ->
    exists t remaining,
      h' = rev t ++ h /\ pending = reported_primes t ++ remaining /\
      Forall (fun q => cond q = true) (reported_primes t) /\
      forall st' p' rest', r = Ok (st', p', rest') ->
        read_pipe remaining = (p', rest') /\ cond p' = false.
Proof.
  intros Hb Hend. induction rest as [|p1 rest IH]; intros pending st p h r h' Hread Hrun;
    cbn [phase_loop] in Hrun; destruct (cond p) eqn:Hc.
  - assert (Hp : pending = [p]).
    { destruct pending as [|x [|y l]]; cbn [read_pipe] in Hread; inversion Hread; subst.
      - congruence.
      - reflexivity. }
    subst pending. unfold bind in Hrun.
    destruct (body st p h) as [[st1|s] h1] eqn:Hbody;
      destruct (Hb st p _ _ _ Hbody) as (t1 & -> & Ht1).
    + rewrite Hend in Hrun. inversion Hrun; subst.
      exists (report_p p :: t1), []. cbn [rev reported_primes flat_map].
      fold (reported_primes t1). rewrite (reported_primes_none t1 Ht1), <- app_assoc.
      split; [reflexivity|]. split; [reflexivity|]. split; [repeat constructor; assumption|].
      intros st' p' rest' Heq. inversion Heq; subst. split; [reflexivity|assumption].
    + inversion Hrun; subst.
      exists (report_p p :: t1), []. cbn [rev reported_primes flat_map].
      fold (reported_primes t1). rewrite (reported_primes_none t1 Ht1), <- app_assoc.
      split; [reflexivity|]. split; [reflexivity|]. split; [repeat constructor; assumption|].
      intros st' p' rest' Heq. discriminate Heq.
  - inversion Hrun; subst. exists [], pending. cbn.
    split; [reflexivity|]. split; [reflexivity|]. split; [constructor|].
    intros st' p' rest' Heq. inversion Heq; subst. split; assumption.
  - assert (Hp : pending = p :: p1 :: rest).
    { destruct pending as [|x l]; cbn [read_pipe] in Hread; inversion Hread; subst; reflexivity. }
    subst pending. unfold bind in Hrun.
    destruct (body st p h) as [[st1|s] h1] eqn:Hbody;
      destruct (Hb st p _ _ _ Hbody) as (t1 & -> & Ht1).
    + destruct (IH (p1 :: rest) st1 p1 _ _ _ eq_refl Hrun)
        as (t2 & remaining & -> & Hpend & Hall & Hok).
      exists (report_p p :: t1 ++ t2), remaining.
      cbn [rev reported_primes flat_map]. fold (reported_primes (t1 ++ t2)).
      rewrite reported_primes_app, (reported_primes_none t1 Ht1). cbn [app].
      split; [now rewrite rev_app_distr, <- !app_assoc|].
      split; [now rewrite Hpend|]. split; [constructor; assumption|exact Hok].
    + inversion Hrun; subst.
      exists (report_p p :: t1), (p1 :: rest). cbn [rev reported_primes flat_map].
      fold (reported_primes t1). rewrite (reported_primes_none t1 Ht1), <- app_assoc.
      split; [reflexivity|]. split; [reflexivity|]. split; [repeat constructor; assumption|].
      intros st' p' rest' Heq. discriminate Heq.
  - inversion Hrun; subst. exists [], pending. cbn.
    split; [reflexivity|]. split; [reflexivity|]. split; [constructor|].
    intros st' p' rest' Heq. inversion Heq; subst. split; assumption.
Qed.

End PipeOrder.

Section PipeOrderOfPhases.
Import Worker Notions Behaviour.
Variable T : tables.
Variable pmax : Z.
Hypothesis Hpmax : pmax < END_OF_PIPE.

Lemma bind_assoc {A B C} (m : M A) (f : A -> M B) (g : B -> M C) h :
  bind (bind m f) g h = bind m (fun a => bind (f a) g) h.
Proof. unfold bind. destruct (m h) as [[a|s] h1]; reflexivity. Qed.

Lemma reads_ext pending (m m' : M unit) :
  (forall h, m h = m' h) -> reads pmax pending m' -> reads pmax pending m.
Proof. intros Heq Hm h r h' Hrun. rewrite Heq in Hrun. now apply Hm. Qed.

Lemma reads_done pending p rest :
  read_pipe pending = (p, rest) -> reads pmax pending (done p pmax).
Proof.
  intros Hread h r h' Hrun. unfold done in Hrun. exists [], pending. cbn [rev app reported_primes flat_map].
  destruct (Z.gtb_spec p pmax); inversion Hrun; subst.
  - repeat split; try constructor. intros _. now rewrite Hread.
  - repeat split; try constructor. discriminate.
Qed.

Lemma reads_ask pending c (f : bool -> M unit) :
  not_report_p c -> (forall b, reads pmax pending (f b)) ->
  reads pmax pending (bind (ask T c) f).
Proof.
  intros Hc Hf h r h' Hrun. unfold bind, ask in Hrun.
  destruct (Hf _ _ _ _ Hrun) as (t & remaining & -> & Hpend & Hall & Hok).
  assert (Hn : reported_primes [c] = []) by (apply reported_primes_none; repeat constructor; assumption).
  exists (c :: t), remaining. change (c :: t) with ([c] ++ t).
  rewrite reported_primes_app, Hn. cbn [app rev]. rewrite <- app_assoc.
  repeat split; assumption.
Qed.

Lemma reads_loop {L} (cond : Z -> bool) (body : L -> Z -> M L) st p rest pending
  (k : L * Z * list Z -> M unit) :
  (forall st p, announces p (body st p)) ->
  (forall q, cond q = true -> q <= pmax) ->
  read_pipe pending = (p, rest) ->
  (forall st' p' rest' remaining,
     read_pipe remaining = (p', rest') -> cond p' = false ->
     reads pmax remaining (k (st', p', rest'))) ->
  reads pmax pending (bind (phase_loop cond body st p rest) k).
Proof.
  intros Hb Hcond Hread Hk h r h' Hrun. unfold bind in Hrun.
  assert (Hend : cond END_OF_PIPE = false).
  { destruct (cond END_OF_PIPE) eqn:Hc; [|reflexivity]. apply Hcond in Hc. lia. }
  destruct (phase_loop cond body st p rest h) as [[[[st' p'] rest']|s] h1] eqn:Hloop;
    destruct (phase_loop_reads cond body Hb Hend _ _ _ _ _ _ _ Hread Hloop)
      as (t1 & remaining & -> & Hpend & Hall & Hok).
  - destruct (Hok st' p' rest' eq_refl) as [Hread' Hc'].
    destruct (Hk st' p' rest' remaining Hread' Hc' _ _ _ Hrun)
      as (t2 & remaining' & -> & Hpend' & Hall' & Hok').
    exists (t1 ++ t2), remaining'. rewrite reported_primes_app, rev_app_distr, <- !app_assoc.
    split; [reflexivity|]. split; [now rewrite Hpend, Hpend'|]. split; [|assumption].
    apply Forall_app. split; [|assumption].
    eapply Forall_impl; [|exact Hall]. exact Hcond.
  - inversion Hrun; subst r h'. exists t1, remaining.
    split; [reflexivity|]. split; [assumption|]. split; [|discriminate].
    eapply Forall_impl; [|exact Hall]. exact Hcond.
Qed.

Lemma within_pmax (c : bool) q : c && (q <=? pmax) = true -> q <= pmax.
Proof. intros H. apply andb_prop in H as [_ H]. now apply Z.leb_le. Qed.

Lemma reads_phase6 pending p rest :
  read_pipe pending = (p, rest) -> reads pmax pending (phase6 T p pmax rest).
Proof.
  intros Hread. unfold phase6. cbv zeta. destruct (negb _).
  - eapply reads_ext; [intros h; rewrite bind_assoc; reflexivity|].
    apply reads_loop; [intros; apply announces_bigprime_body| |assumption|].
    { intros q Hq. now apply Z.leb_le. }
    intros st' p' rest' remaining Hread' Hc'. cbn [fst snd].
    eapply reads_ext; [intros h; unfold bind at 1, ret; reflexivity|].
    apply reads_ask; [exact I|]. intros _. now apply (reads_done _ _ rest').
  - eapply reads_ext; [intros h; rewrite bind_assoc; reflexivity|].
    apply reads_loop; [intros; apply announces_bigprime7_body| |assumption|].
    { intros q Hq. now apply Z.leb_le. }
    intros st' p' rest' remaining Hread' Hc'. cbn [fst snd].
    eapply reads_ext; [intros h; unfold bind at 1, ret; reflexivity|].
    apply reads_ask; [exact I|]. intros _. now apply (reads_done _ _ rest').
Qed.

Ltac phase_reads next body :=
  apply reads_loop;
  [ intros; apply body
  | intros ? ?; eapply within_pmax; eassumption
  | assumption
  | intros ? p' rest' remaining Hread' _; apply reads_ask; [exact I|]; intros _;
    destruct (p' >? pmax); [now apply (reads_done _ _ rest')|now apply next] ].

Lemma reads_phase5 pending p rest :
  read_pipe pending = (p, rest) -> reads pmax pending (phase5 T p pmax rest).
Proof. intros Hread. unfold phase5. phase_reads reads_phase6 announces_prime_body. Qed.

Lemma reads_phase4 pending p rest :
  read_pipe pending = (p, rest) -> reads pmax pending (phase4 T p pmax rest).
Proof. intros Hread. unfold phase4. phase_reads reads_phase5 announces_nearprime_body. Qed.

Lemma reads_phase3 pending p rest :
  read_pipe pending = (p, rest) -> reads pmax pending (phase3 T p pmax rest).
Proof. intros Hread. unfold phase3. phase_reads reads_phase4 announces_cocached_body. Qed.

Lemma reads_phase2 pending p rest :
  read_pipe pending = (p, rest) -> reads pmax pending (phase2 T p pmax rest).
Proof. intros Hread. unfold phase2. phase_reads reads_phase3 announces_uncached_body. Qed.

Lemma reads_ret_beyond pending : pmax < fst (read_pipe pending) -> reads pmax pending (ret tt).
Proof.
  intros Hp h r h' Hrun. inversion Hrun; subst. exists [], pending.
  repeat split; try constructor. intros _. assumption.
Qed.

Lemma reads_halt pending s : reads pmax pending (halt s).
Proof.
  intros h r h' Hrun. inversion Hrun; subst. exists [], pending.
  repeat split; try constructor. discriminate.
Qed.

(** What follows the cached phase. *)
Lemma reads_after_cached pending p rest :
  read_pipe pending = (p, rest) ->
  reads pmax pending
    (ok <- ask T (report_phase PHASE_CACHED) ;;
     if negb ok then done p pmax
     else if p >? pmax then done p pmax
     else if negb (above_sqrt_dmax T p) then halt AssertionFailed
     else if negb (u64 (3 * p) >? K T) then halt AssertionFailed
     else phase2 T p pmax rest).
Proof.
  intros Hread. apply reads_ask; [exact I|]. intros ok.
  destruct (negb ok); [now apply (reads_done _ _ rest)|].
  destruct (p >? pmax); [now apply (reads_done _ _ rest)|].
  destruct (negb _); [apply reads_halt|].
  destruct (negb _); [apply reads_halt|].
  now apply reads_phase2.
Qed.

End PipeOrderOfPhases.

Section PipeOrderTheorem.
Import Worker Notions Behaviour.
Variable T : tables.

Lemma reads_process_primes pp :
  pipe_end pp < END_OF_PIPE ->
  reads (pipe_end pp) (pipe_primes pp) (process_primes T pp).
Proof.
  intros Hend. unfold process_primes. cbv zeta.
  destruct (read_pipe (pipe_primes pp)) as [p rest] eqn:Hread.
  destruct (Z.gtb_spec p (pipe_end pp)).
  { apply reads_ret_beyond. rewrite Hread. assumption. }
  destruct (p <=? cpmax T).
  - eapply reads_ext; [intros h; rewrite bind_assoc; reflexivity|].
    apply reads_loop; [assumption|intros; apply announces_cached_body| |assumption|].
    { intros q Hq. eapply within_pmax. eassumption. }
    intros st' p' rest' remaining Hread' _. cbn [fst snd].
    eapply reads_ext; [intros h; unfold bind at 1, ret; reflexivity|].
    now apply reads_after_cached.
  - eapply reads_ext; [intros h; unfold bind at 1, ret; reflexivity|].
    now apply reads_after_cached.
Qed.

Lemma up_to_app pmax l1 l2 :
  Forall (fun q => q <= pmax) l1 -> pmax < fst (read_pipe l2) ->
  up_to pmax (l1 ++ l2) = l1.
Proof.
  intros H1 H2. induction H1 as [|q l1 Hq _ IH]; cbn [app up_to].
  - destruct l2 as [|x l2]; [reflexivity|]. cbn [read_pipe fst] in H2. cbn [up_to].
    destruct (Z.leb_spec x pmax); [lia|reflexivity].
  - destruct (Z.leb_spec q pmax); [|lia]. now rewrite IH.
Qed.

(** In a run of [process_primes], whatever the tables and the reporter,
    the primes passed to [report_p] are the first primes of the pipe, each
    once, in the order of the pipe, and none of them is beyond pmax =
    [pipe->end]; when the run returns, they are all the primes of the pipe
    before the first one beyond pmax. *)
Theorem process_primes_reports_pipe_in_order pp h :
  pipe_end pp < END_OF_PIPE ->
  exists t remaining,
    snd (process_primes T pp h) = rev t ++ h /\
    pipe_primes pp = reported_primes t ++ remaining /\
    Forall (fun q => q <= pipe_end pp) (reported_primes t) /\
    (fst (process_primes T pp h) = Ok tt ->
     reported_primes t = up_to (pipe_end pp) (pipe_primes pp)).
Proof.
  intros Hend. destruct (process_primes T pp h) as [r h'] eqn:Hrun.
  destruct (reads_process_primes pp Hend h r h' Hrun)
    as (t & remaining & -> & Hpend & Hall & Hok).
  exists t, remaining. cbn [fst snd].
  split; [reflexivity|]. split; [assumption|]. split; [assumption|].
  intros Hr. rewrite Hpend. symmetry. apply up_to_app; auto.
Qed.

End PipeOrderTheorem.

Section PipeOrderExamples.
Import Worker Notions Behaviour.

Lemma process_primes_reports_pipe_in_order_witness :
  exists t remaining,
    snd (process_primes (Toy.toy Toy.small_bounds Toy.accept_all) Toy.small_pipe [])
    = rev t ++ [] /\
    pipe_primes Toy.small_pipe = reported_primes t ++ remaining /\
    Forall (fun q => q <= pipe_end Toy.small_pipe) (reported_primes t) /\
    (fst (process_primes (Toy.toy Toy.small_bounds Toy.accept_all) Toy.small_pipe []) = Ok tt ->
     reported_primes t = up_to (pipe_end Toy.small_pipe) (pipe_primes Toy.small_pipe)).
Proof.
  apply (process_primes_reports_pipe_in_order (Toy.toy Toy.small_bounds Toy.accept_all)
           Toy.small_pipe []).
  reflexivity.
Defined.

End PipeOrderExamples.

(** ** A reporter that refuses the boundary after the cached phase *)

Section RefusedBoundary.
Import Worker Notions Behaviour.
Variable T : tables.
Hypothesis Hrefuse : forall h, answer T h (report_phase PHASE_CACHED) = false.

Lemma refused_tail p pmax rest h :
  (ok <- ask T (report_phase PHASE_CACHED) ;;
   if negb ok then done p pmax
   else if p >? pmax then done p pmax
   else if negb (above_sqrt_dmax T p) then halt AssertionFailed
   else if negb (u64 (3 * p) >? K T) then halt AssertionFailed
   else phase2 T p pmax rest) h
  = (if p >? pmax then Ok tt else Stop AssertionFailed, report_phase PHASE_CACHED :: h).
Proof.
  unfold bind, ask. rewrite Hrefuse. cbn [negb]. unfold done.
  destruct (p >? pmax); reflexivity.
Qed.

(** When the reporter answers false to [report_phase(PHASE_CACHED)], that
    call is the last one of the run and only primes up to cpmax have been
    reported.  The run returns only if these are all the primes of the pipe
    up to pmax: if the pipe holds a prime q with cpmax < q <= pmax before
    any prime beyond pmax, the run does not return, and when the cached
    phase itself has not stopped it, the assertion [p > pmax] of line 521
    fails. *)
Theorem process_primes_refused_cached_boundary pp h :
  pipe_end pp < END_OF_PIPE ->
  exists t,
    snd (process_primes T pp h) = rev t ++ h /\
    Forall (fun q => q <= cpmax T) (reported_primes t) /\
    (fst (process_primes T pp h) = Ok tt ->
     reported_primes t = up_to (pipe_end pp) (pipe_primes pp)) /\
    (forall q, In q (up_to (pipe_end pp) (pipe_primes pp)) -> cpmax T < q ->
       fst (process_primes T pp h) <> Ok tt /\
       (In (report_phase PHASE_CACHED) t ->
        fst (process_primes T pp h) = Stop AssertionFailed)).
Proof.
  intros Hend. destruct (process_primes T pp h) as [r h'] eqn:Hrun. cbn [fst snd].
  unfold process_primes in Hrun. cbv zeta in Hrun.
  destruct (read_pipe (pipe_primes pp)) as [p rest] eqn:Hread.
  destruct (Z.gtb_spec p (pipe_end pp)) as [Hgt|Hle].
  { inversion Hrun; subst. exists [].
    assert (Hup : up_to (pipe_end pp) (pipe_primes pp) = []).
    { apply (up_to_app (pipe_end pp) [] (pipe_primes pp)); [constructor|].
      now rewrite Hread. }
    rewrite Hup. split; [reflexivity|]. split; [constructor|]. split; [reflexivity|].
    intros q []. }
  destruct (Z.leb_spec p (cpmax T)) as [Hc|Hc].
  - rewrite bind_assoc in Hrun. unfold bind at 1 in Hrun.
    assert (Hcond : (fun q => (q <=? cpmax T) && (q <=? pipe_end pp)) END_OF_PIPE = false).
    { cbv beta. destruct (Z.leb_spec END_OF_PIPE (pipe_end pp)); [lia|]. apply andb_false_r. }
    destruct (phase_loop _ _ _ p rest h) as [[[[pi' p'] rest']|s] h1] eqn:Hloop;
      destruct (phase_loop_reads _ _ (announces_cached_body T) Hcond _ _ _ _ _ _ _ Hread Hloop)
        as (t1 & remaining & -> & Hpend & Hall & Hok).
    + destruct (Hok _ _ _ eq_refl) as [Hread' Hc'].
      unfold bind at 1, ret in Hrun. cbn [fst snd] in Hrun. rewrite refused_tail in Hrun.
      inversion Hrun; subst r h'. clear Hrun.
      assert (Hle1 : Forall (fun q => q <= cpmax T) (reported_primes t1)).
      { eapply Forall_impl; [|exact Hall]. intros q Hq. apply andb_prop in Hq as [Hq _].
        now apply Z.leb_le. }
      assert (Hle2 : Forall (fun q => q <= pipe_end pp) (reported_primes t1)).
      { eapply Forall_impl; [|exact Hall]. intros q Hq. apply andb_prop in Hq as [_ Hq].
        now apply Z.leb_le. }
      exists (t1 ++ [report_phase PHASE_CACHED]).
      rewrite rev_app_distr, reported_primes_app. cbn [rev app reported_primes flat_map].
      rewrite app_nil_r.
      assert (Hup : pipe_end pp < p' ->
                    reported_primes t1 = up_to (pipe_end pp) (pipe_primes pp)).
      { intros Hp'. rewrite Hpend. symmetry. apply up_to_app; [assumption|].
        now rewrite Hread'. }
      split; [reflexivity|]. split; [assumption|]. split.
      { destruct (Z.gtb_spec p' (pipe_end pp)); [auto|intros Hx; discriminate Hx]. }
      intros q Hq Hcq.
      destruct (Z.gtb_spec p' (pipe_end pp)) as [Hp'|Hp'].
      * exfalso. rewrite <- (Hup Hp') in Hq. rewrite Forall_forall in Hle1.
        specialize (Hle1 q Hq). lia.
      * split; [discriminate|reflexivity].
    + inversion Hrun; subst r h'. clear Hrun. exists t1.
      split; [reflexivity|]. split.
      { eapply Forall_impl; [|exact Hall]. intros q Hq. apply andb_prop in Hq as [Hq _].
        now apply Z.leb_le. }
      split; [intros Hx; discriminate Hx|]. intros q Hq Hcq. split; [discriminate|].
      intros Hin. exfalso.
      destruct (quiet_phase_loop per_prime _ (cached_body T) (pimaxp T (pipe_start pp) 1 (dmax T))
                  p rest (fun st q _ => quiet_cached_body T st q) h _ _ Hloop)
        as (t1' & Ht1' & Hq1).
      apply app_inv_tail in Ht1'. apply rev_inj in Ht1'. subst t1'.
      rewrite Forall_forall in Hq1. specialize (Hq1 _ Hin). discriminate Hq1.
  - unfold bind at 1, ret in Hrun. rewrite refused_tail in Hrun.
    inversion Hrun; subst r h'. clear Hrun.
    destruct (Z.gtb_spec p (pipe_end pp)); [lia|].
    exists [report_phase PHASE_CACHED]. cbn [rev app reported_primes flat_map].
    split; [reflexivity|]. split; [constructor|]. split; [intros Hx; discriminate Hx|].
    intros q Hq Hcq. split; [discriminate|reflexivity].
Qed.

End RefusedBoundary.

Section RefusedBoundaryExample.
Import Worker Notions Behaviour.

Lemma process_primes_refused_cached_boundary_witness :
  fst (process_primes (Toy.toy Toy.small_bounds (fun _ _ => false)) Toy.small_pipe [])
  = Stop AssertionFailed.
Proof.
  destruct (process_primes_refused_cached_boundary
              (Toy.toy Toy.small_bounds (fun _ _ => false)) (fun _ => eq_refl)
              Toy.small_pipe [] eq_refl) as (t & Ht & _ & _ & Hq).
  destruct (Hq 11) as [_ Hstop]; [now left|reflexivity|].
  apply Hstop. apply in_rev. rewrite app_nil_r in Ht. rewrite <- Ht.
  vm_compute. now left.
Defined.

End RefusedBoundaryExample.

(** ** What pdmin is for *)

Section PdminFacts.
Import Precompute.

(** From pdmin on a modulus stands alone: with m the smaller of kdmin and
    cptab[1] (cptab[1] alone when kdmin is 0), the value [precompute] leaves
    in pdmin exceeds k, so that no d >= pdmin divides k, and every product
    of a d >= pdmin with a cofactor c >= m exceeds dmax. *)
Theorem precompute_pdmin_stands_alone k dmax kdmin cptab1 pdmin :
  1 <= k < 2 ^ 32 - 1 -> 0 <= dmax < 2 ^ 63 -> 0 <= kdmin -> 0 < cptab1 ->
  precompute_pdmin k dmax kdmin cptab1 = Some pdmin ->
  k < pdmin /\
  (forall d, pdmin <= d -> ~ (d | k)) /\
  (forall d c, pdmin <= d ->
     (if kdmin =? 0 then cptab1 else Z.min kdmin cptab1) <= c -> dmax < d * c).
Proof.
  intros Hk Hd Hkd Hc. unfold precompute_pdmin.
  set (m := if kdmin =? 0 then cptab1 else Z.min kdmin cptab1).
  assert (Hm : 0 < m).
  { unfold m. destruct (Z.eqb_spec kdmin 0); lia. }
  destruct (Z.eqb_spec m 0); [lia|].
  assert (Hq : 0 <= dmax / m <= dmax).
  { split; [apply Z.div_pos; lia|]. apply Z.div_le_upper_bound; nia. }
  assert (2 ^ 63 < 2 ^ 64) by reflexivity.
  assert (2 ^ 32 < 2 ^ 64) by reflexivity.
  rewrite (u64_small (1 + dmax / m)) by lia.
  rewrite (u32_small (k + 1)) by lia.
  rewrite (u64_small (k + 1)) by lia.
  assert (Hdm : dmax < (1 + dmax / m) * m).
  { pose proof (Z.mul_succ_div_gt dmax m Hm). nia. }
  intros Heq.
  assert (Hp : k < pdmin /\ 1 + dmax / m <= pdmin).
  { revert Heq. destruct (Z.leb_spec (1 + dmax / m) k); intros Heq;
      match type of Heq with Some ?a = Some _ => assert (E : a = pdmin) by congruence end;
      lia. }
  destruct Hp as [Hp1 Hp2]. split; [assumption|]. split.
  - intros d Hle Hdiv. apply Z.divide_pos_le in Hdiv; lia.
  - intros d c Hle Hmc. nia.
Qed.

Lemma precompute_pdmin_stands_alone_witness :
  precompute_pdmin 3 100 3 2 = Some 51 /\ 3 < 51 /\ ~ (53 | 3) /\ 100 < 53 * 2.
Proof.
  split; [reflexivity|].
  destruct (precompute_pdmin_stands_alone 3 100 3 2 51) as (H1 & H2 & H3);
    [lia|lia|lia|lia|reflexivity|].
  split; [exact H1|]. split; [apply H2; lia|apply H3; [lia|reflexivity]].
Defined.

End PdminFacts.

(** ** What [prockd] and the enumerator dispatch *)

Section DispatchedByEnumerator.
Import Worker Spec Coverage Notions.
Variable T : tables.
Hypothesis Hkd : divisors_ok T.

Lemma classes_run fuel : forall i d,
  1 <= d -> 1 <= i -> i + Z.of_nat fuel = kdcnt T + 1 ->
  exists j, i - 1 <= j <= kdcnt T /\
    classes T fuel i d = exponents i (j + 1) /\
    (forall ki, i <= ki <= kdcnt T -> (d <= kdmax T ki <-> ki <= j)).
Proof.
  induction fuel as [|fuel IH]; intros i d Hd Hi Hsum; cbn [classes].
  - assert (i = kdcnt T + 1) as -> by lia. pose proof (kdmax_end T Hkd).
    destruct (Z.leb_spec d (kdmax T (kdcnt T + 1))); [lia|].
    exists (kdcnt T). split; [lia|]. split; [|intros; lia].
    unfold exponents. now rewrite Z.sub_diag.
  - destruct (Z.leb_spec d (kdmax T i)) as [Hle|Hgt].
    + destruct (IH (i + 1) d Hd ltac:(lia) ltac:(lia)) as (j & Hj & Hcl & Hall).
      exists j. split; [lia|]. split.
      * rewrite Hcl, (exponents_step i (j + 1)) by lia. reflexivity.
      * intros ki Hki. destruct (Z.eq_dec ki i) as [->|Hne]; [split; intros; lia|].
        apply Hall. lia.
    + exists (i - 1). split; [lia|]. split.
      * unfold exponents. replace (i - 1 + 1 - i) with 0 by lia. reflexivity.
      * intros ki Hki. split; [|lia]. intros Hle.
        pose proof (kdmax_chain T Hkd i ki Hi ltac:(lia) ltac:(lia)). lia.
Qed.

(** [prockd] offered a modulus d >= 1 enters [procdcoprime] once for d and
    then [procd] once for each of the divisor indices 1..j, in this order,
    where j is the number of indices i with d <= kdmax[i]: the indices of
    the divisors of k that d can be combined with; it enters the dispatcher
    for nothing else and returns.  [kdmax] is as [divisors_ok] describes it:
    decreasing along the divisors, with a closing entry below 1. *)
Theorem prockd_combines_with_divisors d zd n h :
  1 <= d ->
  exists j t,
    0 <= j <= kdcnt T /\
    (forall i, 1 <= i <= kdcnt T -> (d <= kdmax T i <-> i <= j)) /\
    prockd T d zd n h = (Ok tt, rev t ++ h) /\
    offers t = [d] /\
    invocations t = (d, 0) :: map (pair d) (exponents 1 (j + 1)).
Proof.
  intros Hd. pose proof (kdcnt_nonneg T Hkd) as Hcnt.
  destruct (classes_run (Z.to_nat (kdcnt T)) 1 d Hd ltac:(lia) ltac:(lia))
    as (j & Hj & Hcl & Hall).
  destruct (adds_prockd T Hkd d zd n Hd h) as (t & Hrun & Hinv & Hoff).
  exists j, t. split; [lia|]. split; [assumption|]. split; [assumption|].
  split; [assumption|]. rewrite Hinv. unfold keys_of. now rewrite Hcl.
Qed.

Hypothesis Hcp : cptab_ok T.
Hypothesis Hcd : cdtab_fits T.
Hypothesis Hcc : cofactors_cover T.

(** What a computation that covers the set [S] of moduli adds to a run. *)
Lemma covers_dispatches {A} (m : M A) v (S : Z -> Prop) h :
  covers T m v S -> (forall a, S a -> 1 <= a) ->
  exists t, m h = (Ok v, rev t ++ h) /\
    NoDup (invocations t) /\
    (forall a ki, In (a, ki) (invocations t) <-> S a /\ class_of T a ki) /\
    NoDup (offers t) /\ (forall a, In a (offers t) -> S a).
Proof.
  intros Hm Hpos. destruct (Hm h) as (t & L & Hrun & Hinv & Hnd & Hin & Hoff & Hincl).
  assert (HL : Forall (fun d => 1 <= d) L).
  { apply Forall_forall. intros d Hd. apply Hpos. now apply Hin. }
  exists t. split; [assumption|]. rewrite Hinv.
  split; [now apply (keys_NoDup T Hkd)|]. split.
  - intros a ki. rewrite (in_keys T Hkd L a ki HL), Hin. reflexivity.
  - split; [assumption|]. intros a Ha. apply Hin. now apply Hincl.
Qed.

Lemma strictly_above_positive d p a : 1 <= d -> strictly_above T d p a -> 1 <= a.
Proof. intros Hd (m & -> & Hm & _). nia. Qed.

(** [enumd] called for a modulus d within dmax and a bound p with
    2 <= p <= d returns, and it enters the dispatcher exactly once for every
    multiple a = d*m <= dmax of d by an m >= 2 whose prime factors are cached
    primes below p, and each divisor index that goes with a (0, or ki >= 1
    with a <= kdmax[ki]), and for nothing else: not for d itself, and for no
    modulus twice.  The tables of cached primes, of cached cofactors and of
    the divisors of k are as the worker relies on them ([cptab_ok],
    [cdtab_fits], [cofactors_cover], [divisors_ok]). *)
Theorem enumd_dispatches_multiples_once d p zd h :
  1 <= d <= dmax T -> 2 <= p <= d ->
  exists t, enumd T enumd_depth d p zd h = (Ok tt, rev t ++ h) /\
    NoDup (invocations t) /\
    (forall a ki, In (a, ki) (invocations t) <->
       (exists m, a = d * m /\ 2 <= m /\ a <= dmax T /\ smooth T m p) /\
       class_of T a ki) /\
    NoDup (offers t) /\
    (forall a, In a (offers t) -> exists m, a = d * m /\ 2 <= m /\ a <= dmax T).
Proof.
  intros Hd Hp.
  destruct (covers_dispatches (enumd T enumd_depth d p zd) tt (strictly_above T d p) h)
    as (t & Hrun & Hnd & Hin & Hoff & Hincl).
  - apply (covers_enumd T Hcp Hcd Hkd Hcc); auto.
    pose proof (Z.log2_nonneg d). unfold enumd_depth. lia.
  - intros a. apply strictly_above_positive. lia.
  - exists t. split; [assumption|]. split; [assumption|]. split; [exact Hin|].
    split; [assumption|]. intros a Ha. destruct (Hincl a Ha) as (m & Hm & H2 & Hle & _).
    eauto.
Qed.

(** The same for [enumcd], called for a modulus d >= cdmin and a bound p
    from 2 on: it returns and enters the dispatcher exactly once for every
    multiple a = d*m <= dmax of d by an m >= 2 whose prime factors are cached
    primes below p, with each divisor index that goes with a, and for
    nothing else; the cofactors m come from the table of cached cofactors.
    The tables are as the worker relies on them ([cptab_ok], [cdtab_fits],
    [cofactors_cover], [divisors_ok]). *)
Theorem enumcd_dispatches_multiples_once d p zd h :
  1 <= d <= dmax T -> cdmin T <= d -> 2 <= p < 2 ^ 64 ->
  exists t, enumcd T d p zd h = (Ok tt, rev t ++ h) /\
    NoDup (invocations t) /\
    (forall a ki, In (a, ki) (invocations t) <->
       (exists m, a = d * m /\ 2 <= m /\ a <= dmax T /\ smooth T m p) /\
       class_of T a ki) /\
    NoDup (offers t).
Proof.
  intros Hd Hmin Hp.
  destruct (covers_dispatches (enumcd T d p zd) tt (strictly_above T d p) h)
    as (t & Hrun & Hnd & Hin & Hoff & Hincl).
  - now apply (covers_enumcd T Hcp Hcd Hkd Hcc).
  - intros a. apply strictly_above_positive. lia.
  - exists t. auto.
Qed.

End DispatchedByEnumerator.

Section DispatchedByEnumeratorExamples.
Import Worker Spec Coverage Notions.

Lemma prockd_combines_with_divisors_witness :
  exists j t,
    0 <= j <= kdcnt (Toy.toy Toy.small_bounds Toy.accept_all) /\
    (forall i, 1 <= i <= kdcnt (Toy.toy Toy.small_bounds Toy.accept_all) ->
       (10 <= kdmax (Toy.toy Toy.small_bounds Toy.accept_all) i <-> i <= j)) /\
    prockd (Toy.toy Toy.small_bounds Toy.accept_all) 10 [7] 1 [] = (Ok tt, rev t ++ []) /\
    offers t = [10] /\
    invocations t = (10, 0) :: map (pair 10) (exponents 1 (j + 1)).
Proof.
  apply (prockd_combines_with_divisors (Toy.toy Toy.small_bounds Toy.accept_all)
           (small_divisors_ok Toy.accept_all) 10 [7] 1 []).
  lia.
Defined.

Lemma enumd_dispatches_multiples_once_witness :
  exists t,
    enumd (Toy.toy Toy.small_bounds Toy.accept_all) enumd_depth 5 5 [2] [] = (Ok tt, rev t ++ []) /\
    NoDup (invocations t).
Proof.
  destruct (enumd_dispatches_multiples_once (Toy.toy Toy.small_bounds Toy.accept_all)
              (small_divisors_ok Toy.accept_all) (small_cptab_ok Toy.accept_all)
              (small_cdtab_fits Toy.accept_all) (small_cofactors_cover Toy.accept_all)
              5 5 [2] []) as (t & H1 & H2 & _).
  - cbn. lia.
  - lia.
  - exists t. split; assumption.
Defined.

Lemma enumcd_dispatches_multiples_once_witness :
  exists t,
    enumcd (Toy.toy Toy.small_bounds Toy.accept_all) 23 23 [6] [] = (Ok tt, rev t ++ []) /\
    NoDup (invocations t).
Proof.
  destruct (enumcd_dispatches_multiples_once (Toy.toy Toy.small_bounds Toy.accept_all)
              (small_divisors_ok Toy.accept_all) (small_cptab_ok Toy.accept_all)
              (small_cdtab_fits Toy.accept_all) (small_cofactors_cover Toy.accept_all)
              23 23 [6] []) as (t & H1 & H2 & _).
  - cbn. lia.
  - cbn. lia.
  - lia.
  - exists t. split; assumption.
Defined.

End DispatchedByEnumeratorExamples.

(** ** The lengths of the big-prime phase *)

Section BigPrimeLengths.
Import Worker Spec Notions Behaviour.
Variable T : tables.
Hypothesis Hzmax : 0 <= zmax128 T.

Local Abbreviation reaches_zmax := (Behaviour.reaches_zmax T).
Local Abbreviation length_reaches := (Behaviour.length_reaches T).
Local Abbreviation length_serves := (Behaviour.length_serves T).
Local Abbreviation lengths_serve := (Behaviour.lengths_serve T).

(** l progressions that go beyond zmax for the prime q do so for a larger
    prime. *)
Lemma reaches_later l m q q' :
  1 <= q -> q <= q' -> zmax128 T < l * (q * m) -> zmax128 T < l * (q' * m).
Proof.
  intros Hq Hle Hl.
  assert (Hpos : 0 < l * m).
  { destruct (Z_lt_ge_dec 0 (l * m)) as [|Hneg]; [assumption|exfalso].
    assert (l * m * q <= 0) by nia. lia. }
  assert (l * m * q <= l * m * q') by (apply Z.mul_le_mono_nonneg_l; lia).
  lia.
Qed.

(** [procdbigprime] with a length that serves d. *)
Lemma reaches_procdbigprime d z c si mi l :
  zmax128 T < l * (d * km T mi) -> quiet reaches_zmax (procdbigprime T d z c si mi l).
Proof.
  intros Hl. unfold procdbigprime.
  apply quiet_bind; [apply quiet_emit; exact I|]. intros _.
  apply quiet_bind; [apply quiet_ask; exact I|]. intros ok.
  destruct (negb ok); [apply quiet_ret|]. cbv zeta.
  apply quiet_bind; [|intros _; apply quiet_emit; exact I].
  destruct (Z.eqb_spec l 1) as [->|Hne]; apply quiet_emit; cbn [Behaviour.reaches_zmax]; lia.
Qed.

Lemma quietR_with_roots {L} (R : L -> Prop) (st : L) p k :
  R st -> (forall z n, quietR reaches_zmax R (k z n)) ->
  quietR reaches_zmax R (with_roots T st p k).
Proof.
  intros Hst Hk. unfold with_roots.
  apply (quietR_bind _ (fun _ => True)); [apply quiet_quietR, quiet_ask; exact I|].
  intros ok _. destruct (negb ok); [now apply quietR_ret|]. cbv zeta.
  destruct (_ =? 0); [now apply quietR_ret|].
  apply (quietR_bind _ (fun _ => True)); [apply quiet_quietR, quiet_ask; exact I|].
  intros ok' _. destruct (negb ok'); [now apply quietR_ret|]. apply Hk.
Qed.

Lemma length_serves_later m st q q' :
  length_serves m st q -> q <= q' -> length_serves m st q'.
Proof.
  intros (Hq & Hl) Hle. split; [lia|]. exact (reaches_later _ _ q q' Hq Hle Hl).
Qed.

Lemma lengths_serve_later m m7 st q q' :
  lengths_serve m m7 st q -> q <= q' -> lengths_serve m m7 st q'.
Proof.
  destruct st as [[[l lpmax] l7] lpmax7]. intros (Hq & Hl & Hl7) Hle.
  split; [lia|]. split.
  - exact (reaches_later _ _ q q' Hq Hle Hl).
  - exact (reaches_later _ _ q q' Hq Hle Hl7).
Qed.

Lemma reaches_bigprime_body mi pmax st p :
  length_reaches (km T mi) p -> length_serves (km T mi) st p ->
  quietR reaches_zmax (fun st' => length_serves (km T mi) st' p)
    (bigprime_body T mi (km T mi) pmax st p).
Proof.
  intros Hr Hst. unfold bigprime_body. apply quietR_with_roots; [assumption|].
  intros z n. destruct st as [l lpmax]. destruct Hst as (Hp & Hl). cbn [fst] in *.
  cbv zeta. destruct (p >? lpmax).
  - apply (quietR_bind _ (fun _ => True));
      [apply quiet_quietR, reaches_procdbigprime; exact Hr|].
    intros _ _. apply quietR_ret. split; [exact Hp|exact Hr].
  - apply (quietR_bind _ (fun _ => True));
      [apply quiet_quietR, reaches_procdbigprime; exact Hl|].
    intros _ _. apply quietR_ret. split; [exact Hp|exact Hl].
Qed.

Lemma reaches_bigprime7_body mi mi7 pmax st p :
  length_reaches (km T mi) p -> length_reaches (km T mi7) p ->
  lengths_serve (km T mi) (km T mi7) st p ->
  quietR reaches_zmax (fun st' => lengths_serve (km T mi) (km T mi7) st' p)
    (bigprime7_body T mi (km T mi) mi7 (km T mi7) pmax st p).
Proof.
  intros Hr Hr7 Hst. unfold bigprime7_body. apply quietR_with_roots; [assumption|].
  intros z n. destruct st as [[[l lpmax] l7] lpmax7].
  destruct Hst as (Hp & Hl & Hl7). cbv zeta.
  destruct (onezmod7 T p _).
  - destruct (p >? lpmax7).
    + apply (quietR_bind _ (fun _ => True));
        [apply quiet_quietR, reaches_procdbigprime; exact Hr7|].
      intros _ _. apply quietR_ret. split; [exact Hp|]. split; [exact Hl|exact Hr7].
    + apply (quietR_bind _ (fun _ => True));
        [apply quiet_quietR, reaches_procdbigprime; exact Hl7|].
      intros _ _. apply quietR_ret. split; [exact Hp|]. split; [exact Hl|exact Hl7].
  - destruct (p >? lpmax).
    + apply (quietR_bind _ (fun _ => True));
        [apply quiet_quietR, reaches_procdbigprime; exact Hr|].
      intros _ _. apply quietR_ret. split; [exact Hp|]. split; [exact Hr|exact Hl7].
    + apply (quietR_bind _ (fun _ => True));
        [apply quiet_quietR, reaches_procdbigprime; exact Hl|].
      intros _ _. apply quietR_ret. split; [exact Hp|]. split; [exact Hl|exact Hl7].
Qed.

(** A loop over increasing primes whose locals serve the prime at hand. *)
Lemma quiet_increasing_loop {L} Q (P : Z -> Prop) (Inv : L -> Z -> Prop)
  (cond : Z -> bool) (body : L -> Z -> M L) :
  (forall st q q', Inv st q -> q <= q' -> Inv st q') ->
  (forall st q, P q -> Inv st q -> quietR Q (fun st' => Inv st' q) (body st q)) ->
  forall rest st p, Forall P (p :: rest) -> Inv st p -> StronglySorted Z.lt (p :: rest) ->
    quiet Q (phase_loop cond body st p rest).
Proof.
  intros Hlater Hbody. induction rest as [|p1 rest IH]; intros st p HP Hst Hsorted;
    cbn [phase_loop]; (destruct (cond p); [|apply quiet_ret]).
  - apply (quietR_quiet Q (fun _ => True)).
    apply (quietR_bind Q (fun st' => Inv st' p));
      [apply Hbody; [exact (Forall_inv HP)|exact Hst]|].
    intros st' _. destruct (cond END_OF_PIPE); [apply quietR_halt|now apply quietR_ret].
  - apply (quietR_quiet Q (fun _ => True)).
    apply (quietR_bind Q (fun st' => Inv st' p));
      [apply Hbody; [exact (Forall_inv HP)|exact Hst]|].
    intros st' Hst'. apply quiet_quietR.
    inversion Hsorted as [|? ? Hs Hall]; subst. inversion Hall; subst.
    apply IH; [exact (Forall_inv_tail HP)| |assumption].
    apply (Hlater st' p); [assumption|lia].
Qed.

(** Lines 483-518.  In the big-prime phase of [process_primes], started at
    the prime p >= 1 with the primes [rest] still in the pipe in increasing
    order, every z-check covers all z up to zmax: [zrcheckone] is called for
    a prime d with d*b > zmax and [zrcheckafew] with a number l of
    progressions with l*d*b > zmax, b being the residue modulus [km[mi]]
    passed along.  That is, the lengths l and l7 which the loop keeps from
    one prime to the next, until the prime passes lpmax or lpmax7, are never
    too short, whatever these two bounds are.  This holds when each length
    the code computes for a prime of the pipe goes beyond zmax for that
    prime, as line 486 checks of the first one; the lengths l7 are computed
    only when mod7(K*K) = 4.  Nothing else is assumed of [fastceilboundl] or
    of the arithmetic in long double. *)
Theorem bigprime_phase_reaches_zmax p pmax rest h :
  1 <= p -> StronglySorted Z.lt (p :: rest) ->
  Forall (length_reaches (km T (Z.land (km1 T) 1))) (p :: rest) ->
  (mod7 T (K T * K T) = 4 ->
   Forall (length_reaches (km T (Z.land (km1 T) 1 + 2))) (p :: rest)) ->
  exists t, snd (phase6 T p pmax rest h) = rev t ++ h /\ Forall reaches_zmax t.
Proof.
  intros Hp Hsorted Hr Hr7.
  assert (Hq : quiet reaches_zmax (phase6 T p pmax rest)).
  { unfold phase6. cbv zeta. apply quiet_bind.
    - destruct (Z.eqb_spec (mod7 T (K T * K T)) 4) as [H7|H7]; cbn [negb].
      + specialize (Hr7 H7).
        apply quiet_bind; [|intros; apply quiet_ret].
        apply (quiet_increasing_loop reaches_zmax
                 (fun q => length_reaches (km T (Z.land (km1 T) 1)) q /\
                           length_reaches (km T (Z.land (km1 T) 1 + 2)) q)
                 (lengths_serve (km T (Z.land (km1 T) 1)) (km T (Z.land (km1 T) 1 + 2)))).
        * intros st q q'. apply lengths_serve_later.
        * intros st q [H1 H2] Hst. apply reaches_bigprime7_body; assumption.
        * rewrite Forall_forall in *. intros q Hin. split; auto.
        * split; [exact Hp|]. split; [exact (Forall_inv Hr)|exact (Forall_inv Hr7)].
        * exact Hsorted.
      + apply quiet_bind; [|intros; apply quiet_ret].
        apply (quiet_increasing_loop reaches_zmax
                 (length_reaches (km T (Z.land (km1 T) 1)))
                 (length_serves (km T (Z.land (km1 T) 1)))).
        * intros st q q'. apply length_serves_later.
        * intros st q H1 Hst. apply reaches_bigprime_body; assumption.
        * exact Hr.
        * split; [exact Hp|exact (Forall_inv Hr)].
        * exact Hsorted.
    - intros r. apply quiet_bind; [apply quiet_ask; exact I|]. intros _.
      unfold done. destruct (_ >? _); [apply quiet_ret|apply quiet_halt]. }
  destruct (phase6 T p pmax rest h) as [r h'] eqn:Hrun.
  destruct (Hq h r h' Hrun) as (t & -> & Ht). exists t. auto.
Qed.

End BigPrimeLengths.

Section BigPrimeLengthsExample.
Import Worker Spec Notions Behaviour.

(** The run of the small tables for k = 2 from the prime 71: the length 8 is
    kept for 71, the length for the modulus 126 is computed anew for 83 and
    is 1, the length 7 is computed for 89. *)
Lemma seven_tables_run :
  Toy.trace (phase6 seven_tables 71 100 [73; 79; 83; 89; 97])
  = [report_p 71; report_c 1; enter_procdbigprime 71 [49] 1 0 0 8; report_d 71 1;
     zrcheckafew 71 0 71 [49] 1 18 [17] 1 17 0 8; profile_checkpoint;
     report_p 73; report_p 79;
     report_p 83; report_c 1; enter_procdbigprime 83 [50] 1 0 2 1; report_d 83 1;
     zrcheckone 83 0 83 [50] 1 126 [83] 1 41 0; profile_checkpoint;
     report_p 89; report_c 1; enter_procdbigprime 89 [16] 1 0 0 7; report_d 89 1;
     zrcheckafew 89 0 89 [16] 1 18 [17] 1 17 0 7; profile_checkpoint;
     report_p 97; report_phase PHASE_BIGPRIME].
Proof. vm_compute. reflexivity. Qed.

Lemma bigprime_phase_reaches_zmax_witness :
  exists t,
    snd (phase6 seven_tables 71 100 [73; 79; 83; 89; 97] []) = rev t ++ [] /\
    Forall (Behaviour.reaches_zmax seven_tables) t.
Proof.
  apply (bigprime_phase_reaches_zmax seven_tables ltac:(vm_compute; congruence)
           71 100 [73; 79; 83; 89; 97] []).
  - lia.
  - repeat constructor.
  - repeat constructor.
  - intros _. repeat constructor.
Defined.

End BigPrimeLengthsExample.

(** ** The worker for a pinned prime dispatches every modulus once *)

Section PipeLoops.
Import Worker Spec Coverage Notions.
Variable T : tables.

(** A loop over the pipe whose body dispatches the set [S p] for the prime
    p dispatches the sets of the primes it takes, when no modulus is in two
    of them. *)
Lemma covers_pipe_loop {L} (cond : Z -> bool) (body : L -> Z -> M L)
  (Q : L -> Z -> Prop) (P : Z -> Prop) (S : Z -> Z -> Prop) :
  cond END_OF_PIPE = false ->
  (forall st p p', p <= p' -> Q st p -> Q st p') ->
  (forall p q a, S p a -> S q a -> p = q) ->
  (forall st p, P p -> cond p = true -> Q st p ->
     exists st', covers T (body st p) st' (S p) /\ Q st' p) ->
  forall rest p st,
    StronglySorted Z.lt (p :: rest) -> Forall P (p :: rest) -> Q st p ->
    exists st' done todo,
      p :: rest = done ++ todo /\
      covers T (phase_loop cond body st p rest)
        (st', fst (read_pipe todo), snd (read_pipe todo))
        (fun a => exists q, In q done /\ S q a) /\
      Forall (fun q => cond q = true) done /\
      match todo with [] => True | q :: _ => cond q = false /\ Q st' q end.
Proof.
  intros Hend Hmono Hone Hbody. induction rest as [|p' rest IH]; intros p st Hs HP HQ.
  - cbn [phase_loop]. destruct (cond p) eqn:Hc.
    + inversion HP as [|? ? Hp _]; subst.
      destruct (Hbody st p Hp Hc HQ) as (st' & Hcov & _).
      exists st', [p], []. split; [reflexivity|]. split; [|split; [now constructor|exact I]].
      rewrite Hend. eapply covers_ext.
      * eapply covers_first; [exact Hcov|apply covers_ret].
      * intros a. cbn [In]. split; [eauto|].
        intros (q & [<-|[]] & Hd). assumption.
    + exists st, [], [p]. split; [reflexivity|]. split; [|split; [constructor|now split]].
      eapply covers_ext; [apply covers_ret|]. intros a. split; [intros []|].
      intros (q & [] & _).
  - cbn [phase_loop]. destruct (cond p) eqn:Hc.
    + inversion HP as [|? ? Hp HP']; subst. inversion Hs as [|? ? Hs' Hlt]; subst.
      destruct (Hbody st p Hp Hc HQ) as (st' & Hcov & HQ').
      assert (Hpp : p < p') by (inversion Hlt; assumption).
      destruct (IH p' st' Hs' HP' (Hmono st' p p' ltac:(lia) HQ'))
        as (st'' & done' & todo & Heq & Hcov' & Hdone & Htodo).
      exists st'', (p :: done'), todo. split; [cbn [app]; now rewrite Heq|].
      split; [|split; [now constructor|assumption]]. eapply covers_ext.
      * eapply covers_bind; [exact Hcov|exact Hcov'|].
        intros a Hd (q & Hq & Hdq). pose proof (Hone p q a Hd Hdq) as ->.
        assert (Hin : In q (p' :: rest)) by (rewrite Heq; apply in_app_iff; now left).
        rewrite Forall_forall in Hlt. specialize (Hlt q Hin). lia.
      * intros a. cbn [In]. split.
        -- intros [Hd|(q & Hq & Hd)]; eauto.
        -- intros (q & [<-|Hq] & Hd); eauto.
    + exists st, [], (p :: p' :: rest). split; [reflexivity|].
      split; [|split; [constructor|now split]].
      eapply covers_ext; [apply covers_ret|]. intros a. split; [intros []|].
      intros (q & [] & _).
Qed.

End PipeLoops.

Section PinnedCoverage.
Import Worker Spec Coverage Notions Pinned Behaviour.
Variable T : tables.
Variable H : helpers.
Hypothesis Hcp : cptab_ok T.
Hypothesis Hcd : cdtab_fits T.
Hypothesis Hpc : primes_cover T.
Hypothesis Hkd : divisors_ok T.
Hypothesis Hcc : cofactors_cover T.
Variable p0 : Z.
Hypothesis Hp0 : pinned_ok T H p0.

Lemma pinned_prime :
  Z.prime p0 /\ good_prime (K T) p0 /\ 2 <= p0 /\ p0 <= cpmax T /\ p0 <= dmax T.
Proof.
  destruct (p0_cached T H p0 Hp0) as (i & Hi & Hci).
  destruct (cptab_good T Hpc i Hi) as [Hg Hle]. rewrite Hci in *.
  pose proof (proj1 Hg) as Hp. pose proof (Z.prime_ge_2 p0 Hp).
  pose proof (p0_square T H p0 Hp0). repeat split; try assumption; try apply Hg; nia.
Qed.

Lemma pinned_bound : 1 <= dmax T / p0 /\ dmax T / p0 * p0 <= dmax T /\ p0 <= dmax T / p0.
Proof.
  destruct pinned_prime as (_ & _ & H2 & _ & _). pose proof (p0_square T H p0 Hp0).
  assert (p0 <= dmax T / p0) by (apply Z.div_le_lower_bound; lia).
  pose proof (Z.mul_div_le (dmax T) p0 ltac:(lia)). lia.
Qed.

Lemma highest_power_within_spec bound fuel p i :
  2 <= p -> 1 <= i -> p ^ i <= bound -> bound < 2 ^ 63 -> 65 <= i + Z.of_nat fuel ->
  exists i', highest_power_within bound fuel p i (p ^ i) = Some (i', p ^ i') /\
             i <= i' /\ p ^ i' <= bound /\ bound < p ^ (i' + 1).
Proof.
  intros Hp. assert (H63 : 2 ^ 63 < 2 ^ 64) by reflexivity.
  revert i. induction fuel as [|fuel IH]; intros i Hi Hle Hb Hfuel; cbn [highest_power_within].
  - exfalso. pose proof (exponent_below_63 p i Hp ltac:(lia) ltac:(lia)). lia.
  - assert (Hnext : p ^ i * p = p ^ (i + 1)) by (rewrite Z.pow_add_r, Z.pow_1_r; lia).
    rewrite Hnext.
    destruct (Z.leb_spec (p ^ (i + 1)) bound) as [Hfit|Hout].
    + assert (i < 63) by (apply (exponent_below_63 p i Hp); lia).
      rewrite u32_small by lia. rewrite u64_small by (pose proof (pow_ge_1 p (i + 1)); lia).
      destruct (IH (i + 1)) as (i' & Heq & Hi' & Hb'); [lia|assumption|assumption|lia|].
      exists i'. split; [assumption|]. split; [lia|assumption].
    + exists i. split; [reflexivity|]. split; [lia|]. split; assumption.
Qed.

(** The moduli beside p0 for the prime p are the multiples of p0 * p^e by a
    number that is smooth below p. *)
Lemma beside_powers p a :
  Z.prime p -> p < p0 ->
  beside T p0 p a <->
  good_prime (K T) p /\ exists e, 1 <= e /\ above T (p0 * p ^ e) p a.
Proof.
  intros Hp Hlt. destruct pinned_prime as (Hp0p & Hg0 & H2 & _ & _). split.
  - intros (Ha & Hle & b & Hab & Hl).
    assert (Hb : 1 <= b) by (destruct Ha as [Ha1 _]; nia).
    assert (Hdr : driven_by T p b).
    { split; [|split; [nia|assumption]]. split; [assumption|].
      intros q Hq Hd. apply (proj2 Ha q Hq). rewrite Hab. now apply Z.divide_mul_r. }
    apply (driven_by_powers T Hpc p b Hp) in Hdr as [Hg (e & He & m & Hbm & Hm & _ & Hs)].
    split; [assumption|]. exists e. split; [assumption|]. exists m.
    split; [rewrite Hab, Hbm; ring|]. split; [assumption|]. split; assumption.
  - intros [Hg (e & He & m & Ham & Hm & Hle & Hs)].
    pose proof (pow_ge_1 p e ltac:(pose proof (Z.prime_ge_2 p Hp); lia) ltac:(lia)) as Hpe.
    assert (Hdr : driven_by T p (p ^ e * m)).
    { apply (driven_by_powers T Hpc p _ Hp). split; [assumption|]. exists e.
      split; [assumption|]. exists m. split; [reflexivity|]. split; [assumption|].
      split; [nia|assumption]. }
    destruct Hdr as (Hab & _ & Hl).
    split; [|split; [assumption|]].
    + split; [nia|]. intros q Hq Hd.
      replace a with (p0 ^ 1 * (p ^ e * m)) in Hd by (rewrite Ham, Z.pow_1_r; ring).
      destruct (prime_divides_power_part p0 1 _ q Hp0p Hq ltac:(lia) Hd) as [->|Hdb];
        [assumption|].
      apply (proj2 Hab q Hq Hdb).
    + exists (p ^ e * m). split; [rewrite Ham; ring|assumption].
Qed.

Lemma beside_one p q a : beside T p0 p a -> beside T p0 q a -> p = q.
Proof.
  intros (_ & _ & b & Hb & Hl) (_ & _ & b' & Hb' & Hl').
  destruct pinned_prime as (_ & _ & H2 & _ & _).
  assert (b = b') by nia. subst b'. exact (largest_prime_factor_unique b p q Hl Hl').
Qed.

(** The powers of p that fit with p0 give what is beside p0 for p. *)
Lemma beside_fitting_powers p i a :
  Z.prime p -> p < p0 -> good_prime (K T) p -> 1 <= i ->
  p ^ i <= dmax T / p0 -> dmax T / p0 < p ^ (i + 1) ->
  beside T p0 p a <->
  (exists pp, In pp (map (Z.pow p) (exponents 1 i)) /\ above T (p0 * pp) p a) \/
  above T (p0 * p ^ i) p a.
Proof.
  intros Hp Hlt Hg Hi Hle Hgt. pose proof (Z.prime_ge_2 p Hp) as Hp2.
  destruct pinned_prime as (Hp0p & Hg0 & H2 & _ & _).
  rewrite (beside_powers p a Hp Hlt). split.
  - intros [_ (e & He & Ha)].
    assert (Hei : e <= i).
    { destruct (Z_le_gt_dec e i); [assumption|exfalso].
      assert (p ^ (i + 1) <= p ^ e) by (apply Z.pow_le_mono_r; lia).
      destruct Ha as (m & Ha & Hm & Hdm & _).
      assert (p ^ e <= dmax T / p0) by (apply Z.div_le_lower_bound; nia). lia. }
    destruct (Z.eq_dec e i) as [->|Hne]; [now right|left].
    exists (p ^ e). split; [|assumption]. apply in_map. apply in_exponents. lia.
  - intros [(pp & Hin & Ha)|Ha]; (split; [assumption|]).
    + apply in_map_iff in Hin. destruct Hin as (e & <- & He). apply in_exponents in He.
      exists e. split; [lia|assumption].
    + exists i. split; assumption.
Qed.

Lemma covers_subprime_body p0inv z0 itabp0 pi p :
  Z.prime p -> p < p0 -> scan_state T pi p ->
  exists pi',
    covers T (subprime_body T p0 p0inv (dmax T / p0) z0 itabp0 pi p) pi' (beside T p0 p) /\
    scan_state T pi' p.
Proof.
  intros Hp Hlt Hst. pose proof (Z.prime_ge_2 p Hp) as Hp2.
  destruct pinned_prime as (Hp0p & Hg0 & H2 & Hc0 & Hd0).
  destruct pinned_bound as (Hb1 & Hb2 & Hb3).
  pose proof (cpcnt_range T Hcp) as Hcnt. pose proof (dmax_range T Hcp) as Hdm.
  destruct (scan_cptab_spec T Hcp Hpc (Z.to_nat (cpcnt T + 1 - pi)) pi p Hp2 Hst)
    as (Hst' & Hpi1 & Hge).
  { destruct Hst. lia. }
  set (pi' := scan_cptab T (Z.to_nat (cpcnt T + 1 - pi)) pi p) in *.
  exists pi'. split; [|assumption].
  unfold subprime_body. apply covers_ask_any; [reflexivity|]. intros _.
  cbv zeta. fold pi'.
  destruct ((pi' >? cpcnt T) || (cptab T pi' >? p)) eqn:Hout.
  { eapply covers_ext; [apply covers_ret|]. intros a. split; [intros []|].
    intros Hbs. apply (beside_powers p a Hp Hlt) in Hbs as [Hg _].
    destruct (cptab_complete T Hpc p Hg ltac:(lia)) as (j & Hj & Hcj).
    apply orb_prop in Hout. destruct Hst' as [_ Hbelow].
    destruct (Z_lt_ge_dec j pi') as [Hlt'|Hge'].
    - specialize (Hbelow j ltac:(lia)). lia.
    - destruct Hout as [Hout|Hout]; [lia|].
      pose proof (cptab_le T Hcp pi' j Hpi1 ltac:(lia) ltac:(lia)). lia. }
  apply orb_false_elim in Hout as [Hin Hle].
  assert (Hpi : 1 <= pi' <= cpcnt T) by lia.
  assert (Hcpi : cptab T pi' = p) by (specialize (Hge ltac:(lia)); lia).
  destruct (cptab_good T Hpc pi' Hpi) as [Hg _]. rewrite Hcpi in Hg.
  destruct (highest_power_within_spec (dmax T / p0) 64 p 1 Hp2 ltac:(lia))
    as (i & Hhp & Hi & Hfit & Hnext).
  { rewrite Z.pow_1_r. lia. }
  { lia. }
  { lia. }
  rewrite Z.pow_1_r in Hhp. rewrite Hhp.
  assert (Hfit' : p ^ i <= dmax T) by nia.
  destruct (roots_cached T Hpc pi' i Hpi Hi) as [Hz1 Hz2]; [now rewrite Hcpi|].
  rewrite Hcpi in Hz2.
  set (z := if cached_cuberoots_e T pi' >=? i then _ else _).
  assert (Hz : z <> []) by (unfold z; destruct (_ >=? _); assumption).
  rewrite (count_positive z Hz).
  pose proof (powers_below_spec T Hcp 64 p 1 i Hp2 ltac:(lia) Hi Hfit') as Hpb.
  rewrite Z.pow_1_r in Hpb. rewrite Hpb.
  2:{ pose proof (exponent_below_63 p i Hp2 ltac:(lia)). lia. }
  assert (Hpp : forall pp, In pp (map (Z.pow p) (exponents 1 i)) ->
            exists e, pp = p ^ e /\ 1 <= e < i /\ 1 <= pp /\ pp * p0 <= dmax T /\ p <= pp).
  { intros pp Hpp. apply in_map_iff in Hpp. destruct Hpp as (e & <- & He).
    apply in_exponents in He. exists e. split; [reflexivity|]. split; [assumption|].
    pose proof (pow_ge_base p e ltac:(lia) ltac:(lia)).
    assert (p ^ e <= p ^ i) by (apply Z.pow_le_mono_r; lia).
    assert (p ^ e * p0 <= dmax T / p0 * p0) by (apply Z.mul_le_mono_nonneg_r; lia). lia. }
  pose proof (pow_ge_base p i ltac:(lia) Hi) as Hpi'.
  assert (Hq0 : p ^ i * p0 <= dmax T).
  { assert (p ^ i * p0 <= dmax T / p0 * p0) by (apply Z.mul_le_mono_nonneg_r; lia). lia. }
  eapply covers_ext.
  - eapply (covers_bind T _ _ tt pi'
              (fun a => exists pp, In pp (map (Z.pow p) (exponents 1 i)) /\
                                   above T (p0 * pp) p a)
              (above T (p0 * p ^ i) p)).
    + apply (covers_for_each T _ _ (fun pp => above T (p0 * pp) p)).
      * intros pp Hin'. destruct (Hpp pp Hin') as (e & _ & _ & Hr & Hle' & Hge').
        rewrite (u64_product T Hcp pp p0) by lia. rewrite (Z.mul_comm pp p0).
        apply (covers_power T Hcp Hcd Hkd Hcc); nia.
      * apply NoDup_map_injective; [|apply exponents_NoDup].
        intros x y Hx Hy Heq. apply in_exponents in Hx, Hy.
        apply (Z.pow_inj_r p); lia.
      * intros pp1 pp2 a Hi1 Hi2 Ha1 Ha2.
        destruct (Hpp pp1 Hi1) as (e1 & -> & He1 & _).
        destruct (Hpp pp2 Hi2) as (e2 & -> & He2 & _).
        destruct (above_disjoint T p0 p e1 p e2 a) as [_ ->]; auto; lia.
    + rewrite (u64_product T Hcp (p ^ i) p0) by lia. rewrite (Z.mul_comm (p ^ i) p0).
      apply (covers_power_ret T Hcp Hcd Hkd Hcc); nia.
    + intros a (pp & Hin' & Ha1) Ha2.
      destruct (Hpp pp Hin') as (e & -> & He & _).
      destruct (above_disjoint T p0 p e p i a) as [_ ->]; auto; lia.
  - intros a. now rewrite (beside_fitting_powers p i a Hp Hlt Hg Hi Hfit Hnext).
Qed.

(** What p0 drives by itself, by the powers of p0 that fit. *)
Lemma own_fitting_powers i a :
  2 <= i -> p0 ^ i <= dmax T -> dmax T < p0 ^ (i + 1) ->
  own T p0 a <->
  (exists pp, In pp (map (Z.pow p0) (exponents 1 i)) /\
              ((pp = p0 /\ a = p0) \/ (p0 < pp /\ above T pp p0 a))) \/
  above T (p0 ^ i) p0 a.
Proof.
  intros Hi Hle Hgt. destruct pinned_prime as (Hp & Hg & H2 & _ & _).
  assert (Hsq : forall e, 2 <= e -> p0 * p0 <= p0 ^ e /\ (p0 * p0 | p0 ^ e)).
  { intros e He. replace e with (2 + (e - 2)) by lia. rewrite Z.pow_add_r by lia.
    rewrite Z.pow_2_r.
    pose proof (pow_ge_1 p0 (e - 2) ltac:(lia) ltac:(lia)). split; [nia|].
    exists (p0 ^ (e - 2)). ring. }
  unfold own. rewrite (driven_by_powers T Hpc p0 a Hp). split.
  - intros [[_ (e & He & Ha)] Hown].
    assert (Hei : e <= i).
    { destruct (Z_le_gt_dec e i); [assumption|exfalso].
      assert (p0 ^ (i + 1) <= p0 ^ e) by (apply Z.pow_le_mono_r; lia).
      destruct Ha as (m & Ha & Hm & Hdm & _). nia. }
    destruct (Z.eq_dec e 1) as [->|He1].
    + left. exists p0. split.
      { replace p0 with (p0 ^ 1) at 1 by apply Z.pow_1_r. apply in_map.
        apply in_exponents. lia. }
      left. split; [reflexivity|]. rewrite Z.pow_1_r in Ha.
      destruct Ha as (m & Ha & Hm & Hdm & Hs). destruct Hown as [?|Hdiv]; [assumption|].
      exfalso. assert (Hpm : (p0 | m)).
      { destruct Hdiv as [c Hc]. exists c. nia. }
      specialize (Hs p0 Hp Hpm). lia.
    + destruct (Hsq e ltac:(lia)) as [Hbig _].
      destruct (Z.eq_dec e i) as [->|Hne]; [now right|left].
      exists (p0 ^ e). split; [apply in_map; apply in_exponents; lia|].
      right. split; [nia|assumption].
  - assert (Hback : forall e, 2 <= e -> above T (p0 ^ e) p0 a ->
              (good_prime (K T) p0 /\ exists e, 1 <= e /\ above T (p0 ^ e) p0 a) /\
              (a = p0 \/ (p0 * p0 | a))).
    { intros e He Ha. split; [split; [assumption|]; exists e; split; [lia|assumption]|].
      right. destruct Ha as (m & -> & _). destruct (Hsq e He) as [_ Hd].
      now apply Z.divide_mul_l. }
    intros [(pp & Hin & [[-> ->]|[Hlt Ha]])|Ha].
    + split; [|now left]. split; [assumption|]. exists 1. split; [lia|].
      exists 1. rewrite Z.pow_1_r. split; [ring|]. split; [lia|].
      split; [pose proof (p0_square T H p0 Hp0); nia|apply smooth_one].
    + apply in_map_iff in Hin. destruct Hin as (e & <- & He). apply in_exponents in He.
      apply (Hback e); [|assumption].
      destruct (Z.eq_dec e 1) as [->|]; [rewrite Z.pow_1_r in Hlt; lia|lia].
    + now apply (Hback i).
Qed.

Lemma covers_own_powers pi :
  scan_state T pi p0 -> covers T (own_powers T p0 pi) tt (own T p0).
Proof.
  intros Hst. destruct pinned_prime as (Hp & Hg & H2 & Hc0 & Hd0).
  pose proof (cpcnt_range T Hcp) as Hcnt. pose proof (dmax_range T Hcp) as Hdm.
  pose proof (p0_square T H p0 Hp0) as Hsq.
  destruct (scan_cptab_spec T Hcp Hpc (Z.to_nat (cpcnt T + 1 - pi)) pi p0 H2 Hst)
    as (Hst' & Hpi1 & Hge).
  { destruct Hst. lia. }
  set (pi' := scan_cptab T (Z.to_nat (cpcnt T + 1 - pi)) pi p0) in *.
  unfold own_powers. apply covers_ask_any; [reflexivity|]. intros _.
  cbv zeta. fold pi'.
  destruct (p0_cached T H p0 Hp0) as (j & Hj & Hcj).
  assert (Hpi : 1 <= pi' <= cpcnt T).
  { destruct Hst' as [_ Hbelow]. destruct (Z_lt_ge_dec j pi') as [Hlt|Hge'].
    - specialize (Hbelow j ltac:(lia)). lia.
    - lia. }
  assert (Hcpi : cptab T pi' = p0).
  { specialize (Hge ltac:(lia)). destruct Hst' as [_ Hbelow].
    destruct (Z_lt_ge_dec j pi') as [Hlt|Hge'].
    - specialize (Hbelow j ltac:(lia)). lia.
    - pose proof (cptab_le T Hcp pi' j Hpi1 ltac:(lia) ltac:(lia)). lia. }
  destruct (highest_power_spec T Hcp 64 p0 1 H2 ltac:(lia)) as (i & Hhp & Hi & Hfit & Hnext).
  { now rewrite Z.pow_1_r. }
  { lia. }
  rewrite Z.pow_1_r in Hhp. rewrite Hhp.
  assert (Hi2 : 2 <= i).
  { destruct (Z_le_gt_dec 2 i); [assumption|exfalso].
    assert (p0 ^ (i + 1) = p0 * p0) by (replace i with 1 by lia; apply Z.pow_2_r). lia. }
  destruct (roots_cached T Hpc pi' i Hpi ltac:(lia)) as [Hz1 Hz2]; [now rewrite Hcpi|].
  rewrite Hcpi in Hz2.
  set (z := if cached_cuberoots_e T pi' >=? i then _ else _).
  assert (Hz : z <> []) by (unfold z; destruct (_ >=? _); assumption).
  rewrite (count_positive z Hz).
  apply covers_ask_any; [reflexivity|]. intros _.
  pose proof (powers_below_spec T Hcp 64 p0 1 i H2 ltac:(lia) Hi Hfit) as Hpb.
  rewrite Z.pow_1_r in Hpb. rewrite Hpb.
  2:{ pose proof (exponent_below_63 p0 i H2 ltac:(lia)). lia. }
  assert (Hpp : forall pp, In pp (map (Z.pow p0) (exponents 1 i)) ->
            exists e, pp = p0 ^ e /\ 1 <= e < i /\ 1 <= pp <= dmax T /\ p0 <= pp).
  { intros pp Hpp. apply in_map_iff in Hpp. destruct Hpp as (e & <- & He).
    apply in_exponents in He. exists e. split; [reflexivity|]. split; [assumption|].
    pose proof (pow_ge_base p0 e ltac:(lia) ltac:(lia)).
    assert (p0 ^ e <= p0 ^ i) by (apply Z.pow_le_mono_r; lia). lia. }
  assert (Habove : forall d a, p0 < d -> above T d p0 a -> a <> p0).
  { intros d a Hd (m & -> & Hm & _). nia. }
  pose proof (pow_ge_base p0 i ltac:(lia) Hi) as Hpi'.
  assert (Hbig : p0 < p0 ^ i).
  { assert (p0 ^ 2 <= p0 ^ i) by (apply Z.pow_le_mono_r; lia).
    rewrite Z.pow_2_r in *. nia. }
  eapply covers_ext.
  - eapply (covers_bind T _ _ tt tt
              (fun a => exists pp, In pp (map (Z.pow p0) (exponents 1 i)) /\
                 ((pp = p0 /\ a = p0) \/ (p0 < pp /\ above T pp p0 a)))
              (above T (p0 ^ i) p0)).
    + apply (covers_for_each T _ _
               (fun pp a => (pp = p0 /\ a = p0) \/ (p0 < pp /\ above T pp p0 a))).
      * intros pp Hin'. destruct (Hpp pp Hin') as (e & _ & _ & Hr & Hle').
        destruct (Z.gtb_spec pp p0) as [Hgt|Hngt].
        -- eapply covers_ext; [apply (covers_power T Hcp Hcd Hkd Hcc); lia|].
           intros a. split; [intros Ha; right; split; [lia|assumption]|].
           intros [[-> _]|[_ Ha]]; [lia|assumption].
        -- eapply covers_ext.
           ++ eapply covers_first; [apply (covers_prockd T Hkd); lia|apply covers_ret].
           ++ intros a. split; [intros <-; left; split; lia|].
              intros [[-> ->]|[Hlt _]]; [reflexivity|lia].
      * apply NoDup_map_injective; [|apply exponents_NoDup].
        intros x y Hx Hy Heq. apply in_exponents in Hx, Hy.
        apply (Z.pow_inj_r p0); lia.
      * intros pp1 pp2 a Hi1 Hin2 Ha1 Ha2.
        destruct Ha1 as [[-> ->]|[Hl1 Ha1]], Ha2 as [[-> Ha2]|[Hl2 Ha2]]; try reflexivity.
        -- exfalso. now apply (Habove pp2 p0 Hl2 Ha2).
        -- exfalso. subst a. now apply (Habove pp1 p0 Hl1 Ha1).
        -- destruct (Hpp pp1 Hi1) as (e1 & -> & He1 & _).
           destruct (Hpp pp2 Hin2) as (e2 & -> & He2 & _).
           rewrite <- (Z.mul_1_l (p0 ^ e1)) in Ha1. rewrite <- (Z.mul_1_l (p0 ^ e2)) in Ha2.
           destruct (above_disjoint T 1 p0 e1 p0 e2 a) as [_ ->]; auto; lia.
    + destruct (Z.gtb_spec (p0 ^ i) p0); [|lia].
      apply (covers_power T Hcp Hcd Hkd Hcc); lia.
    + intros a (pp & Hin' & [[-> ->]|[Hlt Ha1]]) Ha2.
      * now apply (Habove (p0 ^ i) p0 Hbig Ha2).
      * destruct (Hpp pp Hin') as (e & -> & He & _).
        rewrite <- (Z.mul_1_l (p0 ^ e)) in Ha1. rewrite <- (Z.mul_1_l (p0 ^ i)) in Ha2.
        destruct (above_disjoint T 1 p0 e p0 i a) as [_ ->]; auto; lia.
  - intros a. now rewrite (own_fitting_powers i a Hi2 Hfit Hnext).
Qed.

Lemma beside_not_own q a : q < p0 -> beside T p0 q a -> own T p0 a -> False.
Proof.
  intros Hq (_ & _ & b & -> & (Hqp & Hqb & Hmax)) [_ Hown].
  destruct pinned_prime as (Hp & _ & H2 & _ & _). pose proof (Z.prime_ge_2 q Hqp).
  destruct Hown as [Hone|[c Hc]].
  - assert (b = 1) by nia. subst b. apply Z.divide_1_r_nonneg in Hqb; lia.
  - assert (Hd : (p0 | b)) by (exists c; nia). specialize (Hmax p0 Hp Hd). lia.
Qed.

Lemma covers_process_subprimes itabp0 pp :
  subpipe_ok p0 pp ->
  covers T (process_subprimes T H p0 itabp0 pp) Walked
    (fun a => (exists q, In q (pipe_primes pp) /\ q < p0 /\ beside T p0 q a) \/
              (In p0 (pipe_primes pp) /\ own T p0 a)).
Proof.
  intros [Hs Hprime Hin Hend].
  destruct pinned_prime as (Hp & Hg & H2 & Hc0 & Hd0).
  pose proof (cpcnt_range T Hcp) as Hcnt. pose proof (dmax_range T Hcp) as Hdm.
  pose proof (end_of_pipe_beyond T Hcp p0 Hd0) as Hbeyond.
  unfold process_subprimes. cbv zeta.
  destruct (Z.leb_spec (pipe_end pp) p0); [|lia].
  destruct (Z.leb_spec p0 (cpmax T)); [|lia]. cbn [andb negb].
  rewrite (p0_next T H p0 Hp0), Z.eqb_refl. cbn [negb].
  assert (Hroots : (p0 >? 1) && (mod3 H p0 =? 1) && negb (has_cuberoots_modp H (K T) p0)
                   = false).
  { destruct (Z.eqb_spec (mod3 H p0) 1) as [E|];
      [rewrite (p0_roots T H p0 Hp0 E)|]; cbn [negb]; now rewrite ?andb_false_r. }
  rewrite Hroots.
  destruct (p0_cached T H p0 Hp0) as (j & Hj & Hcj).
  assert (Hpi0 : 1 <= pimaxp T p0 1 (dmax T) <= cpcnt T /\
                 cptab T (pimaxp T p0 1 (dmax T)) = p0).
  { pose proof (pimaxp_range T Hcp p0 1) as Hr.
    pose proof (pimaxp_largest T Hcp p0 1 j ltac:(lia) Hj ltac:(lia) ltac:(lia)) as Hl.
    destruct (pimaxp_fits T Hcp p0 1 ltac:(lia) ltac:(lia)) as [Hfit _].
    split; [lia|].
    pose proof (cptab_le T Hcp j _ ltac:(lia) Hl ltac:(lia)). lia. }
  destruct Hpi0 as [Hr0 Hci0]. rewrite Hci0, Z.eqb_refl. cbn [negb].
  destruct (Z.eqb_spec p0 0); [lia|].
  destruct (roots_cached T Hpc _ 1 Hr0 ltac:(lia)) as [Hz0 _].
  { rewrite Hci0, Z.pow_1_r. lia. }
  rewrite (count_positive _ Hz0). cbn [negb].
  set (pmax' := if pipe_end pp =? p0 then u64 (pipe_end pp - 1) else pipe_end pp).
  assert (Hpmax : pmax' < p0 /\ (pipe_end pp < p0 -> pmax' = pipe_end pp) /\
                  (pipe_end pp = p0 -> pmax' = p0 - 1)).
  { unfold pmax'. destruct (Z.eqb_spec (pipe_end pp) p0) as [->|].
    - rewrite u64_small by lia. lia.
    - lia. }
  destruct Hpmax as (Hpm1 & Hpm2 & Hpm3).
  assert (Hcend : (END_OF_PIPE <=? pmax') && (END_OF_PIPE <? p0) = false).
  { destruct (Z.ltb_spec END_OF_PIPE p0); [lia|apply andb_false_r]. }
  destruct (pipe_primes pp) as [|p rest] eqn:HR; cbn [read_pipe].
  { cbn [phase_loop]. rewrite Hcend.
    eapply covers_then; [apply covers_ret|]. cbv beta iota.
    destruct (Z.eqb_spec END_OF_PIPE p0); [lia|].
    eapply covers_then; [apply covers_ret|].
    destruct (Z.gtb_spec END_OF_PIPE pmax'); [|lia].
    eapply covers_ext; [apply covers_ret|]. intros a. split; [intros []|].
    intros [(q & [] & _)|[[] _]]. }
  destruct (covers_pipe_loop T
              (fun p => (p <=? pmax') && (p <? p0))
              (subprime_body T p0 (if p0 >? 2 then b32_inv H p0 else 2 ^ 63) (dmax T / p0)
                 (map u32 (cached_cuberoots_modq T (pimaxp T p0 1 (dmax T)) 1)) itabp0)
              (scan_state T)
              (fun q => Z.prime q /\ q <= pipe_end pp)
              (beside T p0))
    with (rest := rest) (p := p) (st := pimaxp T p 1 (dmax T / p0))
    as (st' & done' & todo & Heq & Hcov & Hdone & Htodo).
  - exact Hcend.
  - intros st q q'. apply scan_state_later.
  - apply beside_one.
  - intros st q [Hq _] Hc Hst. apply andb_prop in Hc as [_ Hc]. apply Z.ltb_lt in Hc.
    now apply covers_subprime_body.
  - assumption.
  - rewrite Forall_forall in *. intros x Hx. split; [now apply Hprime|now apply Hin].
  - destruct (pimaxp_below T H p0 Hp0 p) as [Hr Hbelow]. split; [lia|].
    intros i Hi. specialize (Hbelow ltac:(lia)).
    pose proof (cptab_increasing T Hcp i _ ltac:(lia) (proj2 Hi) (proj2 Hr)). lia.
  - assert (Hlow : forall q, In q done' -> q < p0).
    { rewrite Forall_forall in Hdone. intros q Hq. specialize (Hdone q Hq).
      apply andb_prop in Hdone as [_ Hlt]. now apply Z.ltb_lt in Hlt. }
    assert (Hhead : match todo with [] => True | q :: _ => q = p0 /\ scan_state T st' q end).
    { destruct todo as [|q todo]; [exact I|]. destruct Htodo as [Hc Hst]. split; [|exact Hst].
      assert (Hq : In q (p :: rest)) by (rewrite Heq; apply in_app_iff; right; now left).
      rewrite Forall_forall in Hin. specialize (Hin q Hq).
      destruct (Z.ltb_spec q p0) as [Hlt|Hge]; [|lia].
      rewrite andb_true_r in Hc. apply Z.leb_gt in Hc.
      destruct (Z_lt_ge_dec (pipe_end pp) p0) as [Hlt'|Hge'].
      - rewrite (Hpm2 Hlt') in Hc. lia.
      - rewrite (Hpm3 ltac:(lia)) in Hc. lia. }
    assert (Hhigh : forall q, In q todo -> p0 <= q).
    { destruct todo as [|q todo]; [intros ? []|]. destruct Hhead as [-> _].
      rewrite Heq in Hs. apply sorted_app_r in Hs. inversion Hs as [|? ? _ Hall]; subst.
      rewrite Forall_forall in Hall. intros x [<-|Hx]; [lia|]. specialize (Hall x Hx). lia. }
    eapply covers_ext.
    + eapply (covers_bind T _ _ _ Walked _
                (fun a => In p0 todo /\ own T p0 a)); [exact Hcov| |].
      * cbv beta iota. destruct todo as [|q todo]; cbn [read_pipe fst snd].
        -- destruct (Z.eqb_spec END_OF_PIPE p0); [lia|].
           eapply covers_then; [apply covers_ret|].
           destruct (Z.gtb_spec END_OF_PIPE pmax'); [|lia].
           eapply covers_ext; [apply covers_ret|]. intros a. split; [intros []|].
           intros [[] _].
        -- destruct Hhead as [-> Hst]. rewrite Z.eqb_refl.
           destruct (Z.gtb_spec p0 pmax'); [|lia].
           eapply covers_ext.
           ++ eapply covers_first; [apply covers_own_powers; exact Hst|apply covers_ret].
           ++ intros a. cbn [In]. split; [intros Ho; split; [now left|assumption]|].
              intros [_ Ho]. exact Ho.
      * cbv beta. intros a (q & Hq & Hb) [_ Ho].
        exact (beside_not_own q a (Hlow q Hq) Hb Ho).
    + intros a. cbv beta. rewrite Heq. split.
      * intros [(q & Hq & Hb)|[Hq Ho]].
        -- left. exists q. split; [apply in_app_iff; now left|]. split; [now apply Hlow|exact Hb].
        -- right. split; [apply in_app_iff; now right|exact Ho].
      * intros [(q & Hq & Hlt & Hb)|[Hq Ho]].
        -- left. exists q. split; [|exact Hb]. apply in_app_iff in Hq as [Hq|Hq]; [exact Hq|].
           specialize (Hhigh q Hq). lia.
        -- right. split; [|exact Ho]. apply in_app_iff in Hq as [Hq|Hq]; [|exact Hq].
           specialize (Hlow p0 Hq). lia.
Qed.

End PinnedCoverage.

Section PinnedCoverageTheorem.
Import Worker Spec Coverage Notions Pinned Behaviour.
Variable T : tables.
Variable H : helpers.
Hypothesis Hcp : cptab_ok T.
Hypothesis Hcd : cdtab_fits T.
Hypothesis Hpc : primes_cover T.
Hypothesis Hkd : divisors_ok T.
Hypothesis Hcc : cofactors_cover T.

(** [process_subprimes] for a cached prime p0 with p0*p0 <= dmax and a pipe
    of increasing primes up to its end <= p0 runs to its end, whatever the
    reporter answers, and enters the dispatcher ([procd], [procdcoprime] or
    [procdbigprime]) exactly once for each admissible modulus d <= dmax and
    each divisor index that goes with d, where d = p0*b and the largest
    prime factor of b is a prime below p0 read from the pipe, or p0 is read
    from the pipe, is the largest prime factor of d, and d is p0 or a
    multiple of p0*p0; it enters it for nothing else, and offers no modulus
    to [prockd] twice.  The tables are as the worker relies on them
    ([cptab_ok], [cdtab_fits], [primes_cover], [divisors_ok],
    [cofactors_cover]), and p0 and [pimaxp] at the bound dmax/p0 are as
    [pinned_ok] says. *)
Theorem process_subprimes_dispatches_once p0 itabp0 pp h :
  pinned_ok T H p0 -> subpipe_ok p0 pp ->
  exists t,
    process_subprimes T H p0 itabp0 pp h = (Ok Walked, rev t ++ h) /\
    NoDup (invocations t) /\
    (forall d ki,
       In (d, ki) (invocations t) <->
       ((exists p b, In p (pipe_primes pp) /\ p < p0 /\ d = p0 * b /\
                     largest_prime_factor b p) \/
        (In p0 (pipe_primes pp) /\ largest_prime_factor d p0 /\
         (d = p0 \/ (p0 * p0 | d)))) /\
       admissible (K T) d /\ d <= dmax T /\ class_of T d ki) /\
    NoDup (offers t).
Proof.
  intros Hp0 Hpp.
  destruct (covers_process_subprimes T H Hcp Hcd Hpc Hkd Hcc p0 Hp0 itabp0 pp Hpp h)
    as (t & L & Hrun & Hinv & Hnd & Hin & Hoff & _).
  assert (Hpos : Forall (fun d => 1 <= d) L).
  { apply Forall_forall. intros d Hd. apply Hin in Hd.
    destruct Hd as [(q & _ & _ & ([H1 _] & _))|[_ (([H1 _] & _) & _)]]; exact H1. }
  exists t. split; [exact Hrun|]. rewrite Hinv.
  split; [apply (keys_NoDup T Hkd); assumption|]. split; [|exact Hoff].
  intros d ki. rewrite (in_keys T Hkd L d ki Hpos), Hin. unfold beside, own, driven_by.
  split.
  - intros [[(q & Hq & Hlt & Ha & Hle & b & Hb & Hl)|[Hq ((Ha & Hle & Hl) & Ho)]] Hc].
    + split; [left; exists q, b; auto|auto].
    + split; [right; auto|auto].
  - intros [[(q & b & Hq & Hlt & Hb & Hl)|(Hq & Hl & Ho)] (Ha & Hle & Hc)].
    + split; [left; exists q; repeat (split; [assumption|]); exists b; auto|assumption].
    + split; [right; auto|assumption].
Qed.

End PinnedCoverageTheorem.

(** ** The small instance meets what the pinned worker relies on *)

Section ToyPinned.
Import Worker Spec Coverage Notions Pinned Behaviour.

Lemma small_pinned_ok r : pinned_ok (Toy.toy Toy.small_bounds r) toy_helpers 5.
Proof.
  constructor.
  - exists 2. split; [vm_compute; split; congruence|reflexivity].
  - vm_compute. congruence.
  - vm_compute. reflexivity.
  - intros Hm. vm_compute in Hm. discriminate Hm.
  - intros p. change (dmax (Toy.toy Toy.small_bounds r) / 5) with 20.
    change (cpcnt (Toy.toy Toy.small_bounds r)) with 2.
    change (pimaxp (Toy.toy Toy.small_bounds r) p 1 20)
      with (Z.of_nat (List.length (filter (fun q => (q <=? p) && (1 * q <=? 20)) [2; 5]))).
    cbn [filter]. change (1 * 2 <=? 20) with true. change (1 * 5 <=? 20) with true.
    rewrite !andb_true_r.
    destruct (Z.leb_spec 2 p); destruct (Z.leb_spec 5 p); cbn [List.length Z.of_nat];
      try lia.
    all: split; [lia|]; intros _.
    + change (5 <= p). lia.
    + change (2 <= p). lia.
Qed.

Lemma pipe_to_5_ok : subpipe_ok 5 pipe_to_5.
Proof.
  constructor.
  - cbn. repeat constructor.
  - cbn. constructor; [exact Z.prime_2|]. constructor; [exact Z.prime_3|].
    constructor; [exact prime_5|constructor].
  - cbn. repeat constructor; lia.
  - cbn. lia.
Qed.

Lemma process_subprimes_dispatches_once_witness :
  exists t,
    process_subprimes (Toy.toy Toy.small_bounds Toy.refuse_primes) toy_helpers 5
      (toy_itab 5) pipe_to_5 []
    = (Ok Walked, rev t ++ []) /\
    NoDup (invocations t) /\
    (forall d ki,
       In (d, ki) (invocations t) <->
       ((exists p b, In p (pipe_primes pipe_to_5) /\ p < 5 /\ d = 5 * b /\
                     largest_prime_factor b p) \/
        (In 5 (pipe_primes pipe_to_5) /\ largest_prime_factor d 5 /\
         (d = 5 \/ (5 * 5 | d)))) /\
       admissible 3 d /\ d <= 100 /\
       class_of (Toy.toy Toy.small_bounds Toy.refuse_primes) d ki) /\
    NoDup (offers t).
Proof.
  exact (process_subprimes_dispatches_once (Toy.toy Toy.small_bounds Toy.refuse_primes)
           toy_helpers (small_cptab_ok _) (small_cdtab_fits _) (small_primes_cover _)
           (small_divisors_ok _) (small_cofactors_cover _) 5 (toy_itab 5) pipe_to_5 []
           (small_pinned_ok _) pipe_to_5_ok).
Defined.

End ToyPinned.

(** ** The phase driver: every modulus it offers is within dmax *)

Section OffersInRun.
Import Worker Spec Coverage Notions Behaviour.
Variable T : tables.
Hypothesis Hcp : cptab_ok T.
Hypothesis Hcd : cdtab_fits T.
Hypothesis Hcc : cofactors_cover T.
Variable pmax : Z.
Hypothesis Hpmax : pmax <= dmax T.

Local Abbreviation within := (offer_within_dmax T).

Lemma within_ask {B} c (f : bool -> M B) :
  silent c = true -> (forall ok, quiet within (f ok)) -> quiet within (bind (ask T c) f).
Proof.
  intros Hc Hf. apply quiet_bind; [|exact Hf].
  apply quiet_ask. destruct c; try discriminate Hc; exact I.
Qed.

Lemma within_power d p zd n :
  1 <= d <= dmax T -> 2 <= p <= d ->
  quiet within (prockd T d zd n ;;; enumd T enumd_depth d p zd).
Proof.
  intros Hd Hp. pose proof (dmax_range T Hcp). assert (2 ^ 63 < 2 ^ 64) by reflexivity.
  apply quiet_bind; [now apply quiet_prockd_within|]. intros _.
  apply (quiet_enumd_within T Hcp Hcd); lia.
Qed.

Lemma within_cached_body pi p : 2 <= p <= dmax T -> quiet within (cached_body T pi p).
Proof.
  intros Hp. pose proof (dmax_range T Hcp) as Hdm. unfold cached_body.
  apply within_ask; [reflexivity|]. intros ok. destruct (negb ok); [apply quiet_ret|].
  cbv zeta. destruct (_ || _); [apply quiet_ret|].
  destruct (highest_power_spec T Hcp 64 p 1 ltac:(lia) ltac:(lia))
    as (i & Hhp & Hi & Hfit & Hnext).
  { rewrite Z.pow_1_r. lia. }
  { lia. }
  rewrite Z.pow_1_r in Hhp. rewrite Hhp.
  destruct (_ >? 0); [|apply quiet_halt].
  apply within_ask; [reflexivity|]. intros ok'. destruct (negb ok'); [apply quiet_ret|].
  pose proof (powers_below_spec T Hcp 64 p 1 i ltac:(lia) ltac:(lia) Hi Hfit) as Hpb.
  rewrite Z.pow_1_r in Hpb. rewrite Hpb.
  2:{ pose proof (exponent_below_63 p i ltac:(lia) ltac:(lia)). lia. }
  apply quiet_bind.
  - apply quiet_for_each. intros pp Hin. apply in_map_iff in Hin as (e & <- & He).
    apply in_exponents in He. cbv zeta.
    pose proof (pow_ge_base p e ltac:(lia) ltac:(lia)).
    assert (p ^ e <= p ^ i) by (apply Z.pow_le_mono_r; lia).
    apply within_power; lia.
  - intros _. pose proof (pow_ge_base p i ltac:(lia) Hi).
    apply quiet_bind; [apply quiet_prockd_within; lia|]. intros _.
    apply quiet_bind; [|intros _; apply quiet_ret].
    assert (2 ^ 63 < 2 ^ 64) by reflexivity.
    apply (quiet_enumd_within T Hcp Hcd); lia.
Qed.

Lemma within_with_roots {L} (Inv : L -> Prop) (st : L) p k :
  Inv st -> (forall z n, quietR within Inv (k z n)) ->
  quietR within Inv (with_roots T st p k).
Proof.
  intros Hst Hk. unfold with_roots.
  apply (quietR_bind _ (fun _ => True)); [apply quiet_quietR, quiet_ask; exact I|].
  intros ok _. destruct (negb ok); [now apply quietR_ret|]. cbv zeta.
  destruct (_ =? 0); [now apply quietR_ret|].
  apply (quietR_bind _ (fun _ => True)); [apply quiet_quietR, quiet_ask; exact I|].
  intros ok' _. destruct (negb ok'); [now apply quietR_ret|]. apply Hk.
Qed.

Lemma within_uncached_body st p :
  2 <= p <= dmax T -> quietR within (fun _ => True) (uncached_body T st p).
Proof.
  intros Hp. apply within_with_roots; [exact I|]. intros z n.
  apply quiet_quietR. apply within_power; lia.
Qed.

Lemma within_cocached_body st p :
  2 <= p <= dmax T -> quietR within (fun _ => True) (cocached_body T st p).
Proof.
  intros Hp. apply within_with_roots; [exact I|]. intros z n. apply quiet_quietR.
  apply quiet_bind; [apply quiet_prockd_within; lia|]. intros _.
  apply (quiet_enumcd_within T Hcp Hcd). lia.
Qed.

(** [pimax] after the loop of line 456: the cofactors up to it fit with p. *)
Lemma lower_pimax_fits pimax p :
  0 <= p -> Z.of_nat pimax <= sdcnt T ->
  (lower_pimax T pimax p <= pimax)%nat /\
  forall i, 1 <= i <= Z.of_nat (lower_pimax T pimax p) ->
    2 <= sd_d (sdtab T i) /\ p * sd_d (sdtab T i) <= dmax T.
Proof.
  intros Hp. induction pimax as [|n IH]; intros Hr; cbn [lower_pimax].
  - split; [lia|]. intros i Hi. lia.
  - destruct (Z.gtb_spec (p * sd_d (sdtab T (Z.of_nat (S n)))) (dmax T)) as [Hgt|Hle].
    + destruct (IH ltac:(lia)) as [Hn Hfit]. split; [lia|exact Hfit].
    + split; [lia|]. intros i Hi.
      destruct (sdtab_entry T Hcc i ltac:(lia)) as [H2 _]. split; [assumption|].
      destruct (Z.eq_dec i (Z.of_nat (S n))) as [->|Hne]; [assumption|].
      pose proof (sdtab_sorted T Hcc i (Z.of_nat (S n)) ltac:(lia) ltac:(lia) Hr). nia.
Qed.

Lemma within_nearprime_body pimax p :
  2 <= p <= dmax T -> Z.of_nat pimax <= sdcnt T ->
  quietR within (fun st => Z.of_nat st <= sdcnt T) (nearprime_body T pimax p).
Proof.
  intros Hp Hr. apply within_with_roots; [assumption|]. intros z n.
  destruct (lower_pimax_fits pimax p ltac:(lia) Hr) as [Hlow Hfit].
  apply quietR_then; [apply quiet_prockd_within; lia|]. cbv zeta.
  apply quietR_then; [|apply quietR_ret; lia].
  apply quiet_for_each. intros x Hx. apply in_sd_entries in Hx as (i & Hi & ->).
  destruct (Hfit i Hi) as [H2 Hle]. cbv zeta.
  apply quiet_prockd_within. rewrite (u64_product T Hcp) by lia. nia.
Qed.

Lemma within_prime_body st p : quietR within (fun _ => True) (prime_body T st p).
Proof.
  apply within_with_roots; [exact I|]. intros z n. apply quiet_quietR.
  apply quiet_procdcoprime. apply offer_dispatch.
Qed.

Lemma within_bigprime_body mi m st p :
  quietR within (fun _ => True) (bigprime_body T mi m pmax st p).
Proof.
  apply within_with_roots; [exact I|]. intros z n. cbv zeta. destruct st as [l lpmax].
  destruct (p >? lpmax);
    (apply quietR_then; [apply quiet_procdbigprime, offer_dispatch|now apply quietR_ret]).
Qed.

Lemma within_bigprime7_body mi m mi7 m7 st p :
  quietR within (fun _ => True) (bigprime7_body T mi m mi7 m7 pmax st p).
Proof.
  apply within_with_roots; [exact I|]. intros z n. cbv zeta.
  destruct st as [[[l lpmax] l7] lpmax7].
  destruct (onezmod7 T p (sgnz_index T p)); [destruct (p >? lpmax7)|destruct (p >? lpmax)];
    (apply quietR_then; [apply quiet_procdbigprime, offer_dispatch|now apply quietR_ret]).
Qed.

(** A loop over primes from 2 on that keeps the locals in [I] hands on
    such primes. *)
Lemma within_pipe_loop {L} (Inv : L -> Prop) (cond : Z -> bool) (body : L -> Z -> M L) :
  (forall st p, Inv st -> 2 <= p -> cond p = true -> quietR within Inv (body st p)) ->
  forall rest st p, Inv st -> Forall (fun q => 2 <= q) (p :: rest) ->
    quietR within (fun r => Forall (fun q => 2 <= q) (snd (fst r) :: snd r))
      (phase_loop cond body st p rest).
Proof.
  intros Hbody. induction rest as [|p1 rest IH]; intros st p Hst Hall;
    cbn [phase_loop]; (destruct (cond p) eqn:Hc; [|now apply quietR_ret]);
    inversion Hall as [|? ? Hp Hrest]; subst.
  - apply (quietR_bind within Inv); [now apply Hbody|]. intros st' _.
    destruct (cond END_OF_PIPE); [apply quietR_halt|apply quietR_ret].
    cbn [fst snd]. constructor; [unfold END_OF_PIPE; lia|constructor].
  - apply (quietR_bind within Inv); [now apply Hbody|]. intros st' Hst'. now apply IH.
Qed.

Lemma within_done p : quiet within (done p pmax).
Proof. unfold done. destruct (_ >? _); [apply quiet_ret|apply quiet_halt]. Qed.

Local Abbreviation primes_ok := (Forall (fun q : Z => 2 <= q)).

Lemma loop_within_dmax (c : bool) p : c && (p <=? pmax) = true -> p <= dmax T.
Proof. intros Hc. apply andb_prop in Hc as [_ Hc]. apply Z.leb_le in Hc. lia. Qed.

Ltac after_loop next :=
  let st := fresh "st" in let q := fresh "q" in let rest := fresh "rest" in
  let Hall := fresh "Hall" in
  intros [[st q] rest] Hall; cbn [fst snd] in Hall; apply quiet_quietR;
  apply within_ask; [reflexivity|]; intros _;
  destruct (_ >? _); [apply within_done|now apply next].

Lemma within_phase6 p rest : primes_ok (p :: rest) -> quiet within (phase6 T p pmax rest).
Proof.
  intros Hall. unfold phase6. cbv zeta. apply quiet_bind.
  - destruct (negb _); (apply quiet_bind; [|intros; apply quiet_ret]);
      apply (quietR_quiet within (fun r => primes_ok (snd (fst r) :: snd r)));
      apply (within_pipe_loop (fun _ => True)); auto; intros st q _ _ _.
    + apply within_bigprime_body.
    + apply within_bigprime7_body.
  - intros r. apply within_ask; [reflexivity|]. intros _. apply within_done.
Qed.

Lemma within_phase5 p rest : primes_ok (p :: rest) -> quiet within (phase5 T p pmax rest).
Proof.
  intros Hall. unfold phase5. apply (quietR_quiet within (fun _ => True)).
  apply (quietR_bind within (fun r => primes_ok (snd (fst r) :: snd r))).
  - apply (within_pipe_loop (fun _ => True)); auto. intros st q _ _ _.
    apply within_prime_body.
  - after_loop within_phase6.
Qed.

Lemma within_phase4 p rest : primes_ok (p :: rest) -> quiet within (phase4 T p pmax rest).
Proof.
  intros Hall. unfold phase4. apply (quietR_quiet within (fun _ => True)).
  apply (quietR_bind within (fun r => primes_ok (snd (fst r) :: snd r))).
  - apply (within_pipe_loop (fun st => Z.of_nat st <= sdcnt T)); auto.
    + intros st q Hst Hq Hc. apply within_nearprime_body; [|assumption].
      pose proof (loop_within_dmax _ _ Hc). lia.
    + pose proof (sdcnt_nonneg T Hcc). lia.
  - after_loop within_phase5.
Qed.

Lemma within_phase3 p rest : primes_ok (p :: rest) -> quiet within (phase3 T p pmax rest).
Proof.
  intros Hall. unfold phase3. apply (quietR_quiet within (fun _ => True)).
  apply (quietR_bind within (fun r => primes_ok (snd (fst r) :: snd r))).
  - apply (within_pipe_loop (fun _ => True)); auto. intros st q _ Hq Hc.
    apply within_cocached_body. pose proof (loop_within_dmax _ _ Hc). lia.
  - after_loop within_phase4.
Qed.

Lemma within_phase2 p rest : primes_ok (p :: rest) -> quiet within (phase2 T p pmax rest).
Proof.
  intros Hall. unfold phase2. apply (quietR_quiet within (fun _ => True)).
  apply (quietR_bind within (fun r => primes_ok (snd (fst r) :: snd r))).
  - apply (within_pipe_loop (fun _ => True)); auto. intros st q _ Hq Hc.
    apply within_uncached_body. pose proof (loop_within_dmax _ _ Hc). lia.
  - after_loop within_phase3.
Qed.

Lemma within_process_primes pp :
  pipe_end pp = pmax -> primes_ok (pipe_primes pp) ->
  quiet within (process_primes T pp).
Proof.
  intros Hend Hall. unfold process_primes. cbv zeta. rewrite Hend.
  destruct (pipe_primes pp) as [|p rest]; cbn [read_pipe].
  { destruct (Z.gtb_spec END_OF_PIPE pmax) as [|Hle]; [apply quiet_ret|exfalso].
    pose proof (dmax_range T Hcp). assert (2 ^ 63 < 2 ^ 64 - 1) by reflexivity.
    unfold END_OF_PIPE in Hle. lia. }
  destruct (_ >? _); [apply quiet_ret|].
  apply (quietR_quiet within (fun _ => True)).
  apply (quietR_bind within (fun r => primes_ok (fst r :: snd r))).
  - destruct (_ <=? _); [|now apply quietR_ret].
    apply (quietR_bind within (fun r => primes_ok (snd (fst r) :: snd r))).
    + apply (within_pipe_loop (fun _ => True)); auto. intros st q _ Hq Hc.
      apply quiet_quietR. apply within_cached_body.
      rewrite andb_comm in Hc. apply andb_prop in Hc as [Hc _]. apply Z.leb_le in Hc. lia.
    + intros [[st q] rest'] Hr. now apply quietR_ret.
  - intros [q rest'] Hr. cbn [fst snd] in Hr. apply quiet_quietR.
    apply within_ask; [reflexivity|]. intros ok.
    destruct (negb ok); [apply within_done|].
    destruct (_ >? _); [apply within_done|].
    destruct (negb _); [apply quiet_halt|]. destruct (negb _); [apply quiet_halt|].
    now apply within_phase2.
Qed.

End OffersInRun.

Section OffersInRunTheorem.
Import Worker Spec Coverage Notions Behaviour.
Variable T : tables.

(** Whatever the reporter answers, every modulus a run of [process_primes]
    offers to [prockd] lies in [1, dmax]: the powers of the cached primes,
    the primes themselves, their products with the cached cofactors, and
    all that [enumd] and [enumcd] derive from them.  The tables of cached
    primes and cofactors are as the worker relies on them, the pipe ends
    within dmax and hands out numbers from 2 on. *)
Theorem process_primes_offers_within_dmax pp h :
  cptab_ok T -> cdtab_fits T -> cofactors_cover T ->
  pipe_end pp <= dmax T -> Forall (fun q => 2 <= q) (pipe_primes pp) ->
  exists t, snd (process_primes T pp h) = rev t ++ h /\ Forall (offer_within_dmax T) t.
Proof.
  intros Hcp Hcd Hcc Hend Hall. apply emits_run.
  exact (within_process_primes T Hcp Hcd Hcc (pipe_end pp) Hend pp eq_refl Hall).
Qed.

End OffersInRunTheorem.

Section OffersInRunExample.
Import Worker Spec Coverage Notions Behaviour.

Lemma process_primes_offers_within_dmax_witness :
  exists t,
    snd (process_primes (Toy.toy Toy.small_bounds Toy.refuse_uncached) Toy.primes_to_100 [])
    = rev t ++ [] /\
    Forall (offer_within_dmax (Toy.toy Toy.small_bounds Toy.refuse_uncached)) t.
Proof.
  apply (process_primes_offers_within_dmax (Toy.toy Toy.small_bounds Toy.refuse_uncached)
           Toy.primes_to_100 [] (small_cptab_ok _) (small_cdtab_fits _)
           (small_cofactors_cover _)).
  - cbn. lia.
  - cbn. repeat (constructor; [lia|]). constructor.
Defined.

End OffersInRunExample.

(** ** The phase driver: its loops end *)

Section LoopsEnd.
Import Worker Spec Coverage Notions Behaviour.

Lemma ends_steady {A} (m : M A) : steady m -> ends_with (fun _ => True) m.
Proof. intros Hm h. specialize (Hm h). destruct (fst (m h)); [exact I|congruence]. Qed.

Lemma ends_ret {A} (R : A -> Prop) a : R a -> ends_with R (ret a).
Proof. intros HR h. exact HR. Qed.

Lemma ends_halt {A} (R : A -> Prop) s : s <> Diverged -> ends_with R (halt s).
Proof. intros Hs h. exact Hs. Qed.

Lemma ends_bind {A B} (R1 : A -> Prop) (R2 : B -> Prop) (m : M A) (f : A -> M B) :
  ends_with R1 m -> (forall a, R1 a -> ends_with R2 (f a)) -> ends_with R2 (bind m f).
Proof.
  intros Hm Hf h. unfold bind. specialize (Hm h).
  destruct (m h) as [[a|s] h1]; cbn [fst] in *; [now apply Hf|assumption].
Qed.

Lemma ends_then {A B} (R : B -> Prop) (m : M A) (k : M B) :
  steady m -> ends_with R k -> ends_with R (bind m (fun _ => k)).
Proof. intros Hm Hk. apply (ends_bind (fun _ => True)); [now apply ends_steady|auto]. Qed.

Lemma ends_run {A} (R : A -> Prop) (m : M A) h : ends_with R m -> fst (m h) <> Stop Diverged.
Proof. intros Hm. specialize (Hm h). destruct (fst (m h)); congruence. Qed.

Lemma ends_weaken {A} (R R' : A -> Prop) (m : M A) :
  (forall a, R a -> R' a) -> ends_with R m -> ends_with R' m.
Proof. intros HR Hm h. specialize (Hm h). destruct (fst (m h)); auto. Qed.

Variable T : tables.
Hypothesis Hcp : cptab_ok T.
Variable pmax : Z.
Hypothesis Hpmax : pmax <= dmax T.

Lemma ends_power d p zd n :
  1 <= d <= dmax T -> 2 <= p <= d ->
  steady (prockd T d zd n ;;; enumd T enumd_depth d p zd).
Proof.
  intros Hd Hp. apply steady_bind; [apply steady_prockd|]. intros _.
  apply (steady_enumd T Hcp); [assumption|assumption|].
  pose proof (Z.log2_nonneg d). unfold enumd_depth. lia.
Qed.

Lemma ends_cached_body pi p : 2 <= p <= dmax T -> steady (cached_body T pi p).
Proof.
  intros Hp. pose proof (dmax_range T Hcp) as Hdm. unfold cached_body.
  apply steady_bind; [apply steady_ask|]. intros ok. destruct (negb ok); [apply steady_ret|].
  cbv zeta. destruct (_ || _); [apply steady_ret|].
  destruct (highest_power_spec T Hcp 64 p 1 ltac:(lia) ltac:(lia))
    as (i & Hhp & Hi & Hfit & Hnext).
  { rewrite Z.pow_1_r. lia. }
  { lia. }
  rewrite Z.pow_1_r in Hhp. rewrite Hhp.
  destruct (_ >? 0); [|apply steady_halt; discriminate].
  apply steady_bind; [apply steady_ask|]. intros ok'. destruct (negb ok'); [apply steady_ret|].
  pose proof (powers_below_spec T Hcp 64 p 1 i ltac:(lia) ltac:(lia) Hi Hfit) as Hpb.
  rewrite Z.pow_1_r in Hpb. rewrite Hpb.
  2:{ pose proof (exponent_below_63 p i ltac:(lia) ltac:(lia)). lia. }
  apply steady_bind.
  - apply steady_for_each. intros pp Hin. apply in_map_iff in Hin as (e & <- & He).
    apply in_exponents in He. cbv zeta.
    pose proof (pow_ge_base p e ltac:(lia) ltac:(lia)).
    assert (p ^ e <= p ^ i) by (apply Z.pow_le_mono_r; lia).
    apply ends_power; lia.
  - intros _. pose proof (pow_ge_base p i ltac:(lia) Hi).
    apply steady_bind; [apply steady_prockd|]. intros _.
    apply steady_bind; [|intros _; apply steady_ret].
    apply (steady_enumd T Hcp); [lia|lia|].
    pose proof (Z.log2_nonneg (p ^ i)). unfold enumd_depth. lia.
Qed.

Lemma ends_with_roots {L} (st : L) p k :
  (forall z n, steady (k z n)) -> steady (with_roots T st p k).
Proof.
  intros Hk. unfold with_roots.
  apply steady_bind; [apply steady_ask|]. intros ok. destruct (negb ok); [apply steady_ret|].
  cbv zeta. destruct (_ =? 0); [apply steady_ret|].
  apply steady_bind; [apply steady_ask|]. intros ok'. destruct (negb ok'); [apply steady_ret|].
  apply Hk.
Qed.

Lemma ends_uncached_body st p : 2 <= p <= dmax T -> steady (uncached_body T st p).
Proof. intros Hp. apply ends_with_roots. intros z n. apply ends_power; lia. Qed.

Lemma ends_cocached_body st p : steady (cocached_body T st p).
Proof.
  apply ends_with_roots. intros z n.
  apply steady_bind; [apply steady_prockd|]. intros _. apply steady_enumcd.
Qed.

Lemma ends_nearprime_body st p : steady (nearprime_body T st p).
Proof.
  apply ends_with_roots. intros z n.
  apply steady_bind; [apply steady_prockd|]. intros _. cbv zeta.
  apply steady_bind; [|intros _; apply steady_ret].
  apply steady_for_each. intros x _. apply steady_prockd.
Qed.

Lemma ends_prime_body st p : steady (prime_body T st p).
Proof. apply ends_with_roots. intros z n. apply steady_procdcoprime. Qed.

Lemma ends_bigprime_body mi m st p : steady (bigprime_body T mi m pmax st p).
Proof.
  apply ends_with_roots. intros z n. cbv zeta. destruct st as [l lpmax].
  destruct (p >? lpmax);
    (apply steady_bind; [apply steady_procdbigprime|intros _; apply steady_ret]).
Qed.

Lemma ends_bigprime7_body mi m mi7 m7 st p :
  steady (bigprime7_body T mi m mi7 m7 pmax st p).
Proof.
  apply ends_with_roots. intros z n. cbv zeta. destruct st as [[[l lpmax] l7] lpmax7].
  destruct (onezmod7 T p (sgnz_index T p)); [destruct (p >? lpmax7)|destruct (p >? lpmax)];
    (apply steady_bind; [apply steady_procdbigprime|intros _; apply steady_ret]).
Qed.

Local Abbreviation primes_ok := (Forall (fun q : Z => 2 <= q)).

(** A loop over the pipe ends when its condition fails at the end of the
    pipe and its body ends for the numbers from 2 on; it hands on numbers
    from 2 on. *)
Lemma ends_pipe_loop {L} (cond : Z -> bool) (body : L -> Z -> M L) :
  cond END_OF_PIPE = false ->
  (forall st p, 2 <= p -> cond p = true -> steady (body st p)) ->
  forall rest st p, primes_ok (p :: rest) ->
    ends_with (fun r => primes_ok (snd (fst r) :: snd r)) (phase_loop cond body st p rest).
Proof.
  intros Hend Hbody. induction rest as [|p1 rest IH]; intros st p Hall;
    cbn [phase_loop]; (destruct (cond p) eqn:Hc; [|now apply ends_ret]);
    inversion Hall as [|? ? Hp Hrest]; subst.
  - apply (ends_bind (fun _ => True)); [apply ends_steady; now apply Hbody|]. intros st' _.
    rewrite Hend. apply ends_ret. cbn [fst snd].
    constructor; [unfold END_OF_PIPE; lia|constructor].
  - apply (ends_bind (fun _ => True)); [apply ends_steady; now apply Hbody|]. intros st' _.
    now apply IH.
Qed.

Lemma end_not_within (c : bool) : c && (END_OF_PIPE <=? pmax) = false.
Proof.
  pose proof (dmax_range T Hcp). assert (2 ^ 63 < 2 ^ 64 - 1) by reflexivity.
  destruct (Z.leb_spec END_OF_PIPE pmax) as [Hle|]; [|apply andb_false_r].
  unfold END_OF_PIPE in Hle. lia.
Qed.

Lemma loop_bound (c : bool) p : c && (p <=? pmax) = true -> p <= dmax T.
Proof. intros Hc. apply andb_prop in Hc as [_ Hc]. apply Z.leb_le in Hc. lia. Qed.

Lemma ends_done p : steady (done p pmax).
Proof. unfold done. destruct (_ >? _); [apply steady_ret|apply steady_halt; discriminate]. Qed.

Ltac next_phase next :=
  let st := fresh "st" in let q := fresh "q" in let rest := fresh "rest" in
  let Hall := fresh "Hall" in
  intros [[st q] rest] Hall; cbn [fst snd] in Hall;
  apply steady_bind; [apply steady_ask|]; intros _;
  destruct (_ >? _); [apply ends_done|now apply next].

Lemma steady_after {A B} (R : A -> Prop) (m : M A) (f : A -> M B) :
  ends_with R m -> (forall a, R a -> steady (f a)) -> steady (bind m f).
Proof.
  intros Hm Hf h. apply (ends_run (fun _ => True)).
  apply (ends_bind R); [assumption|]. intros a Ha. apply ends_steady. now apply Hf.
Qed.

Lemma ends_phase6 p rest : primes_ok (p :: rest) -> steady (phase6 T p pmax rest).
Proof.
  intros Hall. unfold phase6. cbv zeta. apply steady_bind.
  - assert (Hend : (END_OF_PIPE <=? pmax) = false) by apply (end_not_within true).
    destruct (negb _);
      (eapply steady_after; [apply ends_pipe_loop; [exact Hend| |exact Hall]|
                             intros; apply steady_ret]); intros st q _ _.
    + apply ends_bigprime_body.
    + apply ends_bigprime7_body.
  - intros r. apply steady_bind; [apply steady_ask|]. intros _. apply ends_done.
Qed.

Lemma ends_phase5 p rest : primes_ok (p :: rest) -> steady (phase5 T p pmax rest).
Proof.
  intros Hall. unfold phase5. eapply steady_after.
  - apply ends_pipe_loop; [apply end_not_within| |exact Hall]. intros st q _ _.
    apply ends_prime_body.
  - next_phase ends_phase6.
Qed.

Lemma ends_phase4 p rest : primes_ok (p :: rest) -> steady (phase4 T p pmax rest).
Proof.
  intros Hall. unfold phase4. eapply steady_after.
  - apply ends_pipe_loop; [apply end_not_within| |exact Hall]. intros st q _ _.
    apply ends_nearprime_body.
  - next_phase ends_phase5.
Qed.

Lemma ends_phase3 p rest : primes_ok (p :: rest) -> steady (phase3 T p pmax rest).
Proof.
  intros Hall. unfold phase3. eapply steady_after.
  - apply ends_pipe_loop; [apply end_not_within| |exact Hall]. intros st q _ _.
    apply ends_cocached_body.
  - next_phase ends_phase4.
Qed.

Lemma ends_phase2 p rest : primes_ok (p :: rest) -> steady (phase2 T p pmax rest).
Proof.
  intros Hall. unfold phase2. eapply steady_after.
  - apply ends_pipe_loop; [apply end_not_within| |exact Hall]. intros st q Hq Hc.
    apply ends_uncached_body. pose proof (loop_bound _ _ Hc). lia.
  - next_phase ends_phase3.
Qed.

Lemma ends_process_primes pp :
  pipe_end pp = pmax -> primes_ok (pipe_primes pp) -> steady (process_primes T pp).
Proof.
  intros Hend Hall. unfold process_primes. cbv zeta. rewrite Hend.
  destruct (pipe_primes pp) as [|p rest]; cbn [read_pipe].
  { destruct (Z.gtb_spec END_OF_PIPE pmax) as [|Hle]; [apply steady_ret|exfalso].
    pose proof (dmax_range T Hcp). assert (2 ^ 63 < 2 ^ 64 - 1) by reflexivity.
    unfold END_OF_PIPE in Hle. lia. }
  destruct (_ >? _); [apply steady_ret|].
  apply (steady_after (fun r => primes_ok (fst r :: snd r))).
  - destruct (_ <=? _); [|now apply ends_ret].
    apply (ends_bind (fun r => primes_ok (snd (fst r) :: snd r))).
    + apply ends_pipe_loop; [apply end_not_within| |exact Hall]. intros st q Hq Hc.
      apply ends_cached_body. pose proof (loop_bound _ _ Hc). lia.
    + intros [[st q] rest'] Hr. now apply ends_ret.
  - intros [q rest'] Hr. cbn [fst snd] in Hr.
    apply steady_bind; [apply steady_ask|]. intros ok.
    destruct (negb ok); [apply ends_done|].
    destruct (_ >? _); [apply ends_done|].
    destruct (negb _); [apply steady_halt; discriminate|].
    destruct (negb _); [apply steady_halt; discriminate|].
    now apply ends_phase2.
Qed.

End LoopsEnd.

Section LoopsEndTheorem.
Import Worker Spec Coverage Notions Behaviour.
Variable T : tables.

(** Whatever the reporter answers, no loop of a run of [process_primes]
    goes on for ever: the loops over the powers of a cached prime (lines 401
    and 407) end because p >= 2, the recursion of [enumd] ends within its
    64 levels, and each loop over the pipe ends at the latest when the pipe
    is exhausted, since the value that marks its end is beyond pmax.  The
    table of cached primes is as [cptab_ok] describes it, the pipe ends
    within dmax and hands out numbers from 2 on.  (The loop of [prockd] is
    bounded by the end of [kdmax].) *)
Theorem process_primes_loops_end pp h :
  cptab_ok T -> pipe_end pp <= dmax T -> Forall (fun q => 2 <= q) (pipe_primes pp) ->
  fst (process_primes T pp h) <> Stop Diverged.
Proof.
  intros Hcp Hend Hall.
  exact (ends_process_primes T Hcp (pipe_end pp) Hend pp eq_refl Hall h).
Qed.

End LoopsEndTheorem.

Section LoopsEndExample.
Import Worker Spec Coverage Notions Behaviour.

Lemma process_primes_loops_end_witness :
  fst (process_primes (Toy.toy Toy.small_bounds Toy.refuse_uncached) Toy.primes_to_100 [])
  <> Stop Diverged.
Proof.
  apply (process_primes_loops_end (Toy.toy Toy.small_bounds Toy.refuse_uncached)
           Toy.primes_to_100 [] (small_cptab_ok _)).
  - cbn. lia.
  - cbn. repeat (constructor; [lia|]). constructor.
Defined.

End LoopsEndExample.
